(* ===== verification/_CoqProject ===== *)
-Q . S2P
Prelude.v
Outcome.v
Primitives.v
Errors.v
Types.v
Crypto.v
Handshake.v
Protocol.v
PathEngine.v
Envelope.v
Decoy.v
AntiReplay.v
ReplayCost.v
BTree.v
Channel.v
Eviction.v
ChannelFacts.v
ChannelInv.v
Receiver.v
Session.v
ChannelHistory.v
Ffi.v
FfiLogic.v
FfiSafety.v
FfiFunctional.v
FfiSession.v
RefPrimitives.v
Witnesses.v
FfiWitnesses.v
