(* ===== verification/Prelude.v ===== *)
(** * NullPath / decoypath: a verification development

    [decoypath] is a Rust library for messages that resist traffic analysis: two
    parties run a two-pass authenticated handshake, derive a root key, and
    exchange fixed-size envelopes, of which only one per message is real.  This
    library models the crate function by function and proves what makes it
    correct.

    ** The program and its model

    - [src/types.rs], [src/errors.rs]: wire payloads with their codecs, wrappers
      of secrets, error enums.  Files [Types], [Errors].
    - [src/crypto.rs], [src/handshake.rs]: signed transcripts, root key
      derivation, [InitiatorState::initiate]/[finalize] and
      [ResponderState::respond].  Files [Crypto], [Handshake]; [Protocol] has
      any number of sessions of the two parties with a network between them.
    - [src/path_engine.rs]: the hash ratchet and the choice of the real slot.
      File [PathEngine].
    - [src/envelope.rs], [src/decoy.rs]: sealing and opening of 1024-byte
      envelopes, decoys and their distribution over the paths.  Files
      [Envelope], [Decoy].
    - [src/anti_replay.rs]: the bounded map-and-queue store.  File [AntiReplay];
      its specification is a single age-ordered log; [ReplayCost] counts the
      rounds of its loops.
    - [src/channel.rs]: [SecureChannel] with [send] and the five steps of
      [receive].  File [Channel] has the definitions ([receive_step1],
      [receive_commit] and [receive] are the steps as the source groups them;
      Step 1 is written with its key derivations counted,
      [receive_step1_counted], and [receive_step1] is its value),
      [BTree] the ordered map it uses, [Eviction] the eviction loop as a relation,
      [ChannelFacts] the operations in closed form, [ChannelInv] the invariant
      and executions of one channel, [Receiver] an abstract receiver and the
      refinement, [Session] two endpoints with a network between them,
      [ChannelHistory] what the state says about the execution so far.
    - [src/ffi.rs]: the nine exported C functions.  File [Ffi] has the
      definitions over a model of the caller's memory, [FfiLogic] a small
      program logic for them, [FfiSafety] the safety of every call,
      [FfiFunctional] and [FfiSession] what the calls compute.

    Files [Prelude] (bytes, machine integers, slices) and [Outcome] (results,
    panics, the state-and-error monad and counted computations) are shared.  [Primitives] has one type
    class per third-party crate with its operations and one class of laws with
    the documented behaviour that proofs use: lengths, codec round trips,
    correctness of signatures, agreement of Diffie-Hellman, decryption inverting
    encryption and accepting nothing else, equality of verifying keys, zeroed
    buffers.  Nothing is assumed of secrecy or
    unforgeability; where a property needs that a signature or a packet is not
    forged it says so in its own hypotheses or in the steps of its network.
    [RefPrimitives] instantiates all classes with executable (and insecure)
    functions, so the laws can hold together, and [Witnesses] and
    [FfiWitnesses] evaluate the properties there.

    ** How the code is represented

    - A function that can fail returns [outcome]: [Ok], [Err] or [Panic].  A
      function that changes state, draws random bytes or writes to the caller's
      memory is in the monad [M], which keeps the state in all three cases, so
      what an early return or a panic leaves behind is visible.
    - Bytes are [Byte.byte], integers are [N] at their width: [add_u64] wraps or
      panics as the build profile says, [u8_of] and [to_be_bytes] truncate,
      lengths and indices are [usize] of a 64-bit target.  Indexing and slicing
      out of range are panics.
    - Local secret buffers of [seal], [open] and [generate_decoy] are state of
      their bodies, so that what they hold at each return can be stated; an
      early return that skips [zeroize] shows as a buffer that is not zero.
    - Time is a number of nanoseconds; the value of [Instant::now()] is an
      argument of the operation that reads it, and executions require it not to
      go backwards.
    - Maps are [gmap]; the order of [BTreeMap] keys shows in [pop_first] only.
    - C memory is one map per kind of object; a box has an address of its own
      that is never used again, and any use of what is not in the map is
      undefined behaviour.

    ** What the theorems show

    - Handshake: codecs are exact and total, transcripts are injective, both
      parties derive the same key, each rejection has its error and its order,
      and an accepted key is the responder's unless a signature was forged; over
      any number of sessions completed handshakes agree with a session of the
      peer on all parameters ([mutual_agreement]), though an initiation can be
      replayed.
    - Envelopes and decoys: round trip, exact acceptance condition, totality,
      what the plaintext buffers hold at every return, position of the real
      envelope, constant work.
    - Anti-replay store: refinement of the log and the capacity bound, with its
      exception for capacity zero; duplicate detection, counted in insertions;
      amortised cost of a call.
    - Channel: every branch of [send]; at-most-once delivery, no state change on
      any error, bounded memory, refinement of the abstract receiver,
      authenticity of what is accepted; reliable delivery within the window over
      any network; preservation of types; [last_seq]; termination of the
      eviction; the exact number of derivations Step 1 runs for a packet; the
      limits of the design (one direction, and which keys a compromised
      receiver gives away).
    - C interface: no undefined behaviour and no panic code for a caller who
      keeps the contract, isolation of what a call may write, what a failed call
      leaves behind, exact effect of the channel calls on buffers and boxes,
      ownership of the initiator state, a handshake and a message end to end.

    ** Bounds and fuel

    Loops over a list recurse on it; counted loops recurse on their number of
    rounds.  The eviction loop of the channel has the size of the map as fuel,
    and every round shortens the map, so the fuel is never what stops it:
    [eviction_terminates] shows that the function ends where the loop of the
    source does.  [compromised_receiver_keys] looks a bounded number of ratchet
    steps ahead, because a chain of 256-bit keys repeats in the end; the bound
    is a parameter.  [ffi_safe] and [reliable_delivery] are for fewer than
    2^64 calls and messages, the range of the message counter.

    ** What is not modelled

    The cryptographic crates, the random source and the allocator (parameters,
    or, for allocation failure and a capacity overflow in the constructors of
    the anti-replay store, left out; the random source is assumed to deliver, so
    the panic of a failing [OsRng] is left out too); timing and constant-time
    claims; copies of
    secrets that the compiler may leave in registers or on the stack; the
    re-exports of [src/lib.rs], the marker impls of [Error] and [Eq], tests and
    the C header; the [&mut] aliasing rules beyond the one place where two mutable
    slices are alive at once ([decoypath_generate_identity_keypair]). *)

From Stdlib Require Import ZArith NArith Lia.
From Stdlib Require Import Strings.Byte.
From stdpp Require Export base option list countable gmap numbers strings.

#[global] Set Default Goal Selector "!".
#[global] Open Scope N_scope.

Declare Scope nullpath_scope.
Delimit Scope nullpath_scope with np.
#[global] Open Scope nullpath_scope.

(** ** Bytes and machine integers *)

Abbreviation u8 := Byte.byte (only parsing).
Abbreviation bytes := (list Byte.byte) (only parsing).

#[export] Instance byte_eq_dec : EqDecision Byte.byte := Byte.byte_eq_dec.

#[export] Instance byte_countable : Countable Byte.byte.
Proof.
  refine (inj_countable Byte.to_N Byte.of_N _). apply Byte.of_to_N.
Defined.

(** [n as u8]: truncation to the low eight bits. *)
Definition u8_of (n : N) : Byte.byte := default Byte.x00 (Byte.of_N (n mod 256)).

Lemma to_N_bound (b : Byte.byte) : Byte.to_N b < 256.
Proof. pose proof (Byte.to_N_bounded b). lia. Qed.

Lemma to_N_u8_of (n : N) : Byte.to_N (u8_of n) = n mod 256.
Proof.
  unfold u8_of. destruct (Byte.of_N (n mod 256)) as [b|] eqn:E; cbn.
  - by apply Byte.to_of_N.
  - apply Byte.of_N_None_iff in E. pose proof (N.mod_lt n 256). lia.
Qed.

Lemma u8_of_to_N (b : Byte.byte) : u8_of (Byte.to_N b) = b.
Proof.
  unfold u8_of. rewrite N.mod_small by apply to_N_bound. by rewrite Byte.of_to_N.
Qed.

(** Widths of the integers the source uses; [usize] is that of a 64-bit
    target. *)
Definition U16_MOD : N := 2 ^ 16.
Definition U64_MOD : N := 2 ^ 64.
Definition U64_MAX : N := U64_MOD - 1.
Definition ISIZE_MAX : N := 2 ^ 63 - 1.

(** The build profile decides what an overflowing [+] does: with
    [overflow-checks] it panics, without it wraps. *)
Class BuildProfile := { overflow_checks : bool }.

(** [a + b] on [u64]; [None] is a panic. *)
Definition add_u64 `{BuildProfile} (a b : N) : option N :=
  if a + b <? U64_MOD then Some (a + b)
  else if overflow_checks then None
  else Some ((a + b) mod U64_MOD).

Lemma add_u64_no_overflow `{BuildProfile} a b :
  a + b < U64_MOD → add_u64 a b = Some (a + b).
Proof. intros ?. unfold add_u64. by destruct (N.ltb_spec (a + b) U64_MOD); [|lia]. Qed.

(** [x.to_be_bytes()] for a [w]-byte integer. *)
Fixpoint to_be_bytes (w : nat) (n : N) : bytes :=
  match w with
  | O => []
  | S w' => to_be_bytes w' (n / 256) ++ [u8_of n]
  end.

(** [uN::from_be_bytes]. *)
Definition from_be_bytes (l : bytes) : N :=
  fold_left (λ acc b, acc * 256 + Byte.to_N b) l 0.

(** ** Slices.  Lengths and indices are [usize] values. *)

Definition len {A} (l : list A) : N := N.of_nat (length l).

(** [l[a..b]]; [None] is the out-of-range panic. *)
Definition slice {A} (a b : N) (l : list A) : option (list A) :=
  if (a <=? b) && (b <=? len l)
  then Some (take (N.to_nat (b - a)) (drop (N.to_nat a) l))
  else None.

(** [dst[a..b].copy_from_slice(src)]; [None] is the panic of an
    out-of-range slice or of two lengths that differ. *)
Definition copy_into {A} (a b : N) (src dst : list A) : option (list A) :=
  if (a <=? b) && (b <=? len dst) && (len src =? b - a)
  then Some (take (N.to_nat a) dst ++ src ++ drop (N.to_nat b) dst)
  else None.

(** [l[i]]; [None] is the out-of-range panic. *)
Definition index {A} (i : N) (l : list A) : option A := l !! N.to_nat i.

(** [l[i] = x]. *)
Definition set_index {A} (i : N) (x : A) (l : list A) : option (list A) :=
  if i <? len l then Some (<[N.to_nat i := x]> l) else None.

(** [[0u8; n]]. *)
Definition zeros (n : N) : bytes := replicate (N.to_nat n) Byte.x00.

(** A byte-string literal [b"..."]. *)
Definition b_lit (s : string) : bytes := String.list_byte_of_string s.

(** ** Lemmas on lengths, slices and zeroed buffers *)

Section lists.
Context {A : Type}.
Implicit Types l x : list A.

Lemma len_nil : len ([] : list A) = 0.
Proof. done. Qed.

Lemma len_cons (a : A) l : len (a :: l) = 1 + len l.
Proof. unfold len. cbn [length]. lia. Qed.

Lemma len_app l x : len (l ++ x) = len l + len x.
Proof. unfold len. rewrite length_app. lia. Qed.

Lemma len_zero_inv l : len l = 0 → l = [].
Proof. destruct l; [done|]. rewrite len_cons. lia. Qed.

Lemma len_take n l : len (take (N.to_nat n) l) = N.min n (len l).
Proof. unfold len. rewrite length_take. lia. Qed.

Lemma len_drop n l : len (drop (N.to_nat n) l) = len l - n.
Proof. unfold len. rewrite length_drop. lia. Qed.

Lemma to_nat_len l : N.to_nat (len l) = length l.
Proof. unfold len. lia. Qed.

Lemma take_len_app l x : take (N.to_nat (len l)) (l ++ x) = l.
Proof. rewrite to_nat_len. apply take_app_length. Qed.

Lemma drop_len_app l x : drop (N.to_nat (len l)) (l ++ x) = x.
Proof. rewrite to_nat_len. apply drop_app_length. Qed.

Lemma len_replicate n (a : A) : len (replicate (N.to_nat n) a) = n.
Proof. unfold len. rewrite length_replicate. lia. Qed.

(** A slice is the middle of a split of the list at [a] and [b]. *)
Lemma slice_Some a b l x :
  slice a b l = Some x ↔
    ∃ l1 l2, l = l1 ++ x ++ l2 ∧ len l1 = a ∧ a + len x = b.
Proof.
  unfold slice. split.
  - destruct (N.leb_spec a b), (N.leb_spec b (len l)); cbn; intros ?; simplify_eq.
    exists (take (N.to_nat a) l), (drop (N.to_nat (b - a)) (drop (N.to_nat a) l)).
    rewrite len_take, len_take, len_drop, !take_drop. split; [done|lia].
  - intros (l1 & l2 & -> & <- & <-). rewrite !len_app.
    destruct (N.leb_spec (len l1) (len l1 + len x)); [|lia].
    destruct (N.leb_spec (len l1 + len x) (len l1 + (len x + len l2))); [|lia].
    cbn. replace (len l1 + len x - len l1) with (len x) by lia.
    by rewrite drop_len_app, take_len_app.
Qed.

Lemma slice_app a b l1 x l2 :
  len l1 = a → a + len x = b → slice a b (l1 ++ x ++ l2) = Some x.
Proof. intros. apply slice_Some. eauto. Qed.

Lemma slice_is_Some a b l : a <= b → b <= len l → ∃ x, slice a b l = Some x ∧ len x = b - a.
Proof.
  intros. unfold slice.
  destruct (N.leb_spec a b), (N.leb_spec b (len l)); try lia. cbn.
  eexists. split; [done|]. rewrite len_take, len_drop. lia.
Qed.

Lemma copy_into_app a b src l1 x l2 :
  len l1 = a → a + len x = b → len src = len x →
  copy_into a b src (l1 ++ x ++ l2) = Some (l1 ++ src ++ l2).
Proof.
  intros <- <- Hs. unfold copy_into. rewrite !len_app.
  destruct (N.leb_spec (len l1) (len l1 + len x)); [|lia].
  destruct (N.leb_spec (len l1 + len x) (len l1 + (len x + len l2))); [|lia].
  replace (len l1 + len x - len l1) with (len x) by lia. rewrite Hs, N.eqb_refl. cbn.
  rewrite take_len_app. do 3 f_equal. rewrite app_assoc.
  replace (len l1 + len x) with (len (l1 ++ x)) by apply len_app. apply drop_len_app.
Qed.

Lemma copy_into_head b src x l2 :
  len x = b → len src = b → copy_into 0 b src (x ++ l2) = Some (src ++ l2).
Proof. intros Hx Hs. apply (copy_into_app 0 b src [] x l2); [done|lia|lia]. Qed.

Lemma copy_into_tail a b src l1 x :
  len l1 = a → a + len x = b → len src = len x →
  copy_into a b src (l1 ++ x) = Some (l1 ++ src).
Proof.
  intros. pose proof (copy_into_app a b src l1 x []) as C. rewrite !app_nil_r in C. auto.
Qed.

Lemma slice_head b x l2 : len x = b → slice 0 b (x ++ l2) = Some x.
Proof. intros. apply (slice_app 0 b []); [done|lia]. Qed.

Lemma slice_tail a b l1 x : len l1 = a → a + len x = b → slice a b (l1 ++ x) = Some x.
Proof. intros. pose proof (slice_app a b l1 x []) as C. rewrite app_nil_r in C. auto. Qed.

Lemma copy_into_len a b src l r : copy_into a b src l = Some r → len r = len l.
Proof.
  unfold copy_into.
  destruct (N.leb_spec a b), (N.leb_spec b (len l)), (N.eqb_spec (len src) (b - a));
    cbn; intros ?; simplify_eq.
  rewrite !len_app, len_take, len_drop. lia.
Qed.

Lemma app_inj_len_l l1 l2 x1 x2 :
  len l1 = len x1 → l1 ++ l2 = x1 ++ x2 → l1 = x1 ∧ l2 = x2.
Proof. unfold len. intros ??. apply app_inj_1; [lia|done]. Qed.

Lemma split_at_len n l : n <= len l → ∃ l1 l2, l = l1 ++ l2 ∧ len l1 = n.
Proof.
  intros. exists (take (N.to_nat n) l), (drop (N.to_nat n) l).
  rewrite take_drop, len_take. split; [done|lia].
Qed.

Lemma filter_all (P : A → Prop) `{!∀ a, Decision (P a)} l : Forall P l → filter P l = l.
Proof. induction 1; [done|]. rewrite filter_cons_True by done. by f_equal. Qed.

Lemma suffix_tail l : suffix (tail l) l.
Proof. destruct l as [|a l]; [done|]. by exists [a]. Qed.

Lemma suffix_len l x : suffix l x → len l <= len x.
Proof. intros [k ->]. rewrite len_app. lia. Qed.
End lists.

Lemma zeros_app a b : zeros (a + b) = zeros a ++ zeros b.
Proof. unfold zeros. by rewrite N2Nat.inj_add, replicate_add. Qed.

Lemma len_zeros n : len (zeros n) = n.
Proof. apply len_replicate. Qed.

(** ** Big-endian round trip *)

Lemma len_to_be_bytes w n : len (to_be_bytes w n) = N.of_nat w.
Proof. revert n. induction w as [|w IH]; intros n; [done|]. cbn. rewrite len_app, IH, len_cons, len_nil. lia. Qed.

Lemma from_be_bytes_snoc l b : from_be_bytes (l ++ [b]) = from_be_bytes l * 256 + Byte.to_N b.
Proof. unfold from_be_bytes. by rewrite fold_left_app. Qed.

Lemma from_to_be_bytes w n : from_be_bytes (to_be_bytes w n) = n mod 256 ^ N.of_nat w.
Proof.
  revert n. induction w as [|w IH]; intros n; [cbn; by rewrite N.mod_1_r|].
  cbn [to_be_bytes]. rewrite from_be_bytes_snoc, IH, to_N_u8_of, Nat2N.inj_succ, N.pow_succ_r'.
  rewrite (N.Div0.mod_mul_r n 256). ring.
Qed.

Lemma to_from_be_bytes l : to_be_bytes (length l) (from_be_bytes l) = l.
Proof.
  induction l as [|b l IH] using rev_ind; [done|].
  rewrite length_app, Nat.add_1_r. cbn [to_be_bytes]. rewrite from_be_bytes_snoc.
  pose proof (to_N_bound b) as Hb.
  rewrite N.div_add_l, N.div_small, N.add_0_r, IH by lia. do 2 f_equal.
  unfold u8_of. rewrite (N.add_comm _ (Byte.to_N b)), N.Div0.mod_add.
  apply u8_of_to_N.
Qed.

Lemma from_be_bytes_bound l : from_be_bytes l < 256 ^ len l.
Proof.
  induction l as [|b l IH] using rev_ind; [cbn; lia|].
  rewrite from_be_bytes_snoc, len_app. change (len [b]) with 1.
  rewrite N.add_1_r, N.pow_succ_r'. pose proof (to_N_bound b). nia.
Qed.

Lemma to_be_bytes_inj w n m :
  n < 256 ^ N.of_nat w → m < 256 ^ N.of_nat w → to_be_bytes w n = to_be_bytes w m → n = m.
Proof.
  intros Hn Hm E%(f_equal from_be_bytes). rewrite !from_to_be_bytes in E.
  by rewrite !N.mod_small in E.
Qed.
