(* ===== verification/Outcome.v ===== *)
(** * Outcomes and the state-and-error monad

    A call of a Rust function ends in one of three ways: it returns [Ok], it
    returns [Err], or it panics.  [M S E A] is the type of a call that reads
    and writes a state [S] (the fields behind [&mut self], the operating
    system's random source, the caller's memory): the state is returned in all
    three cases, because an early return or an unwinding panic leaves the
    writes made before it in place. *)

From S2P Require Import Prelude.

Inductive outcome (E A : Type) : Type :=
| Ok (a : A)
| Err (e : E)
| Panic.
Arguments Ok {E A} a.
Arguments Err {E A} e.
Arguments Panic {E A}.

#[export] Instance outcome_eq_dec {E A} `{EqDecision E, EqDecision A} : EqDecision (outcome E A).
Proof. solve_decision. Defined.

#[export] Instance outcome_ret E : MRet (outcome E) := λ A, Ok.
#[export] Instance outcome_bind E : MBind (outcome E) := λ A B f m,
  match m with Ok a => f a | Err e => Err e | Panic => Panic end.

(** [Result::map_err]. *)
Definition o_map_err {E F A} (f : E → F) (m : outcome E A) : outcome F A :=
  match m with Ok a => Ok a | Err e => Err (f e) | Panic => Panic end.

(** The value of a computation that can only panic ([None]). *)
Definition o_unwrap {E A} (o : option A) : outcome E A :=
  match o with Some a => Ok a | None => Panic end.

(** A fallible library call ([None] is its error) under [.map_err(|_| e)]. *)
Definition o_ok_or {E A} (e : E) (o : option A) : outcome E A :=
  match o with Some a => Ok a | None => Err e end.

Definition M (S E A : Type) : Type := S → outcome E A * S.

Section monad.
Context {S E : Type}.

#[export] Instance M_ret : MRet (M S E) := λ A a s, (Ok a, s).
#[export] Instance M_bind : MBind (M S E) := λ A B f m s,
  match m s with
  | (Ok a, s') => f a s'
  | (Err e, s') => (Err e, s')
  | (Panic, s') => (Panic, s')
  end.

(** [return Err(e)]. *)
Definition throw {A} (e : E) : M S E A := λ s, (Err e, s).
Definition get_state : M S E S := λ s, (Ok s, s).
Definition put_state (s : S) : M S E unit := λ _, (Ok tt, s).
Definition modify_state (f : S → S) : M S E unit := λ s, (Ok tt, f s).
(** A computation without effect on the state. *)
Definition lift_o {A} (m : outcome E A) : M S E A := λ s, (m, s).
(** A computation that can only panic. *)
Definition unwrap {A} (o : option A) : M S E A := lift_o (o_unwrap o).
End monad.

(** [Result::map_err] and the [?] operator at another error type. *)
Definition map_err {S E F A} (f : E → F) (m : M S E A) : M S F A := λ s,
  let '(r, s') := m s in (o_map_err f r, s').

(** A call on a part of the state: a field, or the state of a callee. *)
Definition zoom {S T E A} (get : S → T) (set : T → S → S) (m : M T E A) : M S E A := λ s,
  let '(r, t) := m (get s) in (r, set t s).

(** ** Counted computations

    A value with the number of key derivations that were run to get it.  The
    count is not part of what the program computes: it is what the theorem on
    the work of a call talks about. *)
Record counted (A : Type) : Type := Counted { value : A; derivations : N }.
Arguments Counted {A} value derivations.
Arguments value {A} _.
Arguments derivations {A} _.

#[export] Instance counted_ret : MRet counted := λ A a, Counted a 0.
#[export] Instance counted_bind : MBind counted := λ A B f m,
  let m' := f (value m) in Counted (value m') (derivations m + derivations m').

(** One derivation. *)
Definition tick {A} (a : A) : counted A := Counted a 1.

Lemma value_bind {A B} (f : A → counted B) (m : counted A) : value (m ≫= f) = value (f (value m)).
Proof. done. Qed.

Lemma derivations_bind {A B} (f : A → counted B) (m : counted A) :
  derivations (m ≫= f) = derivations m + derivations (f (value m)).
Proof. done. Qed.

(** ** Computation rules *)

Section rules.
Context {S E : Type}.

Lemma bind_run {A B} (f : A → M S E B) (m : M S E A) s :
  (m ≫= f) s = match m s with
               | (Ok a, s') => f a s'
               | (Err e, s') => (Err e, s')
               | (Panic, s') => (Panic, s')
               end.
Proof. done. Qed.

Lemma bind_Ok {A B} (f : A → M S E B) (m : M S E A) s a s' :
  m s = (Ok a, s') → (m ≫= f) s = f a s'.
Proof. intros E'. by rewrite bind_run, E'. Qed.

Lemma bind_Err {A B} (f : A → M S E B) (m : M S E A) s e s' :
  m s = (Err e, s') → (m ≫= f) s = (Err e, s').
Proof. intros E'. by rewrite bind_run, E'. Qed.

Lemma ret_run {A} (a : A) (s : S) : (mret a : M S E A) s = (Ok a, s).
Proof. done. Qed.
Lemma throw_run {A} (e : E) (s : S) : (throw e : M S E A) s = (Err e, s).
Proof. done. Qed.
Lemma get_run (s : S) : (get_state : M S E S) s = (Ok s, s).
Proof. done. Qed.
Lemma put_run (t s : S) : (put_state t : M S E unit) s = (Ok tt, t).
Proof. done. Qed.
Lemma modify_run f (s : S) : (modify_state f : M S E unit) s = (Ok tt, f s).
Proof. done. Qed.
Lemma lift_run {A} (m : outcome E A) (s : S) : lift_o m s = (m, s).
Proof. done. Qed.
Lemma unwrap_Some {A} (a : A) (s : S) : (unwrap (Some a) : M S E A) s = (Ok a, s).
Proof. done. Qed.
Lemma unwrap_None {A} (s : S) : (unwrap None : M S E A) s = (Panic, s).
Proof. done. Qed.

Lemma map_err_run {F A} (f : F → E) (m : M S F A) s :
  map_err f m s = (o_map_err f (m s).1, (m s).2).
Proof. unfold map_err. by destruct (m s). Qed.

Lemma zoom_run {T A} (get : S → T) (set : T → S → S) (m : M T E A) s :
  zoom get set m s = ((m (get s)).1, set (m (get s)).2 s).
Proof. unfold zoom. by destruct (m (get s)). Qed.
End rules.

Create Rewrite HintDb run.
#[export] Hint Rewrite @ret_run @throw_run @get_run @put_run @modify_run @lift_run
  @unwrap_Some @unwrap_None @map_err_run @zoom_run : run.

(** [run_step] performs the next statement of a monadic body applied to a
    state; it stops at a call whose result is not known yet. *)
Ltac run_step :=
  first
    [ progress autorewrite with run
    | match goal with
      | |- context [(mbind ?f ?m) ?s] => rewrite (bind_run f m s)
      | H : context [(mbind ?f ?m) ?s] |- _ => rewrite (bind_run f m s) in H
      end ].
Ltac run_simpl := repeat (run_step; cbn beta iota zeta).

(** Inversion of an equation between outcomes or their pairs with a state. *)
Ltac simplify_run := simplify_eq/=; try done.

(** ** Calls that cannot tell two computations apart *)

#[export] Instance M_equiv S E A : Equiv (M S E A) := pointwise_relation S (=).

#[export] Instance M_equivalence S E A : Equivalence (≡@{M S E A}).
Proof. unfold equiv, M_equiv. apply _. Qed.

#[export] Instance M_bind_proper S E A B :
  Proper (pointwise_relation A (≡) ==> (≡) ==> (≡)) (mbind (M := M S E) (A := A) (B := B)).
Proof.
  intros f g Hfg m n Hmn s. rewrite !bind_run, (Hmn s).
  destruct (n s) as [[a|e|] s']; [apply Hfg|done|done].
Qed.

#[export] Instance map_err_proper S E F A (f : E → F) :
  Proper ((≡) ==> (≡)) (map_err (S := S) (A := A) f).
Proof. intros m n Hmn s. unfold map_err. by rewrite (Hmn s). Qed.

Lemma bind_ret_l {S E A B} (a : A) (f : A → M S E B) : mret a ≫= f ≡ f a.
Proof. by intros s. Qed.

Lemma bind_ret_r {S E A} (m : M S E A) : m ≫= mret ≡ m.
Proof. intros s. rewrite bind_run. by destruct (m s) as [[]]. Qed.

Lemma bind_assoc {S E A B C} (m : M S E A) (f : A → M S E B) (g : B → M S E C) :
  (m ≫= f) ≫= g ≡ m ≫= (λ a, f a ≫= g).
Proof. intros s. rewrite !bind_run. by destruct (m s) as [[]]. Qed.
