(* ===== verification/Primitives.v ===== *)
(** * Interfaces to the third-party crates

    One class per crate the program calls, with the operations the source
    uses, and one class of laws per crate with the documented behaviour the
    theorems rely on.  No operation is defined here: [RefPrimitives] gives one
    instance of everything, so that the laws are known to be satisfiable and
    every theorem can be evaluated on a concrete input. *)

From S2P Require Import Prelude Outcome.

(** ** [rand_core]: the operating system's random source *)

(** The source is assumed to deliver: [fill_bytes] of the crate panics when the
    operating system has no random bytes, and that panic is not modelled. *)
Class OsRng := {
  rng : Type;
  (** [OsRng.fill_bytes(&mut buf)] on a buffer of the given length. *)
  fill_bytes : N → rng → bytes * rng;
}.

Class OsRngLaws `{OsRng} := {
  len_fill_bytes n r : len (fill_bytes n r).1 = n;
}.

(** ** [ed25519_dalek] *)

Class Ed25519 `{OsRng} := {
  SigningKey : Type;
  VerifyingKey : Type;
  Signature : Type;
  SigningKey_generate : rng → SigningKey * rng;
  SigningKey_from_bytes : bytes → SigningKey;
  SigningKey_to_bytes : SigningKey → bytes;
  verifying_key : SigningKey → VerifyingKey;
  sign : SigningKey → bytes → Signature;
  (** [VerifyingKey::from_bytes]; [None] is its error. *)
  VerifyingKey_from_bytes : bytes → option VerifyingKey;
  VerifyingKey_as_bytes : VerifyingKey → bytes;
  (** [==] on public keys. *)
  VerifyingKey_eq : VerifyingKey → VerifyingKey → bool;
  (** [verify(msg, sig).is_ok()]. *)
  verify : VerifyingKey → bytes → Signature → bool;
  Signature_from_bytes : bytes → Signature;
  Signature_to_bytes : Signature → bytes;
}.

Class Ed25519Laws `{Ed25519} := {
  len_SigningKey sk : len (SigningKey_to_bytes sk) = 32;
  len_VerifyingKey vk : len (VerifyingKey_as_bytes vk) = 32;
  len_Signature sg : len (Signature_to_bytes sg) = 64;
  SigningKey_to_from b : len b = 32 → SigningKey_to_bytes (SigningKey_from_bytes b) = b;
  SigningKey_from_to sk : SigningKey_from_bytes (SigningKey_to_bytes sk) = sk;
  VerifyingKey_to_from b vk : VerifyingKey_from_bytes b = Some vk → VerifyingKey_as_bytes vk = b;
  VerifyingKey_from_to vk : VerifyingKey_from_bytes (VerifyingKey_as_bytes vk) = Some vk;
  (** Keys are compared by their encodings. *)
  VerifyingKey_eq_bytes a b :
    VerifyingKey_eq a b = true ↔ VerifyingKey_as_bytes a = VerifyingKey_as_bytes b;
  Signature_to_from b : len b = 64 → Signature_to_bytes (Signature_from_bytes b) = b;
  Signature_from_to sg : Signature_from_bytes (Signature_to_bytes sg) = sg;
  (** A signature verifies under the key that belongs to the signer. *)
  verify_sign sk m : verify (verifying_key sk) m (sign sk m) = true;
}.

(** ** [x25519_dalek] *)

Class X25519 `{OsRng} := {
  EphemeralSecret : Type;
  X25519PublicKey : Type;
  random_from_rng : rng → EphemeralSecret * rng;
  X25519PublicKey_from_secret : EphemeralSecret → X25519PublicKey;
  X25519PublicKey_from_bytes : bytes → X25519PublicKey;
  X25519PublicKey_as_bytes : X25519PublicKey → bytes;
  (** The bytes of the shared secret. *)
  X25519_diffie_hellman : EphemeralSecret → X25519PublicKey → bytes;
}.

Class X25519Laws `{X25519} := {
  len_X25519PublicKey pk : len (X25519PublicKey_as_bytes pk) = 32;
  X25519PublicKey_to_from b :
    len b = 32 → X25519PublicKey_as_bytes (X25519PublicKey_from_bytes b) = b;
  X25519PublicKey_from_to pk : X25519PublicKey_from_bytes (X25519PublicKey_as_bytes pk) = pk;
  len_X25519_shared a pk : len (X25519_diffie_hellman a pk) = 32;
  (** Both ends of the exchange compute the same secret. *)
  X25519_agree a b :
    X25519_diffie_hellman a (X25519PublicKey_from_secret b)
    = X25519_diffie_hellman b (X25519PublicKey_from_secret a);
}.

(** ** [hkdf], [sha2] and [hmac] *)

Class Hashes := {
  (** SHA-256 of the concatenation of the updates. *)
  sha256 : bytes → bytes;
  (** [Hkdf::<Sha256>::new(Some(salt), ikm).expand(info, okm)] for an output
      of the given length; [None] is [InvalidLength]. *)
  hkdf_sha256 : bytes → bytes → bytes → N → option bytes;
  HmacSha256 : Type;
  (** [None] is [InvalidLength]. *)
  hmac_new_from_slice : bytes → option HmacSha256;
  hmac_update : HmacSha256 → bytes → HmacSha256;
  (** [mac.finalize().into_bytes()]. *)
  hmac_finalize : HmacSha256 → bytes;
}.

Class HashesLaws `{Hashes} := {
  len_sha256 m : len (sha256 m) = 32;
  (** RFC 5869 bounds the output by 255 blocks. *)
  hkdf_sha256_length salt ikm info n :
    n <= 255 * 32 → ∃ okm, hkdf_sha256 salt ikm info n = Some okm ∧ len okm = n;
  (** HMAC takes a key of any length. *)
  hmac_any_key k : ∃ h, hmac_new_from_slice k = Some h;
  len_hmac h : len (hmac_finalize h) = 32;
}.

(** ** [chacha20poly1305] *)

Class Aead := {
  (** [encrypt_in_place_detached(nonce, aad, &mut buf)]: the buffer after the
      call and the tag, [None] for the error. *)
  encrypt_in_place_detached : bytes → bytes → bytes → bytes → bytes * option bytes;
  (** [decrypt_in_place_detached(nonce, aad, &mut buf, tag)]: the buffer after
      the call and whether the tag was accepted. *)
  decrypt_in_place_detached : bytes → bytes → bytes → bytes → bytes → bytes * bool;
}.

(** The arguments [key], [nonce] and [tag] are arrays of 32, 12 and 16 bytes
    in the crate. *)
Class AeadLaws `{Aead} := {
  encrypt_ok key nonce aad pt :
    len key = 32 → len nonce = 12 → len pt <= 65536 →
    ∃ ct tag, encrypt_in_place_detached key nonce aad pt = (ct, Some tag)
              ∧ len ct = len pt ∧ len tag = 16;
  (** Decryption inverts encryption. *)
  decrypt_encrypt key nonce aad pt ct tag :
    len key = 32 → len nonce = 12 →
    encrypt_in_place_detached key nonce aad pt = (ct, Some tag) →
    decrypt_in_place_detached key nonce aad ct tag = (pt, true);
  (** The tag is a function of key, nonce, additional data and ciphertext, and
      is compared in full: what decrypts is what encryption produces. *)
  encrypt_decrypt key nonce aad ct tag pt :
    len key = 32 → len nonce = 12 → len tag = 16 →
    decrypt_in_place_detached key nonce aad ct tag = (pt, true) →
    encrypt_in_place_detached key nonce aad pt = (ct, Some tag);
  len_decrypt key nonce aad ct tag :
    len (decrypt_in_place_detached key nonce aad ct tag).1 = len ct;
}.

(** ** [subtle] *)

Class Subtle := { ct_eq_bytes : bytes → bytes → bool }.

Class SubtleLaws `{Subtle} := {
  ct_eq_bytes_spec a b : len a = len b → ct_eq_bytes a b = true ↔ a = b;
}.

(** ** [zeroize] *)

(** [Zeroize::zeroize] on a byte array or slice: the bytes after the call. *)
Class Zeroize := { zeroize_bytes : bytes → bytes }.

Class ZeroizeLaws `{Zeroize} := {
  zeroize_bytes_spec l : zeroize_bytes l = zeros (len l);
}.

Lemma len_zeroize `{ZeroizeLaws} l : len (zeroize_bytes l) = len l.
Proof. rewrite zeroize_bytes_spec. apply len_zeros. Qed.

(** ** Drawing from the random source inside a body *)

(** [let mut buf = [0u8; n]; OsRng.fill_bytes(&mut buf);] *)
Definition os_fill `{OsRng} {E} (n : N) : M rng E bytes := λ r,
  let '(b, r') := fill_bytes n r in (Ok b, r').

Lemma os_fill_run `{OsRng} {E} n r :
  os_fill (E := E) n r = (Ok (fill_bytes n r).1, (fill_bytes n r).2).
Proof. unfold os_fill. by destruct (fill_bytes n r). Qed.
