(* ===== verification/Errors.v ===== *)
(** * Error enums ([src/errors.rs]) and their [Display] texts *)

From S2P Require Import Prelude.
#[local] Open Scope string_scope.

Inductive HandshakeError :=
  InvalidSignature | PeerIdentityMismatch | InvalidPayloadFormat | CryptoFailure.

Inductive PathEngineError := PInvalidPathCount | HmacFailure.

Inductive EnvelopeError :=
  PayloadTooLarge | EncryptionFailure | DecryptionFailure | InvalidFormat.

Inductive DecoyError := InvalidPathCount | InvalidSlotIndex | SealFailure.

Inductive ChannelError :=
| HandshakeRequired
| ReplayedSequence
| SkippedKeyExpired
| InvalidSequence
| InvalidMessageId
| OutofWindow
| AuthenticationFailed
| DecoyFailure.

#[export] Instance HandshakeError_eq_dec : EqDecision HandshakeError.
Proof. solve_decision. Defined.
#[export] Instance PathEngineError_eq_dec : EqDecision PathEngineError.
Proof. solve_decision. Defined.
#[export] Instance EnvelopeError_eq_dec : EqDecision EnvelopeError.
Proof. solve_decision. Defined.
#[export] Instance DecoyError_eq_dec : EqDecision DecoyError.
Proof. solve_decision. Defined.
#[export] Instance ChannelError_eq_dec : EqDecision ChannelError.
Proof. solve_decision. Defined.

(** [impl fmt::Display] of each enum. *)
Definition HandshakeError_fmt (e : HandshakeError) : string :=
  match e with
  | InvalidSignature => "Handshake signature verification failed"
  | PeerIdentityMismatch => "Peer identity key mismatch"
  | InvalidPayloadFormat => "Invalid handshake payload format"
  | CryptoFailure => "Cryptographic primitive failure"
  end.

Definition PathEngineError_fmt (e : PathEngineError) : string :=
  match e with
  | PInvalidPathCount => "Number of paths must be greater than zero"
  | HmacFailure => "HMAC-SHA256 path evaluation failed"
  end.

Definition EnvelopeError_fmt (e : EnvelopeError) : string :=
  match e with
  | PayloadTooLarge => "Payload exceeds maximum 992-byte capacity"
  | EncryptionFailure => "AEAD encryption failed"
  | DecryptionFailure => "AEAD decryption or tag verification failed"
  | InvalidFormat => "Invalid decrypted envelope format or version"
  end.

Definition DecoyError_fmt (e : DecoyError) : string :=
  match e with
  | InvalidPathCount => "Path count must be greater than zero"
  | InvalidSlotIndex => "Valid slot index is out of bounds for path count"
  | SealFailure => "Decoy envelope sealing failed"
  end.

Definition ChannelError_fmt (e : ChannelError) : string :=
  match e with
  | HandshakeRequired => "Handshake completion required"
  | ReplayedSequence => "Replayed or already consumed sequence number"
  | SkippedKeyExpired => "Skipped ratchet key was evicted from memory"
  | InvalidSequence => "Sequence number exceeds max skip window"
  | InvalidMessageId => "Message ID exceeds maximum 256-byte capacity"
  | OutofWindow => "Message outside allowed time window"
  | AuthenticationFailed => "Message authentication failed"
  | DecoyFailure => "Decoy channel processing error"
  end.
