(* ===== verification/Types.v ===== *)
(** * Wire types and key wrappers ([src/types.rs])

    The two handshake payloads with their 144-byte encodings, the wrappers of
    secret keys and what zeroizing them does. *)

From S2P Require Import Prelude Outcome Primitives Errors.

Definition INIT_PAYLOAD_LEN : N := 144.
Definition RESP_PAYLOAD_LEN : N := 144.

Record RootKey := { RootKey_0 : bytes }.
Record RawDhSecret := { RawDhSecret_0 : bytes }.

(** [#[derive(Zeroize)]] of the two array wrappers. *)
Definition RootKey_zeroize `{Zeroize} (k : RootKey) : RootKey := {| RootKey_0 := zeroize_bytes (RootKey_0 k) |}.
Definition RawDhSecret_zeroize `{Zeroize} (k : RawDhSecret) : RawDhSecret :=
  {| RawDhSecret_0 := zeroize_bytes (RawDhSecret_0 k) |}.

(** The [Debug] texts, which do not depend on the secret. *)
Definition RootKey_fmt (k : RootKey) : string := "RootKey([REDACTED])".
Definition RawDhSecret_fmt (k : RawDhSecret) : string := "RawDhSecret([REDACTED])".

#[export] Instance RootKey_eq_dec : EqDecision RootKey.
Proof. solve_decision. Defined.

Section types.
Context `{Ed25519} `{!X25519} `{Zeroize}.

Record IdentityPrivateKey := { IdentityPrivateKey_0 : SigningKey }.

Definition IdentityPrivateKey_new (b : bytes) : IdentityPrivateKey :=
  {| IdentityPrivateKey_0 := SigningKey_from_bytes b |}.

Definition IdentityPrivateKey_generate {E} : M rng E IdentityPrivateKey := λ r,
  let '(key, r') := SigningKey_generate r in
  (Ok {| IdentityPrivateKey_0 := key |}, r').

Definition IdentityPrivateKey_verifying_key (k : IdentityPrivateKey) : VerifyingKey :=
  verifying_key (IdentityPrivateKey_0 k).

Definition IdentityPrivateKey_zeroize (k : IdentityPrivateKey) : IdentityPrivateKey :=
  let raw_bytes := SigningKey_to_bytes (IdentityPrivateKey_0 k) in
  let raw_bytes := zeroize_bytes raw_bytes in
  {| IdentityPrivateKey_0 := SigningKey_from_bytes raw_bytes |}.

(** [Drop::drop]: what is left in the place of the value. *)
Definition IdentityPrivateKey_drop (k : IdentityPrivateKey) : IdentityPrivateKey :=
  IdentityPrivateKey_zeroize k.

Definition IdentityPrivateKey_fmt (k : IdentityPrivateKey) : string :=
  "IdentityPrivateKey([REDACTED])".

Record HandshakeInitPayload := {
  initiator_identity_pub : VerifyingKey;
  initiator_ephemeral_pub : X25519PublicKey;
  init_nonce : bytes;
  init_signature : Signature;
}.

Definition HandshakeInitPayload_to_bytes (p : HandshakeInitPayload) : option bytes :=
  let out := zeros INIT_PAYLOAD_LEN in
  out ← copy_into 0 32 (VerifyingKey_as_bytes (initiator_identity_pub p)) out;
  out ← copy_into 32 64 (X25519PublicKey_as_bytes (initiator_ephemeral_pub p)) out;
  out ← copy_into 64 80 (init_nonce p) out;
  out ← copy_into 80 144 (Signature_to_bytes (init_signature p)) out;
  Some out.

Definition HandshakeInitPayload_from_bytes (bs : bytes)
    : outcome HandshakeError HandshakeInitPayload :=
  if negb (len bs =? INIT_PAYLOAD_LEN) then Err InvalidPayloadFormat else
  identity_bytes ← o_unwrap (slice 0 32 bs);
  ephemeral_bytes ← o_unwrap (slice 32 64 bs);
  nonce ← o_unwrap (slice 64 80 bs);
  signature_bytes ← o_unwrap (slice 80 144 bs);
  identity_pub ← o_ok_or InvalidPayloadFormat (VerifyingKey_from_bytes identity_bytes);
  Ok {| initiator_identity_pub := identity_pub;
        initiator_ephemeral_pub := X25519PublicKey_from_bytes ephemeral_bytes;
        init_nonce := nonce;
        init_signature := Signature_from_bytes signature_bytes |}.

Record HandshakeResponsePayload := {
  responder_identity_pub : VerifyingKey;
  responder_ephemeral_pub : X25519PublicKey;
  resp_nonce : bytes;
  resp_signature : Signature;
}.

Definition HandshakeResponsePayload_to_bytes (p : HandshakeResponsePayload) : option bytes :=
  let out := zeros RESP_PAYLOAD_LEN in
  out ← copy_into 0 32 (VerifyingKey_as_bytes (responder_identity_pub p)) out;
  out ← copy_into 32 64 (X25519PublicKey_as_bytes (responder_ephemeral_pub p)) out;
  out ← copy_into 64 80 (resp_nonce p) out;
  out ← copy_into 80 144 (Signature_to_bytes (resp_signature p)) out;
  Some out.

Definition HandshakeResponsePayload_from_bytes (bs : bytes)
    : outcome HandshakeError HandshakeResponsePayload :=
  if negb (len bs =? RESP_PAYLOAD_LEN) then Err InvalidPayloadFormat else
  identity_bytes ← o_unwrap (slice 0 32 bs);
  ephemeral_bytes ← o_unwrap (slice 32 64 bs);
  nonce ← o_unwrap (slice 64 80 bs);
  signature_bytes ← o_unwrap (slice 80 144 bs);
  identity_pub ← o_ok_or InvalidPayloadFormat (VerifyingKey_from_bytes identity_bytes);
  Ok {| responder_identity_pub := identity_pub;
        responder_ephemeral_pub := X25519PublicKey_from_bytes ephemeral_bytes;
        resp_nonce := nonce;
        resp_signature := Signature_from_bytes signature_bytes |}.
End types.

Section type_facts.
Context `{Ed25519Laws} `{!X25519} `{!X25519Laws} `{ZeroizeLaws}.

(** The array type of the [nonce] field. *)
Definition init_payload_wf (p : HandshakeInitPayload) : Prop := len (init_nonce p) = 16.
Definition resp_payload_wf (p : HandshakeResponsePayload) : Prop := len (resp_nonce p) = 16.

(** The layout both encodings share: four fields at fixed offsets. *)
Lemma copy_fields (a b c d : bytes) :
  len a = 32 → len b = 32 → len c = 16 → len d = 64 →
  (out ← copy_into 0 32 a (zeros 144);
   out ← copy_into 32 64 b out;
   out ← copy_into 64 80 c out;
   out ← copy_into 80 144 d out;
   Some out) = Some (a ++ b ++ c ++ d).
Proof.
  intros Ha Hb Hc Hd.
  change (zeros 144) with (zeros 32 ++ zeros 32 ++ zeros 16 ++ zeros 64).
  rewrite copy_into_head by done. cbn [mbind option_bind].
  rewrite (copy_into_app 32 64) by (rewrite ?len_zeros; lia). cbn [mbind option_bind].
  rewrite (app_assoc a b), (copy_into_app 64 80) by (rewrite ?len_app, ?len_zeros; lia).
  cbn [mbind option_bind].
  rewrite (app_assoc (a ++ b) c), (copy_into_tail 80 144)
    by (rewrite ?len_app, ?len_zeros; lia).
  cbn [mbind option_bind]. by rewrite <-!app_assoc.
Qed.

Lemma split_fields (bs : bytes) :
  len bs = 144 →
  ∃ a b c d, bs = a ++ b ++ c ++ d ∧ len a = 32 ∧ len b = 32 ∧ len c = 16 ∧ len d = 64.
Proof.
  intros Hbs. destruct (split_at_len 32 bs) as (a & t1 & -> & Ha); [lia|].
  rewrite len_app in Hbs. destruct (split_at_len 32 t1) as (b & t2 & -> & Hb); [lia|].
  rewrite len_app in Hbs. destruct (split_at_len 16 t2) as (c & d & -> & Hc); [lia|].
  rewrite len_app in Hbs. exists a, b, c, d. repeat split; (done || lia).
Qed.

Lemma slice_fields (a b c d : bytes) :
  len a = 32 → len b = 32 → len c = 16 → len d = 64 →
  let bs := a ++ b ++ c ++ d in
  slice 0 32 bs = Some a ∧ slice 32 64 bs = Some b ∧ slice 64 80 bs = Some c
  ∧ slice 80 144 bs = Some d ∧ len bs = 144.
Proof.
  intros Ha Hb Hc Hd bs. unfold bs. repeat split.
  - by apply slice_head.
  - apply slice_app; lia.
  - rewrite (app_assoc a b). apply slice_app; rewrite ?len_app; lia.
  - rewrite (app_assoc a b), (app_assoc (a ++ b) c).
    apply slice_tail; rewrite ?len_app; lia.
  - rewrite !len_app. lia.
Qed.

(** The fields of a payload, as bytes, in wire order. *)
Definition init_payload_wire (p : HandshakeInitPayload) : bytes :=
  VerifyingKey_as_bytes (initiator_identity_pub p)
  ++ X25519PublicKey_as_bytes (initiator_ephemeral_pub p)
  ++ init_nonce p ++ Signature_to_bytes (init_signature p).

Definition resp_payload_wire (p : HandshakeResponsePayload) : bytes :=
  VerifyingKey_as_bytes (responder_identity_pub p)
  ++ X25519PublicKey_as_bytes (responder_ephemeral_pub p)
  ++ resp_nonce p ++ Signature_to_bytes (resp_signature p).

Lemma init_to_bytes_wire p :
  init_payload_wf p → HandshakeInitPayload_to_bytes p = Some (init_payload_wire p).
Proof.
  intros. apply copy_fields;
    auto using len_VerifyingKey, len_X25519PublicKey, len_Signature.
Qed.

Lemma resp_to_bytes_wire p :
  resp_payload_wf p → HandshakeResponsePayload_to_bytes p = Some (resp_payload_wire p).
Proof.
  intros. apply copy_fields;
    auto using len_VerifyingKey, len_X25519PublicKey, len_Signature.
Qed.

Lemma len_init_wire p : init_payload_wf p → len (init_payload_wire p) = 144.
Proof.
  intros Hp. unfold init_payload_wire.
  by rewrite !len_app, len_VerifyingKey, len_X25519PublicKey, Hp, len_Signature.
Qed.

Lemma len_resp_wire p : resp_payload_wf p → len (resp_payload_wire p) = 144.
Proof.
  intros Hp. unfold resp_payload_wire.
  by rewrite !len_app, len_VerifyingKey, len_X25519PublicKey, Hp, len_Signature.
Qed.

(** Decoding a concatenation of four fields of the right lengths. *)
Lemma init_from_fields a b c d :
  len a = 32 → len b = 32 → len c = 16 → len d = 64 →
  HandshakeInitPayload_from_bytes (a ++ b ++ c ++ d) =
    match VerifyingKey_from_bytes a with
    | Some vk => Ok {| initiator_identity_pub := vk;
                       initiator_ephemeral_pub := X25519PublicKey_from_bytes b;
                       init_nonce := c; init_signature := Signature_from_bytes d |}
    | None => Err InvalidPayloadFormat
    end.
Proof.
  intros Ha Hb Hc Hd. destruct (slice_fields a b c d) as (S1 & S2 & S3 & S4 & L); try done.
  unfold HandshakeInitPayload_from_bytes. rewrite L, S1, S2, S3, S4. cbn.
  by destruct (VerifyingKey_from_bytes a).
Qed.

Lemma resp_from_fields a b c d :
  len a = 32 → len b = 32 → len c = 16 → len d = 64 →
  HandshakeResponsePayload_from_bytes (a ++ b ++ c ++ d) =
    match VerifyingKey_from_bytes a with
    | Some vk => Ok {| responder_identity_pub := vk;
                       responder_ephemeral_pub := X25519PublicKey_from_bytes b;
                       resp_nonce := c; resp_signature := Signature_from_bytes d |}
    | None => Err InvalidPayloadFormat
    end.
Proof.
  intros Ha Hb Hc Hd. destruct (slice_fields a b c d) as (S1 & S2 & S3 & S4 & L); try done.
  unfold HandshakeResponsePayload_from_bytes. rewrite L, S1, S2, S3, S4. cbn.
  by destruct (VerifyingKey_from_bytes a).
Qed.

Lemma init_from_wire p :
  init_payload_wf p → HandshakeInitPayload_from_bytes (init_payload_wire p) = Ok p.
Proof.
  intros. unfold init_payload_wire.
  rewrite init_from_fields, VerifyingKey_from_to, X25519PublicKey_from_to, Signature_from_to
    by auto using len_VerifyingKey, len_X25519PublicKey, len_Signature.
  by destruct p.
Qed.

Lemma resp_from_wire p :
  resp_payload_wf p → HandshakeResponsePayload_from_bytes (resp_payload_wire p) = Ok p.
Proof.
  intros. unfold resp_payload_wire.
  rewrite resp_from_fields, VerifyingKey_from_to, X25519PublicKey_from_to, Signature_from_to
    by auto using len_VerifyingKey, len_X25519PublicKey, len_Signature.
  by destruct p.
Qed.

Lemma init_from_bytes_Ok bs p :
  HandshakeInitPayload_from_bytes bs = Ok p → init_payload_wf p ∧ bs = init_payload_wire p.
Proof.
  destruct (N.eqb_spec (len bs) 144) as [L|L].
  - destruct (split_fields bs L) as (a & b & c & d & -> & Ha & Hb & Hc & Hd).
    rewrite init_from_fields by done.
    destruct (VerifyingKey_from_bytes a) as [vk|] eqn:E; intros ?; simplify_eq.
    split; [done|]. unfold init_payload_wire; cbn.
    by rewrite (VerifyingKey_to_from a vk E), X25519PublicKey_to_from, Signature_to_from.
  - unfold HandshakeInitPayload_from_bytes, INIT_PAYLOAD_LEN.
    by rewrite (proj2 (N.eqb_neq _ _) L).
Qed.

Lemma resp_from_bytes_Ok bs p :
  HandshakeResponsePayload_from_bytes bs = Ok p → resp_payload_wf p ∧ bs = resp_payload_wire p.
Proof.
  destruct (N.eqb_spec (len bs) 144) as [L|L].
  - destruct (split_fields bs L) as (a & b & c & d & -> & Ha & Hb & Hc & Hd).
    rewrite resp_from_fields by done.
    destruct (VerifyingKey_from_bytes a) as [vk|] eqn:E; intros ?; simplify_eq.
    split; [done|]. unfold resp_payload_wire; cbn.
    by rewrite (VerifyingKey_to_from a vk E), X25519PublicKey_to_from, Signature_to_from.
  - unfold HandshakeResponsePayload_from_bytes, RESP_PAYLOAD_LEN.
    by rewrite (proj2 (N.eqb_neq _ _) L).
Qed.

Lemma init_from_bytes_cases bs :
  len bs = 144 →
  (∃ p, HandshakeInitPayload_from_bytes bs = Ok p ∧ init_payload_wf p)
  ∨ HandshakeInitPayload_from_bytes bs = Err InvalidPayloadFormat.
Proof.
  intros L. destruct (split_fields bs L) as (a & b & c & d & -> & Ha & Hb & Hc & Hd).
  rewrite init_from_fields by done. destruct (VerifyingKey_from_bytes a); [left; by eexists|by right].
Qed.

Lemma resp_from_bytes_cases bs :
  len bs = 144 →
  (∃ p, HandshakeResponsePayload_from_bytes bs = Ok p ∧ resp_payload_wf p)
  ∨ HandshakeResponsePayload_from_bytes bs = Err InvalidPayloadFormat.
Proof.
  intros L. destruct (split_fields bs L) as (a & b & c & d & -> & Ha & Hb & Hc & Hd).
  rewrite resp_from_fields by done. destruct (VerifyingKey_from_bytes a); [left; by eexists|by right].
Qed.

(** Both decoders are total on input from the network: they never panic, the
    only error is [InvalidPayloadFormat], and it is returned exactly when the
    length is not 144 or the identity key does not decode. *)
Lemma payload_decode_errors bs :
  (∀ e, HandshakeInitPayload_from_bytes bs = Err e ↔
     e = InvalidPayloadFormat ∧
     (len bs ≠ 144 ∨ VerifyingKey_from_bytes (take 32 bs) = None))
  ∧ HandshakeInitPayload_from_bytes bs ≠ Panic
  ∧ (∀ e, HandshakeResponsePayload_from_bytes bs = Err e ↔
     e = InvalidPayloadFormat ∧
     (len bs ≠ 144 ∨ VerifyingKey_from_bytes (take 32 bs) = None))
  ∧ HandshakeResponsePayload_from_bytes bs ≠ Panic.
Proof.
  destruct (N.eqb_spec (len bs) 144) as [L|L].
  - destruct (split_fields bs L) as (a & b & c & d & -> & Ha & Hb & Hc & Hd).
    rewrite init_from_fields, resp_from_fields by done.
    replace (take 32 (a ++ b ++ c ++ d)) with a
      by (unfold len in Ha; rewrite take_app_length'; [done|lia]).
    destruct (VerifyingKey_from_bytes a); intuition congruence.
  - unfold HandshakeInitPayload_from_bytes, HandshakeResponsePayload_from_bytes,
      INIT_PAYLOAD_LEN, RESP_PAYLOAD_LEN.
    rewrite (proj2 (N.eqb_neq _ _) L). cbn. intuition congruence.
Qed.

(** C37. Initiation payload codec: the decoder accepts exactly the encodings of
    well-formed payloads, so decoding inverts encoding and every accepted
    byte string is the one encoding of what it decodes to; encoding never
    panics and always yields 144 bytes; on input from the network the decoder
    never panics, and it fails, always with [InvalidPayloadFormat], exactly
    when the length is not 144 or the identity key does not decode. *)
Theorem init_payload_codec :
  (∀ bs p, HandshakeInitPayload_from_bytes bs = Ok p
           ↔ init_payload_wf p ∧ HandshakeInitPayload_to_bytes p = Some bs)
  ∧ (∀ p, init_payload_wf p →
          ∃ bs, HandshakeInitPayload_to_bytes p = Some bs ∧ len bs = INIT_PAYLOAD_LEN)
  ∧ (∀ bs e, HandshakeInitPayload_from_bytes bs = Err e ↔
       e = InvalidPayloadFormat ∧ (len bs ≠ 144 ∨ VerifyingKey_from_bytes (take 32 bs) = None))
  ∧ (∀ bs, HandshakeInitPayload_from_bytes bs ≠ Panic).
Proof.
  split; [|split; [|split; intros bs; apply payload_decode_errors]].
  - intros bs p. split.
    + intros [Hp ->]%init_from_bytes_Ok. auto using init_to_bytes_wire.
    + intros [Hp E]. rewrite init_to_bytes_wire in E by done. simplify_eq.
      by apply init_from_wire.
  - intros p Hp. exists (init_payload_wire p). auto using init_to_bytes_wire, len_init_wire.
Qed.

(** C38. Response payload codec: the same for the responder's message. *)
Theorem resp_payload_codec :
  (∀ bs p, HandshakeResponsePayload_from_bytes bs = Ok p
           ↔ resp_payload_wf p ∧ HandshakeResponsePayload_to_bytes p = Some bs)
  ∧ (∀ p, resp_payload_wf p →
          ∃ bs, HandshakeResponsePayload_to_bytes p = Some bs ∧ len bs = RESP_PAYLOAD_LEN)
  ∧ (∀ bs e, HandshakeResponsePayload_from_bytes bs = Err e ↔
       e = InvalidPayloadFormat ∧ (len bs ≠ 144 ∨ VerifyingKey_from_bytes (take 32 bs) = None))
  ∧ (∀ bs, HandshakeResponsePayload_from_bytes bs ≠ Panic).
Proof.
  split; [|split; [|split; intros bs; apply payload_decode_errors]].
  - intros bs p. split.
    + intros [Hp ->]%resp_from_bytes_Ok. auto using resp_to_bytes_wire.
    + intros [Hp E]. rewrite resp_to_bytes_wire in E by done. simplify_eq.
      by apply resp_from_wire.
  - intros p Hp. exists (resp_payload_wire p). auto using resp_to_bytes_wire, len_resp_wire.
Qed.

(** After [zeroize], and so after [drop], every byte of an identity key is
    zero; the same for the derived wrappers. *)
Theorem secret_wrappers_zeroized k rk dh :
  SigningKey_to_bytes (IdentityPrivateKey_0 (IdentityPrivateKey_drop k)) = zeros 32
  ∧ RootKey_0 (RootKey_zeroize rk) = zeros (len (RootKey_0 rk))
  ∧ RawDhSecret_0 (RawDhSecret_zeroize dh) = zeros (len (RawDhSecret_0 dh)).
Proof.
  split; [|by split; apply zeroize_bytes_spec].
  unfold IdentityPrivateKey_drop, IdentityPrivateKey_zeroize. cbn.
  by rewrite SigningKey_to_from, zeroize_bytes_spec, len_SigningKey
    by (by rewrite len_zeroize, len_SigningKey).
Qed.
End type_facts.
