(* ===== verification/Crypto.v ===== *)
(** * Handshake cryptography ([src/crypto.rs])

    Key generation, the two signed transcripts and the derivation of the root
    key, over the interfaces of [Primitives]. *)

From S2P Require Import Prelude Outcome Primitives Errors Types.

Section crypto.
Context `{Ed25519} `{!X25519} `{Hashes}.

Record EphemeralKeyPair := { secret : EphemeralSecret; public : X25519PublicKey }.

Definition EphemeralKeyPair_generate {E} : M rng E EphemeralKeyPair := λ r,
  let '(secret, r') := random_from_rng r in
  let public := X25519PublicKey_from_secret secret in
  (Ok {| secret := secret; public := public |}, r').

(** [diffie_hellman(self, ..)] moves [self]: it is a function of a key pair
    that no later statement of the source can mention. *)
Definition diffie_hellman (self : EphemeralKeyPair) (peer_public : X25519PublicKey) : RawDhSecret :=
  let dh := X25519_diffie_hellman (secret self) peer_public in
  {| RawDhSecret_0 := dh |}.

Definition generate_identity_keypair {E} : M rng E (IdentityPrivateKey * VerifyingKey) :=
  signing_key ← IdentityPrivateKey_generate;
  let verifying_key := IdentityPrivateKey_verifying_key signing_key in
  mret (signing_key, verifying_key).

Definition generate_nonce {E} : M rng E bytes := os_fill 16.

Definition sign_initiation_msg (identity_pub expected_responder_pub : VerifyingKey)
    (ephemeral_pub : X25519PublicKey) (nonce : bytes) : bytes :=
  b_lit "decoypath-v1-init-sig:"
  ++ VerifyingKey_as_bytes identity_pub
  ++ VerifyingKey_as_bytes expected_responder_pub
  ++ X25519PublicKey_as_bytes ephemeral_pub
  ++ nonce.

Definition sign_initiation (identity_priv : IdentityPrivateKey)
    (expected_responder_pub : VerifyingKey) (ephemeral_pub : X25519PublicKey)
    (nonce : bytes) : Signature :=
  let identity_pub := IdentityPrivateKey_verifying_key identity_priv in
  let msg := sign_initiation_msg identity_pub expected_responder_pub ephemeral_pub nonce in
  sign (IdentityPrivateKey_0 identity_priv) msg.

Definition verify_initiation (initiator_identity_pub expected_responder_pub : VerifyingKey)
    (ephemeral_pub : X25519PublicKey) (nonce : bytes) (signature : Signature)
    : outcome HandshakeError unit :=
  let msg :=
    b_lit "decoypath-v1-init-sig:"
    ++ VerifyingKey_as_bytes initiator_identity_pub
    ++ VerifyingKey_as_bytes expected_responder_pub
    ++ X25519PublicKey_as_bytes ephemeral_pub
    ++ nonce in
  if verify initiator_identity_pub msg signature then Ok tt else Err InvalidSignature.

Definition sign_response_msg (responder_identity_pub initiator_identity_pub : VerifyingKey)
    (responder_ephemeral_pub initiator_ephemeral_pub : X25519PublicKey)
    (responder_nonce initiator_nonce : bytes) : bytes :=
  b_lit "decoypath-v1-resp-sig:"
  ++ VerifyingKey_as_bytes responder_identity_pub
  ++ VerifyingKey_as_bytes initiator_identity_pub
  ++ X25519PublicKey_as_bytes responder_ephemeral_pub
  ++ X25519PublicKey_as_bytes initiator_ephemeral_pub
  ++ responder_nonce
  ++ initiator_nonce.

Definition sign_response (identity_priv : IdentityPrivateKey)
    (initiator_identity_pub : VerifyingKey)
    (responder_ephemeral_pub initiator_ephemeral_pub : X25519PublicKey)
    (responder_nonce initiator_nonce : bytes) : Signature :=
  let responder_identity_pub := IdentityPrivateKey_verifying_key identity_priv in
  let msg := sign_response_msg responder_identity_pub initiator_identity_pub
               responder_ephemeral_pub initiator_ephemeral_pub
               responder_nonce initiator_nonce in
  sign (IdentityPrivateKey_0 identity_priv) msg.

Definition verify_response (responder_identity_pub initiator_identity_pub : VerifyingKey)
    (responder_ephemeral_pub initiator_ephemeral_pub : X25519PublicKey)
    (responder_nonce initiator_nonce : bytes) (signature : Signature)
    : outcome HandshakeError unit :=
  let msg :=
    b_lit "decoypath-v1-resp-sig:"
    ++ VerifyingKey_as_bytes responder_identity_pub
    ++ VerifyingKey_as_bytes initiator_identity_pub
    ++ X25519PublicKey_as_bytes responder_ephemeral_pub
    ++ X25519PublicKey_as_bytes initiator_ephemeral_pub
    ++ responder_nonce
    ++ initiator_nonce in
  if verify responder_identity_pub msg signature then Ok tt else Err InvalidSignature.

Definition derive_root_key (raw_dh : RawDhSecret)
    (initiator_identity_pub responder_identity_pub : VerifyingKey)
    (initiator_ephemeral_pub responder_ephemeral_pub : X25519PublicKey)
    (initiator_nonce responder_nonce : bytes) : outcome HandshakeError RootKey :=
  let salt := initiator_nonce ++ responder_nonce in
  let info :=
    b_lit "decoypath-v1-transcript-binding:"
    ++ VerifyingKey_as_bytes initiator_identity_pub
    ++ VerifyingKey_as_bytes responder_identity_pub
    ++ X25519PublicKey_as_bytes initiator_ephemeral_pub
    ++ X25519PublicKey_as_bytes responder_ephemeral_pub in
  root_key_bytes ← o_ok_or CryptoFailure (hkdf_sha256 salt (RawDhSecret_0 raw_dh) info 32);
  Ok {| RootKey_0 := root_key_bytes |}.
End crypto.

(** ** The encodings that are signed and hashed *)

Section crypto_facts.
Context `{Ed25519Laws} `{!X25519} `{!X25519Laws} `{HashesLaws} `{!OsRngLaws}.

Lemma VerifyingKey_as_bytes_inj a b : VerifyingKey_as_bytes a = VerifyingKey_as_bytes b → a = b.
Proof.
  intros E%(f_equal VerifyingKey_from_bytes). rewrite !VerifyingKey_from_to in E. congruence.
Qed.

Lemma X25519PublicKey_as_bytes_inj a b :
  X25519PublicKey_as_bytes a = X25519PublicKey_as_bytes b → a = b.
Proof. intros E%(f_equal X25519PublicKey_from_bytes). by rewrite !X25519PublicKey_from_to in E. Qed.

(** Splits an equation between concatenations of fields of known lengths. *)
Ltac split_fields_eq E :=
  repeat (apply app_inj_len_l in E;
          [destruct E as [?E E] | by rewrite ?len_VerifyingKey, ?len_X25519PublicKey; congruence]).

Lemma sign_initiation_msg_inj i r e n i' r' e' n' :
  sign_initiation_msg i r e n = sign_initiation_msg i' r' e' n' →
  i = i' ∧ r = r' ∧ e = e' ∧ n = n'.
Proof.
  unfold sign_initiation_msg. intros E. split_fields_eq E.
  repeat split; eauto using VerifyingKey_as_bytes_inj, X25519PublicKey_as_bytes_inj.
Qed.

Lemma sign_response_msg_inj r i re ie rn inn r' i' re' ie' rn' inn' :
  len rn = len rn' →
  sign_response_msg r i re ie rn inn = sign_response_msg r' i' re' ie' rn' inn' →
  r = r' ∧ i = i' ∧ re = re' ∧ ie = ie' ∧ rn = rn' ∧ inn = inn'.
Proof.
  unfold sign_response_msg. intros L E. split_fields_eq E.
  repeat split; eauto using VerifyingKey_as_bytes_inj, X25519PublicKey_as_bytes_inj.
Qed.

(** The two signature domains do not meet. *)
Lemma sign_msgs_disjoint i r e n r' i' re ie rn inn :
  sign_initiation_msg i r e n ≠ sign_response_msg r' i' re ie rn inn.
Proof.
  unfold sign_initiation_msg, sign_response_msg.
  intros E%app_inj_len_l; [|done]. destruct E as [E _]. by vm_compute in E.
Qed.

Lemma verify_initiation_spec i r e n sg :
  verify_initiation i r e n sg =
    if verify i (sign_initiation_msg i r e n) sg then Ok tt else Err InvalidSignature.
Proof. done. Qed.

Lemma verify_response_spec r i re ie rn inn sg :
  verify_response r i re ie rn inn sg =
    if verify r (sign_response_msg r i re ie rn inn) sg then Ok tt else Err InvalidSignature.
Proof. done. Qed.

Lemma verify_sign_initiation k r e n :
  verify_initiation (IdentityPrivateKey_verifying_key k) r e n (sign_initiation k r e n) = Ok tt.
Proof.
  rewrite verify_initiation_spec. unfold sign_initiation, IdentityPrivateKey_verifying_key.
  by rewrite verify_sign.
Qed.

Lemma verify_sign_response k i re ie rn inn :
  verify_response (IdentityPrivateKey_verifying_key k) i re ie rn inn
    (sign_response k i re ie rn inn) = Ok tt.
Proof.
  rewrite verify_response_spec. unfold sign_response, IdentityPrivateKey_verifying_key.
  by rewrite verify_sign.
Qed.

Lemma derive_root_key_total dh i r ie re inn rn :
  ∃ k, derive_root_key dh i r ie re inn rn = Ok k ∧ len (RootKey_0 k) = 32.
Proof.
  unfold derive_root_key.
  edestruct hkdf_sha256_length as (okm & -> & L); [|by eexists]. lia.
Qed.

Lemma generate_identity_keypair_run {E} r :
  generate_identity_keypair (E := E) r =
    (Ok ({| IdentityPrivateKey_0 := (SigningKey_generate r).1 |},
         verifying_key (SigningKey_generate r).1), (SigningKey_generate r).2).
Proof.
  unfold generate_identity_keypair, IdentityPrivateKey_generate. rewrite bind_run.
  by destruct (SigningKey_generate r).
Qed.

Lemma generate_nonce_run {E} r :
  generate_nonce (E := E) r = (Ok (fill_bytes 16 r).1, (fill_bytes 16 r).2).
Proof. apply os_fill_run. Qed.

Lemma EphemeralKeyPair_generate_run {E} r :
  EphemeralKeyPair_generate (E := E) r =
    (Ok {| secret := (random_from_rng r).1;
           public := X25519PublicKey_from_secret (random_from_rng r).1 |}, (random_from_rng r).2).
Proof. unfold EphemeralKeyPair_generate. by destruct (random_from_rng r). Qed.

(** C36. The transcripts bind every session parameter: a signed initiation
    message determines both identities, the ephemeral key and the nonce; a
    signed response message (nonces being 16-byte arrays) determines all six
    parameters; and no message is both, so a signature of one pass can never
    be presented as a signature of the other. *)
Theorem transcripts_bind :
  (∀ i r e n i' r' e' n',
     sign_initiation_msg i r e n = sign_initiation_msg i' r' e' n' →
     i = i' ∧ r = r' ∧ e = e' ∧ n = n')
  ∧ (∀ r i re ie rn inn r' i' re' ie' rn' inn',
     len rn = 16 → len rn' = 16 →
     sign_response_msg r i re ie rn inn = sign_response_msg r' i' re' ie' rn' inn' →
     r = r' ∧ i = i' ∧ re = re' ∧ ie = ie' ∧ rn = rn' ∧ inn = inn')
  ∧ (∀ i r e n r' i' re ie rn inn,
     sign_initiation_msg i r e n ≠ sign_response_msg r' i' re ie rn inn).
Proof.
  split; [|split].
  - apply sign_initiation_msg_inj.
  - intros. eapply sign_response_msg_inj; [congruence|done].
  - apply sign_msgs_disjoint.
Qed.
End crypto_facts.
