(* ===== verification/Handshake.v ===== *)
(** * The two-pass handshake ([src/handshake.rs])

    [InitiatorState] between [initiate] and [finalize], and the responder's
    single step [respond].  Random choices are drawn from the state of the
    operating system's source; a value that the source moves ([self] of
    [finalize], the identity key of [initiate]) is a plain argument here. *)

From S2P Require Import Prelude Outcome Primitives Errors Types Crypto.

Section handshake.
Context `{Ed25519} `{!X25519} `{Hashes}.

Record InitiatorState := {
  identity_pub : VerifyingKey;
  expected_responder_pub : VerifyingKey;
  ephemeral : EphemeralKeyPair;
  ephemeral_pub : X25519PublicKey;
  nonce : bytes;
}.

Definition initiate {E} (identity_priv : IdentityPrivateKey)
    (expected_responder_pub : VerifyingKey) : M rng E (InitiatorState * HandshakeInitPayload) :=
  let identity_pub := IdentityPrivateKey_verifying_key identity_priv in
  ephemeral ← EphemeralKeyPair_generate;
  let ephemeral_pub := public ephemeral in
  nonce ← generate_nonce;
  let signature := sign_initiation identity_priv expected_responder_pub ephemeral_pub nonce in
  let payload := {| initiator_identity_pub := identity_pub;
                    initiator_ephemeral_pub := ephemeral_pub;
                    init_nonce := nonce;
                    init_signature := signature |} in
  let state := {| identity_pub := identity_pub;
                  expected_responder_pub := expected_responder_pub;
                  ephemeral := ephemeral;
                  ephemeral_pub := ephemeral_pub;
                  nonce := nonce |} in
  mret (state, payload).

Definition finalize (self : InitiatorState) (response : HandshakeResponsePayload)
    : outcome HandshakeError RootKey :=
  if negb (VerifyingKey_eq (responder_identity_pub response) (expected_responder_pub self))
  then Err PeerIdentityMismatch else
  _ ← verify_response (expected_responder_pub self) (identity_pub self)
        (responder_ephemeral_pub response) (ephemeral_pub self)
        (resp_nonce response) (nonce self) (resp_signature response);
  let raw_dh := diffie_hellman (ephemeral self) (responder_ephemeral_pub response) in
  derive_root_key raw_dh (identity_pub self) (expected_responder_pub self)
    (ephemeral_pub self) (responder_ephemeral_pub response)
    (nonce self) (resp_nonce response).

Definition respond (responder_identity_priv : IdentityPrivateKey)
    (expected_initiator_pub : option VerifyingKey) (initiation : HandshakeInitPayload)
    : M rng HandshakeError (HandshakeResponsePayload * RootKey) :=
  let responder_identity_pub := IdentityPrivateKey_verifying_key responder_identity_priv in
  _ ← match expected_initiator_pub with
      | Some expected =>
          if negb (VerifyingKey_eq (initiator_identity_pub initiation) expected)
          then throw PeerIdentityMismatch else mret tt
      | None => mret tt
      end;
  _ ← lift_o (verify_initiation (initiator_identity_pub initiation) responder_identity_pub
                (initiator_ephemeral_pub initiation) (init_nonce initiation)
                (init_signature initiation));
  responder_ephemeral ← EphemeralKeyPair_generate;
  let responder_ephemeral_pub := public responder_ephemeral in
  responder_nonce ← generate_nonce;
  let signature := sign_response responder_identity_priv (initiator_identity_pub initiation)
                     responder_ephemeral_pub (initiator_ephemeral_pub initiation)
                     responder_nonce (init_nonce initiation) in
  let response_payload := {| responder_identity_pub := responder_identity_pub;
                             responder_ephemeral_pub := responder_ephemeral_pub;
                             resp_nonce := responder_nonce;
                             resp_signature := signature |} in
  let raw_dh := diffie_hellman responder_ephemeral (initiator_ephemeral_pub initiation) in
  root_key ← lift_o (derive_root_key raw_dh (initiator_identity_pub initiation)
               responder_identity_pub (initiator_ephemeral_pub initiation)
               responder_ephemeral_pub (init_nonce initiation) responder_nonce);
  mret (response_payload, root_key).
End handshake.

Section handshake_facts.
Context `{Ed25519Laws} `{!X25519} `{!X25519Laws} `{HashesLaws} `{!OsRngLaws}.

Lemma VerifyingKey_eq_spec a b : VerifyingKey_eq a b = true ↔ a = b.
Proof.
  rewrite VerifyingKey_eq_bytes. split; [apply VerifyingKey_as_bytes_inj|by intros ->].
Qed.

Lemma VerifyingKey_eq_refl a : VerifyingKey_eq a a = true.
Proof. by apply VerifyingKey_eq_spec. Qed.

Lemma VerifyingKey_eq_false a b : VerifyingKey_eq a b = false ↔ a ≠ b.
Proof. rewrite <-VerifyingKey_eq_spec. by destruct (VerifyingKey_eq a b). Qed.

(** The message whose signature [finalize] checks, and the root key it
    derives. *)
Definition finalize_msg (self : InitiatorState) (response : HandshakeResponsePayload) : bytes :=
  sign_response_msg (expected_responder_pub self) (identity_pub self)
    (responder_ephemeral_pub response) (ephemeral_pub self) (resp_nonce response) (nonce self).

Definition finalize_key (self : InitiatorState) (response : HandshakeResponsePayload)
    : outcome HandshakeError RootKey :=
  derive_root_key (diffie_hellman (ephemeral self) (responder_ephemeral_pub response))
    (identity_pub self) (expected_responder_pub self) (ephemeral_pub self)
    (responder_ephemeral_pub response) (nonce self) (resp_nonce response).

Lemma finalize_spec self response :
  finalize self response =
    if VerifyingKey_eq (responder_identity_pub response) (expected_responder_pub self) then
      if verify (expected_responder_pub self) (finalize_msg self response)
           (resp_signature response)
      then finalize_key self response else Err InvalidSignature
    else Err PeerIdentityMismatch.
Proof.
  unfold finalize. destruct (VerifyingKey_eq _ _); [|done]. cbn [negb].
  rewrite verify_response_spec. unfold finalize_msg. by destruct (verify _ _ _).
Qed.

Lemma finalize_key_total self response :
  ∃ k, finalize_key self response = Ok k ∧ len (RootKey_0 k) = 32.
Proof. apply derive_root_key_total. Qed.

(** The state and the payload that [initiate] builds from the two values it
    draws. *)
Definition initiate_state (k : IdentityPrivateKey) (resp : VerifyingKey)
    (s : EphemeralSecret) (n : bytes) : InitiatorState :=
  {| identity_pub := IdentityPrivateKey_verifying_key k;
     expected_responder_pub := resp;
     ephemeral := {| secret := s; public := X25519PublicKey_from_secret s |};
     ephemeral_pub := X25519PublicKey_from_secret s;
     nonce := n |}.

Definition initiate_payload (k : IdentityPrivateKey) (resp : VerifyingKey)
    (s : EphemeralSecret) (n : bytes) : HandshakeInitPayload :=
  {| initiator_identity_pub := IdentityPrivateKey_verifying_key k;
     initiator_ephemeral_pub := X25519PublicKey_from_secret s;
     init_nonce := n;
     init_signature := sign_initiation k resp (X25519PublicKey_from_secret s) n |}.

(** Ephemeral secret, nonce and random state drawn by either party. *)
Definition draw (r : rng) : EphemeralSecret * bytes * rng :=
  let '(s, r1) := random_from_rng r in
  let '(n, r2) := fill_bytes 16 r1 in (s, n, r2).

Lemma draw_nonce r : len (draw r).1.2 = 16.
Proof.
  unfold draw. destruct (random_from_rng r) as [s r1].
  pose proof (len_fill_bytes 16 r1). by destruct (fill_bytes 16 r1).
Qed.

Lemma initiate_run {E} k resp r :
  initiate (E := E) k resp r =
    (Ok (initiate_state k resp (draw r).1.1 (draw r).1.2,
         initiate_payload k resp (draw r).1.1 (draw r).1.2), (draw r).2).
Proof.
  unfold initiate, draw. rewrite bind_run, EphemeralKeyPair_generate_run.
  destruct (random_from_rng r) as [s r1]; cbn [fst snd public].
  rewrite bind_run, generate_nonce_run. by destruct (fill_bytes 16 r1).
Qed.

(** The responder's answer from the two values it draws. *)
Definition respond_payload (k : IdentityPrivateKey) (p : HandshakeInitPayload)
    (s : EphemeralSecret) (n : bytes) : HandshakeResponsePayload :=
  {| responder_identity_pub := IdentityPrivateKey_verifying_key k;
     responder_ephemeral_pub := X25519PublicKey_from_secret s;
     resp_nonce := n;
     resp_signature := sign_response k (initiator_identity_pub p)
       (X25519PublicKey_from_secret s) (initiator_ephemeral_pub p) n (init_nonce p) |}.

Definition respond_key (k : IdentityPrivateKey) (p : HandshakeInitPayload)
    (s : EphemeralSecret) (n : bytes) : outcome HandshakeError RootKey :=
  derive_root_key {| RawDhSecret_0 := X25519_diffie_hellman s (initiator_ephemeral_pub p) |}
    (initiator_identity_pub p) (IdentityPrivateKey_verifying_key k)
    (initiator_ephemeral_pub p) (X25519PublicKey_from_secret s) (init_nonce p) n.

Definition respond_peer_ok (expected : option VerifyingKey) (p : HandshakeInitPayload) : bool :=
  match expected with Some e => VerifyingKey_eq (initiator_identity_pub p) e | None => true end.

Definition respond_msg (k : IdentityPrivateKey) (p : HandshakeInitPayload) : bytes :=
  sign_initiation_msg (initiator_identity_pub p) (IdentityPrivateKey_verifying_key k)
    (initiator_ephemeral_pub p) (init_nonce p).

Lemma respond_spec k expected p r :
  respond k expected p r =
    if respond_peer_ok expected p then
      if verify (initiator_identity_pub p) (respond_msg k p) (init_signature p) then
        match respond_key k p (draw r).1.1 (draw r).1.2 with
        | Ok rk => (Ok (respond_payload k p (draw r).1.1 (draw r).1.2, rk), (draw r).2)
        | Err e => (Err e, (draw r).2)
        | Panic => (Panic, (draw r).2)
        end
      else (Err InvalidSignature, r)
    else (Err PeerIdentityMismatch, r).
Proof.
  unfold respond. destruct (respond_peer_ok expected p) eqn:Hp.
  - rewrite (bind_Ok _ _ r tt r) by (destruct expected as [e|]; cbn in *; by rewrite ?Hp).
    rewrite bind_run, lift_run, verify_initiation_spec. fold (respond_msg k p).
    destruct (verify _ _ _); [|done].
    unfold draw. rewrite bind_run, EphemeralKeyPair_generate_run.
    destruct (random_from_rng r) as [s r1]; cbn [fst snd public].
    rewrite bind_run, generate_nonce_run. destruct (fill_bytes 16 r1) as [n r2]; cbn [fst snd].
    rewrite bind_run, lift_run. unfold respond_key, diffie_hellman. cbn [secret].
    by destruct (derive_root_key _ _ _ _ _ _ _).
  - destruct expected as [e|]; cbn in *; [|done]. by rewrite bind_run, Hp.
Qed.

Lemma respond_key_total k p s n :
  ∃ rk, respond_key k p s n = Ok rk ∧ len (RootKey_0 rk) = 32.
Proof. apply derive_root_key_total. Qed.

Lemma respond_Ok k expected p r resp rk r' :
  respond k expected p r = (Ok (resp, rk), r') →
  resp = respond_payload k p (draw r).1.1 (draw r).1.2
  ∧ respond_key k p (draw r).1.1 (draw r).1.2 = Ok rk ∧ r' = (draw r).2
  ∧ respond_peer_ok expected p = true
  ∧ verify (initiator_identity_pub p) (respond_msg k p) (init_signature p) = true.
Proof.
  rewrite respond_spec. destruct (respond_peer_ok expected p); [|done].
  destruct (verify _ _ _); [|done].
  destruct (respond_key _ _ _ _) eqn:E; intros [= <- <- <-]; auto.
Qed.

(** The two ways a response ends. *)
Lemma respond_cases k expected p r :
  (∃ rk, respond k expected p r
           = (Ok (respond_payload k p (draw r).1.1 (draw r).1.2, rk), (draw r).2)
         ∧ len (RootKey_0 rk) = 32)
  ∨ (∃ e, respond k expected p r = (Err e, r)).
Proof.
  rewrite respond_spec. destruct (respond_peer_ok expected p); [|right; by eexists].
  destruct (verify _ _ _); [|right; by eexists].
  destruct (respond_key_total k p (draw r).1.1 (draw r).1.2) as (rk & -> & L). left. by exists rk.
Qed.

Lemma finalize_cases st resp :
  (∃ rk, finalize st resp = Ok rk ∧ len (RootKey_0 rk) = 32) ∨ (∃ e, finalize st resp = Err e).
Proof.
  rewrite finalize_spec. destruct (VerifyingKey_eq _ _); [|right; by eexists].
  destruct (verify _ _ _); [|right; by eexists]. left. apply finalize_key_total.
Qed.

Lemma keys_agree ik rk si ni sr nr :
  let rvk := IdentityPrivateKey_verifying_key rk in
  finalize_key (initiate_state ik rvk si ni)
    (respond_payload rk (initiate_payload ik rvk si ni) sr nr)
  = respond_key rk (initiate_payload ik rvk si ni) sr nr.
Proof.
  unfold finalize_key, respond_key, diffie_hellman; cbn. by rewrite X25519_agree.
Qed.

Lemma initiation_verifies ik rk s n :
  let p := initiate_payload ik (IdentityPrivateKey_verifying_key rk) s n in
  verify (initiator_identity_pub p) (respond_msg rk p) (init_signature p) = true.
Proof. apply verify_sign. Qed.

Lemma response_verifies ik rk si ni sr nr :
  let rvk := IdentityPrivateKey_verifying_key rk in
  let resp := respond_payload rk (initiate_payload ik rvk si ni) sr nr in
  verify rvk (finalize_msg (initiate_state ik rvk si ni) resp) (resp_signature resp) = true.
Proof. apply verify_sign. Qed.

(** C6. Key agreement over the wire: whatever the random draws, when the
    initiator addresses the responder's identity and the responder expects
    nobody in particular or that initiator, the initiation payload survives
    its encoding, the responder accepts it, the response payload survives its
    encoding, and the initiator finalizes with the responder's root key, of
    32 bytes. *)
Theorem handshake_agreement ik rk expected r0 r1 :
  expected = None ∨ expected = Some (IdentityPrivateKey_verifying_key ik) →
  ∃ st p r0' wire1 resp root r1' wire2,
    initiate (E := HandshakeError) ik (IdentityPrivateKey_verifying_key rk) r0 = (Ok (st, p), r0')
    ∧ HandshakeInitPayload_to_bytes p = Some wire1
    ∧ HandshakeInitPayload_from_bytes wire1 = Ok p
    ∧ respond rk expected p r1 = (Ok (resp, root), r1')
    ∧ HandshakeResponsePayload_to_bytes resp = Some wire2
    ∧ HandshakeResponsePayload_from_bytes wire2 = Ok resp
    ∧ finalize st resp = Ok root
    ∧ len (RootKey_0 root) = 32.
Proof.
  intros Hexp. set (rvk := IdentityPrivateKey_verifying_key rk).
  set (p := initiate_payload ik rvk (draw r0).1.1 (draw r0).1.2).
  set (resp := respond_payload rk p (draw r1).1.1 (draw r1).1.2).
  destruct (respond_key_total rk p (draw r1).1.1 (draw r1).1.2) as (root & Hroot & Hlen).
  assert (init_payload_wf p) by apply draw_nonce.
  assert (resp_payload_wf resp) by apply draw_nonce.
  exists (initiate_state ik rvk (draw r0).1.1 (draw r0).1.2), p, (draw r0).2,
    (init_payload_wire p), resp, root, (draw r1).2, (resp_payload_wire resp).
  split; [apply initiate_run|]. split; [by apply init_to_bytes_wire|].
  split; [by apply init_from_wire|]. split.
  { rewrite respond_spec. replace (respond_peer_ok expected p) with true
      by (destruct Hexp as [->| ->]; [done|symmetry; apply VerifyingKey_eq_refl]).
    rewrite (initiation_verifies ik rk _ _ :
               verify (initiator_identity_pub p) (respond_msg rk p) (init_signature p) = true).
    by rewrite Hroot. }
  split; [by apply resp_to_bytes_wire|]. split; [by apply resp_from_wire|].
  split; [|done]. rewrite finalize_spec. cbn [responder_identity_pub resp respond_payload
    expected_responder_pub initiate_state]. rewrite VerifyingKey_eq_refl.
  unfold resp, p, rvk. rewrite response_verifies, keys_agree. apply Hroot.
Qed.

(** C25. The initiator accepts exactly the responses that carry the expected
    identity and a signature of that identity over all six session
    parameters; each other response is rejected with the matching error, a
    wrong identity being reported before a wrong signature.  [finalize]
    reports no other error and never panics. *)
Theorem finalize_outcomes st resp :
  (∀ root, finalize st resp = Ok root ↔
     responder_identity_pub resp = expected_responder_pub st
     ∧ verify (expected_responder_pub st) (finalize_msg st resp) (resp_signature resp) = true
     ∧ finalize_key st resp = Ok root)
  ∧ (∀ e, finalize st resp = Err e ↔
     e = PeerIdentityMismatch ∧ responder_identity_pub resp ≠ expected_responder_pub st
     ∨ e = InvalidSignature ∧ responder_identity_pub resp = expected_responder_pub st
       ∧ verify (expected_responder_pub st) (finalize_msg st resp) (resp_signature resp) = false)
  ∧ finalize st resp ≠ Panic.
Proof.
  rewrite finalize_spec. destruct (finalize_key_total st resp) as (k & -> & _).
  destruct (VerifyingKey_eq _ _) eqn:Hv; [apply VerifyingKey_eq_spec in Hv|apply VerifyingKey_eq_false in Hv];
    destruct (verify _ _ _); intuition congruence.
Qed.

(** C26. The responder checks the peer and then the signature, and only then
    draws randomness: a rejected initiation leaves the random source where it
    was.  An accepted one always produces a well-formed response and a
    32-byte root key. *)
Theorem respond_outcomes rk expected p r :
  (respond_peer_ok expected p = false →
     respond rk expected p r = (Err PeerIdentityMismatch, r))
  ∧ (respond_peer_ok expected p = true →
     verify (initiator_identity_pub p) (respond_msg rk p) (init_signature p) = false →
     respond rk expected p r = (Err InvalidSignature, r))
  ∧ (respond_peer_ok expected p = true →
     verify (initiator_identity_pub p) (respond_msg rk p) (init_signature p) = true →
     ∃ resp root, respond rk expected p r = (Ok (resp, root), (draw r).2)
       ∧ resp_payload_wf resp ∧ len (RootKey_0 root) = 32
       ∧ responder_identity_pub resp = IdentityPrivateKey_verifying_key rk).
Proof.
  rewrite respond_spec. split; [by intros ->|]. split; [by intros -> ->|].
  intros -> ->. destruct (respond_key_total rk p (draw r).1.1 (draw r).1.2) as (root & -> & L).
  do 2 eexists. split; [done|]. split; [apply draw_nonce|done].
Qed.

(** C15. Authentication of the derived key.  An initiator that talks to identity
    [rk] receives some response, possibly altered on the way, and accepts it;
    the holder of [rk] answered some initiation, possibly altered as well.
    If the signature the initiator checked is not a forgery, that is, it is
    over the message the responder signed, then both hold the same root key. *)
Theorem accepted_key_is_responders_key ik rk expected r0 st p r0' p' r1 resp root r1' resp' root' :
  initiate (E := HandshakeError) ik (IdentityPrivateKey_verifying_key rk) r0 = (Ok (st, p), r0') →
  respond rk expected p' r1 = (Ok (resp, root), r1') →
  resp_payload_wf resp' →
  finalize st resp' = Ok root' →
  (verify (IdentityPrivateKey_verifying_key rk) (finalize_msg st resp')
     (resp_signature resp') = true →
   finalize_msg st resp' =
     sign_response_msg (IdentityPrivateKey_verifying_key rk) (initiator_identity_pub p')
       (responder_ephemeral_pub resp) (initiator_ephemeral_pub p')
       (resp_nonce resp) (init_nonce p')) →
  root' = root.
Proof.
  rewrite initiate_run. intros [= <- <- <-].
  intros (-> & Hroot & -> & _ & _)%respond_Ok Hwf Hfin Huf.
  rewrite finalize_spec in Hfin. destruct (VerifyingKey_eq _ _); [|done].
  destruct (verify _ _ _) eqn:Hver; [|done]. specialize (Huf eq_refl). unfold finalize_msg in Huf.
  apply sign_response_msg_inj in Huf as (_ & Hi & He & Hie & Hn & Hin);
    [|by rewrite Hwf; cbn; rewrite draw_nonce].
  enough (Ok (E := HandshakeError) root' = Ok root) by congruence.
  rewrite <-Hfin, <-Hroot. unfold finalize_key, respond_key, diffie_hellman. cbn in *.
  by rewrite Hi, He, <-Hie, Hn, Hin, X25519_agree.
Qed.
End handshake_facts.
