(* ===== verification/Protocol.v ===== *)
(** * The handshake as a protocol ([src/handshake.rs])

    Any number of sessions of [initiate], [respond] and [finalize] by any
    parties, with a network that chooses every payload a party receives.  The
    two theorems of [Handshake] about one run say what the functions compute;
    [mutual_agreement] says what the sessions that complete know about each
    other when the signatures of honest identities are not forged. *)

From S2P Require Import Prelude Outcome Primitives Errors Types Crypto Handshake.

Section protocol.
Context `{Ed25519Laws} `{!X25519} `{!X25519Laws} `{HashesLaws} `{!OsRngLaws}.

(** An initiator's session: its state, and once [finalize] has consumed the
    state, the response it was given and the answer. *)
Record initiator_session := {
  is_state : InitiatorState;
  is_end : option (HandshakeResponsePayload * outcome HandshakeError RootKey);
}.

(** A responder's session: one call of [respond] that succeeded. *)
Record responder_session := {
  rs_key : IdentityPrivateKey;
  rs_received : HandshakeInitPayload;
  rs_response : HandshakeResponsePayload;
  rs_root : RootKey;
}.

Record net := { initiators : list initiator_session; responders : list responder_session }.

Definition net_start_state : net := {| initiators := []; responders := [] |}.

(** The transcript that a session signed. *)
Definition initiator_signed (s : InitiatorState) : bytes :=
  sign_initiation_msg (identity_pub s) (expected_responder_pub s) (ephemeral_pub s) (nonce s).

Definition responder_signed (t : responder_session) : bytes :=
  sign_response_msg (IdentityPrivateKey_verifying_key (rs_key t))
    (initiator_identity_pub (rs_received t)) (responder_ephemeral_pub (rs_response t))
    (initiator_ephemeral_pub (rs_received t)) (resp_nonce (rs_response t))
    (init_nonce (rs_received t)).

(** What the holder of an identity has signed so far, in either role. *)
Inductive signed (w : net) (vk : VerifyingKey) (m : bytes) : Prop :=
| signed_initiation s :
    s ∈ initiators w → identity_pub (is_state s) = vk → m = initiator_signed (is_state s) →
    signed w vk m
| signed_response t :
    t ∈ responders w → IdentityPrivateKey_verifying_key (rs_key t) = vk →
    m = responder_signed t → signed w vk m.

(** A signature that verifies under an honest identity is on something that
    its holder signed. *)
Definition unforged (honest : VerifyingKey → Prop) (w : net) (vk : VerifyingKey) (m : bytes)
    (sg : Signature) : Prop :=
  honest vk → verify vk m sg = true → signed w vk m.

Definition responders_after (l : list responder_session) (k : IdentityPrivateKey)
    (p : HandshakeInitPayload)
    (res : outcome HandshakeError (HandshakeResponsePayload * RootKey)) : list responder_session :=
  match res with
  | Ok (resp, root) =>
      l ++ [{| rs_key := k; rs_received := p; rs_response := resp; rs_root := root |}]
  | _ => l
  end.

(** The moves: a party starts a session, with any random state of its machine;
    a party answers any initiation payload the network gives it; a waiting
    initiator finalizes with any response payload the network gives it. *)
Inductive hs_step (honest : VerifyingKey → Prop) (w : net) : net → Prop :=
| hs_initiate ik rvk r st p r' :
    initiate (E := HandshakeError) ik rvk r = (Ok (st, p), r') →
    hs_step honest w {| initiators := initiators w ++ [{| is_state := st; is_end := None |}];
                        responders := responders w |}
| hs_respond rk expected p r res r' :
    unforged honest w (initiator_identity_pub p) (respond_msg rk p) (init_signature p) →
    respond rk expected p r = (res, r') →
    hs_step honest w {| initiators := initiators w;
                        responders := responders_after (responders w) rk p res |}
| hs_finalize i s resp :
    initiators w !! i = Some s → is_end s = None → resp_payload_wf resp →
    unforged honest w (expected_responder_pub (is_state s)) (finalize_msg (is_state s) resp)
      (resp_signature resp) →
    hs_step honest w
      {| initiators := <[i := {| is_state := is_state s;
                                 is_end := Some (resp, finalize (is_state s) resp) |}]> (initiators w);
         responders := responders w |}.

Inductive hs_reach (honest : VerifyingKey → Prop) : net → Prop :=
| hs_start : hs_reach honest net_start_state
| hs_next w w' : hs_reach honest w → hs_step honest w w' → hs_reach honest w'.

(** ** Agreement *)

(** The responder's session answers the initiator's: both name each other, and
    the initiation the responder received carries the initiator's values. *)
Record answers (t : responder_session) (s : InitiatorState) : Prop := {
  an_initiator : initiator_identity_pub (rs_received t) = identity_pub s;
  an_responder : IdentityPrivateKey_verifying_key (rs_key t) = expected_responder_pub s;
  an_ephemeral : initiator_ephemeral_pub (rs_received t) = ephemeral_pub s;
  an_nonce : init_nonce (rs_received t) = nonce s;
}.

(** ** The invariant *)

Definition initiator_ok (honest : VerifyingKey → Prop) (w : net) (s : initiator_session) : Prop :=
  (∃ ik rvk sec n, len n = 16 ∧ is_state s = initiate_state ik rvk sec n)
  ∧ ∀ resp res, is_end s = Some (resp, res) →
      res = finalize (is_state s) resp ∧ resp_payload_wf resp
      ∧ unforged honest w (expected_responder_pub (is_state s)) (finalize_msg (is_state s) resp)
          (resp_signature resp).

Definition responder_ok (honest : VerifyingKey → Prop) (w : net) (t : responder_session) : Prop :=
  (∃ sec n, len n = 16 ∧ rs_response t = respond_payload (rs_key t) (rs_received t) sec n
     ∧ respond_key (rs_key t) (rs_received t) sec n = Ok (rs_root t))
  ∧ verify (initiator_identity_pub (rs_received t)) (respond_msg (rs_key t) (rs_received t))
      (init_signature (rs_received t)) = true
  ∧ (honest (initiator_identity_pub (rs_received t)) →
       signed w (initiator_identity_pub (rs_received t)) (respond_msg (rs_key t) (rs_received t))).

Definition hs_inv (honest : VerifyingKey → Prop) (w : net) : Prop :=
  (∀ s, s ∈ initiators w → initiator_ok honest w s)
  ∧ (∀ t, t ∈ responders w → responder_ok honest w t).

(** Later states remember the sessions of earlier ones. *)
Definition net_le (w w' : net) : Prop :=
  (∀ s, s ∈ initiators w → ∃ s', s' ∈ initiators w' ∧ is_state s' = is_state s)
  ∧ (∀ t, t ∈ responders w → t ∈ responders w').

Lemma signed_mono w w' vk m : net_le w w' → signed w vk m → signed w' vk m.
Proof.
  intros [Hi Hr] [s Hs Hvk Hm|t Ht Hvk Hm].
  - destruct (Hi s Hs) as (s' & Hs' & E). apply (signed_initiation _ _ _ s'); by rewrite ?E.
  - apply (signed_response _ _ _ t); auto.
Qed.

Lemma unforged_mono honest w w' vk m sg :
  net_le w w' → unforged honest w vk m sg → unforged honest w' vk m sg.
Proof. intros Hle Hu Hh Hv. eapply signed_mono; [done|]. by apply Hu. Qed.

Lemma initiator_ok_mono honest w w' s :
  net_le w w' → initiator_ok honest w s → initiator_ok honest w' s.
Proof.
  intros Hle [Hs He]. split; [done|]. intros resp res E.
  destruct (He resp res E) as (? & ? & ?). eauto using unforged_mono.
Qed.

Lemma responder_ok_mono honest w w' t :
  net_le w w' → responder_ok honest w t → responder_ok honest w' t.
Proof. intros Hle (Ht & Hv & Hs). split; [done|]. split; [done|]. eauto using signed_mono. Qed.

Lemma responders_after_cases l rk expected p r res r' t :
  respond rk expected p r = (res, r') → t ∈ responders_after l rk p res →
  t ∈ l
  ∨ rs_key t = rk ∧ rs_received t = p
    ∧ verify (initiator_identity_pub p) (respond_msg rk p) (init_signature p) = true
    ∧ ∃ sec n, len n = 16 ∧ rs_response t = respond_payload rk p sec n
        ∧ respond_key rk p sec n = Ok (rs_root t).
Proof.
  intros E Ht. destruct res as [[resp root]|e|]; cbn in Ht; [|by left..].
  apply elem_of_app in Ht as [Ht|Ht%list_elem_of_singleton]; [by left|right]. subst t. cbn.
  apply respond_Ok in E as (-> & Hk & _ & _ & Hv). repeat (split; [done|]).
  exists (draw r).1.1, (draw r).1.2. split; [apply draw_nonce|done].
Qed.

Lemma responders_after_mono l rk p res t : t ∈ l → t ∈ responders_after l rk p res.
Proof. intros Ht. destruct res as [[resp root]|e|]; cbn; [|done..]. apply elem_of_app. by left. Qed.

(** A list after an update: the new element, or an old one. *)
Lemma elem_of_update {A} (l : list A) i x y : y ∈ <[i:=x]> l → y = x ∨ y ∈ l.
Proof.
  intros (j & Hj)%list_elem_of_lookup. apply list_lookup_insert_Some in Hj
    as [(_ & -> & _)|(_ & Hj)]; [by left|right]. by eapply list_elem_of_lookup_2.
Qed.

Lemma hs_step_le honest w w' : hs_step honest w w' → net_le w w'.
Proof.
  intros [ik rvk r st p r' E|rk expected p r res r' Hu E|i s resp Hi He Hwf Hu];
    split; cbn; try done.
  - intros s Hs. exists s. split; [apply elem_of_app; by left|done].
  - intros s Hs. by exists s.
  - intros t. apply responders_after_mono.
  - intros s' (j & Hj)%list_elem_of_lookup. destruct (decide (i = j)) as [<-|Hne].
    + assert (s' = s) as -> by congruence. eexists. split.
      { apply (list_elem_of_lookup_2 _ i), list_lookup_insert_eq. by eapply lookup_lt_Some. }
      done.
    + exists s'. split; [|done]. apply (list_elem_of_lookup_2 _ j).
      by rewrite list_lookup_insert_ne.
Qed.

Lemma hs_step_inv honest w w' : hs_inv honest w → hs_step honest w w' → hs_inv honest w'.
Proof.
  intros [Hi Hr] Hs. pose proof (hs_step_le _ _ _ Hs) as Hle. split.
  - intros s0 Hin. destruct Hs as [ik rvk r st p r' E|rk expected p r res r' Hu E
                                  |i s resp Hl He Hwf Hu]; cbn in Hin.
    + apply elem_of_app in Hin as [Hin|Hin%list_elem_of_singleton];
        [by eapply initiator_ok_mono, Hi|]. subst s0.
      rewrite initiate_run in E. injection E as <- <- <-. split; [|done].
      do 4 eexists. split; [apply draw_nonce|done].
    + by eapply initiator_ok_mono, Hi.
    + apply elem_of_update in Hin as [->|Hin]; [|by eapply initiator_ok_mono, Hi].
      destruct (Hi s) as [Hst _]; [by eapply list_elem_of_lookup_2|]. split; [done|].
      cbn. intros resp' res [= <- <-]. split; [done|]. split; [done|]. by eapply unforged_mono.
  - intros t Ht. destruct Hs as [ik rvk r st p r' E|rk expected p r res r' Hu E
                                 |i s resp Hl He Hwf Hu]; cbn in Ht;
      [by eapply responder_ok_mono, Hr| |by eapply responder_ok_mono, Hr].
    destruct (responders_after_cases _ _ _ _ _ _ _ _ E Ht) as [Hin|(Hk & Hp & Hv & Hx)];
      [by eapply responder_ok_mono, Hr|].
    unfold responder_ok. rewrite Hk, Hp. split; [done|]. split; [done|].
    intros Hh. eapply signed_mono; [done|]. by apply Hu.
Qed.

Lemma hs_reach_inv honest w : hs_reach honest w → hs_inv honest w.
Proof.
  induction 1 as [|w w' _ IH Hs]; [|by eapply hs_step_inv].
  split; intros x Hx; by apply elem_of_nil in Hx.
Qed.

(** A verified response transcript of an honest identity is that of a responder's
    session, and a verified initiation transcript that of an initiator's. *)
Lemma signed_is_response honest w st resp :
  hs_inv honest w → resp_payload_wf resp →
  signed w (expected_responder_pub st) (finalize_msg st resp) →
  ∃ t, t ∈ responders w ∧ answers t st
    ∧ responder_ephemeral_pub resp = responder_ephemeral_pub (rs_response t)
    ∧ resp_nonce resp = resp_nonce (rs_response t).
Proof.
  intros [_ Hr] Hwf [s Hs _ Hm|t Ht Hvk Hm].
  { symmetry in Hm. by destruct (sign_msgs_disjoint _ _ _ _ _ _ _ _ _ _ Hm). }
  destruct (Hr t Ht) as ((sec & n & Ln & Hresp & _) & _).
  unfold finalize_msg, responder_signed in Hm.
  apply sign_response_msg_inj in Hm as (_ & ? & ? & ? & ? & ?); [|rewrite Hresp; cbn; congruence].
  exists t. by repeat split.
Qed.

Lemma signed_is_initiation w k p :
  signed w (initiator_identity_pub p) (respond_msg k p) →
  ∃ s, s ∈ initiators w
    ∧ identity_pub (is_state s) = initiator_identity_pub p
    ∧ expected_responder_pub (is_state s) = IdentityPrivateKey_verifying_key k
    ∧ ephemeral_pub (is_state s) = initiator_ephemeral_pub p ∧ nonce (is_state s) = init_nonce p.
Proof.
  intros [s Hs _ Hm|t Ht _ Hm]; [|by destruct (sign_msgs_disjoint _ _ _ _ _ _ _ _ _ _ Hm)].
  apply sign_initiation_msg_inj in Hm as (-> & -> & -> & ->). by exists s.
Qed.

(** Sessions that agree on all six parameters hold the same key. *)
Lemma answers_same_key honest w s t resp root :
  initiator_ok honest w s → responder_ok honest w t → answers t (is_state s) →
  responder_ephemeral_pub resp = responder_ephemeral_pub (rs_response t) →
  resp_nonce resp = resp_nonce (rs_response t) →
  finalize_key (is_state s) resp = Ok root → rs_root t = root.
Proof.
  intros [(ik & rvk & se & n & _ & Hst) _] ((sec & n' & _ & Hresp & Hk) & _) [Ai Ar Ae An] He Hn Hf.
  rewrite Hresp in He, Hn. cbn in He, Hn.
  enough (Ok (E := HandshakeError) (rs_root t) = Ok root) by congruence.
  rewrite <-Hf, <-Hk. unfold finalize_key, respond_key, diffie_hellman.
  rewrite Ai, Ar, Ae, An, He, Hn, Hst. cbn. by rewrite X25519_agree.
Qed.

Lemma finalize_Ok st resp root :
  finalize st resp = Ok root →
  verify (expected_responder_pub st) (finalize_msg st resp) (resp_signature resp) = true
  ∧ finalize_key st resp = Ok root.
Proof.
  rewrite finalize_spec. destruct (VerifyingKey_eq _ _); [|done]. by destruct (verify _ _ _).
Qed.

Lemma respond_again k p r :
  verify (initiator_identity_pub p) (respond_msg k p) (init_signature p) = true →
  ∃ resp root, respond k None p r = (Ok (resp, root), (draw r).2).
Proof.
  intros Hv. rewrite respond_spec, Hv. cbn [respond_peer_ok].
  destruct (respond_key_total k p (draw r).1.1 (draw r).1.2) as (root & -> & _). by eauto.
Qed.

(** C5. Mutual agreement.  In every state that any number of sessions reach over a
    network that chooses all payloads, where signatures of honest identities
    are not forged: an initiator's session that completed with an honest peer
    has a session of that peer which names it back, received its ephemeral key
    and nonce, sent the ephemeral key and nonce it finalized with, and holds
    the same root key; and a responder's session that names an honest
    initiator answers a session which that initiator started for it.  The
    second half is not injective: the network can replay an initiation and the
    responder opens another session for it. *)
Theorem mutual_agreement honest w :
  hs_reach honest w →
  (∀ s resp root, s ∈ initiators w → is_end s = Some (resp, Ok root) →
     honest (expected_responder_pub (is_state s)) →
     ∃ t, t ∈ responders w ∧ answers t (is_state s)
       ∧ responder_ephemeral_pub resp = responder_ephemeral_pub (rs_response t)
       ∧ resp_nonce resp = resp_nonce (rs_response t) ∧ rs_root t = root)
  ∧ (∀ t, t ∈ responders w → honest (initiator_identity_pub (rs_received t)) →
     ∃ s, s ∈ initiators w ∧ answers t (is_state s))
  ∧ (∀ t (r : rng), t ∈ responders w → ∃ t',
       hs_step honest w {| initiators := initiators w; responders := responders w ++ [t'] |}
       ∧ rs_received t' = rs_received t ∧ rs_key t' = rs_key t).
Proof.
  intros Hinv%hs_reach_inv. pose proof Hinv as [Hi Hr]. split; [|split].
  - intros s resp root Hs He Hh. pose proof (Hi s Hs) as [_ Hend].
    destruct (Hend _ _ He) as (Hf & Hwf & Hu). symmetry in Hf. apply finalize_Ok in Hf as [Hv Hf].
    destruct (signed_is_response _ _ _ _ Hinv Hwf (Hu Hh Hv)) as (t & Ht & Ha & Hep & Hn).
    exists t. repeat (split; [done|]). by eapply answers_same_key; [apply Hi|apply Hr|..].
  - intros t Ht Hh. destruct (Hr t Ht) as (_ & _ & Hsig).
    destruct (signed_is_initiation _ _ _ (Hsig Hh)) as (s & Hs & ? & ? & ? & ?).
    exists s. by repeat split.
  - intros t r Ht. destruct (Hr t Ht) as (_ & Hv & Hsig).
    destruct (respond_again (rs_key t) (rs_received t) r Hv) as (resp & root & E).
    exists {| rs_key := rs_key t; rs_received := rs_received t; rs_response := resp; rs_root := root |}.
    split; [|done]. refine (hs_respond _ _ _ None _ r _ _ _ E). intros Hh _. by apply Hsig.
Qed.
End protocol.
