(* ===== verification/PathEngine.v ===== *)
(** * Ratchet keys and slot selection ([src/path_engine.rs]) *)

From S2P Require Import Prelude Outcome Primitives Errors.

Record RatchetKey := { RatchetKey_0 : bytes }.

#[export] Instance RatchetKey_eq_dec : EqDecision RatchetKey.
Proof. solve_decision. Defined.

(** The type [[u8; 32]] of the wrapped array. *)
Definition key_wf (k : RatchetKey) : Prop := len (RatchetKey_0 k) = 32.

Definition RatchetKey_new (key_bytes : bytes) : RatchetKey := {| RatchetKey_0 := key_bytes |}.

Definition duplicate_for_target_use (self : RatchetKey) : RatchetKey :=
  {| RatchetKey_0 := RatchetKey_0 self |}.

(** [#[derive(Zeroize)]]. *)
Definition RatchetKey_zeroize `{Zeroize} (self : RatchetKey) : RatchetKey :=
  {| RatchetKey_0 := zeroize_bytes (RatchetKey_0 self) |}.

(** [Debug], which does not depend on the key. *)
Definition RatchetKey_fmt (self : RatchetKey) : string := "RatchetKey([REDACTED])".

Section path_engine.
Context `{Hashes} `{Subtle}.

Definition derive_next (self : RatchetKey) : RatchetKey :=
  let digest := sha256 (b_lit "decoypath-v1-ratchet-advance:" ++ RatchetKey_0 self) in
  {| RatchetKey_0 := digest |}.

Definition ct_eq (self other : RatchetKey) : bool :=
  ct_eq_bytes (RatchetKey_0 self) (RatchetKey_0 other).

(** [PartialEq::eq], in test builds only. *)
Definition RatchetKey_eq (self other : RatchetKey) : bool := ct_eq self other.

Definition select_slot (key message_id : bytes) (n_paths : N) : outcome PathEngineError N :=
  if n_paths =? 0 then Err PInvalidPathCount else
  mac ← o_ok_or HmacFailure (hmac_new_from_slice key);
  let mac := hmac_update mac message_id in
  let code_bytes := hmac_finalize mac in
  value_slice ← o_unwrap (slice 0 8 code_bytes);
  value_bytes ← (if len value_slice =? 8 then Ok value_slice else Err HmacFailure);
  let raw_val := from_be_bytes value_bytes in
  Ok (raw_val mod n_paths).
End path_engine.

Section path_engine_facts.
Context `{HashesLaws} `{SubtleLaws} `{ZeroizeLaws}.

Lemma duplicate_id k : duplicate_for_target_use k = k.
Proof. by destruct k. Qed.

Lemma derive_next_wf k : key_wf (derive_next k).
Proof. apply len_sha256. Qed.

(** The key [n] steps further along the chain. *)
Definition advance (n : N) (k : RatchetKey) : RatchetKey := N.iter n derive_next k.

Lemma advance_0 k : advance 0 k = k.
Proof. done. Qed.

Lemma advance_succ n k : advance (n + 1) k = derive_next (advance n k).
Proof. unfold advance. by rewrite N.add_1_r, N.iter_succ. Qed.

Lemma advance_add m n k : advance (m + n) k = advance m (advance n k).
Proof. apply N.iter_add. Qed.

Lemma advance_wf n k : key_wf k → key_wf (advance n k).
Proof.
  intros Hk. induction n as [|n IH] using N.peano_ind; [done|].
  rewrite <-N.add_1_r, advance_succ. apply derive_next_wf.
Qed.

Lemma select_slot_run key mid n :
  n ≠ 0 →
  ∃ h v, hmac_new_from_slice key = Some h
    ∧ slice 0 8 (hmac_finalize (hmac_update h mid)) = Some v
    ∧ len v = 8
    ∧ select_slot key mid n = Ok (from_be_bytes v mod n).
Proof.
  intros Hn. unfold select_slot. destruct (N.eqb_spec n 0); [done|].
  destruct (hmac_any_key key) as [h Hh]. rewrite Hh.
  destruct (slice_is_Some 0 8 (hmac_finalize (hmac_update h mid))) as (v & Hv & Lv);
    [lia|rewrite len_hmac; lia|].
  exists h, v. cbn. rewrite Hv, Lv. cbn. by rewrite Lv.
Qed.

Lemma select_slot_Ok key mid n : n ≠ 0 → ∃ s, select_slot key mid n = Ok s ∧ s < n.
Proof.
  intros Hn. destruct (select_slot_run key mid n Hn) as (h & v & _ & _ & _ & E).
  eexists. split; [done|]. by apply N.mod_lt.
Qed.

(** C39. Slot selection is total: with no path it is [InvalidPathCount]; otherwise
    it neither fails nor panics, and the index is in range and equals the
    first eight bytes of the HMAC, read big-endian, modulo the path count. *)
Theorem select_slot_outcomes key mid n :
  (n = 0 → select_slot key mid n = Err PInvalidPathCount)
  ∧ (n ≠ 0 → ∃ h v slot,
       hmac_new_from_slice key = Some h
       ∧ slice 0 8 (hmac_finalize (hmac_update h mid)) = Some v
       ∧ select_slot key mid n = Ok slot
       ∧ slot = from_be_bytes v mod n ∧ slot < n).
Proof.
  split; [by intros ->|]. intros Hn.
  destruct (select_slot_run key mid n Hn) as (h & v & Hh & Hv & _ & E).
  exists h, v, (from_be_bytes v mod n). repeat split; try done. by apply N.mod_lt.
Qed.

(** Every key of the chain is a 32-byte array, the constant-time comparison
    decides equality of such keys, the sanctioned copy is the key itself and
    zeroizing leaves 32 zero bytes. *)
Theorem ratchet_key_operations k k' n :
  key_wf k → key_wf k' →
  key_wf (advance n k) ∧ (RatchetKey_eq k k' = true ↔ k = k')
  ∧ duplicate_for_target_use k = k ∧ RatchetKey_zeroize k = RatchetKey_new (zeros 32).
Proof.
  unfold RatchetKey_eq, ct_eq, RatchetKey_zeroize. rewrite zeroize_bytes_spec. intros Hk Hk'.
  split; [by apply advance_wf|]. split; [|split; [by destruct k|by rewrite Hk]].
  rewrite ct_eq_bytes_spec by (unfold key_wf in *; congruence).
  destruct k, k'; cbn; split; congruence.
Qed.
End path_engine_facts.
