(* ===== verification/Envelope.v ===== *)
(** * Fixed-size envelopes ([src/envelope.rs])

    [seal] and [open] with their local buffers: the plaintext buffer of each
    call is part of the state of its body, so that what is left in it when the
    call ends can be stated. *)

From S2P Require Import Prelude Outcome Primitives Errors.

Definition ENVELOPE_TOTAL_LEN : N := 1024.
Definition MAX_PAYLOAD_SIZE : N := 992.
Definition NONCE_LEN : N := 12.
Definition TAG_LEN : N := 16.
Definition CIPHERTEXT_LEN : N := 996.
Definition PLAINTEXT_LEN : N := 996.

Section envelope.
Context `{OsRng} `{Aead} `{Zeroize}.

(** The random source and the local [plaintext] of [seal]. *)
Record seal_frame := { sf_rng : rng; sf_plaintext : bytes }.

Definition sf_draw {A} (m : M rng EnvelopeError A) : M seal_frame EnvelopeError A :=
  zoom sf_rng (λ r f, {| sf_rng := r; sf_plaintext := sf_plaintext f |}) m.

Definition sf_set (pt : bytes) : M seal_frame EnvelopeError unit :=
  modify_state (λ f, {| sf_rng := sf_rng f; sf_plaintext := pt |}).

(** An update of [plaintext] that may panic. *)
Definition sf_update (upd : bytes → option bytes) : M seal_frame EnvelopeError unit :=
  f ← get_state;
  pt ← unwrap (upd (sf_plaintext f));
  sf_set pt.

Definition seal_body (key payload aad : bytes) : M seal_frame EnvelopeError bytes :=
  if MAX_PAYLOAD_SIZE <? len payload then throw PayloadTooLarge else
  let envelope := zeros ENVELOPE_TOTAL_LEN in
  nonce_bytes ← sf_draw (os_fill NONCE_LEN);
  envelope ← unwrap (copy_into 0 NONCE_LEN nonce_bytes envelope);
  _ ← sf_set (zeros PLAINTEXT_LEN);
  _ ← sf_update (set_index 0 Byte.x01);
  _ ← sf_update (set_index 1 Byte.x00);
  let len_bytes := to_be_bytes 2 (len payload mod U16_MOD) in
  _ ← sf_update (copy_into 2 4 len_bytes);
  _ ← sf_update (copy_into 4 (4 + len payload) payload);
  _ ← (if 4 + len payload <? PLAINTEXT_LEN then
         padding ← sf_draw (os_fill (PLAINTEXT_LEN - (4 + len payload)));
         sf_update (copy_into (4 + len payload) PLAINTEXT_LEN padding)
       else mret tt);
  f ← get_state;
  let '(buffer, tag) := encrypt_in_place_detached key nonce_bytes aad (sf_plaintext f) in
  _ ← sf_set buffer;
  tag ← lift_o (o_ok_or EncryptionFailure tag);
  envelope ← unwrap (copy_into NONCE_LEN (NONCE_LEN + CIPHERTEXT_LEN) buffer envelope);
  envelope ← unwrap (copy_into (NONCE_LEN + CIPHERTEXT_LEN) ENVELOPE_TOTAL_LEN tag envelope);
  _ ← sf_set (zeroize_bytes buffer);
  mret envelope.

Definition seal (key payload aad : bytes) : M rng EnvelopeError bytes := λ r,
  let '(res, f) := seal_body key payload aad {| sf_rng := r; sf_plaintext := [] |} in
  (res, sf_rng f).

(** The state of the body of [open] is its local [buffer]. *)
Definition open_body (key envelope aad : bytes) : M bytes EnvelopeError bytes :=
  nonce_bytes ← unwrap (slice 0 NONCE_LEN envelope);
  ciphertext_bytes ← unwrap (slice NONCE_LEN (NONCE_LEN + CIPHERTEXT_LEN) envelope);
  tag_bytes ← unwrap (slice (NONCE_LEN + CIPHERTEXT_LEN) ENVELOPE_TOTAL_LEN envelope);
  buffer ← unwrap (copy_into 0 PLAINTEXT_LEN ciphertext_bytes (zeros PLAINTEXT_LEN));
  let '(buffer, accepted) :=
    decrypt_in_place_detached key nonce_bytes aad buffer tag_bytes in
  _ ← put_state buffer;
  if negb accepted then throw DecryptionFailure else
  version ← unwrap (index 0 buffer);
  if negb (bool_decide (version = Byte.x01)) then
    _ ← put_state (zeroize_bytes buffer);
    throw InvalidFormat
  else
  len_bytes ← unwrap (slice 2 4 buffer);
  let payload_len := from_be_bytes len_bytes in
  if MAX_PAYLOAD_SIZE <? payload_len then
    _ ← put_state (zeroize_bytes buffer);
    throw InvalidFormat
  else
  payload ← unwrap (slice 4 (4 + payload_len) buffer);
  _ ← put_state (zeroize_bytes buffer);
  mret payload.

Definition open (key envelope aad : bytes) : outcome EnvelopeError bytes :=
  (open_body key envelope aad []).1.
End envelope.

Section envelope_facts.
Context `{OsRngLaws} `{AeadLaws} `{ZeroizeLaws}.

(** ** The random draws and the layout of [seal] *)

(** Nonce, padding and random state after sealing [n] payload bytes. *)
Definition seal_draw (n : N) (r : rng) : bytes * bytes * rng :=
  let '(nonce, r1) := fill_bytes NONCE_LEN r in
  if 4 + n <? PLAINTEXT_LEN
  then let '(pad, r2) := fill_bytes (PLAINTEXT_LEN - (4 + n)) r1 in (nonce, pad, r2)
  else (nonce, [], r1).

Lemma seal_draw_len n r :
  n <= MAX_PAYLOAD_SIZE →
  len (seal_draw n r).1.1 = 12 ∧ len (seal_draw n r).1.2 = 992 - n.
Proof.
  unfold MAX_PAYLOAD_SIZE, seal_draw, NONCE_LEN, PLAINTEXT_LEN. intros Hn.
  pose proof (len_fill_bytes 12 r) as L1. destruct (fill_bytes 12 r) as [nonce r1].
  destruct (N.ltb_spec (4 + n) 996); cbn [fst snd] in *.
  - pose proof (len_fill_bytes (996 - (4 + n)) r1) as L2.
    destruct (fill_bytes (996 - (4 + n)) r1). cbn [fst snd] in *. lia.
  - rewrite len_nil. lia.
Qed.

(** Version, flags, length, payload and padding. *)
Definition plaintext_of (flags : Byte.byte) (payload pad : bytes) : bytes :=
  [Byte.x01; flags] ++ to_be_bytes 2 (len payload) ++ payload ++ pad.

Lemma len_plaintext_of fl payload pad : len (plaintext_of fl payload pad) = 4 + len payload + len pad.
Proof.
  unfold plaintext_of. rewrite !len_app, len_to_be_bytes, !len_cons, len_nil. lia.
Qed.

Lemma sf_draw_run n f :
  sf_draw (os_fill n) f =
    (Ok (fill_bytes n (sf_rng f)).1,
     {| sf_rng := (fill_bytes n (sf_rng f)).2; sf_plaintext := sf_plaintext f |}).
Proof. unfold sf_draw. by rewrite zoom_run, os_fill_run. Qed.

Lemma sf_update_run upd f pt :
  upd (sf_plaintext f) = Some pt →
  sf_update upd f = (Ok tt, {| sf_rng := sf_rng f; sf_plaintext := pt |}).
Proof. intros E. unfold sf_update. by rewrite bind_run, get_run, E. Qed.

Lemma sf_update_bind {A} upd (K : unit → M seal_frame EnvelopeError A) r pt0 pt :
  upd pt0 = Some pt →
  (sf_update upd ≫= K) {| sf_rng := r; sf_plaintext := pt0 |}
  = K tt {| sf_rng := r; sf_plaintext := pt |}.
Proof. intros E. by rewrite (bind_Ok _ _ _ _ _ (sf_update_run _ {| sf_plaintext := pt0 |} _ E)). Qed.

Lemma sf_set_bind {A} (K : unit → M seal_frame EnvelopeError A) r pt0 pt :
  (sf_set pt ≫= K) {| sf_rng := r; sf_plaintext := pt0 |}
  = K tt {| sf_rng := r; sf_plaintext := pt |}.
Proof. done. Qed.

(** The writes to [plaintext] before the padding. *)
Lemma plaintext_writes payload :
  len payload <= MAX_PAYLOAD_SIZE →
  let head := [Byte.x01; Byte.x00] ++ to_be_bytes 2 (len payload mod U16_MOD) in
  set_index 0 Byte.x01 (zeros PLAINTEXT_LEN) = Some (Byte.x01 :: zeros 995)
  ∧ set_index 1 Byte.x00 (Byte.x01 :: zeros 995) = Some ([Byte.x01; Byte.x00] ++ zeros 2 ++ zeros 992)
  ∧ copy_into 2 4 (to_be_bytes 2 (len payload mod U16_MOD))
      ([Byte.x01; Byte.x00] ++ zeros 2 ++ zeros 992) = Some (head ++ zeros 992)
  ∧ copy_into 4 (4 + len payload) payload (head ++ zeros 992)
    = Some (head ++ payload ++ zeros (992 - len payload)).
Proof.
  intros Hp head. unfold MAX_PAYLOAD_SIZE in Hp.
  split; [by vm_compute|]. split; [by vm_compute|]. split.
  - unfold head. rewrite <-app_assoc. apply copy_into_app; [done| |]; by rewrite ?len_to_be_bytes.
  - replace (zeros 992) with (zeros (len payload) ++ zeros (992 - len payload))
      by (rewrite <-zeros_app; f_equal; lia).
    apply copy_into_app; rewrite ?len_zeros; [|done..].
    unfold head. by rewrite len_app, len_to_be_bytes.
Qed.

(** The padding statement. *)
Definition pad_stmt (n : N) : M seal_frame EnvelopeError unit :=
  if 4 + n <? PLAINTEXT_LEN then
    padding ← sf_draw (os_fill (PLAINTEXT_LEN - (4 + n)));
    sf_update (copy_into (4 + n) PLAINTEXT_LEN padding)
  else mret tt.

Lemma pad_stmt_run payload r r1 nonce :
  len payload <= MAX_PAYLOAD_SIZE →
  fill_bytes NONCE_LEN r = (nonce, r1) →
  pad_stmt (len payload)
    {| sf_rng := r1;
       sf_plaintext := ([Byte.x01; Byte.x00] ++ to_be_bytes 2 (len payload mod U16_MOD))
                       ++ payload ++ zeros (992 - len payload) |}
  = (Ok tt,
     {| sf_rng := (seal_draw (len payload) r).2;
        sf_plaintext := plaintext_of Byte.x00 payload (seal_draw (len payload) r).1.2 |}).
Proof.
  intros Hp F1. pose proof (seal_draw_len (len payload) r Hp) as [_ Lp].
  unfold MAX_PAYLOAD_SIZE in Hp.
  unfold plaintext_of. replace (len payload mod U16_MOD) with (len payload)
    by (symmetry; apply N.mod_small; unfold U16_MOD; lia).
  unfold pad_stmt, seal_draw in *. rewrite F1 in *.
  destruct (N.ltb_spec (4 + len payload) PLAINTEXT_LEN) as [Hlt|Hge]; unfold PLAINTEXT_LEN in *.
  - rewrite bind_run, sf_draw_run. cbn [sf_rng sf_plaintext].
    destruct (fill_bytes (996 - (4 + len payload)) r1) as [pad r2]. cbn [fst snd] in *.
    rewrite (sf_update_run _ _ (([Byte.x01; Byte.x00] ++ to_be_bytes 2 (len payload))
                                 ++ payload ++ pad)).
    { by rewrite <-app_assoc. }
    cbn [sf_plaintext]. rewrite app_assoc, (app_assoc _ payload pad).
    apply copy_into_tail; rewrite ?len_app, ?len_to_be_bytes, ?len_zeros;
      change (len [Byte.x01; Byte.x00]) with 2; lia.
  - replace (992 - len payload) with 0 by lia. cbn [fst snd].
    rewrite ret_run. unfold zeros. cbn [N.to_nat replicate]. by rewrite <-app_assoc.
Qed.

(** The plaintext that is encrypted, and the nonce. *)
Definition seal_plaintext (payload : bytes) (r : rng) : bytes :=
  plaintext_of Byte.x00 payload (seal_draw (len payload) r).1.2.

Lemma seal_plaintext_len payload r :
  len payload <= MAX_PAYLOAD_SIZE → len (seal_plaintext payload r) = 996.
Proof.
  intros Hp. destruct (seal_draw_len (len payload) r Hp) as [_ Lp].
  unfold seal_plaintext. rewrite len_plaintext_of. unfold MAX_PAYLOAD_SIZE in Hp. lia.
Qed.

(** Up to the call of the cipher. *)
Lemma seal_body_prefix key payload aad r b0 :
  len payload <= MAX_PAYLOAD_SIZE →
  let nonce := (seal_draw (len payload) r).1.1 in
  seal_body key payload aad {| sf_rng := r; sf_plaintext := b0 |} =
    (let '(buffer, tag) :=
       encrypt_in_place_detached key nonce aad (seal_plaintext payload r) in
     _ ← sf_set buffer;
     tag ← lift_o (o_ok_or EncryptionFailure tag);
     envelope ← unwrap (copy_into NONCE_LEN (NONCE_LEN + CIPHERTEXT_LEN) buffer
                          (nonce ++ zeros 996 ++ zeros 16));
     envelope ← unwrap (copy_into (NONCE_LEN + CIPHERTEXT_LEN) ENVELOPE_TOTAL_LEN tag envelope);
     _ ← sf_set (zeroize_bytes buffer);
     mret envelope)
    {| sf_rng := (seal_draw (len payload) r).2; sf_plaintext := seal_plaintext payload r |}.
Proof.
  intros Hp. destruct (seal_draw_len (len payload) r Hp) as [Ln _].
  destruct (plaintext_writes payload Hp) as (W0 & W1 & W2 & W3). unfold seal_plaintext.
  destruct (fill_bytes NONCE_LEN r) as [nonce r1] eqn:F1.
  pose proof (pad_stmt_run payload r r1 nonce Hp F1) as Hpad.
  assert (Hnonce : (seal_draw (len payload) r).1.1 = nonce).
  { unfold seal_draw. rewrite F1. destruct (_ <? _); [|done]. by destruct (fill_bytes _ r1). }
  rewrite Hnonce in *. destruct (seal_draw (len payload) r) as [[? pad] r']. cbn [fst snd] in *.
  cbn zeta. unfold seal_body. destruct (N.ltb_spec MAX_PAYLOAD_SIZE (len payload)); [lia|].
  rewrite bind_run, sf_draw_run. cbn [sf_rng sf_plaintext]. rewrite F1. cbn [fst snd].
  change (zeros ENVELOPE_TOTAL_LEN) with (zeros 12 ++ zeros 996 ++ zeros 16).
  rewrite copy_into_head, bind_run, unwrap_Some by done.
  rewrite sf_set_bind.
  rewrite (sf_update_bind _ _ _ _ _ W0).
  rewrite (sf_update_bind _ _ _ _ _ W1).
  rewrite (sf_update_bind _ _ _ _ _ W2).
  rewrite (sf_update_bind _ _ _ _ _ W3).
  fold (pad_stmt (len payload)). rewrite (bind_Ok _ _ _ _ _ Hpad).
  by rewrite bind_run, get_run.
Qed.

(** The cipher refuses: the body returns without touching the buffer again. *)
Lemma seal_body_refused key payload aad r b0 ct :
  len payload <= MAX_PAYLOAD_SIZE →
  encrypt_in_place_detached key (seal_draw (len payload) r).1.1 aad (seal_plaintext payload r)
    = (ct, None) →
  seal_body key payload aad {| sf_rng := r; sf_plaintext := b0 |}
  = (Err EncryptionFailure, {| sf_rng := (seal_draw (len payload) r).2; sf_plaintext := ct |}).
Proof. intros Hp E. rewrite seal_body_prefix by done. cbn zeta. rewrite E. by rewrite sf_set_bind. Qed.

Lemma seal_body_run key payload aad r b0 :
  len key = 32 → len payload <= MAX_PAYLOAD_SIZE →
  ∃ ct tag,
    encrypt_in_place_detached key (seal_draw (len payload) r).1.1 aad (seal_plaintext payload r)
      = (ct, Some tag)
    ∧ len ct = 996 ∧ len tag = 16
    ∧ seal_body key payload aad {| sf_rng := r; sf_plaintext := b0 |}
      = (Ok ((seal_draw (len payload) r).1.1 ++ ct ++ tag),
         {| sf_rng := (seal_draw (len payload) r).2; sf_plaintext := zeros 996 |}).
Proof.
  intros Hk Hp. destruct (seal_draw_len (len payload) r Hp) as [Ln _].
  pose proof (seal_plaintext_len payload r Hp) as Lpt.
  destruct (encrypt_ok key (seal_draw (len payload) r).1.1 aad (seal_plaintext payload r))
    as (ct & tag & E & Lc & Lt); [done|done|lia|].
  exists ct, tag. split; [done|]. split; [lia|]. split; [done|].
  rewrite seal_body_prefix by done. cbn zeta. rewrite E. cbn [o_ok_or].
  rewrite sf_set_bind, bind_run, lift_run.
  rewrite (copy_into_app NONCE_LEN (NONCE_LEN + CIPHERTEXT_LEN))
    by (rewrite ?len_zeros; unfold NONCE_LEN, CIPHERTEXT_LEN; lia).
  rewrite bind_run, unwrap_Some, (app_assoc _ ct).
  rewrite copy_into_tail by (rewrite ?len_app, ?len_zeros;
    unfold NONCE_LEN, CIPHERTEXT_LEN, ENVELOPE_TOTAL_LEN; lia).
  rewrite bind_run, unwrap_Some, sf_set_bind, ret_run, <-app_assoc.
  rewrite zeroize_bytes_spec. by replace (len ct) with 996 by lia.
Qed.

Lemma seal_run key payload aad r :
  len key = 32 → len payload <= MAX_PAYLOAD_SIZE →
  ∃ ct tag,
    encrypt_in_place_detached key (seal_draw (len payload) r).1.1 aad
      (plaintext_of Byte.x00 payload (seal_draw (len payload) r).1.2) = (ct, Some tag)
    ∧ len ct = 996 ∧ len tag = 16
    ∧ seal key payload aad r
      = (Ok ((seal_draw (len payload) r).1.1 ++ ct ++ tag), (seal_draw (len payload) r).2).
Proof.
  intros Hk Hp. destruct (seal_body_run key payload aad r [] Hk Hp) as (ct & tag & E & Lc & Lt & B).
  exists ct, tag. split; [done|]. split; [done|]. split; [done|]. unfold seal. by rewrite B.
Qed.

Lemma seal_too_large key payload aad r :
  MAX_PAYLOAD_SIZE < len payload → seal key payload aad r = (Err PayloadTooLarge, r).
Proof.
  intros. unfold seal, seal_body. by destruct (N.ltb_spec MAX_PAYLOAD_SIZE (len payload)); [|lia].
Qed.

(** ** What [open] reads *)

(** The decrypted fields, for a buffer with its four header bytes split off. *)
Definition parse_fields (version l0 l1 : Byte.byte) (rest : bytes) : outcome EnvelopeError bytes :=
  if bool_decide (version = Byte.x01) then
    let n := from_be_bytes [l0; l1] in
    if MAX_PAYLOAD_SIZE <? n then Err InvalidFormat else Ok (take (N.to_nat n) rest)
  else Err InvalidFormat.

Definition parse_plaintext (pt : bytes) : outcome EnvelopeError bytes :=
  match pt with
  | version :: _ :: l0 :: l1 :: rest => parse_fields version l0 l1 rest
  | _ => Err InvalidFormat
  end.

Lemma split_header (pt : bytes) :
  len pt = 996 → ∃ v fl l0 l1 rest, pt = v :: fl :: l0 :: l1 :: rest ∧ len rest = 992.
Proof.
  destruct pt as [|v [|fl [|l0 [|l1 rest]]]]; rewrite ?len_cons, ?len_nil; intros L; try lia.
  exists v, fl, l0, l1, rest. split; [done|lia].
Qed.

Lemma slice_payload v fl l0 l1 (rest : bytes) n :
  n <= len rest →
  slice 4 (4 + n) (v :: fl :: l0 :: l1 :: rest) = Some (take (N.to_nat n) rest).
Proof.
  intros Hn. destruct (split_at_len n rest Hn) as (a & b & -> & <-).
  rewrite take_len_app. by apply (slice_app 4 (4 + len a) [v; fl; l0; l1]).
Qed.

Lemma split_envelope (env : bytes) :
  len env = ENVELOPE_TOTAL_LEN →
  ∃ nonce ct tag, env = nonce ++ ct ++ tag ∧ len nonce = 12 ∧ len ct = 996 ∧ len tag = 16.
Proof.
  unfold ENVELOPE_TOTAL_LEN. intros L.
  destruct (split_at_len 12 env) as (nonce & t & -> & Hn); [lia|]. rewrite len_app in L.
  destruct (split_at_len 996 t) as (ct & tag & -> & Hc); [lia|]. rewrite len_app in L.
  exists nonce, ct, tag. repeat split; (done || lia).
Qed.

Lemma open_body_run key aad nonce ct tag b0 :
  len nonce = 12 → len ct = 996 → len tag = 16 →
  let '(buffer, accepted) := decrypt_in_place_detached key nonce aad ct tag in
  open_body key (nonce ++ ct ++ tag) aad b0 =
    if accepted then (parse_plaintext buffer, zeros 996) else (Err DecryptionFailure, buffer).
Proof.
  intros Ln Lc Lt. pose proof (len_decrypt key nonce aad ct tag) as Lb.
  unfold open_body. rewrite slice_head, bind_run, unwrap_Some by done.
  rewrite (slice_app NONCE_LEN (NONCE_LEN + CIPHERTEXT_LEN)) by (rewrite ?Lc; done).
  rewrite bind_run, unwrap_Some, (app_assoc nonce ct tag).
  rewrite slice_tail by (rewrite ?len_app, ?Ln, ?Lc, ?Lt; done).
  rewrite bind_run, unwrap_Some, <-(app_nil_r (zeros PLAINTEXT_LEN)).
  rewrite copy_into_head by (rewrite ?len_zeros; done).
  rewrite app_nil_r, bind_run, unwrap_Some.
  destruct (decrypt_in_place_detached key nonce aad ct tag) as [buffer accepted]. cbn [fst] in Lb.
  rewrite bind_run, put_run. destruct accepted; [cbn [negb]|done].
  rewrite ?zeroize_bytes_spec. rewrite Lb, Lc in *.
  destruct (split_header buffer Lb) as (v & fl & l0 & l1 & rest & -> & Lr).
  cbn [parse_plaintext]. unfold parse_fields. change (index 0 _) with (Some v).
  rewrite bind_run, unwrap_Some. case_bool_decide; cbn [negb]; [|done].
  change (slice 2 4 _) with (slice 2 4 ([v; fl] ++ [l0; l1] ++ rest)).
  rewrite (slice_app 2 4) by done. rewrite bind_run, unwrap_Some.
  destruct (N.ltb_spec MAX_PAYLOAD_SIZE (from_be_bytes [l0; l1])) as [|Hle]; [done|].
  rewrite slice_payload by (rewrite Lr; apply Hle). done.
Qed.

Lemma open_run key aad nonce ct tag :
  len nonce = 12 → len ct = 996 → len tag = 16 →
  let '(buffer, accepted) := decrypt_in_place_detached key nonce aad ct tag in
  open key (nonce ++ ct ++ tag) aad =
    if accepted then parse_plaintext buffer else Err DecryptionFailure.
Proof.
  intros Ln Lc Lt. pose proof (open_body_run key aad nonce ct tag [] Ln Lc Lt) as B. unfold open.
  destruct (decrypt_in_place_detached key nonce aad ct tag) as [buffer accepted].
  rewrite B. by destruct accepted.
Qed.

Lemma be2_small n : n <= MAX_PAYLOAD_SIZE → ∃ l0 l1, to_be_bytes 2 n = [l0; l1]
  ∧ from_be_bytes [l0; l1] = n.
Proof.
  unfold MAX_PAYLOAD_SIZE. intros Hn. exists (u8_of (n / 256)), (u8_of n). split; [done|].
  change [u8_of (n / 256); u8_of n] with (to_be_bytes 2 n). rewrite from_to_be_bytes.
  apply N.mod_small. cbn. lia.
Qed.

(** A buffer parses to a payload exactly when it is laid out as [seal] lays
    it out, whatever the flags byte. *)
Lemma parse_plaintext_Ok pt payload :
  len pt = 996 →
  parse_plaintext pt = Ok payload ↔
    ∃ fl pad, pt = plaintext_of fl payload pad ∧ len payload <= MAX_PAYLOAD_SIZE.
Proof.
  intros L. split.
  - destruct (split_header pt L) as (v & fl & l0 & l1 & rest & -> & Lr). cbn [parse_plaintext].
    unfold parse_fields. case_bool_decide as Hv; [|done]. subst v.
    destruct (N.ltb_spec MAX_PAYLOAD_SIZE (from_be_bytes [l0; l1])) as [|Hle]; [done|].
    intros [= <-]. set (n := from_be_bytes [l0; l1]) in *.
    exists fl, (drop (N.to_nat n) rest). rewrite len_take.
    unfold MAX_PAYLOAD_SIZE in *. split; [|lia].
    unfold plaintext_of. rewrite len_take, take_drop. replace (N.min n (len rest)) with n by lia.
    by rewrite (to_from_be_bytes [l0; l1] : to_be_bytes 2 n = _).
  - intros (fl & pad & -> & Hp). destruct (be2_small _ Hp) as (l0 & l1 & E & F).
    unfold plaintext_of. rewrite E. cbn. unfold parse_fields. rewrite F.
    rewrite bool_decide_eq_true_2 by done.
    destruct (N.ltb_spec MAX_PAYLOAD_SIZE (len payload)); [lia|]. by rewrite take_len_app.
Qed.

Lemma parse_plaintext_Err pt e : parse_plaintext pt = Err e → e = InvalidFormat.
Proof.
  destruct pt as [|v [|fl [|l0 [|l1 rest]]]]; cbn [parse_plaintext]; try congruence.
  unfold parse_fields. repeat case_match; congruence.
Qed.

Lemma parse_plaintext_no_panic pt : parse_plaintext pt ≠ Panic.
Proof.
  destruct pt as [|v [|fl [|l0 [|l1 rest]]]]; cbn [parse_plaintext]; try congruence.
  unfold parse_fields. repeat case_match; congruence.
Qed.

Lemma open_seal key payload aad r :
  len key = 32 → len payload <= MAX_PAYLOAD_SIZE →
  ∃ env, seal key payload aad r = (Ok env, (seal_draw (len payload) r).2)
    ∧ len env = ENVELOPE_TOTAL_LEN ∧ open key env aad = Ok payload.
Proof.
  intros Hk Hp. destruct (seal_run key payload aad r Hk Hp) as (ct & tag & E & Lc & Lt & S).
  destruct (seal_draw_len (len payload) r Hp) as [Ln Lp].
  exists ((seal_draw (len payload) r).1.1 ++ ct ++ tag). split; [done|].
  split; [by rewrite !len_app, Ln, Lc, Lt|].
  pose proof (open_run key aad _ ct tag Ln Lc Lt) as O.
  rewrite (decrypt_encrypt _ _ _ _ _ _ Hk Ln E) in O. rewrite O.
  apply parse_plaintext_Ok; [|by eauto]. rewrite len_plaintext_of.
  unfold MAX_PAYLOAD_SIZE in Hp. lia.
Qed.

(** C12. Sealing is total: a payload of more than 992 bytes is refused before any
    randomness is drawn; every other payload, under a 32-byte key, gives an
    envelope of exactly 1024 bytes, without an encryption failure and without
    a panic, that the same key and additional data open to that payload. *)
Theorem seal_open_roundtrip key payload aad r :
  len key = 32 →
  (MAX_PAYLOAD_SIZE < len payload → seal key payload aad r = (Err PayloadTooLarge, r))
  ∧ (len payload <= MAX_PAYLOAD_SIZE →
     ∃ env r', seal key payload aad r = (Ok env, r')
       ∧ len env = ENVELOPE_TOTAL_LEN ∧ open key env aad = Ok payload).
Proof.
  intros Hk. split; [apply seal_too_large|]. intros Hp.
  destruct (open_seal key payload aad r Hk Hp) as (env & S & L & O). eauto.
Qed.

Lemma open_Ok_inv key env aad payload :
  len key = 32 → len env = ENVELOPE_TOTAL_LEN →
  open key env aad = Ok payload →
    ∃ nonce flags pad ct tag,
      env = nonce ++ ct ++ tag ∧ len nonce = 12 ∧ len ct = 996 ∧ len tag = 16
      ∧ len payload <= MAX_PAYLOAD_SIZE
      ∧ encrypt_in_place_detached key nonce aad (plaintext_of flags payload pad) = (ct, Some tag).
Proof.
  intros Hk He. destruct (split_envelope env He) as (nonce & ct & tag & -> & Ln & Lc & Lt).
  pose proof (open_run key aad nonce ct tag Ln Lc Lt) as O.
  pose proof (len_decrypt key nonce aad ct tag) as Lb.
  destruct (decrypt_in_place_detached key nonce aad ct tag) as [buf ok] eqn:D.
  rewrite O. destruct ok; [|done]. cbn [fst] in Lb.
  rewrite parse_plaintext_Ok by congruence. intros (fl & pad & -> & Hp).
  exists nonce, fl, pad, ct, tag. repeat split; try done. by apply encrypt_decrypt.
Qed.

(** C13. Opening accepts exactly the genuine envelopes: an array of 1024 bytes
    opens to [payload] if and only if it is a nonce, the encryption under this
    key, nonce and additional data of a well-formed plaintext for [payload]
    (version 1, any flags byte, big-endian length, padding), and its tag. *)
Theorem open_accepts_iff key env aad payload :
  len key = 32 → len env = ENVELOPE_TOTAL_LEN →
  open key env aad = Ok payload ↔
    ∃ nonce flags pad ct tag,
      env = nonce ++ ct ++ tag ∧ len nonce = 12 ∧ len ct = 996 ∧ len tag = 16
      ∧ len payload <= MAX_PAYLOAD_SIZE
      ∧ encrypt_in_place_detached key nonce aad (plaintext_of flags payload pad) = (ct, Some tag).
Proof.
  intros Hk He. split; [by apply open_Ok_inv|].
  intros (nonce & fl & pad & ct & tag & -> & Ln & Lc & Lt & Hp & E).
  pose proof (open_run key aad nonce ct tag Ln Lc Lt) as O.
  pose proof (len_decrypt key nonce aad ct tag) as Lb.
  rewrite (decrypt_encrypt _ _ _ _ _ _ Hk Ln E) in O, Lb. cbn [fst] in Lb.
  rewrite O. apply parse_plaintext_Ok; [congruence|eauto].
Qed.

(** C34. Opening an array of 1024 bytes never panics, whatever the key: it returns
    a payload of at most 992 bytes, [DecryptionFailure] when the tag is
    refused, or [InvalidFormat] when an authentic plaintext is malformed. *)
Theorem open_total key env aad :
  len env = ENVELOPE_TOTAL_LEN →
  (∃ payload, open key env aad = Ok payload ∧ len payload <= MAX_PAYLOAD_SIZE)
  ∨ open key env aad = Err DecryptionFailure ∨ open key env aad = Err InvalidFormat.
Proof.
  intros He. destruct (split_envelope env He) as (nonce & ct & tag & -> & Ln & Lc & Lt).
  pose proof (open_run key aad nonce ct tag Ln Lc Lt) as O.
  pose proof (len_decrypt key nonce aad ct tag) as Lb.
  destruct (decrypt_in_place_detached key nonce aad ct tag) as [buf ok]. cbn [fst] in Lb.
  rewrite O. destruct ok; [|by right; left].
  destruct (parse_plaintext buf) as [payload|e|] eqn:P.
  - left. exists payload. split; [done|].
    apply parse_plaintext_Ok in P as (fl & pad & _ & Hp); [done|congruence].
  - right; right. by rewrite (parse_plaintext_Err _ _ P).
  - by destruct (parse_plaintext_no_panic buf).
Qed.

(** C35. What the plaintext buffers hold when [seal] and [open] return, at every
    return.  [seal] refuses a long payload before it creates the buffer, and
    leaves 996 zero bytes in it on success; if the cipher reports an error the
    [?] returns before the [zeroize], and the buffer holds what the cipher left
    there; with a 32-byte key the cipher reports none.  [open] leaves 996 zero
    bytes on success and on [InvalidFormat]; on a rejected tag it returns
    before the [zeroize] as well, and the buffer holds what the cipher left. *)
Theorem plaintext_buffers_at_return key payload aad r env b0 :
  (MAX_PAYLOAD_SIZE < len payload →
     seal_body key payload aad {| sf_rng := r; sf_plaintext := b0 |}
     = (Err PayloadTooLarge, {| sf_rng := r; sf_plaintext := b0 |}))
  ∧ (∀ ct, len payload <= MAX_PAYLOAD_SIZE →
     encrypt_in_place_detached key (seal_draw (len payload) r).1.1 aad (seal_plaintext payload r)
       = (ct, None) →
     seal_body key payload aad {| sf_rng := r; sf_plaintext := b0 |}
     = (Err EncryptionFailure, {| sf_rng := (seal_draw (len payload) r).2; sf_plaintext := ct |}))
  ∧ (len payload <= MAX_PAYLOAD_SIZE → len key = 32 →
     ∃ env', seal_body key payload aad {| sf_rng := r; sf_plaintext := b0 |}
       = (Ok env', {| sf_rng := (seal_draw (len payload) r).2; sf_plaintext := zeros 996 |}))
  ∧ (len env = ENVELOPE_TOTAL_LEN →
     ∀ res b, open_body key env aad b0 = (res, b) →
       res = Err DecryptionFailure
       ∧ (∃ nonce ct tag, env = nonce ++ ct ++ tag
            ∧ decrypt_in_place_detached key nonce aad ct tag = (b, false))
       ∨ (res = Err InvalidFormat ∨ ∃ payload, res = Ok payload) ∧ b = zeros 996).
Proof.
  split; [|split; [|split]].
  - intros Hp. unfold seal_body. by destruct (N.ltb_spec MAX_PAYLOAD_SIZE (len payload)); [|lia].
  - intros ct. apply seal_body_refused.
  - intros Hp Hk. destruct (seal_body_run key payload aad r b0 Hk Hp) as (ct & tag & _ & _ & _ & ->).
    by eexists.
  - intros He res b. destruct (split_envelope env He) as (nonce & ct & tag & -> & Ln & Lc & Lt).
    pose proof (open_body_run key aad nonce ct tag b0 Ln Lc Lt) as O.
    destruct (decrypt_in_place_detached key nonce aad ct tag) as [buf ok] eqn:D.
    rewrite O. destruct ok; intros [= <- <-].
    + right. split; [|done]. destruct (parse_plaintext buf) as [p|e|] eqn:P.
      * right. by eexists.
      * left. by rewrite (parse_plaintext_Err _ _ P).
      * by destruct (parse_plaintext_no_panic buf).
    + left. split; [done|]. by exists nonce, ct, tag.
Qed.
End envelope_facts.
