(* ===== verification/Decoy.v ===== *)
(** * Decoy envelopes and slot distribution ([src/decoy.rs]) *)

From S2P Require Import Prelude Outcome Primitives Errors Envelope.

Section decoy.
Context `{OsRng} `{Aead} `{Zeroize}.

(** The random source and the two local secrets of [generate_decoy]. *)
Record decoy_frame := { df_rng : rng; df_key : bytes; df_payload : bytes }.

Definition df_draw {A} (m : M rng DecoyError A) : M decoy_frame DecoyError A :=
  zoom df_rng (λ r f, {| df_rng := r; df_key := df_key f; df_payload := df_payload f |}) m.

Definition df_set (key payload : bytes) : M decoy_frame DecoyError unit :=
  modify_state (λ f, {| df_rng := df_rng f; df_key := key; df_payload := payload |}).

Definition generate_decoy_body (aad : bytes) : M decoy_frame DecoyError bytes :=
  decoy_key ← df_draw (os_fill 32);
  _ ← df_set decoy_key [];
  decoy_payload ← df_draw (os_fill 128);
  _ ← df_set decoy_key decoy_payload;
  envelope ← df_draw (map_err (λ _, SealFailure) (seal decoy_key decoy_payload aad));
  _ ← df_set (zeroize_bytes decoy_key) (zeroize_bytes decoy_payload);
  mret envelope.

Definition generate_decoy (aad : bytes) : M rng DecoyError bytes := λ r,
  let '(res, f) := generate_decoy_body aad {| df_rng := r; df_key := []; df_payload := [] |} in
  (res, df_rng f).

(** The body of [for slot_idx in 0..n_paths], with [todo] iterations left. *)
Fixpoint slots_loop (real_envelope : bytes) (valid_slot : N) (aad : bytes)
    (todo : nat) (slot_idx : N) (slots : list bytes) : M rng DecoyError (list bytes) :=
  match todo with
  | O => mret slots
  | S todo =>
      if slot_idx =? valid_slot then
        slots_loop real_envelope valid_slot aad todo (slot_idx + 1) (slots ++ [real_envelope])
      else
        decoy ← generate_decoy aad;
        slots_loop real_envelope valid_slot aad todo (slot_idx + 1) (slots ++ [decoy])
  end.

(** [Vec::with_capacity(n)] panics when the allocation would exceed
    [isize::MAX] bytes. *)
Definition generate_multi_path_slots (real_envelope : bytes) (valid_slot n_paths : N)
    (aad : bytes) : M rng DecoyError (list bytes) :=
  if n_paths =? 0 then throw InvalidPathCount else
  if n_paths <=? valid_slot then throw InvalidSlotIndex else
  if ISIZE_MAX <? n_paths * ENVELOPE_TOTAL_LEN then unwrap None else
  slots_loop real_envelope valid_slot aad (N.to_nat n_paths) 0 [].
End decoy.

Section decoy_facts.
Context `{OsRngLaws} `{AeadLaws} `{ZeroizeLaws}.

(** Random state after one decoy: key, payload, nonce and padding are drawn. *)
Definition decoy_next (r : rng) : rng :=
  (seal_draw 128 (fill_bytes 128 (fill_bytes 32 r).2).2).2.

Lemma generate_decoy_body_run aad r b0 b1 :
  ∃ env,
    seal (fill_bytes 32 r).1 (fill_bytes 128 (fill_bytes 32 r).2).1 aad
      (fill_bytes 128 (fill_bytes 32 r).2).2 = (Ok env, decoy_next r)
    ∧ len env = ENVELOPE_TOTAL_LEN
    ∧ generate_decoy_body aad {| df_rng := r; df_key := b0; df_payload := b1 |}
      = (Ok env, {| df_rng := decoy_next r; df_key := zeros 32; df_payload := zeros 128 |}).
Proof.
  pose proof (len_fill_bytes 32 r) as Lk. unfold decoy_next.
  unfold generate_decoy_body, df_draw. rewrite bind_run, zoom_run, os_fill_run.
  cbn [df_rng fst snd]. destruct (fill_bytes 32 r) as [key r1]. cbn [fst snd] in *.
  rewrite bind_run. unfold df_set at 1. rewrite modify_run, bind_run, zoom_run, os_fill_run.
  pose proof (len_fill_bytes 128 r1) as Lp.
  cbn [df_rng fst snd]. destruct (fill_bytes 128 r1) as [payload r2]. cbn [fst snd] in *.
  destruct (open_seal key payload aad r2 Lk) as (env & S & L & _);
    [rewrite Lp; unfold MAX_PAYLOAD_SIZE; lia|]. rewrite Lp in S.
  exists env. split; [done|]. split; [done|].
  rewrite bind_run. unfold df_set at 1. rewrite modify_run, bind_run, zoom_run, map_err_run.
  cbn [df_rng]. rewrite S. cbn [fst snd o_map_err df_key df_payload].
  unfold df_set. rewrite !zeroize_bytes_spec, bind_run, modify_run, Lk, Lp. done.
Qed.

Lemma generate_decoy_run aad r :
  ∃ env, generate_decoy aad r = (Ok env, decoy_next r) ∧ len env = ENVELOPE_TOTAL_LEN.
Proof.
  destruct (generate_decoy_body_run aad r [] []) as (env & _ & L & B).
  exists env. unfold generate_decoy. by rewrite B.
Qed.

(** An envelope that [generate_decoy] can return under [aad]. *)
Definition is_decoy (aad env : bytes) : Prop := ∃ r r', generate_decoy aad r = (Ok env, r').

Lemma is_decoy_len aad env : is_decoy aad env → len env = ENVELOPE_TOTAL_LEN.
Proof.
  intros (r & r' & E). destruct (generate_decoy_run aad r) as (env' & E' & L).
  rewrite E' in E. by simplify_eq.
Qed.

(** The envelope at position [i] of the output. *)
Definition slot_ok (real_envelope : bytes) (valid_slot : N) (aad : bytes) (i : N) (env : bytes)
    : Prop :=
  if decide (i = valid_slot) then env = real_envelope else is_decoy aad env.

(** Number of decoys generated for the slots [i], ..., [i + todo - 1]. *)
Definition decoys_from (valid_slot : N) (todo : nat) (i : N) : nat :=
  if (i <=? valid_slot) && (valid_slot <? i + N.of_nat todo) then pred todo else todo.

Lemma slots_loop_run real v aad todo i slots r :
  ∃ l, slots_loop real v aad todo i slots r
         = (Ok (slots ++ l), Nat.iter (decoys_from v todo i) decoy_next r)
    ∧ length l = todo
    ∧ ∀ j env, l !! j = Some env → slot_ok real v aad (i + N.of_nat j) env.
Proof.
  revert i slots r. induction todo as [|todo IH]; intros i slots r.
  { exists []. rewrite app_nil_r. split; [|done]. unfold decoys_from.
    by destruct (_ && _). }
  assert (Hcons : ∀ env l, slot_ok real v aad i env →
    (∀ j e, l !! j = Some e → slot_ok real v aad (i + 1 + N.of_nat j) e) →
    ∀ j e, (env :: l) !! j = Some e → slot_ok real v aad (i + N.of_nat j) e).
  { intros env l He Hl [|j] e Hj; simplify_eq/=; [by rewrite N.add_0_r|].
    replace (i + N.of_nat (S j)) with (i + 1 + N.of_nat j) by lia. auto. }
  cbn [slots_loop]. destruct (N.eqb_spec i v) as [Hi|Hi].
  - destruct (IH (i + 1) (slots ++ [real]) r) as (l & E & Ll & Hl).
    exists (real :: l). rewrite E, <-app_assoc. split; [|split; [cbn; by rewrite Ll|]].
    + do 2 f_equal. unfold decoys_from.
      destruct (N.leb_spec i v), (N.ltb_spec v (i + N.of_nat (S todo))); try lia.
      by destruct (N.leb_spec (i + 1) v); [lia|].
    + apply Hcons; [|done]. unfold slot_ok. by rewrite decide_True.
  - destruct (generate_decoy_run aad r) as (env & G & _).
    rewrite bind_run, G.
    destruct (IH (i + 1) (slots ++ [env]) (decoy_next r)) as (l & E & Ll & Hl).
    exists (env :: l). rewrite E, <-app_assoc. split; [|split; [cbn; by rewrite Ll|]].
    + rewrite <-Nat.iter_succ_r. do 2 f_equal. unfold decoys_from.
      destruct (N.leb_spec (i + 1) v), (N.leb_spec i v), (N.ltb_spec v (i + 1 + N.of_nat todo)),
        (N.ltb_spec v (i + N.of_nat (S todo))); cbn; lia.
    + apply Hcons; [|done]. unfold slot_ok. rewrite decide_False by done. by do 2 eexists.
Qed.

Lemma generate_multi_path_slots_run real v n aad r :
  v < n → n * ENVELOPE_TOTAL_LEN <= ISIZE_MAX →
  ∃ l, generate_multi_path_slots real v n aad r
         = (Ok l, Nat.iter (N.to_nat (n - 1)) decoy_next r)
    ∧ len l = n ∧ ∀ i env, index i l = Some env → slot_ok real v aad i env.
Proof.
  intros Hv Hn. unfold generate_multi_path_slots.
  destruct (N.eqb_spec n 0); [lia|]. destruct (N.leb_spec n v); [lia|].
  destruct (N.ltb_spec ISIZE_MAX (n * ENVELOPE_TOTAL_LEN)); [lia|].
  destruct (slots_loop_run real v aad (N.to_nat n) 0 [] r) as (l & E & Ll & Hl).
  exists l. rewrite E. split; [|split; [unfold len; lia|]].
  - do 2 f_equal. unfold decoys_from.
    destruct (N.leb_spec 0 v), (N.ltb_spec v (0 + N.of_nat (N.to_nat n))); cbn; lia.
  - intros i env Hi. apply Hl in Hi. by rewrite N2Nat.id, N.add_0_l in Hi.
Qed.

(** C32. Slot distribution.  The two argument errors come first and draw nothing;
    a path count whose buffer cannot be allocated panics; otherwise the
    result has exactly [n_paths] envelopes, the real one at [valid_slot] and a
    freshly generated decoy of 1024 bytes everywhere else.  The random source
    ends after exactly [n_paths - 1] decoys, so neither the amount of work
    nor the state left behind depends on the position of the real envelope. *)
Theorem slots_distribution real v n aad r :
  (n = 0 → generate_multi_path_slots real v n aad r = (Err InvalidPathCount, r))
  ∧ (n ≠ 0 → n <= v → generate_multi_path_slots real v n aad r = (Err InvalidSlotIndex, r))
  ∧ (v < n → ISIZE_MAX < n * ENVELOPE_TOTAL_LEN →
       generate_multi_path_slots real v n aad r = (Panic, r))
  ∧ (v < n → n * ENVELOPE_TOTAL_LEN <= ISIZE_MAX →
       ∃ l, generate_multi_path_slots real v n aad r
              = (Ok l, Nat.iter (N.to_nat (n - 1)) decoy_next r)
         ∧ len l = n ∧ index v l = Some real
         ∧ ∀ i env, i ≠ v → index i l = Some env →
             is_decoy aad env ∧ len env = ENVELOPE_TOTAL_LEN).
Proof.
  split; [|split; [|split]].
  - by intros ->.
  - intros. unfold generate_multi_path_slots.
    destruct (N.eqb_spec n 0); [lia|]. by destruct (N.leb_spec n v); [|lia].
  - intros. unfold generate_multi_path_slots.
    destruct (N.eqb_spec n 0); [lia|]. destruct (N.leb_spec n v); [lia|].
    by destruct (N.ltb_spec ISIZE_MAX (n * ENVELOPE_TOTAL_LEN)); [|lia].
  - intros Hv Hn. destruct (generate_multi_path_slots_run real v n aad r Hv Hn) as (l & E & L & Hl).
    exists l. split; [done|]. split; [done|]. split.
    + destruct (index v l) as [env|] eqn:Hi.
      * apply Hl in Hi. unfold slot_ok in Hi. rewrite decide_True in Hi by done. by subst.
      * apply lookup_ge_None in Hi. unfold len in L. lia.
    + intros i env Hne Hi. apply Hl in Hi. unfold slot_ok in Hi. rewrite decide_False in Hi by done.
      split; [done|by eapply is_decoy_len].
Qed.

(** C33. A decoy is always produced: 1024 bytes that are [seal] of 128 random
    bytes under a freshly drawn key, and both secrets are zeroed when the
    function returns. *)
Theorem decoy_generated aad r b0 b1 :
  ∃ env f, generate_decoy_body aad {| df_rng := r; df_key := b0; df_payload := b1 |} = (Ok env, f)
    ∧ generate_decoy aad r = (Ok env, df_rng f)
    ∧ len env = ENVELOPE_TOTAL_LEN
    ∧ seal (fill_bytes 32 r).1 (fill_bytes 128 (fill_bytes 32 r).2).1 aad
        (fill_bytes 128 (fill_bytes 32 r).2).2 = (Ok env, df_rng f)
    ∧ df_key f = zeros 32 ∧ df_payload f = zeros 128.
Proof.
  destruct (generate_decoy_body_run aad r b0 b1) as (env & S & L & B).
  destruct (generate_decoy_body_run aad r [] []) as (env' & S' & _ & B').
  rewrite S in S'. simplify_eq. do 2 eexists. split; [done|].
  split; [unfold generate_decoy; by rewrite B'|]. done.
Qed.
End decoy_facts.
