(* ===== verification/AntiReplay.v ===== *)
(** * The anti-replay store ([src/anti_replay.rs])

    A hash map for membership and a queue for age order, both bounded.  Time is
    a number of nanoseconds; the value of [Instant::now()] is an argument of
    the operation that reads it. *)

From stdpp Require Import sorting.
From S2P Require Import Prelude Outcome.

Definition NANOS_PER_SEC : N := 1000000000.
(** [Duration::from_secs]. *)
Definition from_secs (secs : N) : N := secs * NANOS_PER_SEC.
(** [Instant::duration_since], which saturates at zero. *)
Definition duration_since (now earlier : N) : N := now - earlier.

Definition ANTI_REPLAY_CAPACITY : N := 10000.
Definition ANTI_REPLAY_TIME_WINDOW : N := from_secs 300.

Abbreviation replay_key := (N * bytes)%type.
Abbreviation replay_entry := ((N * bytes) * N)%type.

Record AntiReplayStore := {
  entries : gmap replay_key N;
  queue : list replay_entry;
  capacity : N;
  time_window : N;
}.

#[export] Instance AntiReplayStore_eq_dec : EqDecision AntiReplayStore.
Proof. solve_decision. Defined.

Definition AntiReplayStore_new : AntiReplayStore :=
  {| entries := ∅; queue := []; capacity := ANTI_REPLAY_CAPACITY;
     time_window := ANTI_REPLAY_TIME_WINDOW |}.

(** [Default::default]. *)
Definition AntiReplayStore_default : AntiReplayStore := AntiReplayStore_new.

Definition with_capacity_and_window (capacity window_secs : N) : AntiReplayStore :=
  let time_window := from_secs window_secs in
  {| entries := ∅; queue := []; capacity := capacity; time_window := time_window |}.

Definition contains (self : AntiReplayStore) (seq : N) (message_id : bytes) : bool :=
  bool_decide (is_Some (entries self !! (seq, message_id))).

(** [self.entries.len()]. *)
Definition store_len (self : AntiReplayStore) : N := N.of_nat (size (entries self)).
Definition is_empty (self : AntiReplayStore) : bool := store_len self =? 0.

(** The loop of [prune] on the queue and the map. *)
Fixpoint prune_loop (window now : N) (q : list replay_entry) (m : gmap replay_key N)
    : list replay_entry * gmap replay_key N :=
  match q with
  | (old_key, timestamp) :: q' =>
      if window <? duration_since now timestamp
      then prune_loop window now q' (delete old_key m)
      else (q, m)
  | [] => (q, m)
  end.

Definition prune (self : AntiReplayStore) (now : N) : AntiReplayStore :=
  let '(q, m) := prune_loop (time_window self) now (queue self) (entries self) in
  {| entries := m; queue := q; capacity := capacity self; time_window := time_window self |}.

(** The loop of [evict_oldest]: it stops at the first key that was in the map. *)
Fixpoint evict_loop (q : list replay_entry) (m : gmap replay_key N)
    : list replay_entry * gmap replay_key N :=
  match q with
  | (oldest_key, _) :: q' =>
      if bool_decide (is_Some (m !! oldest_key))
      then (q', delete oldest_key m)
      else evict_loop q' (delete oldest_key m)
  | [] => (q, m)
  end.

Definition evict_oldest (self : AntiReplayStore) : AntiReplayStore :=
  let '(q, m) := evict_loop (queue self) (entries self) in
  {| entries := m; queue := q; capacity := capacity self; time_window := time_window self |}.

(** [now] is the value [Instant::now()] returns. *)
Definition check_and_insert (now : N) (self : AntiReplayStore) (seq : N) (message_id : bytes)
    : bool * AntiReplayStore :=
  let self := prune self now in
  let key := (seq, message_id) in
  if bool_decide (is_Some (entries self !! key)) then (false, self) else
  let self := if capacity self <=? store_len self then evict_oldest self else self in
  (true, {| entries := <[key := now]> (entries self);
            queue := queue self ++ [(key, now)];
            capacity := capacity self; time_window := time_window self |}).

(** ** Abstract specification: one log of live entries, oldest first *)

Record replay_log := { log : list replay_entry; log_capacity : N; log_window : N }.

Definition live (window now : N) (e : replay_entry) : Prop := duration_since now e.2 ≤ window.

#[export] Instance live_dec window now e : Decision (live window now e).
Proof. unfold live. apply _. Defined.

(** Forget what is too old; refuse a key that is still there; make room by
    forgetting the oldest; record the key with the current time. *)
Definition log_insert (now : N) (key : replay_key) (l : replay_log) : bool * replay_log :=
  let kept := filter (live (log_window l) now) (log l) in
  let with_log es := {| log := es; log_capacity := log_capacity l; log_window := log_window l |} in
  if decide (key ∈ kept.*1) then (false, with_log kept) else
  let room := if log_capacity l <=? len kept then tail kept else kept in
  (true, with_log (room ++ [(key, now)])).

(** The log that a store represents. *)
Definition abs_log (s : AntiReplayStore) : replay_log :=
  {| log := queue s; log_capacity := capacity s; log_window := time_window s |}.

(** Map and queue hold the same entries. *)
Definition store_repr (s : AntiReplayStore) : Prop :=
  NoDup (queue s).*1 ∧ entries s = list_to_map (queue s).

(** Entries are in order of age and none is from after [now]. *)
Definition log_ordered (now : N) (es : list replay_entry) : Prop :=
  StronglySorted (λ a b, a.2 <= b.2) es ∧ Forall (λ e, e.2 <= now) es.

Record store_inv (now : N) (s : AntiReplayStore) : Prop := {
  inv_repr : store_repr s;
  inv_ordered : log_ordered now (queue s);
  inv_bound : len (queue s) <= N.max 1 (capacity s);
}.

(** ** The loops against the specification *)

Section store_facts.
Implicit Types (q es : list replay_entry) (m : gmap replay_key N) (s : AntiReplayStore).

Lemma repr_lookup s k : store_repr s → is_Some (entries s !! k) ↔ k ∈ (queue s).*1.
Proof.
  intros [Hnd ->]. split.
  - intros [t Ht]. apply elem_of_list_to_map_2 in Ht. apply list_elem_of_fmap. by exists (k, t).
  - intros ([k' t] & -> & Hin)%list_elem_of_fmap. exists t. by apply elem_of_list_to_map_1.
Qed.

Lemma repr_len s : store_repr s → store_len s = len (queue s).
Proof. intros [Hnd E]. unfold store_len, len. by rewrite E, map_size_list_to_map. Qed.

Lemma repr_tail k t q : NoDup ((k, t) :: q).*1 →
  delete k (list_to_map ((k, t) :: q) : gmap replay_key N) = list_to_map q ∧ NoDup q.*1.
Proof.
  cbn. intros [Hk Hnd]%NoDup_cons. split; [|done].
  rewrite delete_insert_id; [done|]. by apply not_elem_of_list_to_map_1.
Qed.

Lemma prune_loop_suffix w now q m : suffix (prune_loop w now q m).1 q.
Proof.
  revert m. induction q as [|[k t] q IH]; intros m; cbn; [done|].
  case_match; cbn; [|done]. by apply suffix_cons_r.
Qed.

Lemma prune_loop_repr w now q :
  NoDup q.*1 →
  (prune_loop w now q (list_to_map q)).2 = list_to_map (prune_loop w now q (list_to_map q)).1
  ∧ NoDup (prune_loop w now q (list_to_map q)).1.*1.
Proof.
  induction q as [|[k t] q IH]; intros Hnd; [done|].
  cbn [prune_loop]. case_match; [|done].
  destruct (repr_tail k t q Hnd) as [-> Hq]. by apply IH.
Qed.

(** On entries in order of age, dropping expired ones from the head removes
    every expired entry. *)
Lemma prune_loop_filter w now q m :
  StronglySorted (λ a b, a.2 <= b.2) q →
  (prune_loop w now q m).1 = filter (live w now) q.
Proof.
  revert m. induction q as [|[k t] q IH]; intros m Hs; [done|].
  apply StronglySorted_cons in Hs as [Hall Hs]. cbn [prune_loop].
  destruct (N.ltb_spec w (duration_since now t)) as [Hexp|Hlive].
  - rewrite filter_cons_False by (unfold live; cbn; lia). by apply IH.
  - rewrite filter_cons_True by done. cbn. f_equal. symmetry. apply filter_all.
    apply (Forall_impl _ _ _ Hall). cbn in *. unfold live, duration_since in *. intros e. lia.
Qed.

Lemma prune_fields s now :
  capacity (prune s now) = capacity s ∧ time_window (prune s now) = time_window s.
Proof. unfold prune. by destruct (prune_loop _ _ _ _). Qed.

Lemma prune_queue s now :
  queue (prune s now) = (prune_loop (time_window s) now (queue s) (entries s)).1.
Proof. unfold prune. by destruct (prune_loop _ _ _ _). Qed.

Lemma prune_repr s now : store_repr s → store_repr (prune s now).
Proof.
  intros [Hnd E]. unfold store_repr, prune. rewrite E.
  pose proof (prune_loop_repr (time_window s) now (queue s) Hnd) as [P1 P2].
  destruct (prune_loop _ _ _ _) as [q m]; cbn in *. by subst.
Qed.

Lemma prune_abs s now :
  store_repr s → StronglySorted (λ a b, a.2 <= b.2) (queue s) →
  queue (prune s now) = filter (live (time_window s) now) (queue s).
Proof. intros _ Hs. rewrite prune_queue. by apply prune_loop_filter. Qed.

Lemma evict_oldest_repr s :
  store_repr s → store_repr (evict_oldest s) ∧ queue (evict_oldest s) = tail (queue s)
  ∧ capacity (evict_oldest s) = capacity s ∧ time_window (evict_oldest s) = time_window s.
Proof.
  intros [Hnd E]. unfold store_repr, evict_oldest. rewrite E.
  destruct (queue s) as [|[k t] q]; cbn [evict_loop]; [done|].
  rewrite bool_decide_eq_true_2 by (cbn; rewrite lookup_insert_eq; by eexists).
  by destruct (repr_tail k t q Hnd) as [-> Hq].
Qed.

Lemma ordered_suffix now q q' : log_ordered now q → suffix q' q → log_ordered now q'.
Proof.
  intros [Hs Hf] [k ->]. apply StronglySorted_app in Hs as (_ & _ & Hs).
  by apply Forall_app in Hf as [_ Hf].
Qed.

Lemma ordered_mono now now' q : log_ordered now q → now <= now' → log_ordered now' q.
Proof.
  intros [Hs Hf] Hle. split; [done|]. apply (Forall_impl _ _ _ Hf). intros e. cbn. lia.
Qed.

Lemma ordered_snoc now q k : log_ordered now q → log_ordered now (q ++ [(k, now)]).
Proof.
  intros [Hs Hf]. split.
  - apply StronglySorted_app. split; [|split; [done|repeat constructor]].
    intros e e' He ->%list_elem_of_singleton. rewrite Forall_forall in Hf. by apply Hf.
  - apply Forall_app. split; [done|]. repeat constructor. cbn. lia.
Qed.

(** ** One operation *)

Lemma check_and_insert_fields now s seq mid :
  capacity (check_and_insert now s seq mid).2 = capacity s
  ∧ time_window (check_and_insert now s seq mid).2 = time_window s.
Proof.
  unfold check_and_insert, evict_oldest. destruct (prune_fields s now) as [<- <-].
  destruct (bool_decide _); [done|]. destruct (_ <=? _); [|done].
  by destruct (evict_loop _ _).
Qed.

Lemma check_and_insert_refines now s seq mid :
  store_inv now s →
  let '(fresh, s') := check_and_insert now s seq mid in
  log_insert now (seq, mid) (abs_log s) = (fresh, abs_log s') ∧ store_inv now s'.
Proof.
  intros [Hr Ho Hb].
  pose proof (prune_repr s now Hr) as Hpr. destruct (prune_fields s now) as [Hc Hw].
  pose proof (prune_abs s now Hr (proj1 Ho)) as Hq.
  assert (Hsuf : suffix (queue (prune s now)) (queue s))
    by (rewrite prune_queue; apply prune_loop_suffix).
  pose proof (ordered_suffix _ _ _ Ho Hsuf) as Hpo.
  pose proof (suffix_len _ _ Hsuf) as Hlen.
  unfold check_and_insert, log_insert. cbn [abs_log log log_window log_capacity]. rewrite <-Hq.
  set (p := prune s now) in *. clearbody p.
  destruct (repr_lookup p (seq, mid) Hpr) as [L1 L2].
  destruct (decide ((seq, mid) ∈ (queue p).*1)) as [Hin|Hout].
  - rewrite bool_decide_eq_true_2 by auto. unfold abs_log. rewrite Hc, Hw.
    split; [done|]. split; [done|done|]. rewrite Hc. lia.
  - rewrite bool_decide_eq_false_2 by auto. rewrite (repr_len p Hpr), <-Hc.
    assert (∃ p', (if capacity p <=? len (queue p) then evict_oldest p else p) = p'
      ∧ store_repr p' ∧ capacity p' = capacity s ∧ time_window p' = time_window s
      ∧ queue p' = (if capacity p <=? len (queue p) then tail (queue p) else queue p)
      ∧ suffix (queue p') (queue p) ∧ len (queue p') + 1 <= N.max 1 (capacity s))
      as (p' & -> & Hr' & Hc' & Hw' & <- & Hs' & Hl').
    { destruct (evict_oldest_repr p Hpr) as (E1 & E2 & E3 & E4).
      destruct (N.leb_spec (capacity p) (len (queue p))); eexists; (split; [done|]).
      - rewrite E2, E3, E4. split; [done|]. split; [done|]. split; [done|]. split; [done|].
        split; [apply suffix_tail|]. destruct (queue p); cbn [tail];
          rewrite ?len_cons, ?len_nil in *; lia.
      - split; [done|]. split; [done|]. split; [done|]. split; [done|]. split; [done|]. lia. }
    unfold abs_log; cbn. rewrite Hc', Hw', <-Hc. split; [done|].
    assert (Hnew : (seq, mid) ∉ (queue p').*1).
    { intros Hin. apply Hout. destruct Hs' as [k ->]. rewrite fmap_app. by apply elem_of_app; right. }
    destruct Hr' as [Hnd He]. split; cbn.
    + split; cbn.
      * rewrite fmap_app. apply NoDup_app. split; [done|]. split; [|apply NoDup_singleton].
        by intros k Hk ->%list_elem_of_singleton.
      * rewrite He. symmetry. by apply list_to_map_snoc.
    + apply ordered_snoc. by eapply ordered_suffix.
    + rewrite len_app, len_cons, len_nil. lia.
Qed.

(** ** Sequences of calls *)

Abbreviation call := (N * N * bytes)%type.

(** Calls of [check_and_insert], each with the time it reads, and their
    answers. *)
Fixpoint store_run (calls : list call) s : list bool * AntiReplayStore :=
  match calls with
  | [] => ([], s)
  | (now, seq, mid) :: calls =>
      let '(b, s) := check_and_insert now s seq mid in
      let '(bs, s) := store_run calls s in (b :: bs, s)
  end.

Fixpoint log_run (calls : list call) (l : replay_log) : list bool * replay_log :=
  match calls with
  | [] => ([], l)
  | (now, seq, mid) :: calls =>
      let '(b, l) := log_insert now (seq, mid) l in
      let '(bs, l) := log_run calls l in (b :: bs, l)
  end.

(** Calls that inserted. *)
Definition insertions (answers : list bool) : N := len (filter (λ b, b = true) answers).

Lemma insertions_cons b bs : insertions (b :: bs) = (if b then 1 else 0) + insertions bs.
Proof.
  unfold insertions. destruct b;
    [rewrite filter_cons_True by done; apply len_cons|by rewrite filter_cons_False].
Qed.

Lemma insertions_le bs : insertions bs <= len bs.
Proof. unfold insertions, len. pose proof (length_filter (λ b, b = true) bs). lia. Qed.

Lemma store_run_answers calls s : len (store_run calls s).1 = len calls.
Proof.
  revert s. induction calls as [|[[now seq] mid] calls IH]; intros s; [done|]. cbn [store_run].
  destruct (check_and_insert now s seq mid) as [b s1]. specialize (IH s1).
  destruct (store_run calls s1) as [bs s2]. cbn [fst] in *. rewrite !len_cons. lia.
Qed.

(** [Instant::now()] never goes backwards: the times from [t] on are in
    order and not after [t']. *)
Fixpoint clock_between (t : N) (calls : list call) (t' : N) : Prop :=
  match calls with
  | [] => t <= t'
  | (now, _, _) :: calls => t <= now ∧ clock_between now calls t'
  end.

Lemma store_inv_mono t t' s : store_inv t s → t <= t' → store_inv t' s.
Proof. intros [Hr Ho Hb] ?. split; try done. by eapply ordered_mono. Qed.

Lemma store_inv_new t cap secs : store_inv t (with_capacity_and_window cap secs).
Proof.
  split; cbn; [|split; constructor|rewrite len_nil; lia].
  split; [constructor|done].
Qed.

Lemma store_run_refines t calls t' s :
  store_inv t s → clock_between t calls t' →
  let '(bs, s') := store_run calls s in
  log_run calls (abs_log s) = (bs, abs_log s') ∧ store_inv t' s'.
Proof.
  revert t s. induction calls as [|[[now seq] mid] calls IH]; intros t s Hinv Hclock; cbn in *.
  { split; [done|by eapply store_inv_mono]. }
  destruct Hclock as [Hle Hclock].
  pose proof (check_and_insert_refines now s seq mid (store_inv_mono _ _ _ Hinv Hle)) as R.
  destruct (check_and_insert now s seq mid) as [b s1]. destruct R as [-> Hinv1].
  specialize (IH now s1 Hinv1 Hclock). destruct (store_run calls s1) as [bs s'].
  by destruct IH as [-> ?].
Qed.

(** After a call its key is recorded, whatever the answer. *)
Lemma check_and_insert_nonempty now s seq mid :
  1 <= store_len (check_and_insert now s seq mid).2.
Proof.
  enough (size (entries (check_and_insert now s seq mid).2) ≠ 0%nat) by (unfold store_len; lia).
  apply map_size_ne_0_lookup. exists (seq, mid). unfold check_and_insert.
  case_bool_decide as E; [done|]. cbn [snd entries]. rewrite lookup_insert_eq. by eexists.
Qed.

Lemma store_run_nonempty calls s : calls ≠ [] → 1 <= store_len (store_run calls s).2.
Proof.
  revert s. induction calls as [|[[now seq] mid] calls IH]; intros s; [done|]. intros _.
  cbn [store_run]. pose proof (check_and_insert_nonempty now s seq mid) as Hone.
  destruct (check_and_insert now s seq mid) as [b s1]. cbn [snd] in Hone.
  destruct (decide (calls = [])) as [->|Hne]; [done|]. specialize (IH s1 Hne).
  by destruct (store_run calls s1).
Qed.

(** The answer of one call, in terms of the queue. *)
Lemma check_and_insert_answer now s seq mid :
  store_inv now s →
  (check_and_insert now s seq mid).1 = false ↔
    ∃ t, ((seq, mid), t) ∈ queue s ∧ live (time_window s) now ((seq, mid), t).
Proof.
  intros Hinv. pose proof (check_and_insert_refines now s seq mid Hinv) as R.
  destruct (check_and_insert now s seq mid) as [b s']. destruct R as [E _]. cbn [fst].
  unfold log_insert in E. cbn [abs_log log log_window log_capacity] in E.
  case_decide as D.
  - injection E as <- _. split; [|done]. intros _.
    apply list_elem_of_fmap in D as ([k t] & Hk & [Hl Hin]%list_elem_of_filter). cbn in Hk. subst k.
    by exists t.
  - injection E as <- _. split; [done|]. intros (t & Hin & Hl). destruct D.
    apply list_elem_of_fmap. exists ((seq, mid), t). split; [done|]. by apply list_elem_of_filter.
Qed.

(** A live entry with few younger ones survives a call. *)
Definition recorded (k : replay_key) (t : N) (n : N) (q : list replay_entry) : Prop :=
  ∃ l1 l2, q = l1 ++ (k, t) :: l2 ∧ len l2 <= n.

Lemma len_filter (P : replay_entry → Prop) `{!∀ e, Decision (P e)} q : len (filter P q) <= len q.
Proof. unfold len. pose proof (length_filter P q). lia. Qed.

Lemma check_and_insert_retains now s seq mid k t n :
  store_inv now s → live (time_window s) now (k, t) →
  let m := n + (if (check_and_insert now s seq mid).1 then 1 else 0) in
  m < capacity s → recorded k t n (queue s) →
  recorded k t m (queue (check_and_insert now s seq mid).2).
Proof.
  intros Hinv Hlive m Hn (l1 & l2 & Hq & Hl2). unfold m in *. clear m.
  pose proof (check_and_insert_refines now s seq mid Hinv) as R.
  destruct (check_and_insert now s seq mid) as [b s']. destruct R as [E _]. cbn [fst snd] in *.
  unfold log_insert in E. cbn [abs_log log log_window log_capacity] in E.
  rewrite Hq, filter_app, filter_cons_True in E by done.
  pose proof (len_filter (live (time_window s) now) l2) as Hf2.
  set (f1 := filter _ l1) in *. set (f2 := filter _ l2) in *.
  case_decide as D; injection E as <- E' _ _; rewrite <-E'; [exists f1, f2; split; [done|lia]|].
  assert (∃ f1', (if capacity s <=? len (f1 ++ (k, t) :: f2) then tail (f1 ++ (k, t) :: f2)
                  else f1 ++ (k, t) :: f2) = f1' ++ (k, t) :: f2) as [f1' ->].
  { destruct (N.leb_spec (capacity s) (len (f1 ++ (k, t) :: f2))) as [Hcap|_]; [|by eexists].
    destruct f1 as [|e f1]; [|by exists f1]. cbn [app] in Hcap. rewrite len_cons in Hcap. lia. }
  exists f1', (f2 ++ [((seq, mid), now)]). rewrite <-app_assoc. split; [done|].
  rewrite len_app, len_cons, len_nil. lia.
Qed.

Lemma store_run_retains t calls t' s k t0 n :
  store_inv t s → clock_between t calls t' → t' - t0 <= time_window s →
  n + insertions (store_run calls s).1 < capacity s → recorded k t0 n (queue s) →
  ∃ n', recorded k t0 n' (queue (store_run calls s).2)
    ∧ capacity (store_run calls s).2 = capacity s
    ∧ time_window (store_run calls s).2 = time_window s.
Proof.
  revert t s n. induction calls as [|[[now seq] mid] calls IH]; intros t s n Hinv Hclock Hw Hn Hrec.
  { by exists n. }
  destruct Hclock as [Hle Hclock]. cbn [store_run] in Hn |- *.
  assert (Hnow : now <= t').
  { clear -Hclock. revert now Hclock. induction calls as [|[[now' ?] ?] calls IH]; cbn; [done|].
    intros now [? Hc]. specialize (IH now' Hc). lia. }
  pose proof (store_inv_mono _ _ _ Hinv Hle) as Hinv'.
  assert (Hlive : live (time_window s) now (k, t0)) by (unfold live, duration_since; cbn; lia).
  assert (Hrec' := λ Hm, check_and_insert_retains now s seq mid k t0 n Hinv' Hlive Hm Hrec).
  pose proof (check_and_insert_refines now s seq mid Hinv') as R.
  destruct (check_and_insert_fields now s seq mid) as [C W].
  destruct (check_and_insert now s seq mid) as [b s1]. destruct R as [_ Hinv1].
  specialize (IH now s1 (n + (if b then 1 else 0)) Hinv1 Hclock).
  destruct (store_run calls s1) as [bs s2]. cbn [fst snd] in *. rewrite insertions_cons in Hn.
  destruct IH as (n' & R' & C' & W'); [by rewrite W|rewrite C; lia|apply Hrec'; lia|].
  exists n'. by rewrite <-C, <-W.
Qed.

(** ** Properties of the store *)

(** C14. Refinement.  From an empty store, for every sequence of calls with a
    clock that does not go backwards, the store of hash map and queue gives
    exactly the answers of the one-log specification, ends in a state that
    represents the log's, and never tracks more entries than its capacity,
    unless that is zero: the eviction comes before the insertion, so a store of
    capacity zero tracks one entry from its first call on. *)
Theorem store_refines_log cap secs calls t t' :
  clock_between t calls t' →
  let '(bs, s) := store_run calls (with_capacity_and_window cap secs) in
  log_run calls {| log := []; log_capacity := cap; log_window := from_secs secs |} = (bs, abs_log s)
  ∧ store_repr s
  ∧ (cap ≠ 0 → store_len s <= cap)
  ∧ (cap = 0 → calls ≠ [] → store_len s = 1).
Proof.
  intros Hclock.
  pose proof (store_run_refines t calls t' _ (store_inv_new t cap secs) Hclock) as R.
  assert (Hcap : capacity (store_run calls (with_capacity_and_window cap secs)).2 = cap).
  { change cap with (capacity (with_capacity_and_window cap secs)) at 2.
    generalize (with_capacity_and_window cap secs). clear.
    induction calls as [|[[now seq] mid] calls IH]; intros s; [done|]. cbn [store_run].
    destruct (check_and_insert_fields now s seq mid) as [C _].
    destruct (check_and_insert now s seq mid) as [b s1]. specialize (IH s1).
    destruct (store_run calls s1). cbn [snd] in *. congruence. }
  pose proof (store_run_nonempty calls (with_capacity_and_window cap secs)) as Hne.
  destruct (store_run calls _) as [bs s]. destruct R as [R [Hr _ Hb]]. cbn [snd] in *.
  rewrite repr_len in * by done. rewrite Hcap in Hb.
  split; [exact R|]. split; [done|]. split; [intros; lia|]. intros -> Hc. specialize (Hne Hc). lia.
Qed.

(** C29. Replay detection.  A key that was accepted at time [t] is refused at any
    later time [t'] inside the window, whatever other calls came in between,
    as long as fewer of them inserted than the capacity; calls that were
    refused do not count. *)
Theorem replay_detected t s seq mid s1 calls t' :
  store_inv t s → check_and_insert t s seq mid = (true, s1) →
  clock_between t calls t' → t' - t <= time_window s →
  insertions (store_run calls s1).1 < capacity s →
  contains (store_run calls s1).2 seq mid = true
  ∧ (check_and_insert t' (store_run calls s1).2 seq mid).1 = false.
Proof.
  intros Hinv Hins Hclock Hw Hn.
  pose proof (check_and_insert_refines t s seq mid Hinv) as R.
  destruct (check_and_insert_fields t s seq mid) as [C W].
  rewrite Hins in R, C, W. destruct R as [E Hinv1]. cbn [snd] in C, W.
  assert (Hrec : recorded (seq, mid) t 0 (queue s1)).
  { unfold log_insert in E. case_decide; [done|]. injection E as E _ _. rewrite <-E.
    eexists _, []. split; [done|]. rewrite len_nil. lia. }
  rewrite <-W in Hw. rewrite <-C in Hn.
  destruct (store_run_retains t calls t' s1 (seq, mid) t 0 Hinv1 Hclock Hw) as (n & Hrec' & _ & W');
    [lia|done|].
  pose proof (store_run_refines t calls t' s1 Hinv1 Hclock) as R.
  destruct (store_run calls s1) as [bs s2]. destruct R as [_ Hinv2]. cbn [snd] in *.
  destruct Hrec' as (l1 & l2 & Hq & _).
  assert (Hin : ((seq, mid), t) ∈ queue s2) by (rewrite Hq; apply elem_of_app; right; left).
  split.
  - apply bool_decide_eq_true_2, (repr_lookup _ _ (inv_repr _ _ Hinv2)).
    apply list_elem_of_fmap. by exists ((seq, mid), t).
  - apply check_and_insert_answer; [done|]. exists t. split; [done|].
    unfold live, duration_since. cbn. by rewrite W'.
Qed.

(** C30. Exact answer.  A call answers "duplicate" if and only if the key was
    recorded and its entry is not older than the window; in particular an
    entry that has expired does not block its key, and [contains], which
    reads no clock, reports it as long as it has not been pruned. *)
Theorem duplicate_iff_live now s seq mid :
  store_inv now s →
  ((check_and_insert now s seq mid).1 = false ↔
     ∃ t, entries s !! (seq, mid) = Some t ∧ duration_since now t <= time_window s)
  ∧ (contains s seq mid = true ↔ ∃ t, ((seq, mid), t) ∈ queue s).
Proof.
  intros Hinv. destruct (inv_repr _ _ Hinv) as [Hnd He]. split.
  - rewrite check_and_insert_answer by done. rewrite He.
    split; intros (t & H1 & H2); exists t; (split; [|done]).
    + by apply elem_of_list_to_map_1.
    + by apply elem_of_list_to_map_2 in H1.
  - unfold contains. rewrite bool_decide_eq_true, (repr_lookup _ _ (inv_repr _ _ Hinv)).
    rewrite list_elem_of_fmap. split.
    + intros ([k t] & -> & Hin). by exists t.
    + intros [t Hin]. by exists ((seq, mid), t).
Qed.
End store_facts.
