(* ===== verification/ReplayCost.v ===== *)
(** * The cost of the anti-replay store ([src/anti_replay.rs])

    [prune] and [evict_oldest] are loops over the queue.  Here their rounds are
    counted: one round pops one entry, so over a whole run the rounds are paid
    for by the insertions, whatever the clock does.  The bounds of a single
    call need the store's invariant. *)

From S2P Require Import Prelude Outcome AntiReplay.

(** Rounds of the loop of [prune]: the entries it pops. *)
Fixpoint prune_rounds (window now : N) (q : list replay_entry) : N :=
  match q with
  | (_, timestamp) :: q' =>
      if window <? duration_since now timestamp then 1 + prune_rounds window now q' else 0
  | [] => 0
  end.

(** Rounds of the loop of [evict_oldest]. *)
Fixpoint evict_rounds (q : list replay_entry) (m : gmap replay_key N) : N :=
  match q with
  | (oldest_key, _) :: q' =>
      if bool_decide (is_Some (m !! oldest_key)) then 1
      else 1 + evict_rounds q' (delete oldest_key m)
  | [] => 0
  end.

(** Rounds of one call, along the branches of [check_and_insert]. *)
Definition call_rounds (now : N) (self : AntiReplayStore) (seq : N) (message_id : bytes) : N :=
  let pruned := prune self now in
  prune_rounds (time_window self) now (queue self) +
  (if bool_decide (is_Some (entries pruned !! (seq, message_id))) then 0
   else if capacity pruned <=? store_len pruned then evict_rounds (queue pruned) (entries pruned)
   else 0).

Fixpoint run_rounds (calls : list (N * N * bytes)) (s : AntiReplayStore) : N :=
  match calls with
  | [] => 0
  | (now, seq, mid) :: calls =>
      call_rounds now s seq mid + run_rounds calls (check_and_insert now s seq mid).2
  end.

(** ** One round, one entry *)

Lemma prune_rounds_len window now q m :
  len (prune_loop window now q m).1 + prune_rounds window now q = len q.
Proof.
  revert m. induction q as [|[k t] q IH]; intros m; [done|]. cbn [prune_loop prune_rounds].
  destruct (window <? duration_since now t); [|cbn [fst]; lia].
  rewrite len_cons, <-(IH (delete k m)). lia.
Qed.

Lemma evict_rounds_len q m : len (evict_loop q m).1 + evict_rounds q m = len q.
Proof.
  revert m. induction q as [|[k t] q IH]; intros m; [done|]. cbn [evict_loop evict_rounds].
  rewrite len_cons. case_bool_decide; [cbn [fst]; lia|]. rewrite <-(IH (delete k m)). lia.
Qed.

Lemma prune_len self now :
  len (queue (prune self now)) + prune_rounds (time_window self) now (queue self)
  = len (queue self).
Proof.
  pose proof (prune_rounds_len (time_window self) now (queue self) (entries self)) as E.
  unfold prune. by destruct (prune_loop _ _ _ _).
Qed.

Lemma evict_len self :
  len (queue (evict_oldest self)) + evict_rounds (queue self) (entries self) = len (queue self).
Proof.
  pose proof (evict_rounds_len (queue self) (entries self)) as E.
  unfold evict_oldest. by destruct (evict_loop _ _).
Qed.

(** What a call pops is what the queue loses; what it inserts is one entry. *)
Lemma call_rounds_len now s seq mid :
  len (queue (check_and_insert now s seq mid).2) + call_rounds now s seq mid
  = len (queue s) + (if (check_and_insert now s seq mid).1 then 1 else 0).
Proof.
  unfold call_rounds, check_and_insert. pose proof (prune_len s now) as Hp.
  set (p := prune s now) in *. clearbody p.
  case_bool_decide; cbn [fst snd queue]; [lia|]. rewrite len_app, len_cons, len_nil.
  destruct (capacity p <=? store_len p); [pose proof (evict_len p)|]; lia.
Qed.

Lemma run_rounds_len calls s :
  len (queue (store_run calls s).2) + run_rounds calls s
  = len (queue s) + insertions (store_run calls s).1.
Proof.
  revert s. induction calls as [|[[now seq] mid] calls IH]; intros s; cbn [store_run run_rounds].
  { cbn [fst snd]. change (insertions []) with 0. lia. }
  pose proof (call_rounds_len now s seq mid) as Hc.
  destruct (check_and_insert now s seq mid) as [b s1]. cbn [fst snd] in *. specialize (IH s1).
  destruct (store_run calls s1) as [bs s2]. cbn [fst snd] in *. rewrite insertions_cons. lia.
Qed.

Lemma evict_rounds_repr s : store_repr s → evict_rounds (queue s) (entries s) <= 1.
Proof.
  intros Hr. destruct (queue s) as [|[k t] q] eqn:Hq; cbn [evict_rounds]; [lia|].
  rewrite bool_decide_eq_true_2; [lia|]. apply (repr_lookup s k Hr). rewrite Hq. left.
Qed.

Lemma len_filter_split (P : replay_entry → Prop) `{!∀ e, Decision (P e)} q :
  len (filter P q) + len (filter (λ e, ¬ P e) q) = len q.
Proof.
  induction q as [|e q IH]; [done|]. destruct (decide (P e)).
  - rewrite filter_cons_True, filter_cons_False, !len_cons by (done || tauto). lia.
  - rewrite filter_cons_False, filter_cons_True, !len_cons by done. lia.
Qed.

(** C31. Amortised constant time.  Over any run of calls on a new store, with any
    clock readings, the rounds of both loops together are the insertions minus
    the entries that are left in the queue, so they are at most one per call;
    and on a store whose map and queue agree the eviction after pruning takes one
    round at most, so that only the pruning of a call can take more, as many
    rounds as entries have expired. *)
Theorem amortised_constant cap secs calls :
  len (queue (store_run calls (with_capacity_and_window cap secs)).2)
    + run_rounds calls (with_capacity_and_window cap secs)
  = insertions (store_run calls (with_capacity_and_window cap secs)).1
  ∧ run_rounds calls (with_capacity_and_window cap secs) <= len calls
  ∧ (∀ now s, store_repr s →
       evict_rounds (queue (prune s now)) (entries (prune s now)) <= 1)
  ∧ ∀ now s seq mid, store_inv now s →
      call_rounds now s seq mid
      <= len (filter (λ e, ¬ live (time_window s) now e) (queue s)) + 1.
Proof.
  pose proof (run_rounds_len calls (with_capacity_and_window cap secs)) as R.
  change (len (queue (with_capacity_and_window cap secs))) with 0 in R.
  split; [lia|]. split.
  - pose proof (insertions_le (store_run calls (with_capacity_and_window cap secs)).1) as L.
    rewrite store_run_answers in L. lia.
  - split; [intros now s Hr; by apply evict_rounds_repr, prune_repr|]. intros now s seq mid [Hr Ho _]. pose proof (prune_len s now) as Hp.
    rewrite (prune_abs s now Hr (proj1 Ho)) in Hp.
    pose proof (evict_rounds_repr _ (prune_repr s now Hr)) as He.
    pose proof (len_filter_split (live (time_window s) now) (queue s)) as Hs.
    unfold call_rounds. repeat case_match; lia.
Qed.
