(* ===== verification/BTree.v ===== *)
(** * [std::collections::BTreeMap] with [u64] keys

    A finite map; the order of the keys shows only in [pop_first]. *)

From S2P Require Import Prelude.

(** [BTreeMap::len]. *)
Definition map_len {A} (m : gmap N A) : N := N.of_nat (size m).

Definition min_key {A} (m : gmap N A) : option N :=
  map_fold (λ k _ acc, Some (match acc with Some k' => N.min k k' | None => k end)) None m.

(** [BTreeMap::pop_first]: the least key (its value is dropped by the caller)
    and the map without it. *)
Definition pop_first {A} (m : gmap N A) : option (N * gmap N A) :=
  (λ k, (k, delete k m)) <$> min_key m.

Section btree.
Context {A : Type}.
Implicit Types m : gmap N A.

Lemma min_key_spec m :
  match min_key m with
  | Some k => is_Some (m !! k) ∧ ∀ k', is_Some (m !! k') → k <= k'
  | None => m = ∅
  end.
Proof.
  unfold min_key.
  apply (map_fold_weak_ind (λ acc m, match acc with
    | Some k => is_Some (m !! k) ∧ ∀ k', is_Some (m !! k') → k <= k'
    | None => m = ∅ end)); [done|].
  intros k x m' acc Hk IH. destruct acc as [k0|].
  - destruct IH as [[y Hk0] Hmin]. split.
    + destruct (N.min_spec k k0) as [[_ ->]|[_ ->]]; [rewrite lookup_insert_eq; by eexists|].
      destruct (decide (k = k0)) as [->|]; [by simplify_eq|].
      rewrite lookup_insert_ne by done. by eexists.
    + intros k' Hk'. destruct (decide (k = k')) as [->|Hne]; [lia|].
      rewrite lookup_insert_ne in Hk' by done. specialize (Hmin k' Hk'). lia.
  - subst m'. split; [rewrite lookup_insert_eq; by eexists|].
    intros k' Hk'. destruct (decide (k = k')) as [->|Hne]; [lia|].
    rewrite lookup_insert_ne, lookup_empty in Hk' by done. by destruct Hk'.
Qed.

Lemma pop_first_Some m k m' :
  pop_first m = Some (k, m') →
  is_Some (m !! k) ∧ m' = delete k m ∧ (∀ k', is_Some (m !! k') → k <= k').
Proof.
  unfold pop_first. pose proof (min_key_spec m) as Hm.
  destruct (min_key m) as [k0|]; intros ?; simplify_eq/=. by destruct Hm.
Qed.

Lemma pop_first_None m : pop_first m = None ↔ m = ∅.
Proof.
  unfold pop_first. pose proof (min_key_spec m) as Hm. split.
  - by destruct (min_key m).
  - intros ->. destruct (min_key ∅) as [k|]; [|done].
    destruct Hm as [[y Hy] _]. by rewrite lookup_empty in Hy.
Qed.

Lemma pop_first_len m k m' : pop_first m = Some (k, m') → map_len m = map_len m' + 1.
Proof.
  intros ([x Hk] & -> & _)%pop_first_Some. unfold map_len.
  rewrite <-(insert_delete_id m k x Hk) at 1.
  rewrite map_size_insert_None by apply lookup_delete_eq. lia.
Qed.

(** A map whose keys are all in [[a, b)] has at most [b - a] entries. *)
Lemma map_len_range m a b : (∀ k, is_Some (m !! k) → a <= k ∧ k < b) → map_len m <= b - a.
Proof.
  intros Hk. unfold map_len. rewrite <-(size_dom (D := gset N) m).
  set (range := (λ i, a + N.of_nat i) <$> seq 0 (N.to_nat (b - a))).
  assert (Hsub : dom m ⊆ list_to_set (C := gset N) range).
  { intros k Hin%elem_of_dom. apply elem_of_list_to_set, list_elem_of_fmap.
    specialize (Hk k Hin). exists (N.to_nat (k - a)). split; [lia|]. apply elem_of_seq. lia. }
  apply subseteq_size in Hsub. unfold range in Hsub.
  rewrite size_list_to_set, length_fmap, length_seq in Hsub; [lia|].
  apply NoDup_fmap_2; [intros x y; lia|apply NoDup_seq].
Qed.

Lemma map_len_below m b : (∀ k, is_Some (m !! k) → k < b) → map_len m <= b.
Proof.
  intros Hk. etrans; [apply (map_len_range m 0 b)|lia]. intros k Hin. specialize (Hk k Hin). lia.
Qed.
End btree.
