(* ===== verification/Channel.v ===== *)
(** * The secure channel ([src/channel.rs])

    The channel's state with [send] and the five-step [receive].  [send] also
    threads the random source; the clock value that the anti-replay insertion
    of [receive] reads is an argument. *)

From S2P Require Import Prelude Outcome Primitives Errors Types PathEngine Envelope Decoy AntiReplay BTree.

Definition MAX_SKIP_WINDOW : N := 1000.
Definition MAX_SKIPPED_KEYS : N := 1000.
Definition MAX_MESSAGE_ID_LEN : N := 256.

Record SecureChannel := {
  last_seq : option N;
  send_seq : option N;
  current_key : RatchetKey;
  skipped_keys : gmap N RatchetKey;
  anti_replay : AntiReplayStore;
  n_paths : N;
}.

#[export] Instance SecureChannel_eq_dec : EqDecision SecureChannel.
Proof. solve_decision. Defined.

Definition SecureChannel_new (root_key : RootKey) (n_paths : N) : SecureChannel :=
  {| last_seq := None;
     send_seq := None;
     current_key := RatchetKey_new (RootKey_0 root_key);
     skipped_keys := ∅;
     anti_replay := AntiReplayStore_new;
     n_paths := n_paths |}.

(** The accessor [last_seq]. *)
Definition SecureChannel_last_seq (self : SecureChannel) : option N := last_seq self.

Definition construct_aad (seq : N) (message_id : bytes) : bytes :=
  b_lit "decoypath-v1-msg-aad:" ++ to_be_bytes 8 seq ++ message_id.

(** The loop of [evict_oldest_skipped_keys]: every round shortens the map, so
    its length bounds the number of rounds. *)
Fixpoint evict_skipped_loop (fuel : nat) (m : gmap N RatchetKey) : gmap N RatchetKey :=
  match fuel with
  | O => m
  | S fuel =>
      if MAX_SKIPPED_KEYS <? map_len m then
        match pop_first m with
        | None => m
        | Some (_, m') => evict_skipped_loop fuel m'
        end
      else m
  end.

Definition evict_oldest_skipped_keys (m : gmap N RatchetKey) : gmap N RatchetKey :=
  evict_skipped_loop (size m) m.

Section channel.
Context `{BuildProfile} `{OsRng} `{Hashes} `{Aead} `{Zeroize}.

Definition on_rng {A} (m : M rng ChannelError A) : M (SecureChannel * rng) ChannelError A :=
  zoom snd (λ r s, (s.1, r)) m.

Definition send (payload message_id : bytes)
    : M (SecureChannel * rng) ChannelError (list bytes) :=
  if MAX_MESSAGE_ID_LEN <? len message_id then throw InvalidMessageId else
  s ← get_state;
  let self := s.1 in
  seq ← (match send_seq self with
         | None => mret 0
         | Some s => unwrap (add_u64 s 1)
         end : M (SecureChannel * rng) ChannelError N);
  valid_slot ← lift_o (o_map_err (λ _, DecoyFailure)
                 (select_slot (RatchetKey_0 (current_key self)) message_id (n_paths self)));
  let aad := construct_aad seq message_id in
  real_envelope ← on_rng (map_err (λ _, AuthenticationFailed)
                    (seal (RatchetKey_0 (current_key self)) payload aad));
  _ ← modify_state (λ s, ({| last_seq := last_seq s.1;
                             send_seq := Some seq;
                             current_key := derive_next (current_key s.1);
                             skipped_keys := skipped_keys s.1;
                             anti_replay := anti_replay s.1;
                             n_paths := n_paths s.1 |}, s.2));
  on_rng (map_err (λ _, DecoyFailure)
    (generate_multi_path_slots real_envelope valid_slot (n_paths self) aad)).

(** [runner.derive_next()] as a counted operation: Step 1 is written with it, so
    that the chain steps it runs are counted where they are run. *)
Definition derive_next_counted (k : RatchetKey) : counted RatchetKey :=
  tick (derive_next k).

(** [for s in first..first+count { local_skipped.insert(s, runner copy);
    runner = runner.derive_next(); }] *)
Fixpoint ratchet_loop_counted (count : nat) (s : N) (runner : RatchetKey)
    (local_skipped : gmap N RatchetKey) : counted (RatchetKey * gmap N RatchetKey) :=
  match count with
  | O => mret (runner, local_skipped)
  | S count =>
      let local_skipped := <[s := duplicate_for_target_use runner]> local_skipped in
      runner ← derive_next_counted runner;
      ratchet_loop_counted count (s + 1) runner local_skipped
  end.

(** What the loop leaves in [runner] and [local_skipped]. *)
Definition ratchet_loop (count : nat) (s : N) (runner : RatchetKey)
    (local_skipped : gmap N RatchetKey) : RatchetKey * gmap N RatchetKey :=
  value (ratchet_loop_counted count s runner local_skipped).

(** The four locals that Step 1 assigns. *)
Record step1_locals := {
  local_skipped : gmap N RatchetKey;
  target_key : RatchetKey;
  next_ratchet_key : option RatchetKey;
  is_forward : bool;
}.

(** STEP 1: the target key, from a read-only view of the channel, with the
    number of chain steps it takes.  An early return is a value, so that what
    was counted before it stays counted. *)
Definition receive_step1_counted (self : SecureChannel) (seq : N) (message_id : bytes)
    : counted (outcome ChannelError step1_locals) :=
  match last_seq self with
  | None =>
      if seq =? 0 then
        next ← derive_next_counted (current_key self);
        mret (Ok {| is_forward := true;
                    target_key := duplicate_for_target_use (current_key self);
                    next_ratchet_key := Some next;
                    local_skipped := ∅ |})
      else if MAX_SKIP_WINDOW <? seq then mret (Err InvalidSequence)
      else
        '(runner, local_skipped) ←
          ratchet_loop_counted (N.to_nat seq) 0 (duplicate_for_target_use (current_key self)) ∅;
        next ← derive_next_counted runner;
        mret (Ok {| is_forward := true;
                    target_key := duplicate_for_target_use runner;
                    next_ratchet_key := Some next;
                    local_skipped := local_skipped |})
  | Some last =>
      if last <? seq then
        let skip_count := seq - last in
        if MAX_SKIP_WINDOW <? skip_count then mret (Err InvalidSequence)
        else
          '(runner, local_skipped) ←
            ratchet_loop_counted (N.to_nat (seq - (last + 1))) (last + 1)
              (duplicate_for_target_use (current_key self)) ∅;
          next ← derive_next_counted runner;
          mret (Ok {| is_forward := true;
                      target_key := duplicate_for_target_use runner;
                      next_ratchet_key := Some next;
                      local_skipped := local_skipped |})
      else
        match skipped_keys self !! seq with
        | Some key_ref =>
            mret (Ok {| is_forward := false;
                        target_key := duplicate_for_target_use key_ref;
                        next_ratchet_key := None;
                        local_skipped := ∅ |})
        | None =>
            if contains (anti_replay self) seq message_id
            then mret (Err ReplayedSequence) else mret (Err SkippedKeyExpired)
        end
  end.

(** What Step 1 hands to the later steps. *)
Definition receive_step1 (self : SecureChannel) (seq : N) (message_id : bytes)
    : outcome ChannelError step1_locals :=
  value (receive_step1_counted self seq message_id).

(** STEP 5: the commit. *)
Definition receive_commit (seq : N) (l : step1_locals) : M SecureChannel ChannelError unit :=
  if is_forward l then
    _ ← modify_state (λ self,
      {| last_seq := Some seq;
         send_seq := send_seq self;
         current_key := current_key self;
         skipped_keys := evict_oldest_skipped_keys (local_skipped l ∪ skipped_keys self);
         anti_replay := anti_replay self;
         n_paths := n_paths self |});
    next ← unwrap (next_ratchet_key l);
    modify_state (λ self,
      {| last_seq := last_seq self;
         send_seq := send_seq self;
         current_key := next;
         skipped_keys := skipped_keys self;
         anti_replay := anti_replay self;
         n_paths := n_paths self |})
  else
    modify_state (λ self,
      {| last_seq := last_seq self;
         send_seq := send_seq self;
         current_key := current_key self;
         skipped_keys := delete seq (skipped_keys self);
         anti_replay := anti_replay self;
         n_paths := n_paths self |}).

Definition receive (now : N) (envelopes : list bytes) (seq : N) (message_id : bytes)
    : M SecureChannel ChannelError bytes :=
  if MAX_MESSAGE_ID_LEN <? len message_id then throw InvalidMessageId else
  self ← get_state;
  if len envelopes <? n_paths self then throw DecoyFailure else
  l ← lift_o (receive_step1 self seq message_id);
  slot_idx ← lift_o (o_map_err (λ _, DecoyFailure)
               (select_slot (RatchetKey_0 (target_key l)) message_id (n_paths self)));
  if len envelopes <=? slot_idx then throw DecoyFailure else
  let aad := construct_aad seq message_id in
  envelope ← unwrap (index slot_idx envelopes);
  payload ← lift_o (o_map_err (λ _, AuthenticationFailed)
              (open (RatchetKey_0 (target_key l)) envelope aad));
  let '(fresh, store) := check_and_insert now (anti_replay self) seq message_id in
  _ ← put_state {| last_seq := last_seq self;
                   send_seq := send_seq self;
                   current_key := current_key self;
                   skipped_keys := skipped_keys self;
                   anti_replay := store;
                   n_paths := n_paths self |};
  if negb fresh then throw ReplayedSequence else
  _ ← receive_commit seq l;
  mret payload.
End channel.

(** ** Helper functions of the channel *)

Section channel_helpers.
Context `{HashesLaws}.

(** Eviction keeps the greatest keys: with enough fuel the loop runs to its
    exit, and what is removed is below everything that stays. *)
Lemma evict_skipped_loop_spec fuel (m : gmap N RatchetKey) :
  (size m <= fuel)%nat →
  let m' := evict_skipped_loop fuel m in
  m' ⊆ m ∧ map_len m' = N.min (map_len m) MAX_SKIPPED_KEYS
  ∧ (∀ k k', is_Some (m !! k) → m' !! k = None → is_Some (m' !! k') → k < k').
Proof.
  revert m. induction fuel as [|fuel IH]; intros m Hf; cbn.
  { assert (size m = 0%nat) as ->%map_size_empty_inv by lia. split; [done|]. split; [done|].
    intros k k' [? E]. by rewrite lookup_empty in E. }
  destruct (N.ltb_spec MAX_SKIPPED_KEYS (map_len m)) as [Hlt|Hge].
  2:{ split; [done|]. split; [lia|]. intros k k' [x Hx] Hn. by rewrite Hx in Hn. }
  destruct (pop_first m) as [[k0 m1]|] eqn:Hpop.
  2:{ apply pop_first_None in Hpop. subst. done. }
  pose proof (pop_first_len _ _ _ Hpop) as Hlen. apply pop_first_Some in Hpop as (Hk0 & -> & Hmin).
  destruct (IH (delete k0 m)) as (Hsub & Hl & Hord); [unfold map_len in *; lia|].
  split; [etrans; [exact Hsub|apply delete_subseteq]|]. split; [lia|].
  intros k k' Hk Hn Hk'. destruct (decide (k = k0)) as [->|Hne].
  - assert (Hd : is_Some (delete k0 m !! k')) by (destruct Hk' as [x Hx]; exists x; by eapply lookup_weaken).
    destruct (decide (k' = k0)) as [->|Hne']; [rewrite lookup_delete_eq in Hd; by destruct Hd|].
    rewrite lookup_delete_ne in Hd by done. specialize (Hmin k' Hd). lia.
  - apply Hord; [|done|done]. by rewrite lookup_delete_ne.
Qed.

Lemma evict_spec (m : gmap N RatchetKey) :
  evict_oldest_skipped_keys m ⊆ m
  ∧ map_len (evict_oldest_skipped_keys m) = N.min (map_len m) MAX_SKIPPED_KEYS
  ∧ (∀ k k', is_Some (m !! k) → evict_oldest_skipped_keys m !! k = None →
       is_Some (evict_oldest_skipped_keys m !! k') → k < k').
Proof. by apply evict_skipped_loop_spec. Qed.

Lemma ratchet_loop_S count s runner m :
  ratchet_loop (S count) s runner m
  = ratchet_loop count (s + 1) (derive_next runner) (<[s:=duplicate_for_target_use runner]> m).
Proof. done. Qed.

(** One chain step per round. *)
Lemma ratchet_loop_count count s runner m :
  derivations (ratchet_loop_counted count s runner m) = N.of_nat count.
Proof.
  revert s runner m. induction count as [|count IH]; intros s runner m; [done|].
  cbn [ratchet_loop_counted]. rewrite derivations_bind, IH. cbn [derivations derive_next_counted tick]. lia.
Qed.

(** The keys for the sequence numbers [first], ..., [first + count - 1]. *)
Lemma ratchet_loop_spec count s runner m :
  (ratchet_loop count s runner m).1 = advance (N.of_nat count) runner
  ∧ ∀ i, (ratchet_loop count s runner m).2 !! i =
      if decide (s <= i ∧ i < s + N.of_nat count) then Some (advance (i - s) runner) else m !! i.
Proof.
  revert s runner m. induction count as [|count IH]; intros s runner m.
  { split; [done|]. intros i. rewrite decide_False by lia. done. }
  rewrite ratchet_loop_S.
  destruct (IH (s + 1) (derive_next runner) (<[s:=duplicate_for_target_use runner]> m)) as [E1 E2].
  assert (Hadv : ∀ n, advance n (derive_next runner) = advance (n + 1) runner).
  { intros n. by rewrite (advance_add n 1). }
  split.
  - rewrite E1, Hadv. f_equal. lia.
  - intros i. rewrite E2. destruct (decide (i = s)) as [->|Hne].
    + rewrite decide_False, lookup_insert_eq, decide_True by lia.
      by rewrite duplicate_id, N.sub_diag.
    + rewrite lookup_insert_ne by done.
      destruct (decide (s + 1 <= i ∧ i < s + 1 + N.of_nat count)).
      * rewrite decide_True by lia. rewrite Hadv. do 2 f_equal. lia.
      * by rewrite decide_False by lia.
Qed.

(** No number is written twice. *)
Lemma ratchet_loop_len count s runner m :
  (∀ i, s <= i → m !! i = None) →
  map_len (ratchet_loop count s runner m).2 = N.of_nat count + map_len m.
Proof.
  revert s runner m. induction count as [|count IH]; intros s runner m Hm; [done|].
  rewrite ratchet_loop_S, IH.
  - unfold map_len. rewrite map_size_insert_None by (apply Hm; lia). lia.
  - intros i Hi. rewrite lookup_insert_ne by lia. apply Hm. lia.
Qed.
End channel_helpers.
