(* ===== verification/Eviction.v ===== *)
(** * Termination of the eviction loop ([src/channel.rs])

    [evict_oldest_skipped_keys] is a [while] loop whose body can also [break].
    Here one round is a relation on the map, so that termination, the number of
    rounds and the dead [break] are statements about the loop as it is written
    and not about the fuel of its translation. *)

From stdpp Require Import relations well_founded.
From S2P Require Import Prelude Outcome Primitives Types PathEngine BTree Channel.

Section eviction.
Implicit Types m : gmap N RatchetKey.

(** One round: the guard of the [while] holds and [pop_first] found a key. *)
Inductive evict_round (m : gmap N RatchetKey) : gmap N RatchetKey → Prop :=
| evict_pop s m' :
    MAX_SKIPPED_KEYS < map_len m → pop_first m = Some (s, m') → evict_round m m'.

Lemma evict_round_len m m' : evict_round m m' → map_len m = map_len m' + 1.
Proof. intros [s m1 _ Hpop]. by eapply pop_first_len. Qed.

Lemma evict_round_wf : well_founded (flip evict_round).
Proof.
  apply (wf_projected lt (size (C := gmap N RatchetKey))); [|apply lt_wf].
  intros m' m Hr%evict_round_len. unfold map_len in Hr. lia.
Qed.

Lemma evict_round_det m m1 m2 : evict_round m m1 → evict_round m m2 → m1 = m2.
Proof. intros [s1 ? _ E1] [s2 ? _ E2]. congruence. Qed.

Lemma evict_round_nf m : map_len m <= MAX_SKIPPED_KEYS → nf evict_round m.
Proof. intros Hle [m' [s m1 Hlt _]]. lia. Qed.

(** Above the bound there is a key to pop. *)
Lemma pop_first_above m : MAX_SKIPPED_KEYS < map_len m → ∃ s m', pop_first m = Some (s, m').
Proof.
  intros Hlt. destruct (pop_first m) as [[s m']|] eqn:E; [by eauto|].
  apply pop_first_None in E. subst. done.
Qed.

(** The translated loop takes as many rounds as the source's. *)
Lemma evict_skipped_loop_rounds fuel m :
  (size m <= fuel)%nat →
  nsteps evict_round (N.to_nat (map_len m - MAX_SKIPPED_KEYS)) m (evict_skipped_loop fuel m)
  ∧ nf evict_round (evict_skipped_loop fuel m).
Proof.
  revert m. induction fuel as [|fuel IH]; intros m Hf; cbn [evict_skipped_loop].
  { assert (size m = 0%nat) as ->%map_size_empty_inv by lia.
    split; [constructor|by apply evict_round_nf]. }
  destruct (N.ltb_spec MAX_SKIPPED_KEYS (map_len m)) as [Hlt|Hge].
  2:{ replace (N.to_nat _) with 0%nat by lia. split; [constructor|by apply evict_round_nf]. }
  destruct (pop_first_above m Hlt) as (s & m' & Hpop). rewrite Hpop.
  pose proof (pop_first_len _ _ _ Hpop) as Hlen.
  destruct (IH m') as [Hn Hnf]; [unfold map_len in Hlen; lia|]. split; [|done].
  replace (N.to_nat (map_len m - MAX_SKIPPED_KEYS))
    with (S (N.to_nat (map_len m' - MAX_SKIPPED_KEYS))) by lia.
  eapply nsteps_l; [|done]. by econstructor.
Qed.

(** C23. Termination of the eviction.  There is no infinite run of the loop from any
    map; the rounds are deterministic; from a map of [n] keys the loop ends
    after exactly [n - 1000] rounds (none if [n <= 1000]) in a map where its
    guard is false, and that map is what the function returns; and whenever
    the guard holds there is a key to pop, so the [break] is never taken. *)
Theorem eviction_terminates :
  well_founded (flip evict_round)
  ∧ (∀ m m1 m2, evict_round m m1 → evict_round m m2 → m1 = m2)
  ∧ ∀ m,
      nsteps evict_round (N.to_nat (map_len m - MAX_SKIPPED_KEYS)) m (evict_oldest_skipped_keys m)
      ∧ nf evict_round (evict_oldest_skipped_keys m)
      ∧ map_len (evict_oldest_skipped_keys m) <= MAX_SKIPPED_KEYS
      ∧ (MAX_SKIPPED_KEYS < map_len m → pop_first m ≠ None).
Proof.
  split; [apply evict_round_wf|]. split; [apply evict_round_det|]. intros m.
  destruct (evict_skipped_loop_rounds (size m) m) as [Hn Hnf]; [done|].
  split; [done|]. split; [done|]. split.
  - destruct (evict_spec m) as (_ & -> & _). lia.
  - intros (s & m' & ->)%pop_first_above. done.
Qed.
End eviction.
