(* ===== verification/ChannelFacts.v ===== *)
(** * The channel's operations, branch by branch

    [step1_counted] (with the derivations it runs), [step1_spec] and
    [receive_spec] are the closed forms of Step 1 and of [receive]; [send_run] and [send_rejects] are those of [send].  The other
    files about the channel build on these. *)

From S2P Require Import Prelude Outcome Primitives Errors Types PathEngine Envelope Decoy AntiReplay BTree Channel.

Section channel_facts.
Context `{BuildProfile} `{OsRngLaws} `{HashesLaws} `{AeadLaws} `{ZeroizeLaws}.

(** ** Step 1 in closed form *)

(** The least sequence number that counts as a forward arrival, and how far
    past it a message may be. *)
Definition first_new (ch : SecureChannel) : N :=
  match last_seq ch with None => 0 | Some l => l + 1 end.

Definition skip_limit (ch : SecureChannel) : N :=
  match last_seq ch with None => 1000 | Some _ => 999 end.

(** The keys of the sequence numbers [first], ..., [seq - 1]. *)
Definition ladder (first seq : N) (k : RatchetKey) : gmap N RatchetKey :=
  (ratchet_loop (N.to_nat (seq - first)) first k ∅).2.

Lemma lookup_ladder first seq k i :
  ladder first seq k !! i =
    if decide (first <= i ∧ i < seq) then Some (advance (i - first) k) else None.
Proof.
  unfold ladder. destruct (ratchet_loop_spec (N.to_nat (seq - first)) first k ∅) as [_ ->].
  rewrite N2Nat.id, lookup_empty.
  destruct (decide (first <= i ∧ i < seq)); [rewrite decide_True by lia|rewrite decide_False by lia]; done.
Qed.

Definition forward_locals (first seq : N) (k : RatchetKey) : step1_locals :=
  {| is_forward := true;
     target_key := advance (seq - first) k;
     next_ratchet_key := Some (advance (seq - first + 1) k);
     local_skipped := ladder first seq k |}.

Definition stored_locals (k : RatchetKey) : step1_locals :=
  {| is_forward := false; target_key := k; next_ratchet_key := None; local_skipped := ∅ |}.

Lemma ratchet_loop_eq first seq k :
  ratchet_loop_counted (N.to_nat (seq - first)) first k ∅
  = Counted (advance (seq - first) k, ladder first seq k) (seq - first).
Proof.
  pose proof (ratchet_loop_count (N.to_nat (seq - first)) first k ∅) as C.
  destruct (ratchet_loop_spec (N.to_nat (seq - first)) first k ∅) as [E _].
  rewrite N2Nat.id in E, C. unfold ladder, ratchet_loop in *.
  destruct (ratchet_loop_counted _ _ _ _) as [[runner m] c]. cbn in *. congruence.
Qed.

(** A forward number costs a derivation for every number it skips and one for
    the key after it; every other number costs none. *)
Definition step1_result (ch : SecureChannel) (seq : N) (mid : bytes)
    : counted (outcome ChannelError step1_locals) :=
  if first_new ch <=? seq then
    if seq - first_new ch <=? skip_limit ch
    then Counted (Ok (forward_locals (first_new ch) seq (current_key ch))) (seq - first_new ch + 1)
    else Counted (Err InvalidSequence) 0
  else
    match skipped_keys ch !! seq with
    | Some k => Counted (Ok (stored_locals k)) 0
    | None => Counted (Err (if contains (anti_replay ch) seq mid
                            then ReplayedSequence else SkippedKeyExpired)) 0
    end.

Lemma step1_forward first seq k :
  (* the statements of Step 1 from [let mut runner] on *)
  ('(runner, local_skipped) ←
     ratchet_loop_counted (N.to_nat (seq - first)) first (duplicate_for_target_use k) ∅;
   next ← derive_next_counted runner;
   mret (Ok {| is_forward := true;
               target_key := duplicate_for_target_use runner;
               next_ratchet_key := Some next;
               local_skipped := local_skipped |}))
  = Counted (Ok (E := ChannelError) (forward_locals first seq k)) (seq - first + 1).
Proof.
  rewrite duplicate_id, ratchet_loop_eq. unfold mbind, counted_bind, derive_next_counted, tick.
  cbn [value derivations mret counted_ret]. rewrite duplicate_id. unfold forward_locals.
  by rewrite advance_succ.
Qed.

Lemma step1_counted ch seq mid : receive_step1_counted ch seq mid = step1_result ch seq mid.
Proof.
  unfold receive_step1_counted, step1_result, first_new, skip_limit, MAX_SKIP_WINDOW.
  destruct (last_seq ch) as [last|].
  - destruct (N.ltb_spec last seq), (N.leb_spec (last + 1) seq); try lia.
    + destruct (N.ltb_spec 1000 (seq - last)), (N.leb_spec (seq - (last + 1)) 999); try lia; [done|].
      apply step1_forward.
    + destruct (skipped_keys ch !! seq); [by rewrite duplicate_id|by destruct (contains _ _ _)].
  - destruct (N.leb_spec 0 seq); [|lia]. pose proof (step1_forward 0 seq (current_key ch)) as F.
    rewrite N.sub_0_r in *. destruct (N.eqb_spec seq 0) as [->|Hne].
    + exact F.
    + destruct (N.ltb_spec 1000 seq), (N.leb_spec seq 1000); try lia; [done|]. exact F.
Qed.

Lemma step1_spec ch seq mid :
  receive_step1 ch seq mid =
    if first_new ch <=? seq then
      if seq - first_new ch <=? skip_limit ch
      then Ok (forward_locals (first_new ch) seq (current_key ch))
      else Err InvalidSequence
    else
      match skipped_keys ch !! seq with
      | Some k => Ok (stored_locals k)
      | None => if contains (anti_replay ch) seq mid
                then Err ReplayedSequence else Err SkippedKeyExpired
      end.
Proof.
  unfold receive_step1. rewrite step1_counted. unfold step1_result.
  destruct (first_new ch <=? seq); [by destruct (_ <=? _)|].
  destruct (skipped_keys ch !! seq); [done|by destruct (contains _ _ _)].
Qed.

Lemma step1_derivations ch seq mid :
  derivations (receive_step1_counted ch seq mid)
  = if first_new ch <=? seq then
      if seq - first_new ch <=? skip_limit ch then seq - first_new ch + 1 else 0
    else 0.
Proof.
  rewrite step1_counted. unfold step1_result.
  destruct (first_new ch <=? seq); [by destruct (_ <=? _)|by destruct (skipped_keys ch !! seq)].
Qed.

Lemma ladder_len first seq k : map_len (ladder first seq k) = seq - first.
Proof.
  unfold ladder. rewrite ratchet_loop_len by (intros; apply lookup_empty).
  unfold map_len. rewrite map_size_empty. lia.
Qed.

(** ** Steps 2 and 3 *)

(** Slot selection and decryption with a given key. *)
Definition authenticate (key : RatchetKey) (n : N) (envelopes : list bytes) (seq : N)
    (mid : bytes) : outcome ChannelError bytes :=
  slot_idx ← o_map_err (λ _, DecoyFailure) (select_slot (RatchetKey_0 key) mid n);
  if len envelopes <=? slot_idx then Err DecoyFailure else
  envelope ← o_unwrap (index slot_idx envelopes);
  o_map_err (λ _, AuthenticationFailed) (open (RatchetKey_0 key) envelope (construct_aad seq mid)).

Definition envelopes_wf (envelopes : list bytes) : Prop :=
  Forall (λ e, len e = ENVELOPE_TOTAL_LEN) envelopes.

(** The envelope that carries the message for a holder of [key]. *)
Lemma authenticate_run key n envelopes seq mid :
  n ≠ 0 → n <= len envelopes →
  ∃ slot env, select_slot (RatchetKey_0 key) mid n = Ok slot ∧ slot < n
    ∧ index slot envelopes = Some env
    ∧ authenticate key n envelopes seq mid
      = o_map_err (λ _, AuthenticationFailed) (open (RatchetKey_0 key) env (construct_aad seq mid)).
Proof.
  intros Hn Hlen. destruct (select_slot_Ok (RatchetKey_0 key) mid n Hn) as (slot & E & Hs).
  assert (is_Some (index slot envelopes)) as [env Henv].
  { apply lookup_lt_is_Some. unfold len in Hlen. lia. }
  exists slot, env. split; [done|]. split; [done|]. split; [done|].
  unfold authenticate. rewrite E. cbn.
  destruct (N.leb_spec (len envelopes) slot); [lia|]. by rewrite Henv.
Qed.

Lemma authenticate_no_panic key n envelopes seq mid :
  envelopes_wf envelopes → n <= len envelopes →
  (∃ p, authenticate key n envelopes seq mid = Ok p)
  ∨ authenticate key n envelopes seq mid = Err DecoyFailure
  ∨ authenticate key n envelopes seq mid = Err AuthenticationFailed.
Proof.
  intros Hwf Hlen. destruct (N.eq_dec n 0) as [->|Hn].
  { right; left. done. }
  destruct (authenticate_run key n envelopes seq mid Hn Hlen) as (slot & env & _ & _ & Henv & ->).
  assert (Le : len env = ENVELOPE_TOTAL_LEN).
  { unfold envelopes_wf in Hwf. rewrite Forall_forall in Hwf. apply Hwf.
    by eapply list_elem_of_lookup_2. }
  destruct (split_envelope env Le) as (nonce & ct & tag & -> & Ln & Lc & Lt).
  pose proof (open_run (RatchetKey_0 key) (construct_aad seq mid) nonce ct tag Ln Lc Lt) as O.
  destruct (decrypt_in_place_detached _ _ _ _ _) as [buf ok]. rewrite O.
  destruct ok; [|by right; right].
  destruct (parse_plaintext buf) eqn:P; [left; by eexists|by right; right|].
  by destruct (parse_plaintext_no_panic buf).
Qed.

(** ** [receive] in closed form *)

Definition with_store (ch : SecureChannel) (st : AntiReplayStore) : SecureChannel :=
  {| last_seq := last_seq ch; send_seq := send_seq ch; current_key := current_key ch;
     skipped_keys := skipped_keys ch; anti_replay := st; n_paths := n_paths ch |}.

(** The state after the commit of a forward or a stored-key message. *)
Definition commit (ch : SecureChannel) (seq : N) (l : step1_locals) (st : AntiReplayStore)
    : SecureChannel :=
  match next_ratchet_key l with
  | Some next =>
      {| last_seq := Some seq; send_seq := send_seq ch; current_key := next;
         skipped_keys := evict_oldest_skipped_keys (local_skipped l ∪ skipped_keys ch);
         anti_replay := st; n_paths := n_paths ch |}
  | None =>
      {| last_seq := last_seq ch; send_seq := send_seq ch; current_key := current_key ch;
         skipped_keys := delete seq (skipped_keys ch);
         anti_replay := st; n_paths := n_paths ch |}
  end.

Lemma step1_Ok ch seq mid l :
  receive_step1 ch seq mid = Ok l →
  (first_new ch <= seq ∧ seq - first_new ch <= skip_limit ch
   ∧ l = forward_locals (first_new ch) seq (current_key ch))
  ∨ (seq < first_new ch ∧ ∃ k, skipped_keys ch !! seq = Some k ∧ l = stored_locals k).
Proof.
  rewrite step1_spec.
  destruct (N.leb_spec (first_new ch) seq).
  - destruct (N.leb_spec (seq - first_new ch) (skip_limit ch)); intros ?; simplify_eq. by left.
  - destruct (skipped_keys ch !! seq) as [k|]; [|by destruct (contains _ _ _)].
    intros ?; simplify_eq. right. eauto.
Qed.

Lemma receive_commit_run ch seq l st :
  is_forward l = bool_decide (is_Some (next_ratchet_key l)) →
  receive_commit seq l (with_store ch st) = (Ok tt, commit ch seq l st).
Proof.
  intros E. unfold receive_commit, commit. rewrite E.
  by destruct (next_ratchet_key l).
Qed.

Lemma receive_spec now envelopes seq mid ch :
  receive now envelopes seq mid ch =
    if MAX_MESSAGE_ID_LEN <? len mid then (Err InvalidMessageId, ch) else
    if len envelopes <? n_paths ch then (Err DecoyFailure, ch) else
    match receive_step1 ch seq mid with
    | Panic => (Panic, ch)
    | Err e => (Err e, ch)
    | Ok l =>
        match authenticate (target_key l) (n_paths ch) envelopes seq mid with
        | Panic => (Panic, ch)
        | Err e => (Err e, ch)
        | Ok payload =>
            let '(fresh, st) := check_and_insert now (anti_replay ch) seq mid in
            if fresh then (Ok payload, commit ch seq l st)
            else (Err ReplayedSequence, with_store ch st)
        end
    end.
Proof.
  unfold receive. destruct (MAX_MESSAGE_ID_LEN <? len mid); [done|].
  rewrite bind_run, get_run. destruct (len envelopes <? n_paths ch); [done|].
  rewrite bind_run, lift_run. destruct (receive_step1 ch seq mid) as [l|e|] eqn:S1; [|done|done].
  rewrite bind_run, lift_run. unfold authenticate.
  destruct (select_slot _ _ _) as [slot|e|]; cbn [o_map_err mbind outcome_bind]; [|done|done].
  destruct (len envelopes <=? slot); [done|].
  destruct (index slot envelopes) as [env|]; [|done].
  cbn [o_unwrap mbind outcome_bind]. rewrite bind_run, unwrap_Some, bind_run, lift_run.
  destruct (open _ _ _) as [payload|e|]; cbn [o_map_err]; [|done|done].
  destruct (check_and_insert now (anti_replay ch) seq mid) as [fresh st].
  rewrite bind_run, put_run. destruct fresh; cbn [negb]; [|done].
  rewrite bind_run. fold (with_store ch st). rewrite receive_commit_run; [done|].
  apply step1_Ok in S1 as [(_ & _ & ->)|(_ & k & _ & ->)]; reflexivity.
Qed.

(** ** [send] in closed form *)

Definition next_send (ch : SecureChannel) : option N :=
  match send_seq ch with None => Some 0 | Some s => add_u64 s 1 end.

(** The channel after a message has been sealed. *)
Definition sent (ch : SecureChannel) (seq : N) : SecureChannel :=
  {| last_seq := last_seq ch; send_seq := Some seq; current_key := derive_next (current_key ch);
     skipped_keys := skipped_keys ch; anti_replay := anti_replay ch; n_paths := n_paths ch |}.

(** [envs] carries [payload] for the holder of [key]: one envelope per path,
    the one at the selected slot opens to [payload], the others are decoys. *)
Definition carries (key : RatchetKey) (n seq : N) (mid payload : bytes) (envs : list bytes)
    : Prop :=
  ∃ slot env,
    select_slot (RatchetKey_0 key) mid n = Ok slot ∧ slot < n ∧ len envs = n
    ∧ index slot envs = Some env ∧ open (RatchetKey_0 key) env (construct_aad seq mid) = Ok payload
    ∧ envelopes_wf envs
    ∧ ∀ i e, i ≠ slot → index i envs = Some e → is_decoy (construct_aad seq mid) e.

Lemma carries_authenticate key n seq mid payload envs :
  n ≠ 0 → carries key n seq mid payload envs → authenticate key n envs seq mid = Ok payload.
Proof.
  intros Hn (slot & env & Hs & Hlt & Hl & Hi & Ho & _).
  unfold authenticate. rewrite Hs. cbn [o_map_err mbind outcome_bind].
  destruct (N.leb_spec (len envs) slot); [lia|]. rewrite Hi.
  cbn [o_unwrap mbind outcome_bind]. by rewrite Ho.
Qed.

Lemma len_index_all envs (P : bytes → Prop) :
  (∀ i e, index i envs = Some e → P e) → Forall P envs.
Proof.
  intros Hall. apply Forall_lookup_2. intros i e Hi. apply (Hall (N.of_nat i)).
  unfold index. by rewrite Nat2N.id.
Qed.

(** Up to the call of the slot distribution, for a message that is accepted. *)
Lemma send_prefix ch r seq payload mid :
  len mid <= MAX_MESSAGE_ID_LEN → next_send ch = Some seq → n_paths ch ≠ 0 →
  len payload <= MAX_PAYLOAD_SIZE → key_wf (current_key ch) →
  ∃ slot env,
    select_slot (RatchetKey_0 (current_key ch)) mid (n_paths ch) = Ok slot ∧ slot < n_paths ch
    ∧ len env = ENVELOPE_TOTAL_LEN
    ∧ open (RatchetKey_0 (current_key ch)) env (construct_aad seq mid) = Ok payload
    ∧ send payload mid (ch, r)
      = on_rng (map_err (λ _, DecoyFailure)
          (generate_multi_path_slots env slot (n_paths ch) (construct_aad seq mid)))
          (sent ch seq, (seal_draw (len payload) r).2).
Proof.
  intros Hm Hseq Hn Hp Hk.
  destruct (select_slot_Ok (RatchetKey_0 (current_key ch)) mid (n_paths ch) Hn) as (slot & Hs & Hlt).
  destruct (open_seal (RatchetKey_0 (current_key ch)) payload (construct_aad seq mid) r Hk Hp)
    as (env & Hseal & Le & Ho).
  exists slot, env. split; [done|]. split; [done|]. split; [done|]. split; [done|].
  unfold send. destruct (N.ltb_spec MAX_MESSAGE_ID_LEN (len mid)); [lia|].
  rewrite bind_run, get_run. cbn [fst].
  rewrite (bind_Ok _ _ _ seq (ch, r)).
  2:{ unfold next_send in Hseq. destruct (send_seq ch); [by rewrite Hseq|by injection Hseq as <-]. }
  rewrite bind_run, lift_run, Hs. cbn [o_map_err].
  rewrite bind_run. unfold on_rng at 1. rewrite zoom_run, map_err_run. cbn [snd]. rewrite Hseal.
  done.
Qed.

Lemma send_run ch r seq payload mid :
  len mid <= MAX_MESSAGE_ID_LEN → next_send ch = Some seq → n_paths ch ≠ 0 →
  len payload <= MAX_PAYLOAD_SIZE → key_wf (current_key ch) →
  n_paths ch * ENVELOPE_TOTAL_LEN <= ISIZE_MAX →
  ∃ envs r', send payload mid (ch, r) = (Ok envs, (sent ch seq, r'))
    ∧ carries (current_key ch) (n_paths ch) seq mid payload envs.
Proof.
  intros Hm Hseq Hn Hp Hk Halloc.
  destruct (send_prefix ch r seq payload mid Hm Hseq Hn Hp Hk) as (slot & env & Hs & Hlt & Le & Ho & E).
  destruct (generate_multi_path_slots_run env slot (n_paths ch) (construct_aad seq mid)
              (seal_draw (len payload) r).2 Hlt Halloc) as (envs & G & Ll & Hslots).
  exists envs. eexists. split.
  { rewrite E. unfold on_rng. rewrite zoom_run, map_err_run. cbn [snd fst]. by rewrite G. }
  assert (Hreal : index slot envs = Some env).
  { destruct (index slot envs) as [e|] eqn:Hi.
    - apply Hslots in Hi. unfold slot_ok in Hi. rewrite decide_True in Hi by done. by subst.
    - apply lookup_ge_None in Hi. unfold len in Ll. lia. }
  exists slot, env. repeat (split; [done|]). split.
  - apply len_index_all. intros i e Hi. apply Hslots in Hi. unfold slot_ok in Hi.
    case_decide; [by subst|by eapply is_decoy_len].
  - intros i e Hne Hi. apply Hslots in Hi. unfold slot_ok in Hi. by rewrite decide_False in Hi.
Qed.

(** Every way in which [send] can end early. *)
Lemma send_rejects ch r payload mid :
  (MAX_MESSAGE_ID_LEN < len mid → send payload mid (ch, r) = (Err InvalidMessageId, (ch, r)))
  ∧ (len mid <= MAX_MESSAGE_ID_LEN → next_send ch = None →
       send payload mid (ch, r) = (Panic, (ch, r)))
  ∧ (len mid <= MAX_MESSAGE_ID_LEN → is_Some (next_send ch) → n_paths ch = 0 →
       send payload mid (ch, r) = (Err DecoyFailure, (ch, r)))
  ∧ (len mid <= MAX_MESSAGE_ID_LEN → is_Some (next_send ch) → n_paths ch ≠ 0 →
       MAX_PAYLOAD_SIZE < len payload →
       send payload mid (ch, r) = (Err AuthenticationFailed, (ch, r))).
Proof.
  unfold send, next_send. destruct (N.ltb_spec MAX_MESSAGE_ID_LEN (len mid));
    [split; [done|]; split; [|split]; intros; lia|].
  split; [intros; lia|]. rewrite bind_run, get_run. cbn [fst].
  split; [|split].
  - intros _ Hseq. rewrite bind_run. destruct (send_seq ch); [|done]. by rewrite Hseq.
  - intros _ [seq Hseq] Hn. rewrite (bind_Ok _ _ _ seq (ch, r))
      by (destruct (send_seq ch); [by rewrite Hseq|by injection Hseq as <-]).
    by rewrite Hn.
  - intros _ [seq Hseq] Hn Hp. rewrite (bind_Ok _ _ _ seq (ch, r))
      by (destruct (send_seq ch); [by rewrite Hseq|by injection Hseq as <-]).
    destruct (select_slot_Ok (RatchetKey_0 (current_key ch)) mid (n_paths ch) Hn) as (slot & -> & _).
    cbn [o_map_err]. rewrite bind_run, lift_run, bind_run. unfold on_rng at 1.
    rewrite zoom_run, map_err_run. cbn [snd]. by rewrite seal_too_large.
Qed.

Lemma send_alloc_panic ch r seq payload mid :
  len mid <= MAX_MESSAGE_ID_LEN → next_send ch = Some seq → n_paths ch ≠ 0 →
  len payload <= MAX_PAYLOAD_SIZE → key_wf (current_key ch) →
  ISIZE_MAX < n_paths ch * ENVELOPE_TOTAL_LEN →
  ∃ r', send payload mid (ch, r) = (Panic, (sent ch seq, r')).
Proof.
  intros Hm Hseq Hn Hp Hk Halloc.
  destruct (send_prefix ch r seq payload mid Hm Hseq Hn Hp Hk) as (slot & env & _ & Hlt & _ & _ & E).
  eexists. rewrite E. unfold on_rng. rewrite zoom_run, map_err_run. cbn [snd fst].
  unfold generate_multi_path_slots. destruct (N.eqb_spec (n_paths ch) 0); [lia|].
  destruct (N.leb_spec (n_paths ch) slot); [lia|].
  by destruct (N.ltb_spec ISIZE_MAX (n_paths ch * ENVELOPE_TOTAL_LEN)); [|lia].
Qed.

(** The ways in which a call of [send] ends. *)
Lemma send_cases ch r payload mid res ch' r' :
  key_wf (current_key ch) →
  send payload mid (ch, r) = (res, (ch', r')) →
  (∃ e, res = Err e ∧ ch' = ch ∧ r' = r)
  ∨ (res = Panic ∧ next_send ch = None ∧ ch' = ch ∧ r' = r)
  ∨ ∃ seq, len mid <= MAX_MESSAGE_ID_LEN ∧ next_send ch = Some seq ∧ ch' = sent ch seq
      ∧ (res = Panic ∧ ISIZE_MAX < n_paths ch * ENVELOPE_TOTAL_LEN
         ∨ ∃ envs, res = Ok envs
             ∧ carries (current_key ch) (n_paths ch) seq mid payload envs).
Proof.
  intros Hk E. destruct (send_rejects ch r payload mid) as (R1 & R2 & R3 & R4).
  destruct (N.le_gt_cases (len mid) MAX_MESSAGE_ID_LEN) as [Hm|Hm];
    [|rewrite R1 in E by done; simplify_eq; left; by eexists].
  destruct (next_send ch) as [seq|] eqn:Hseq;
    [|rewrite R2 in E by done; simplify_eq; by right; left].
  destruct (N.eq_dec (n_paths ch) 0) as [Hn|Hn];
    [rewrite R3 in E by done; simplify_eq; left; by eexists|].
  destruct (N.le_gt_cases (len payload) MAX_PAYLOAD_SIZE) as [Hp|Hp];
    [|rewrite R4 in E by done; simplify_eq; left; by eexists].
  right; right. exists seq. split; [done|]. split; [done|].
  destruct (N.le_gt_cases (n_paths ch * ENVELOPE_TOTAL_LEN) ISIZE_MAX) as [Ha|Ha].
  - destruct (send_run ch r seq payload mid) as (envs & r1 & E' & Hc); [done..|].
    rewrite E' in E. simplify_eq. eauto.
  - destruct (send_alloc_panic ch r seq payload mid) as (r1 & E'); [done..|].
    rewrite E' in E. simplify_eq. eauto.
Qed.

(** C11. [send], branch by branch.  A long message id, an exhausted counter in a
    checked build, a channel without paths and an oversized payload end the
    call in this order of precedence and leave channel and random source
    untouched.  Otherwise the counter moves to the next sequence number, the
    key to the next of the chain, and the result has one 1024-byte envelope
    per path: the one at the slot selected by the key that was current opens
    under that key and the additional data of the sequence number, the others
    are decoys.  If the output cannot be allocated the call panics after the
    ratchet has already advanced. *)
Theorem send_outcomes ch r payload mid :
  key_wf (current_key ch) →
  (MAX_MESSAGE_ID_LEN < len mid → send payload mid (ch, r) = (Err InvalidMessageId, (ch, r)))
  ∧ (len mid <= MAX_MESSAGE_ID_LEN → next_send ch = None →
       send payload mid (ch, r) = (Panic, (ch, r)))
  ∧ (len mid <= MAX_MESSAGE_ID_LEN → is_Some (next_send ch) → n_paths ch = 0 →
       send payload mid (ch, r) = (Err DecoyFailure, (ch, r)))
  ∧ (len mid <= MAX_MESSAGE_ID_LEN → is_Some (next_send ch) → n_paths ch ≠ 0 →
       MAX_PAYLOAD_SIZE < len payload →
       send payload mid (ch, r) = (Err AuthenticationFailed, (ch, r)))
  ∧ (∀ seq, len mid <= MAX_MESSAGE_ID_LEN → next_send ch = Some seq → n_paths ch ≠ 0 →
       len payload <= MAX_PAYLOAD_SIZE →
       (n_paths ch * ENVELOPE_TOTAL_LEN <= ISIZE_MAX →
          ∃ envs r', send payload mid (ch, r) = (Ok envs, (sent ch seq, r'))
            ∧ carries (current_key ch) (n_paths ch) seq mid payload envs)
       ∧ (ISIZE_MAX < n_paths ch * ENVELOPE_TOTAL_LEN →
          ∃ r', send payload mid (ch, r) = (Panic, (sent ch seq, r')))).
Proof.
  intros Hk. destruct (send_rejects ch r payload mid) as (R1 & R2 & R3 & R4).
  repeat (split; [done|]). intros seq Hm Hseq Hn Hp. split; intros Ha.
  - by apply send_run.
  - by apply send_alloc_panic.
Qed.

(** C40. The work Step 1 does for a packet, counted in the chain derivations
    it runs ([derive_next] calls, counted where the code makes them), on any
    channel.  A forward number within the skip limit costs exactly one
    derivation for every number it skips and one for the key after it, which
    is prepared for the commit: at most 1001, which the number 1000 costs on a
    channel that has received nothing, and at most 1000 afterwards.  For this
    the ladder holds exactly the keys of the skipped numbers, the target key is
    the one of the number, and the next key the one after it.  A number beyond
    the limit, a late number with a stored key and a late number without one
    cost no derivation. *)
Theorem step1_work_bound ch seq mid :
  skip_limit ch = match last_seq ch with None => 1000 | Some _ => 999 end
  ∧ derivations (receive_step1_counted ch seq mid)
    = (if first_new ch <=? seq then
         if seq - first_new ch <=? skip_limit ch then seq - first_new ch + 1 else 0
       else 0)
  ∧ derivations (receive_step1_counted ch seq mid) <= skip_limit ch + 1
  ∧ (first_new ch <= seq → seq - first_new ch <= skip_limit ch → ∃ l,
       receive_step1 ch seq mid = Ok l
       ∧ target_key l = advance (seq - first_new ch) (current_key ch)
       ∧ next_ratchet_key l = Some (advance (seq - first_new ch + 1) (current_key ch))
       ∧ map_len (local_skipped l) = seq - first_new ch
       ∧ ∀ i, local_skipped l !! i =
           if decide (first_new ch <= i ∧ i < seq)
           then Some (advance (i - first_new ch) (current_key ch)) else None)
  ∧ (first_new ch <= seq → skip_limit ch < seq - first_new ch →
       receive_step1 ch seq mid = Err InvalidSequence)
  ∧ (seq < first_new ch → ∀ l, receive_step1 ch seq mid = Ok l →
       skipped_keys ch !! seq = Some (target_key l)
       ∧ local_skipped l = ∅ ∧ next_ratchet_key l = None).
Proof.
  split; [done|]. split; [apply step1_derivations|]. split.
  { rewrite step1_derivations. destruct (_ <=? seq); [|lia].
    destruct (N.leb_spec (seq - first_new ch) (skip_limit ch)); lia. }
  rewrite step1_spec. split; [|split].
  - intros Hge Hle. destruct (N.leb_spec (first_new ch) seq); [|lia].
    destruct (N.leb_spec (seq - first_new ch) (skip_limit ch)); [|lia].
    eexists. repeat (split; [done|]). split; [apply ladder_len|intros i; apply lookup_ladder].
  - intros Hge Hle. destruct (N.leb_spec (first_new ch) seq); [|lia].
    by destruct (N.leb_spec (seq - first_new ch) (skip_limit ch)); [lia|].
  - intros Hlt l. destruct (N.leb_spec (first_new ch) seq); [lia|].
    destruct (skipped_keys ch !! seq); [|by destruct (contains _ _ _)]. by intros [= <-].
Qed.
End channel_facts.
