(* ===== verification/ChannelInv.v ===== *)
(** * Reachable channels: invariant, zero mutation, at-most-once delivery

    Executions of one channel as sequences of [send] and [receive] calls in any
    order, with any arguments and any envelopes from the network, under a clock
    that does not go backwards. *)

From S2P Require Import Prelude Outcome Primitives Errors Types PathEngine Envelope Decoy AntiReplay BTree Channel ChannelFacts.

Section channel_inv.
Context `{BuildProfile} `{OsRngLaws} `{HashesLaws} `{AeadLaws} `{ZeroizeLaws}.

(** A sequence number that can never be accepted (again). *)
Definition consumed (ch : SecureChannel) (s : N) : Prop :=
  s < first_new ch ∧ skipped_keys ch !! s = None.

Record chan_inv (t : N) (ch : SecureChannel) : Prop := {
  ci_key : key_wf (current_key ch);
  ci_skipped : ∀ s k, skipped_keys ch !! s = Some k → key_wf k ∧ s + 1 < first_new ch;
  ci_bound : map_len (skipped_keys ch) <= MAX_SKIPPED_KEYS;
  ci_store : store_inv t (anti_replay ch);
  ci_capacity : capacity (anti_replay ch) = ANTI_REPLAY_CAPACITY;
  ci_consumed : ∀ s m, is_Some (entries (anti_replay ch) !! (s, m)) → consumed ch s;
}.

Lemma chan_inv_new t root n : len (RootKey_0 root) = 32 → chan_inv t (SecureChannel_new root n).
Proof.
  intros Hr. split; cbn; try done.
  - apply (store_inv_new t ANTI_REPLAY_CAPACITY 300).
  - intros s m. rewrite lookup_empty. by intros [? ?].
Qed.

Lemma chan_inv_mono t t' ch : chan_inv t ch → t <= t' → chan_inv t' ch.
Proof. intros [] ?. split; try done. by eapply store_inv_mono. Qed.

(** ** [send] *)

Lemma send_state ch r payload mid res ch' r' :
  key_wf (current_key ch) →
  send payload mid (ch, r) = (res, (ch', r')) →
  ch' = ch ∨ ∃ seq, next_send ch = Some seq ∧ ch' = sent ch seq.
Proof.
  intros Hk E. destruct (send_cases _ _ _ _ _ _ _ Hk E)
    as [(e & _ & -> & _)|[(_ & _ & -> & _)|(seq & _ & Hseq & -> & _)]]; [by left..|right; by exists seq].
Qed.

Lemma sent_inv t ch seq : chan_inv t ch → chan_inv t (sent ch seq).
Proof. intros [K S B St C Co]. split; try done. apply derive_next_wf. Qed.

Lemma sent_consumed ch seq s : consumed (sent ch seq) s ↔ consumed ch s.
Proof. done. Qed.

(** ** [receive] *)

Lemma step1_not_consumed ch seq mid l : receive_step1 ch seq mid = Ok l → ¬ consumed ch seq.
Proof.
  intros [(Hge & _ & _)|(Hlt & k & Hk & _)]%step1_Ok [Hc1 Hc2]; [lia|congruence].
Qed.

Lemma fresh_if_not_consumed t ch seq mid :
  chan_inv t ch → ¬ consumed ch seq → (check_and_insert t (anti_replay ch) seq mid).1 = true.
Proof.
  intros Hinv Hnc. destruct (check_and_insert t (anti_replay ch) seq mid).1 eqn:E; [done|].
  apply check_and_insert_answer in E as (t0 & Hin & _); [|apply Hinv].
  destruct Hnc. apply (ci_consumed t ch Hinv seq mid).
  apply (repr_lookup _ _ (inv_repr _ _ (ci_store _ _ Hinv))). apply list_elem_of_fmap.
  by exists ((seq, mid), t0).
Qed.

(** Entries of the store after an insertion. *)
Lemma check_and_insert_entries t s seq mid k :
  store_inv t s → is_Some (entries (check_and_insert t s seq mid).2 !! k) →
  k = (seq, mid) ∨ is_Some (entries s !! k).
Proof.
  intros Hinv. pose proof (check_and_insert_refines t s seq mid Hinv) as R.
  destruct (check_and_insert t s seq mid) as [b s']. destruct R as [E Hinv']. cbn [snd].
  rewrite !repr_lookup by (by eapply inv_repr).
  unfold log_insert in E. cbn [abs_log log log_window log_capacity] in E.
  set (kept := filter (live (time_window s) t) (queue s)) in *.
  assert (Hkept : ∀ x, x ∈ kept.*1 → x ∈ (queue s).*1).
  { intros x (e & -> & [_ He]%list_elem_of_filter)%list_elem_of_fmap. apply list_elem_of_fmap. eauto. }
  case_decide as D; injection E as _ E' _ _; rewrite <-E'; [by right; apply Hkept|].
  rewrite fmap_app. intros [Hin|Hin]%elem_of_app.
  - right. apply Hkept. destruct (_ <=? _); [|done]. destruct kept; [done|]. by right.
  - left. by apply list_elem_of_singleton in Hin.
Qed.

Lemma forward_consumed ch seq st s :
  let l := forward_locals (first_new ch) seq (current_key ch) in
  first_new ch <= seq → (∀ s k, skipped_keys ch !! s = Some k → s + 1 < first_new ch) →
  consumed ch s ∨ s = seq → consumed (commit ch seq l st) s.
Proof.
  intros l Hge Hsk Hs. unfold consumed, commit, first_new at 1; cbn.
  assert (Hu : (ladder (first_new ch) seq (current_key ch) ∪ skipped_keys ch) !! s = None).
  { apply lookup_union_None. rewrite lookup_ladder. destruct Hs as [[Hlt Hn]| ->].
    - by rewrite decide_False by lia.
    - rewrite decide_False by lia. split; [done|].
      destruct (skipped_keys ch !! seq) as [k|] eqn:E; [|done]. apply Hsk in E. lia. }
  split.
  - destruct Hs as [[Hlt _]| ->]; lia.
  - destruct (evict_spec (ladder (first_new ch) seq (current_key ch) ∪ skipped_keys ch))
      as (Hsub & _ & _). by eapply lookup_weaken_None.
Qed.

Lemma stored_consumed ch seq k st s :
  seq < first_new ch → consumed ch s ∨ s = seq →
  consumed (commit ch seq (stored_locals k) st) s.
Proof.
  intros Hlt Hs. unfold consumed, commit; cbn. destruct Hs as [[Hs Hn]| ->].
  - split; [done|]. rewrite lookup_delete. by case_decide.
  - split; [done|]. apply lookup_delete_eq.
Qed.

Lemma commit_consumed t ch seq mid l st s :
  chan_inv t ch → receive_step1 ch seq mid = Ok l →
  consumed ch s ∨ s = seq → consumed (commit ch seq l st) s.
Proof.
  intros Hinv [(Hge & _ & ->)|(Hlt & k & _ & ->)]%step1_Ok.
  - apply forward_consumed; [done|]. intros s' k' Hk'. by apply (ci_skipped _ _ Hinv s' k').
  - by apply stored_consumed.
Qed.

Lemma commit_inv t ch seq mid l :
  chan_inv t ch → receive_step1 ch seq mid = Ok l →
  chan_inv t (commit ch seq l (check_and_insert t (anti_replay ch) seq mid).2).
Proof.
  intros Hinv Hl. pose proof (commit_consumed t ch seq mid l) as Hcons.
  pose proof (check_and_insert_refines t (anti_replay ch) seq mid (ci_store _ _ Hinv)) as R.
  pose proof (check_and_insert_entries t (anti_replay ch) seq mid) as Hent.
  destruct (check_and_insert_fields t (anti_replay ch) seq mid) as [C _].
  destruct (check_and_insert t (anti_replay ch) seq mid) as [b st]. destruct R as [_ Hst].
  cbn [snd] in *.
  assert (Hc : ∀ s m, is_Some (entries st !! (s, m)) → consumed (commit ch seq l st) s).
  { intros s m [E|E]%Hent; [| |apply Hinv].
    - apply Hcons; [done|done|]. right. congruence.
    - apply Hcons; [done|done|]. left. by eapply ci_consumed. }
  destruct Hinv as [K S B _ Cap _].
  apply step1_Ok in Hl as [(Hge & Hlim & ->)|(Hlt & k & Hk & ->)]; split; cbn; try done;
    try (by rewrite C).
  - by apply advance_wf.
  - intros s k Hsk. destruct (evict_spec (ladder (first_new ch) seq (current_key ch) ∪ skipped_keys ch))
      as (Hsub & _ & _). eapply lookup_weaken in Hsk; [|exact Hsub].
    apply lookup_union_Some_raw in Hsk as [Hsk|[_ Hsk]].
    + rewrite lookup_ladder in Hsk. case_decide; [|done]. simplify_eq.
      split; [by apply advance_wf|lia].
    + destruct (S s k Hsk) as [? ?]. split; [done|lia].
  - destruct (evict_spec (ladder (first_new ch) seq (current_key ch) ∪ skipped_keys ch))
      as (_ & -> & _). lia.
  - intros s k' Hsk. rewrite lookup_delete in Hsk. case_decide; [done|]. by apply S.
  - etrans; [|exact B]. unfold map_len. rewrite map_size_delete. destruct (_ !! _); unfold id; lia.
Qed.

(** The two ways a call of [receive] ends on a channel that satisfies the
    invariant: it rejects and changes nothing, or it accepts and commits. *)
Lemma receive_cases t ch envelopes seq mid res ch' :
  chan_inv t ch → envelopes_wf envelopes →
  receive t envelopes seq mid ch = (res, ch') →
  (∃ e, res = Err e ∧ ch' = ch)
  ∨ (∃ payload l, res = Ok payload ∧ receive_step1 ch seq mid = Ok l
      ∧ authenticate (target_key l) (n_paths ch) envelopes seq mid = Ok payload
      ∧ ch' = commit ch seq l (check_and_insert t (anti_replay ch) seq mid).2).
Proof.
  intros Hinv Hwf. rewrite receive_spec.
  destruct (MAX_MESSAGE_ID_LEN <? len mid); [intros [= <- <-]; left; by eexists|].
  destruct (N.ltb_spec (len envelopes) (n_paths ch)) as [|Hlen]; [intros [= <- <-]; left; by eexists|].
  destruct (receive_step1 ch seq mid) as [l|e|] eqn:Hl.
  - destruct (authenticate_no_panic (target_key l) (n_paths ch) envelopes seq mid Hwf Hlen)
      as [[p Hp]|[E|E]]; [|rewrite E; intros [= <- <-]; left; by eexists..].
    rewrite Hp. pose proof (fresh_if_not_consumed t ch seq mid Hinv (step1_not_consumed _ _ _ _ Hl)) as Hf.
    destruct (check_and_insert t (anti_replay ch) seq mid) as [b st]. cbn [fst] in Hf. subst b.
    intros [= <- <-]. right. by exists p, l.
  - intros [= <- <-]; left; by eexists.
  - exfalso. rewrite step1_spec in Hl. destruct (_ <=? _); [by destruct (_ <=? _)|].
    destruct (_ !! _); [done|]. by destruct (contains _ _ _).
Qed.

Lemma receive_inv t ch envelopes seq mid res ch' :
  chan_inv t ch → envelopes_wf envelopes →
  receive t envelopes seq mid ch = (res, ch') → chan_inv t ch'.
Proof.
  intros Hinv Hwf E. destruct (receive_cases _ _ _ _ _ _ _ Hinv Hwf E)
    as [(e & _ & ->)|(p & l & _ & Hl & _ & ->)]; [done|]. by apply commit_inv.
Qed.

(** A message that carries a payload for the key Step 1 finds is accepted. *)
Lemma receive_carried t ch seq mid payload envs l :
  chan_inv t ch → n_paths ch ≠ 0 → len mid <= MAX_MESSAGE_ID_LEN →
  receive_step1 ch seq mid = Ok l → carries (target_key l) (n_paths ch) seq mid payload envs →
  ∃ ch', receive t envs seq mid ch = (Ok payload, ch').
Proof.
  intros Hinv Hn Hm Hl Hc. pose proof (carries_authenticate _ _ _ _ _ _ Hn Hc) as Ha.
  rewrite receive_spec. destruct (N.ltb_spec MAX_MESSAGE_ID_LEN (len mid)); [lia|].
  destruct Hc as (_ & _ & _ & _ & -> & _). destruct (N.ltb_spec (n_paths ch) (n_paths ch)); [lia|].
  rewrite Hl, Ha.
  pose proof (fresh_if_not_consumed t ch seq mid Hinv (step1_not_consumed _ _ _ _ Hl)) as Hf.
  destruct (check_and_insert t (anti_replay ch) seq mid) as [fr store]. cbn [fst] in Hf.
  subst fr. by eexists.
Qed.

(** ** Executions *)

Record world := { w_chan : SecureChannel; w_rng : rng; w_now : N }.

(** A call with its arguments and its answer. *)
Inductive event :=
| Sent (payload mid : bytes) (res : outcome ChannelError (list bytes))
| Received (envelopes : list bytes) (seq : N) (mid : bytes) (res : outcome ChannelError bytes).

Inductive step : world → event → world → Prop :=
| step_send ch r t payload mid res ch' r' :
    send payload mid (ch, r) = (res, (ch', r')) →
    step {| w_chan := ch; w_rng := r; w_now := t |} (Sent payload mid res)
         {| w_chan := ch'; w_rng := r'; w_now := t |}
| step_receive ch r t now envelopes seq mid res ch' :
    t <= now → envelopes_wf envelopes →
    receive now envelopes seq mid ch = (res, ch') →
    step {| w_chan := ch; w_rng := r; w_now := t |} (Received envelopes seq mid res)
         {| w_chan := ch'; w_rng := r; w_now := now |}.

Inductive steps : world → list event → world → Prop :=
| steps_nil w : steps w [] w
| steps_cons w e w1 es w2 : step w e w1 → steps w1 es w2 → steps w (e :: es) w2.

(** The sequence numbers that were accepted, in order. *)
Fixpoint delivered (es : list event) : list N :=
  match es with
  | [] => []
  | Received _ seq _ (Ok _) :: es => seq :: delivered es
  | _ :: es => delivered es
  end.

(** Reachable from a fresh channel over a 32-byte root key. *)
Definition reachable (w : world) : Prop :=
  ∃ root n r t es, len (RootKey_0 root) = 32
    ∧ steps {| w_chan := SecureChannel_new root n; w_rng := r; w_now := t |} es w.

Definition w_inv (w : world) : Prop := chan_inv (w_now w) (w_chan w).

Lemma step_inv w e w' : w_inv w → step w e w' → w_inv w'.
Proof.
  unfold w_inv. intros Hinv Hs.
  destruct Hs as [ch r t payload mid res ch' r' E|ch r t now envs seq mid res ch' Ht Hwf E]; cbn in *.
  - destruct (send_state _ _ _ _ _ _ _ (ci_key _ _ Hinv) E) as [->|(seq & _ & ->)]; [done|].
    by apply sent_inv.
  - eapply receive_inv; [|done|done]. by eapply chan_inv_mono.
Qed.

Lemma step_consumed w e w' s :
  w_inv w → step w e w' → consumed (w_chan w) s → consumed (w_chan w') s.
Proof.
  unfold w_inv. intros Hinv Hs Hc.
  destruct Hs as [ch r t payload mid res ch' r' E|ch r t now envs seq mid res ch' Ht Hwf E]; cbn in *.
  - destruct (send_state _ _ _ _ _ _ _ (ci_key _ _ Hinv) E) as [->|(seq & _ & ->)]; done.
  - destruct (receive_cases _ _ _ _ _ _ _ (chan_inv_mono _ _ _ Hinv Ht) Hwf E)
      as [(e & _ & ->)|(p & l & _ & Hl & _ & ->)]; [done|].
    eapply commit_consumed; [done|done|by left].
Qed.

Lemma step_delivered w w' envelopes seq mid payload :
  w_inv w → step w (Received envelopes seq mid (Ok payload)) w' →
  ¬ consumed (w_chan w) seq ∧ consumed (w_chan w') seq.
Proof.
  unfold w_inv. intros Hinv Hs.
  inversion Hs as [|ch r t now envs' seq' mid' res ch' Ht Hwf E]; subst; cbn in *.
  destruct (receive_cases _ _ _ _ _ _ _ (chan_inv_mono _ _ _ Hinv Ht) Hwf E)
    as [(e & ? & _)|(p & l & _ & Hl & _ & ->)]; [done|].
  split; [by eapply step1_not_consumed|]. eapply commit_consumed; [done|done|by right].
Qed.

Lemma steps_inv w es w' : w_inv w → steps w es w' → w_inv w'.
Proof. intros Hinv Hs. induction Hs; eauto using step_inv. Qed.

Lemma steps_delivered w es w' :
  w_inv w → steps w es w' →
  NoDup (delivered es)
  ∧ (∀ s, s ∈ delivered es → ¬ consumed (w_chan w) s)
  ∧ (∀ s, consumed (w_chan w) s ∨ s ∈ delivered es → consumed (w_chan w') s).
Proof.
  intros Hinv Hs. induction Hs as [w|w e w1 es w2 Hstep Hsteps IH].
  { split; [constructor|]. split; [by intros s Hs%elem_of_nil|].
    intros s [?|Hs%elem_of_nil]; done. }
  destruct (IH (step_inv _ _ _ Hinv Hstep)) as (Hnd & Hnew & Hcons).
  pose proof (λ s, step_consumed w e w1 s Hinv Hstep) as Hmono.
  assert (Hskip : NoDup (delivered es)
    ∧ (∀ s, s ∈ delivered es → ¬ consumed (w_chan w) s)
    ∧ (∀ s, consumed (w_chan w) s ∨ s ∈ delivered es → consumed (w_chan w2) s)).
  { split; [done|]. split; [intros s Hin Hc; by apply (Hnew s Hin), Hmono|].
    intros s [Hc|Hin]; apply Hcons; [left; by apply Hmono|by right]. }
  destruct e as [payload mid res|envelopes seq mid [payload|err|]]; cbn [delivered]; try done.
  destruct (step_delivered _ _ _ _ _ _ Hinv Hstep) as [Hn Hc].
  destruct Hskip as (_ & Hnew' & Hcons'). split; [|split].
  - apply NoDup_cons. split; [|done]. intros Hin. by apply (Hnew seq Hin).
  - intros s [->|Hin]%elem_of_cons; [done|by apply Hnew'].
  - intros s [Hs|[->|Hin]%elem_of_cons]; apply Hcons; [left; by apply Hmono|by left|by right].
Qed.

Lemma reachable_inv w : reachable w → w_inv w.
Proof.
  intros (root & n & r & t & es & Hr & Hs). eapply steps_inv; [|exact Hs].
  by apply chan_inv_new.
Qed.

(** ** Properties of every reachable channel *)

(** C2. At-most-once delivery.  In every execution of a channel, with sends and
    receives in any order and envelopes, sequence numbers and message ids
    chosen by the adversary, no sequence number is accepted twice; this holds
    however much time has passed and however many entries the anti-replay
    store has forgotten. *)
Theorem at_most_once root n r t es w :
  len (RootKey_0 root) = 32 →
  steps {| w_chan := SecureChannel_new root n; w_rng := r; w_now := t |} es w →
  NoDup (delivered es).
Proof.
  intros Hr Hs. eapply steps_delivered; [|exact Hs]. by apply chan_inv_new.
Qed.

(** C3. Zero mutation.  On a reachable channel a call of [receive] on an array of
    1024-byte envelopes never panics, and when it returns any error the whole
    channel, the anti-replay store included, is what it was; so the insertion
    of Step 4 never answers "duplicate" once the tag has been accepted. *)
Theorem receive_zero_mutation w now envelopes seq mid res ch' :
  reachable w → w_now w <= now → envelopes_wf envelopes →
  receive now envelopes seq mid (w_chan w) = (res, ch') →
  res ≠ Panic ∧ (∀ e, res = Err e → ch' = w_chan w).
Proof.
  intros Hr%reachable_inv Hle Hwf E.
  destruct (receive_cases _ _ _ _ _ _ _ (chan_inv_mono _ _ _ Hr Hle) Hwf E)
    as [(e & -> & ->)|(p & l & -> & _)]; split; congruence.
Qed.

(** C24. Bounded memory.  A reachable channel stores at most 1000 skipped keys and
    tracks at most 10000 anti-replay entries; every stored key belongs to a
    sequence number below the last accepted one, and all keys are 32 bytes. *)
Theorem bounded_memory w :
  reachable w →
  map_len (skipped_keys (w_chan w)) <= 1000
  ∧ store_len (anti_replay (w_chan w)) <= 10000
  ∧ key_wf (current_key (w_chan w))
  ∧ ∀ s k, skipped_keys (w_chan w) !! s = Some k →
      key_wf k ∧ ∃ l, last_seq (w_chan w) = Some l ∧ s < l.
Proof.
  intros [K S B [Hr _ Hb] C _]%reachable_inv. split; [done|]. split.
  { rewrite repr_len by done. rewrite C in Hb. done. }
  split; [done|]. intros s k Hk. destruct (S s k Hk) as [? Hlt]. split; [done|].
  unfold first_new in Hlt. destruct (last_seq (w_chan w)) as [l|]; [|lia].
  exists l. split; [done|lia].
Qed.
End channel_inv.
