(* ===== verification/Receiver.v ===== *)
(** * What a receiving channel promises: an abstract receiver and a refinement

    The abstract receiver knows only the next new sequence number and the set
    of skipped ones it still waits for; the keys are those of the chain that
    starts at the root key.  [receive_refines] shows that [receive] simulates
    it, for a channel that is used for receiving. *)

From S2P Require Import Prelude Outcome Primitives Errors Types PathEngine Envelope Decoy AntiReplay BTree Channel ChannelFacts ChannelInv.

Section receiver.
Context `{BuildProfile} `{OsRngLaws} `{HashesLaws} `{AeadLaws} `{ZeroizeLaws}.

(** ** The abstract receiver *)

Record receiver := {
  rc_first : N;            (* least sequence number that counts as new *)
  rc_pending : gset N;     (* skipped and not yet consumed *)
}.

(** How far past [rc_first] a new message may be: one more before the first
    message than afterwards. *)
Definition rc_limit (st : receiver) : N := if rc_first st =? 0 then 1000 else 999.

Definition in_window (st : receiver) (seq : N) : Prop :=
  rc_first st <= seq ∧ seq <= rc_first st + rc_limit st.

Definition admissible (st : receiver) (seq : N) : Prop :=
  in_window st seq ∨ seq ∈ rc_pending st.

(** [new] keeps the 1000 greatest elements of [old]. *)
Definition keeps_greatest (old new : gset N) : Prop :=
  new ⊆ old ∧ N.of_nat (size new) = N.min (N.of_nat (size old)) MAX_SKIPPED_KEYS
  ∧ ∀ k k', k ∈ old → k ∉ new → k' ∈ new → k < k'.

(** The numbers [first], ..., [seq - 1]. *)
Definition gap (first seq : N) : gset N :=
  list_to_set ((λ i, first + N.of_nat i) <$> List.seq 0 (N.to_nat (seq - first))).

Inductive spec_receive (root : RatchetKey) (n : N) (st : receiver) (envelopes : list bytes)
    (seq : N) (mid : bytes) : outcome ChannelError bytes → receiver → Prop :=
| spec_bad_message_id :
    MAX_MESSAGE_ID_LEN < len mid →
    spec_receive root n st envelopes seq mid (Err InvalidMessageId) st
| spec_too_few_envelopes :
    len mid <= MAX_MESSAGE_ID_LEN → len envelopes < n →
    spec_receive root n st envelopes seq mid (Err DecoyFailure) st
| spec_too_far :
    len mid <= MAX_MESSAGE_ID_LEN → n <= len envelopes → rc_first st + rc_limit st < seq →
    spec_receive root n st envelopes seq mid (Err InvalidSequence) st
| spec_gone e :
    len mid <= MAX_MESSAGE_ID_LEN → n <= len envelopes →
    seq < rc_first st → seq ∉ rc_pending st → e = ReplayedSequence ∨ e = SkippedKeyExpired →
    spec_receive root n st envelopes seq mid (Err e) st
| spec_not_authentic e :
    len mid <= MAX_MESSAGE_ID_LEN → n <= len envelopes → admissible st seq →
    authenticate (advance seq root) n envelopes seq mid = Err e →
    spec_receive root n st envelopes seq mid (Err e) st
| spec_accept_new payload kept :
    len mid <= MAX_MESSAGE_ID_LEN → n <= len envelopes → in_window st seq →
    authenticate (advance seq root) n envelopes seq mid = Ok payload →
    keeps_greatest (gap (rc_first st) seq ∪ rc_pending st) kept →
    spec_receive root n st envelopes seq mid (Ok payload)
      {| rc_first := seq + 1; rc_pending := kept |}
| spec_accept_pending payload :
    len mid <= MAX_MESSAGE_ID_LEN → n <= len envelopes → seq < rc_first st →
    seq ∈ rc_pending st →
    authenticate (advance seq root) n envelopes seq mid = Ok payload →
    spec_receive root n st envelopes seq mid (Ok payload)
      {| rc_first := rc_first st; rc_pending := rc_pending st ∖ {[seq]} |}.

Lemma elem_of_gap first seq k : k ∈ gap first seq ↔ first <= k ∧ k < seq.
Proof.
  unfold gap. rewrite elem_of_list_to_set, list_elem_of_fmap. split.
  - intros (i & -> & Hi%elem_of_seq). lia.
  - intros [Hlo Hhi]. exists (N.to_nat (k - first)). split; [lia|]. apply elem_of_seq. lia.
Qed.

(** ** The relation between channel and abstract receiver *)

(** The channel holds the keys of the chain that starts at [root]. *)
Definition on_chain (root : RatchetKey) (ch : SecureChannel) : Prop :=
  current_key ch = advance (first_new ch) root
  ∧ ∀ s k, skipped_keys ch !! s = Some k → k = advance s root.

Record represents (root : RatchetKey) (ch : SecureChannel) (st : receiver) : Prop := {
  rp_first : rc_first st = first_new ch;
  rp_pending : rc_pending st = dom (skipped_keys ch);
  rp_chain : on_chain root ch;
}.

Definition abs_receiver (ch : SecureChannel) : receiver :=
  {| rc_first := first_new ch; rc_pending := dom (skipped_keys ch) |}.

Lemma represents_abs root ch : on_chain root ch → represents root ch (abs_receiver ch).
Proof. done. Qed.

Lemma rc_limit_skip ch st : rc_first st = first_new ch → rc_limit st = skip_limit ch.
Proof.
  unfold rc_limit, skip_limit, first_new. intros ->.
  destruct (last_seq ch) as [l|]; [|done]. destruct (N.eqb_spec (l + 1) 0); [lia|done].
Qed.

(** Step 1 computes the chain's key of the sequence number. *)
Lemma step1_target root ch seq mid l :
  on_chain root ch → receive_step1 ch seq mid = Ok l → target_key l = advance seq root.
Proof.
  intros [Hk Hs] [(Hge & _ & ->)|(_ & k & Hsk & ->)]%step1_Ok; cbn.
  - rewrite Hk, <-advance_add. f_equal. lia.
  - by apply Hs.
Qed.

Lemma ladder_chain root first seq s k :
  ladder first seq (advance first root) !! s = Some k → k = advance s root.
Proof.
  rewrite lookup_ladder. case_decide as D; [|done]. intros [= <-].
  rewrite <-advance_add. f_equal. lia.
Qed.

Lemma commit_on_chain root ch seq mid l st :
  on_chain root ch → receive_step1 ch seq mid = Ok l → on_chain root (commit ch seq l st).
Proof.
  intros [Hk Hs] [(Hge & _ & ->)|(_ & k & Hsk & ->)]%step1_Ok; split; cbn; try done.
  - rewrite Hk, <-advance_add. f_equal. lia.
  - intros s k Hsk. destruct (evict_spec (ladder (first_new ch) seq (current_key ch)
      ∪ skipped_keys ch)) as (Hsub & _ & _). eapply lookup_weaken in Hsk; [|exact Hsub].
    apply lookup_union_Some_raw in Hsk as [Hsk|[_ Hsk]]; [|by apply Hs].
    rewrite Hk in Hsk. by eapply ladder_chain.
  - intros s k' Hd. apply lookup_delete_Some in Hd as [_ Hd]. by apply Hs.
Qed.

Lemma dom_ladder first seq k : dom (ladder first seq k) = gap first seq.
Proof.
  apply set_eq. intros i. rewrite elem_of_dom, lookup_ladder, elem_of_gap.
  case_decide as D; split; intros Hi; [done|by eexists|by destruct Hi|by destruct D].
Qed.

Lemma evict_keeps_greatest (m : gmap N RatchetKey) :
  keeps_greatest (dom m) (dom (evict_oldest_skipped_keys m)).
Proof.
  destruct (evict_spec m) as (Hsub & Hlen & Hord). unfold keeps_greatest.
  rewrite !size_dom. split; [by apply subseteq_dom|]. split; [done|].
  intros k k' Hk Hn Hk'. apply elem_of_dom in Hk, Hk'. apply not_elem_of_dom in Hn. by apply Hord.
Qed.

Lemma on_chain_new root n :
  on_chain (RatchetKey_new (RootKey_0 root)) (SecureChannel_new root n).
Proof. split; [done|]. intros s k. cbn. by rewrite lookup_empty. Qed.

(** The sequence numbers that Step 1 does not reject. *)
Lemma step1_admissible ch seq mid :
  (∃ l, receive_step1 ch seq mid = Ok l) ↔ admissible (abs_receiver ch) seq ∧
    (seq < first_new ch ∨ seq <= first_new ch + skip_limit ch).
Proof.
  unfold admissible, in_window. rewrite (rc_limit_skip ch) by done. cbn. rewrite elem_of_dom.
  rewrite step1_spec. destruct (N.leb_spec (first_new ch) seq).
  - destruct (N.leb_spec (seq - first_new ch) (skip_limit ch)); split.
    + intros _. split; [left; lia|lia].
    + intros _. by eexists.
    + by intros [? ?].
    + intros [_ Hl]. lia.
  - destruct (skipped_keys ch !! seq) as [k|] eqn:E; split.
    + intros _. split; [right; by eexists|by left].
    + intros _. by eexists.
    + intros [l Hl]. by destruct (contains _ _ _).
    + intros [[Hl|[? ?]] _]; [lia|done].
Qed.

(** ** Refinement *)

(** Step 1 rejects only what the specification rejects. *)
Lemma simulates_step1_error root ch st envelopes seq mid e :
  represents root ch st → len mid <= MAX_MESSAGE_ID_LEN → n_paths ch <= len envelopes →
  receive_step1 ch seq mid = Err e → spec_receive root (n_paths ch) st envelopes seq mid (Err e) st.
Proof.
  intros [Hf Hp _] Hm Hn Hl. rewrite step1_spec, <-Hf, <-(rc_limit_skip ch st Hf) in Hl.
  destruct (N.leb_spec (rc_first st) seq) as [Hge|Hlt].
  - destruct (N.leb_spec (seq - rc_first st) (rc_limit st)); simplify_eq.
    apply spec_too_far; [done|done|lia].
  - destruct (skipped_keys ch !! seq) eqn:Hk; [done|].
    apply spec_gone; [done|done|done| |by destruct (contains _ _ _); simplify_eq; auto].
    rewrite Hp. by apply not_elem_of_dom.
Qed.

(** The commit is the specification's acceptance of a new or a pending number. *)
Lemma simulates_accept root ch st envelopes seq mid l payload store :
  represents root ch st → len mid <= MAX_MESSAGE_ID_LEN → n_paths ch <= len envelopes →
  receive_step1 ch seq mid = Ok l →
  authenticate (advance seq root) (n_paths ch) envelopes seq mid = Ok payload →
  spec_receive root (n_paths ch) st envelopes seq mid (Ok payload) (abs_receiver (commit ch seq l store)).
Proof.
  intros [Hf Hp _] Hm Hn Hl Hauth.
  destruct (step1_Ok _ _ _ _ Hl) as [(Hge & Hle & ->)|(Hlt & k & Hk & ->)].
  - apply (spec_accept_new _ _ st); [done|done| |done|].
    { unfold in_window. rewrite Hf, (rc_limit_skip ch st Hf). lia. }
    rewrite Hf, Hp, <-(dom_ladder _ _ (current_key ch)), <-dom_union_L. apply evict_keeps_greatest.
  - replace (abs_receiver (commit ch seq (stored_locals k) store))
      with {| rc_first := rc_first st; rc_pending := rc_pending st ∖ {[seq]} |}
      by (unfold abs_receiver; rewrite Hf, Hp, <-dom_delete_L; done).
    apply (spec_accept_pending _ _ st); [done|done|by rewrite Hf| |done].
    rewrite Hp. apply elem_of_dom. by eexists.
Qed.

Lemma receive_simulates root t now envelopes seq mid ch st res ch' :
  chan_inv t ch → t <= now → represents root ch st → envelopes_wf envelopes →
  receive now envelopes seq mid ch = (res, ch') →
  spec_receive root (n_paths ch) st envelopes seq mid res (if res is Ok _ then abs_receiver ch' else st)
  ∧ (if res is Ok _ then represents root ch' (abs_receiver ch') else ch' = ch).
Proof.
  intros Hinv Ht Hrep Hwf E. pose proof Hrep as [Hf Hp Hc].
  pose proof (receive_cases now ch envelopes seq mid res ch' (chan_inv_mono _ _ _ Hinv Ht) Hwf E) as Hcases.
  pose proof (rc_limit_skip ch st Hf) as Hlim.
  rewrite receive_spec in E.
  destruct (N.ltb_spec MAX_MESSAGE_ID_LEN (len mid)) as [|Hm]; [injection E as <- <-; split; [by apply spec_bad_message_id|done]|].
  destruct (N.ltb_spec (len envelopes) (n_paths ch)) as [|Hn]; 
    [injection E as <- <-; split; [by apply spec_too_few_envelopes|done]|].
  destruct (receive_step1 ch seq mid) as [l|e|] eqn:Hl.
  - pose proof (step1_target _ _ _ _ _ Hc Hl) as Htk.
    assert (Hadm : admissible st seq).
    { apply step1_Ok in Hl as [(Hge & Hle & _)|(_ & k & Hk & _)]; [left|right].
      - unfold in_window. rewrite Hf, Hlim. lia.
      - rewrite Hp. apply elem_of_dom. by eexists. }
    destruct Hcases as [(e & -> & ->)|(payload & l' & -> & [= <-] & Hauth & ->)].
    + split; [|done]. apply spec_not_authentic; [done|done|done|]. rewrite <-Htk.
      destruct (authenticate _ _ _ _ _) as [p|e'|]; [|congruence|congruence].
      pose proof (fresh_if_not_consumed now ch seq mid (chan_inv_mono _ _ _ Hinv Ht)
                    (step1_not_consumed _ _ _ _ Hl)) as Hfr.
      destruct (check_and_insert _ _ _ _) as [fr stt]. cbn in Hfr. subst fr. congruence.
    + split; [|apply represents_abs; by eapply commit_on_chain].
      rewrite Htk in Hauth. by eapply simulates_accept.
  - injection E as <- <-. split; [|done]. by apply simulates_step1_error.
  - destruct Hcases as [(e & -> & _)|(p & l & _ & ? & _)]; congruence.
Qed.

(** ** Sequences of calls *)

Record call := { c_now : N; c_envelopes : list bytes; c_seq : N; c_mid : bytes }.

Fixpoint receive_all (calls : list call) (ch : SecureChannel)
    : list (outcome ChannelError bytes) * SecureChannel :=
  match calls with
  | [] => ([], ch)
  | c :: calls =>
      let '(res, ch) := receive (c_now c) (c_envelopes c) (c_seq c) (c_mid c) ch in
      let '(rs, ch) := receive_all calls ch in (res :: rs, ch)
  end.

Inductive spec_run (root : RatchetKey) (n : N)
    : receiver → list call → list (outcome ChannelError bytes) → receiver → Prop :=
| spec_run_nil st : spec_run root n st [] [] st
| spec_run_cons st c calls res st1 rs st2 :
    spec_receive root n st (c_envelopes c) (c_seq c) (c_mid c) res st1 →
    spec_run root n st1 calls rs st2 →
    spec_run root n st (c :: calls) (res :: rs) st2.

(** Calls whose times are in order from [t] on, on 1024-byte envelopes. *)
Fixpoint calls_ok (t : N) (calls : list call) : Prop :=
  match calls with
  | [] => True
  | c :: calls => t <= c_now c ∧ envelopes_wf (c_envelopes c) ∧ calls_ok (c_now c) calls
  end.

Lemma commit_n_paths ch seq l st : n_paths (commit ch seq l st) = n_paths ch.
Proof. unfold commit. by destruct (next_ratchet_key l). Qed.

Lemma receive_n_paths t ch envelopes seq mid res ch' :
  chan_inv t ch → envelopes_wf envelopes →
  receive t envelopes seq mid ch = (res, ch') → n_paths ch' = n_paths ch.
Proof.
  intros Hinv Hwf E. destruct (receive_cases _ _ _ _ _ _ _ Hinv Hwf E)
    as [(e & _ & ->)|(p & l & _ & _ & _ & ->)]; [done|]. apply commit_n_paths.
Qed.

Lemma receive_all_refines root t calls ch st :
  chan_inv t ch → represents root ch st → calls_ok t calls →
  let '(rs, ch') := receive_all calls ch in
  ∃ st', spec_run root (n_paths ch) st calls rs st' ∧ represents root ch' st'
    ∧ ∃ t', chan_inv t' ch'.
Proof.
  revert t ch st. induction calls as [|c calls IH]; intros t ch st Hinv Hrep Hok; cbn [receive_all].
  { exists st. split; [constructor|]. split; [done|by eexists]. }
  destruct Hok as (Ht & Hwf & Hok).
  destruct (receive (c_now c) (c_envelopes c) (c_seq c) (c_mid c) ch) as [res ch1] eqn:E.
  destruct (receive_simulates root t _ _ _ _ _ _ _ _ Hinv Ht Hrep Hwf E) as [Hspec Hrep1].
  pose proof (chan_inv_mono _ _ _ Hinv Ht) as Hinv'.
  pose proof (receive_inv _ _ _ _ _ _ _ Hinv' Hwf E) as Hinv1.
  pose proof (receive_n_paths _ _ _ _ _ _ _ Hinv' Hwf E) as Hn1.
  set (st1 := if res is Ok _ then abs_receiver ch1 else st) in *.
  assert (Hrep1' : represents root ch1 st1) by (unfold st1; destruct res; by subst).
  specialize (IH (c_now c) ch1 st1 Hinv1 Hrep1' Hok).
  destruct (receive_all calls ch1) as [rs ch2]. destruct IH as (st2 & Hrun & Hrep2 & Hinv2).
  exists st2. split; [|done]. rewrite Hn1 in Hrun. by econstructor.
Qed.

(** C4. Refinement of the receiver.  Every sequence of [receive] calls on a fresh
    channel behaves as the abstract receiver that waits for sequence number 0:
    each answer, error or payload, is one the specification allows in the
    corresponding abstract state, each message is authenticated with the key
    that the chain assigns to its sequence number, and the final channel
    represents the final abstract state. *)
Theorem receive_refines root n t calls :
  len (RootKey_0 root) = 32 → calls_ok t calls →
  let '(rs, ch) := receive_all calls (SecureChannel_new root n) in
  ∃ st, spec_run (RatchetKey_new (RootKey_0 root)) n {| rc_first := 0; rc_pending := ∅ |} calls rs st
    ∧ represents (RatchetKey_new (RootKey_0 root)) ch st.
Proof.
  intros Hr Hok.
  pose proof (receive_all_refines (RatchetKey_new (RootKey_0 root)) t calls (SecureChannel_new root n)
    _ (chan_inv_new t root n Hr) (represents_abs _ _ (on_chain_new root n)) Hok) as R.
  destruct (receive_all _ _) as [rs ch]. destruct R as (st & Hrun & Hrep & _).
  exists st. split; [|done]. unfold abs_receiver in Hrun. cbn [skipped_keys SecureChannel_new] in Hrun.
  by rewrite dom_empty_L in Hrun.
Qed.

(** ** Authenticity of what is accepted *)

Lemma construct_aad_inj s m s' m' :
  s < U64_MOD → s' < U64_MOD → construct_aad s m = construct_aad s' m' → s = s' ∧ m = m'.
Proof.
  unfold construct_aad. intros Hs Hs' [_ E]%app_inj_len_l; [|done].
  apply app_inj_len_l in E as [E ?]; [|by rewrite !len_to_be_bytes].
  split; [|done]. by apply (to_be_bytes_inj 8).
Qed.

Lemma receive_all_inv root t calls ch now :
  chan_inv t ch → on_chain root ch → calls_ok t calls →
  (∀ c, c ∈ calls → c_now c <= now) → t <= now →
  chan_inv now (receive_all calls ch).2 ∧ on_chain root (receive_all calls ch).2.
Proof.
  revert t ch. induction calls as [|c cs IH]; intros t ch Hinv Hc Hok Hn Ht; cbn [receive_all].
  { split; [by eapply chan_inv_mono|done]. }
  destruct Hok as (Htc & Hwf & Hok).
  destruct (receive (c_now c) (c_envelopes c) (c_seq c) (c_mid c) ch) as [res ch1] eqn:E.
  pose proof (chan_inv_mono _ _ _ Hinv Htc) as Hinv'.
  pose proof (receive_inv _ _ _ _ _ _ _ Hinv' Hwf E) as Hinv1.
  assert (Hc1 : on_chain root ch1).
  { destruct (receive_cases _ _ _ _ _ _ _ Hinv' Hwf E) as [(e & _ & ->)|(p & l & _ & Hl & _ & ->)];
      [done|by eapply commit_on_chain]. }
  specialize (IH _ ch1 Hinv1 Hc1 Hok (λ c0 Hc0, Hn c0 (list_elem_of_further _ _ _ Hc0))
                (Hn c (list_elem_of_here _ _))).
  by destruct (receive_all cs ch1).
Qed.

Lemma authenticate_Ok key n envelopes seq mid payload :
  key_wf key → envelopes_wf envelopes →
  authenticate key n envelopes seq mid = Ok payload →
  ∃ env nonce flags pad ct tag,
    env ∈ envelopes ∧ env = nonce ++ ct ++ tag ∧ len payload <= MAX_PAYLOAD_SIZE
    ∧ encrypt_in_place_detached (RatchetKey_0 key) nonce (construct_aad seq mid)
        (plaintext_of flags payload pad) = (ct, Some tag).
Proof.
  unfold authenticate, envelopes_wf. intros Hk Hwf Hauth. rewrite Forall_forall in Hwf.
  destruct (select_slot _ _ _) as [slot|e|]; cbn [o_map_err mbind outcome_bind] in Hauth; [|done|done].
  destruct (len envelopes <=? slot); [done|].
  destruct (index slot envelopes) as [env|] eqn:Henv; cbn [o_unwrap mbind outcome_bind] in Hauth; [|done].
  assert (Hin : env ∈ envelopes) by (by eapply list_elem_of_lookup_2).
  destruct (open _ env _) as [p| |] eqn:Ho; cbn in Hauth; [|done|done]. injection Hauth as ->.
  apply open_Ok_inv in Ho as (nonce & fl & pad & ct & tag & He & _ & _ & _ & Hp & Henc);
    [|done|by apply Hwf].
  by exists env, nonce, fl, pad, ct, tag.
Qed.

End receiver.
