(* ===== verification/Session.v ===== *)
(** * Two endpoints and the network between them

    A sender and a receiver that were created over the same root key, and a
    network that delays, reorders, duplicates, drops and forges packets.
    [reliable_delivery] is what the skipped-key table, the eviction policy and
    the ratchet are there for; [duplex_desync] shows that a channel serves one
    direction only. *)

From S2P Require Import Prelude Outcome Primitives Errors Types PathEngine Envelope Decoy AntiReplay BTree Channel ChannelFacts ChannelInv Receiver.

Section session.
Context `{BuildProfile} `{OsRngLaws} `{HashesLaws} `{AeadLaws} `{ZeroizeLaws}.

(** What the sender's application asked for and what [send] returned. *)
Record logged := { lg_mid : bytes; lg_payload : bytes; lg_envelopes : list bytes }.

Record session := {
  s_sender : SecureChannel;
  s_rng : rng;
  s_receiver : SecureChannel;
  s_now : N;
  s_log : list logged;          (* sent messages, by sequence number *)
  s_got : gset N;               (* sequence numbers accepted so far *)
}.

Definition session_new (root : RootKey) (n : N) (r : rng) (now : N) : session :=
  {| s_sender := SecureChannel_new root n; s_rng := r; s_receiver := SecureChannel_new root n;
     s_now := now; s_log := []; s_got := ∅ |}.

Definition log_after (log : list logged) (mid payload : bytes)
    (res : outcome ChannelError (list bytes)) : list logged :=
  match res with
  | Ok envs => log ++ [{| lg_mid := mid; lg_payload := payload; lg_envelopes := envs |}]
  | _ => log
  end.

Definition got_after (got : gset N) (seq : N) (res : outcome ChannelError bytes) : gset N :=
  match res with Ok _ => {[seq]} ∪ got | _ => got end.

(** The network's moves: a call of [send], the arrival of a sent message (at
    any time, any number of times, or never), and the arrival of any other
    packet, as long as the receiver refuses it. *)
Inductive net_step : session → session → Prop :=
| net_send st payload mid res sender r :
    len (s_log st) < U64_MOD →
    send payload mid (s_sender st, s_rng st) = (res, (sender, r)) →
    net_step st {| s_sender := sender; s_rng := r; s_receiver := s_receiver st; s_now := s_now st;
                   s_log := log_after (s_log st) mid payload res; s_got := s_got st |}
| net_deliver st i e now res receiver :
    index i (s_log st) = Some e → s_now st <= now →
    receive now (lg_envelopes e) i (lg_mid e) (s_receiver st) = (res, receiver) →
    net_step st {| s_sender := s_sender st; s_rng := s_rng st; s_receiver := receiver; s_now := now;
                   s_log := s_log st; s_got := got_after (s_got st) i res |}
| net_forge st now envelopes seq mid err receiver :
    s_now st <= now → envelopes_wf envelopes →
    receive now envelopes seq mid (s_receiver st) = (Err err, receiver) →
    net_step st {| s_sender := s_sender st; s_rng := s_rng st; s_receiver := receiver; s_now := now;
                   s_log := s_log st; s_got := s_got st |}.

Inductive net_reach (root : RootKey) (n : N) : session → Prop :=
| net_start r now : net_reach root n (session_new root n r now)
| net_next st st' : net_reach root n st → net_step st st' → net_reach root n st'.

(** ** The invariant *)

Definition chain (root : RootKey) (i : N) : RatchetKey :=
  advance i (RatchetKey_new (RootKey_0 root)).

Definition entry_ok (root : RootKey) (n i : N) (e : logged) : Prop :=
  len (lg_mid e) <= MAX_MESSAGE_ID_LEN
  ∧ carries (chain root i) n i (lg_mid e) (lg_payload e) (lg_envelopes e).

(** Close enough behind the last accepted number to have its key kept. *)
Definition kept (ch : SecureChannel) (i : N) : Prop := first_new ch <= i + 1001.

Record session_inv (root : RootKey) (n : N) (st : session) : Prop := {
  si_key : current_key (s_sender st) = chain root (len (s_log st));
  si_next : send_seq (s_sender st)
            = if decide (s_log st = []) then None else Some (len (s_log st) - 1);
  si_n : n_paths (s_sender st) = n;
  si_log : ∀ i e, index i (s_log st) = Some e → entry_ok root n i e;
  si_inv : chan_inv (s_now st) (s_receiver st);
  si_chain : on_chain (RatchetKey_new (RootKey_0 root)) (s_receiver st);
  si_n' : n_paths (s_receiver st) = n;
  si_first : first_new (s_receiver st) <= len (s_log st);
  si_got : ∀ i, i ∈ s_got st → consumed (s_receiver st) i;
  si_pending : ∀ i, i < first_new (s_receiver st) → i ∉ s_got st → kept (s_receiver st) i →
                 is_Some (skipped_keys (s_receiver st) !! i);
}.

Lemma session_inv_new root n r now :
  len (RootKey_0 root) = 32 → session_inv root n (session_new root n r now).
Proof.
  intros Hr.
  split; cbn [session_new s_sender s_rng s_receiver s_now s_log s_got]; try done;
    [by apply chan_inv_new|].
  intros i Hi. unfold first_new in Hi. cbn in Hi. lia.
Qed.

Lemma si_next_send root n st :
  session_inv root n st → len (s_log st) < U64_MOD → next_send (s_sender st) = Some (len (s_log st)).
Proof.
  intros Hinv Hlt. unfold next_send. rewrite (si_next _ _ _ Hinv).
  destruct (decide (s_log st = [])) as [->|Hne]; [done|].
  assert (len (s_log st) ≠ 0) by (intros E; by apply Hne, len_zero_inv).
  rewrite add_u64_no_overflow by lia. f_equal. lia.
Qed.

Lemma chain_wf root i : len (RootKey_0 root) = 32 → key_wf (chain root i).
Proof. intros. by apply advance_wf. Qed.

Lemma index_snoc {A} i (l : list A) x e :
  index i (l ++ [x]) = Some e → index i l = Some e ∨ (i = len l ∧ e = x).
Proof.
  unfold index, len. rewrite lookup_app_Some. intros [?|[Hge Hx]]; [by left|right].
  apply list_lookup_singleton_Some in Hx as [Hz ->]. split; [lia|done].
Qed.

Lemma send_inv root n st payload mid res sender r :
  len (RootKey_0 root) = 32 → n * ENVELOPE_TOTAL_LEN <= ISIZE_MAX →
  session_inv root n st → len (s_log st) < U64_MOD →
  send payload mid (s_sender st, s_rng st) = (res, (sender, r)) →
  session_inv root n {| s_sender := sender; s_rng := r; s_receiver := s_receiver st;
    s_now := s_now st; s_log := log_after (s_log st) mid payload res; s_got := s_got st |}.
Proof.
  intros Hr Ha Hinv Hlt E. pose proof (si_next_send _ _ _ Hinv Hlt) as Hseq.
  pose proof Hinv as [Sk Sn Sp Sl Si Sc Sp' Sf Sg Spe].
  assert (Hk : key_wf (current_key (s_sender st))) by (rewrite Sk; by apply chain_wf).
  destruct (send_cases _ _ _ _ _ _ _ Hk E)
    as [(e & -> & -> & ->)|[(_ & Hno & _)|(seq & Hm & Hs & -> & [[_ Ho]|(envs & -> & Hc)])]];
    [by split|congruence|rewrite Sp in Ho; lia|].
  assert (seq = len (s_log st)) as -> by congruence. rewrite Sk, Sp in Hc.
  split; cbn [s_sender s_rng s_receiver s_now s_log s_got log_after sent current_key send_seq n_paths];
    try done.
  - rewrite Sk, len_app. unfold chain. by rewrite advance_succ.
  - rewrite decide_False by (by destruct (s_log st)). f_equal. rewrite len_app, len_cons, len_nil. lia.
  - intros i e [Hi|[-> ->]]%index_snoc; [by apply Sl|by split].
  - rewrite len_app. lia.
Qed.

(** A pending number survives the eviction of an accepted message that is not
    too far ahead of it. *)
Lemma evict_keeps first seq k (m : gmap N RatchetKey) i :
  (∀ s, is_Some (m !! s) → s < first) → first <= seq → i < seq → seq <= i + 1000 →
  is_Some ((ladder first seq k ∪ m) !! i) →
  is_Some (evict_oldest_skipped_keys (ladder first seq k ∪ m) !! i).
Proof.
  intros Hm Hge Hi Hw Hin. set (u := ladder first seq k ∪ m) in *.
  destruct (evict_spec u) as (Hsub & Hlen & Hord).
  destruct (evict_oldest_skipped_keys u !! i) eqn:Hno; [by eexists|exfalso].
  assert (Hr : ∀ j, is_Some (evict_oldest_skipped_keys u !! j) → i + 1 <= j ∧ j < seq).
  { intros j Hj. specialize (Hord i j Hin Hno Hj). split; [lia|].
    destruct Hj as [x Hj]. eapply lookup_weaken in Hj; [|exact Hsub].
    apply lookup_union_Some_raw in Hj as [Hj|[_ Hj]].
    - rewrite lookup_ladder in Hj. case_decide; [lia|done].
    - specialize (Hm j (mk_is_Some _ _ Hj)). lia. }
  pose proof (map_len_range _ _ _ Hr) as Hb. rewrite Hlen in Hb. unfold MAX_SKIPPED_KEYS in *.
  assert (Hs : size u = size (evict_oldest_skipped_keys u)) by (unfold map_len in *; lia).
  assert (evict_oldest_skipped_keys u = u) as Heq.
  { apply map_subseteq_size_eq; [done|lia]. }
  rewrite Heq in Hno. rewrite Hno in Hin. by destruct Hin.
Qed.

(** The clauses about the receiver, after an accepted message. *)
Lemma accept_inv root n st i mid now l got :
  session_inv root n st → s_now st <= now → i < len (s_log st) →
  receive_step1 (s_receiver st) i mid = Ok l → got = {[i]} ∪ s_got st →
  session_inv root n {| s_sender := s_sender st; s_rng := s_rng st;
    s_receiver := commit (s_receiver st) i l (check_and_insert now (anti_replay (s_receiver st)) i mid).2;
    s_now := now; s_log := s_log st; s_got := got |}.
Proof.
  intros Hinv Hnow Hi Hl ->. pose proof Hinv as [Sk Sn Sp Sl Si Sc Sp' Sf Sg Spe].
  apply (chan_inv_mono _ now) in Si; [|done].
  split; cbn [s_sender s_rng s_receiver s_now s_log s_got]; try done.
  - by apply commit_inv.
  - by eapply commit_on_chain.
  - by rewrite commit_n_paths.
  - apply step1_Ok in Hl as [(Hge & _ & ->)|(_ & k & _ & ->)]; unfold first_new; cbn; [lia|done].
  - intros j Hj. eapply commit_consumed; [done|done|].
    apply elem_of_union in Hj as [Hj%elem_of_singleton|Hj]; [by right|left; by apply Sg].
  - intros j Hj Hn Hk. apply not_elem_of_union in Hn as [Hne Hn].
    rewrite not_elem_of_singleton in Hne.
    apply step1_Ok in Hl as [(Hge & _ & ->)|(Hlt & k & Hk' & ->)]; unfold kept, first_new in Hj, Hk;
      cbn in Hj, Hk |- *.
    + apply evict_keeps; [|done|lia|lia|].
      * intros s [x Hx]. apply (ci_skipped _ _ Si) in Hx as [_ ?]. lia.
      * destruct (decide (first_new (s_receiver st) <= j)).
        -- eexists. apply lookup_union_Some_l. rewrite lookup_ladder. by rewrite decide_True by lia.
        -- rewrite lookup_union_r by (rewrite lookup_ladder; by rewrite decide_False by lia).
           apply Spe; [lia|done|unfold kept; lia].
    + rewrite lookup_delete_ne by done. by apply Spe.
Qed.

Lemma reject_inv root n st now :
  session_inv root n st → s_now st <= now →
  session_inv root n {| s_sender := s_sender st; s_rng := s_rng st; s_receiver := s_receiver st;
    s_now := now; s_log := s_log st; s_got := s_got st |}.
Proof. intros [] ?. split; try done. by eapply chan_inv_mono. Qed.

Lemma carries_envelopes_wf key n seq mid payload envs :
  carries key n seq mid payload envs → envelopes_wf envs.
Proof. by intros (? & ? & _ & _ & _ & _ & _ & ? & _). Qed.

Lemma net_step_inv root n st st' :
  len (RootKey_0 root) = 32 → n * ENVELOPE_TOTAL_LEN <= ISIZE_MAX →
  session_inv root n st → net_step st st' → session_inv root n st'.
Proof.
  intros Hr Ha Hinv Hs. pose proof (si_inv _ _ _ Hinv) as Hch.
  destruct Hs as [st payload mid res sender r Hlt E|st i e now res receiver He Hnow E
                 |st now envs seq mid err receiver Hnow Hwf E].
  - by eapply send_inv.
  - destruct (si_log _ _ _ Hinv i e He) as [_ Hc%carries_envelopes_wf].
    destruct (receive_cases now _ _ _ _ _ _ (chan_inv_mono _ _ _ Hch Hnow) Hc E)
      as [(err & -> & ->)|(p & l & -> & Hl & _ & ->)]; [by apply reject_inv|].
    eapply accept_inv; [done|done| |done|done].
    apply lookup_lt_Some in He. unfold len. lia.
  - destruct (receive_cases now _ _ _ _ _ _ (chan_inv_mono _ _ _ Hch Hnow) Hwf E)
      as [(e & _ & ->)|(p & l & ? & _)]; [by apply reject_inv|done].
Qed.

Lemma net_reach_inv root n st :
  len (RootKey_0 root) = 32 → n * ENVELOPE_TOTAL_LEN <= ISIZE_MAX →
  net_reach root n st → session_inv root n st.
Proof. intros Hr Ha. induction 1; [by apply session_inv_new|by eapply net_step_inv]. Qed.

(** ** Delivery *)

(** C1. Reliable delivery, from one sender to one receiver.  Whatever the network
    did so far (delay, reorder, duplicate, drop, or forge packets that the
    receiver refuses), a message that was sent and not yet accepted is accepted when it arrives, with exactly the
    payload that was sent, if its number is at most 1000 below or above the
    last accepted one (at most 1000 if nothing was accepted yet).  A message
    that was accepted once is refused whenever it, or anything else with its
    sequence number, arrives again, and the receiver does not change. *)
Theorem reliable_delivery root n st i now :
  len (RootKey_0 root) = 32 → n ≠ 0 → n * ENVELOPE_TOTAL_LEN <= ISIZE_MAX →
  net_reach root n st → s_now st <= now →
  (∀ e, index i (s_log st) = Some e → i ∉ s_got st →
     match last_seq (s_receiver st) with None => i <= 1000 | Some l => l <= i + 1000 ∧ i <= l + 1000 end →
     ∃ ch', receive now (lg_envelopes e) i (lg_mid e) (s_receiver st) = (Ok (lg_payload e), ch'))
  ∧ (i ∈ s_got st → ∀ envelopes mid, envelopes_wf envelopes →
     ∃ err, receive now envelopes i mid (s_receiver st) = (Err err, s_receiver st)).
Proof.
  intros Hr Hn Ha Hreach Hnow. pose proof (net_reach_inv _ _ _ Hr Ha Hreach) as Hinv.
  pose proof (chan_inv_mono _ _ _ (si_inv _ _ _ Hinv) Hnow) as Hch. split.
  - intros e He Hng Hw. pose proof (si_log _ _ _ Hinv i e He) as Hok.
    assert (∃ l, receive_step1 (s_receiver st) i (lg_mid e) = Ok l) as [l Hl].
    { apply step1_admissible. unfold admissible, in_window.
      rewrite (rc_limit_skip (s_receiver st)) by done. cbn [rc_first rc_pending abs_receiver].
      destruct (N.lt_ge_cases i (first_new (s_receiver st))) as [Hlt|Hge].
      - split; [right|by left]. apply elem_of_dom, (si_pending _ _ _ Hinv); [done|done|].
        unfold kept, first_new. destruct (last_seq _); lia.
      - unfold first_new, skip_limit in *. destruct (last_seq _); (split; [left; lia|lia]). }
    destruct Hok as [Hm Hc].
    apply (receive_carried now (s_receiver st) i (lg_mid e) (lg_payload e) (lg_envelopes e) l);
      rewrite ?(si_n' _ _ _ Hinv); [done|done|done|done|].
    by rewrite (step1_target _ _ _ _ _ (si_chain _ _ _ Hinv) Hl).
  - intros Hg envelopes mid Hwf.
    destruct (receive now envelopes i mid (s_receiver st)) as [res ch'] eqn:E.
    destruct (receive_cases _ _ _ _ _ _ _ Hch Hwf E) as [(err & -> & ->)|(p & l & _ & Hl & _)];
      [by eexists|].
    destruct (step1_not_consumed _ _ _ _ Hl). by apply (si_got _ _ _ Hinv).
Qed.

(** ** One key chain, two directions *)

Lemma fresh_send root n r payload mid :
  len (RootKey_0 root) = 32 → n ≠ 0 → n * ENVELOPE_TOTAL_LEN <= ISIZE_MAX →
  len mid <= MAX_MESSAGE_ID_LEN → len payload <= MAX_PAYLOAD_SIZE →
  ∃ envs r', send payload mid (SecureChannel_new root n, r)
             = (Ok envs, (sent (SecureChannel_new root n) 0, r'))
    ∧ carries (chain root 0) n 0 mid payload envs.
Proof. intros. by apply (send_run (SecureChannel_new root n) r 0 payload mid). Qed.

(** C27. Send and receive share the ratchet.  When both endpoints of a session
    send before they receive, both first messages are sealed under the same
    key and the same sequence number.  A peer that has not sent accepts the
    message; a peer that has sent looks for it with the next key of the chain
    (slot and decryption), so it accepts it only if one of the envelopes also
    opens under that other key. *)
Theorem duplex_desync root n ra rb pa ma pb mb now :
  len (RootKey_0 root) = 32 → n ≠ 0 → n * ENVELOPE_TOTAL_LEN <= ISIZE_MAX →
  len ma <= MAX_MESSAGE_ID_LEN → len pa <= MAX_PAYLOAD_SIZE →
  len mb <= MAX_MESSAGE_ID_LEN → len pb <= MAX_PAYLOAD_SIZE →
  ∃ ea a ra' eb b rb',
    send pa ma (SecureChannel_new root n, ra) = (Ok ea, (a, ra'))
    ∧ send pb mb (SecureChannel_new root n, rb) = (Ok eb, (b, rb'))
    ∧ carries (chain root 0) n 0 ma pa ea ∧ carries (chain root 0) n 0 mb pb eb
    ∧ (receive now ea 0 ma (SecureChannel_new root n)).1 = Ok pa
    ∧ (receive now ea 0 ma b).1 = authenticate (chain root 1) n ea 0 ma.
Proof.
  intros Hr Hn Ha Hma Hpa Hmb Hpb.
  destruct (fresh_send root n ra pa ma) as (ea & ra' & Ea & Ca); [done..|].
  destruct (fresh_send root n rb pb mb) as (eb & rb' & Eb & Cb); [done..|].
  exists ea, (sent (SecureChannel_new root n) 0), ra', eb, (sent (SecureChannel_new root n) 0), rb'.
  repeat (split; [done|]).
  pose proof (chan_inv_new now root n Hr) as Hinv. split.
  - destruct (receive_carried now (SecureChannel_new root n) 0 ma pa ea
      (forward_locals 0 0 (chain root 0)) Hinv Hn Hma) as [ch' E]; [done..|]. by rewrite E.
  - pose proof (sent_inv _ _ 0 Hinv) as Hinv'. rewrite receive_spec.
    destruct (N.ltb_spec MAX_MESSAGE_ID_LEN (len ma)); [lia|].
    destruct Ca as (? & ? & _ & _ & Hlen & _). rewrite Hlen.
    change (n_paths (sent (SecureChannel_new root n) 0)) with n.
    destruct (N.ltb_spec n n); [lia|].
    change (receive_step1 (sent (SecureChannel_new root n) 0) 0 ma) with
      (Ok (E := ChannelError) (forward_locals 0 0 (chain root 1))).
    cbn [target_key forward_locals]. change (advance (0 - 0) (chain root 1)) with (chain root 1).
    destruct (authenticate (chain root 1) n ea 0 ma) as [p|e|]; [|done|done].
    pose proof (fresh_if_not_consumed now _ 0 ma Hinv') as Hf.
    destruct (check_and_insert _ _ _ _) as [fr store]. cbn [fst] in Hf.
    rewrite Hf; [done|]. intros [Hc _]. cbn in Hc. lia.
Qed.
End session.
