(* ===== verification/ChannelHistory.v ===== *)
(** * What a channel's state says about its history

    The state after an execution as a function of what happened: the meaning of
    [last_seq], the types of everything a channel hands out, and the keys that
    somebody who reads the state of a receiver can compute. *)

From S2P Require Import Prelude Outcome Primitives Errors Types PathEngine Envelope Decoy AntiReplay BTree Channel ChannelFacts ChannelInv Receiver Session.

Section channel_history.
Context `{BuildProfile} `{OsRngLaws} `{HashesLaws} `{AeadLaws} `{ZeroizeLaws}.

(** ** The highest accepted number *)

Definition max_seq (s : N) (acc : option N) : option N :=
  Some (match acc with Some m => N.max s m | None => s end).

Definition highest (l : list N) : option N := foldr max_seq None l.

Lemma highest_spec l :
  match highest l with
  | None => l = []
  | Some m => m ∈ l ∧ ∀ s, s ∈ l → s <= m
  end.
Proof.
  induction l as [|s l IH]; [done|].
  change (highest (s :: l)) with (max_seq s (highest l)). unfold max_seq.
  destruct (highest l) as [m|].
  - destruct IH as [Hm Hmax]. split.
    + destruct (N.max_spec s m) as [[_ ->]|[_ ->]]; [by right|left].
    + intros x [->|Hx]%elem_of_cons; [lia|]. specialize (Hmax x Hx). lia.
  - subst l. split; [left|]. intros x [->|Hx%elem_of_nil]%elem_of_cons; [lia|done].
Qed.

(** [last_seq] after more numbers were accepted. *)
Definition raise (last : option N) (l : list N) : option N :=
  foldl (λ acc s, max_seq s acc) last l.

Lemma raise_highest l last :
  raise last l = match highest l with
                 | None => last
                 | Some m => max_seq m last
                 end.
Proof.
  revert last. induction l as [|s l IH]; intros last; [done|].
  change (raise last (s :: l)) with (raise (max_seq s last) l).
  change (highest (s :: l)) with (max_seq s (highest l)). rewrite IH. unfold max_seq.
  destruct (highest l) as [m|], last as [x|]; f_equal; lia.
Qed.

Lemma commit_last_seq ch seq mid l st :
  receive_step1 ch seq mid = Ok l → last_seq (commit ch seq l st) = max_seq seq (last_seq ch).
Proof.
  unfold max_seq.
  intros [(Hge & _ & ->)|(Hlt & k & _ & ->)]%step1_Ok; unfold first_new in *; cbn;
    destruct (last_seq ch) as [m|]; f_equal; lia.
Qed.

Lemma step_last_seq w e w' :
  w_inv w → step w e w' → last_seq (w_chan w') = raise (last_seq (w_chan w)) (delivered [e]).
Proof.
  unfold w_inv. intros Hinv Hs.
  destruct Hs as [ch r t payload mid res ch' r' E|ch r t now envs seq mid res ch' Ht Hwf E]; cbn in *.
  - destruct (send_state _ _ _ _ _ _ _ (ci_key _ _ Hinv) E) as [->|(seq & _ & ->)]; done.
  - destruct (receive_cases _ _ _ _ _ _ _ (chan_inv_mono _ _ _ Hinv Ht) Hwf E)
      as [(e & -> & ->)|(p & l & -> & Hl & _ & ->)]; [done|]. by eapply commit_last_seq.
Qed.

Lemma delivered_cons e es : delivered (e :: es) = delivered [e] ++ delivered es.
Proof. by destruct e as [|? ? ? [?|?|]]. Qed.

Lemma steps_last_seq w es w' :
  w_inv w → steps w es w' → last_seq (w_chan w') = raise (last_seq (w_chan w)) (delivered es).
Proof.
  intros Hinv Hs. induction Hs as [w|w e w1 es w2 Hstep Hsteps IH]; [done|].
  rewrite IH by (by eapply step_inv). rewrite (step_last_seq _ _ _ Hinv Hstep), (delivered_cons e es).
  unfold raise. by rewrite foldl_app.
Qed.

Lemma start_inv root n r t :
  len (RootKey_0 root) = 32 →
  w_inv {| w_chan := SecureChannel_new root n; w_rng := r; w_now := t |}.
Proof. apply chan_inv_new. Qed.

(** C20. The accessor [last_seq].  In every execution of a channel, with sends and
    receives in any order and adversarial arguments, it returns the highest
    sequence number that was accepted so far, and [None] exactly when none
    was: messages that arrive late, rejected packets and sends do not move it. *)
Theorem last_seq_is_highest root n r t es w :
  len (RootKey_0 root) = 32 →
  steps {| w_chan := SecureChannel_new root n; w_rng := r; w_now := t |} es w →
  SecureChannel_last_seq (w_chan w) = highest (delivered es)
  ∧ match SecureChannel_last_seq (w_chan w) with
    | None => delivered es = []
    | Some m => m ∈ delivered es ∧ ∀ s, s ∈ delivered es → s <= m
    end.
Proof.
  intros Hr Hs. unfold SecureChannel_last_seq.
  assert (last_seq (w_chan w) = highest (delivered es)) as ->.
  { rewrite (steps_last_seq _ es w (start_inv root n r t Hr) Hs), raise_highest.
    cbn [w_chan last_seq SecureChannel_new]. unfold max_seq.
    by destruct (highest (delivered es)). }
  split; [done|]. apply highest_spec.
Qed.

(** ** Types *)

(** The widths that the source's types give to the fields of a channel, and
    the bound on the message ids its store records. *)
Record chan_typed (ch : SecureChannel) : Prop := {
  ct_last : ∀ s, last_seq ch = Some s → s < U64_MOD;
  ct_send : ∀ s, send_seq ch = Some s → s < U64_MOD;
  ct_key : key_wf (current_key ch);
  ct_skipped : ∀ s k, skipped_keys ch !! s = Some k → s < U64_MOD ∧ key_wf k;
  ct_entries : ∀ s m t, entries (anti_replay ch) !! (s, m) = Some t →
                 s < U64_MOD ∧ len m <= MAX_MESSAGE_ID_LEN;
}.

Definition args_typed (e : event) : Prop :=
  match e with
  | Sent _ _ _ => True
  | Received _ seq _ _ => seq < U64_MOD
  end.

(** What the two functions may return on a channel with [n] paths. *)
Definition result_typed (n : N) (e : event) : Prop :=
  match e with
  | Sent _ _ (Ok envs) => len envs = n ∧ envelopes_wf envs
  | Sent _ _ (Err _) => True
  | Sent _ _ Panic => overflow_checks = true ∨ ISIZE_MAX < n * ENVELOPE_TOTAL_LEN
  | Received _ _ _ (Ok payload) => len payload <= MAX_PAYLOAD_SIZE
  | Received _ _ _ (Err _) => True
  | Received _ _ _ Panic => False
  end.

(** The part of [chan_typed] that [chan_inv] does not have. *)
Record widths (n : N) (ch : SecureChannel) : Prop := {
  wd_last : ∀ s, last_seq ch = Some s → s < U64_MOD;
  wd_send : ∀ s, send_seq ch = Some s → s < U64_MOD;
  wd_ids : ∀ s m, is_Some (entries (anti_replay ch) !! (s, m)) → len m <= MAX_MESSAGE_ID_LEN;
  wd_paths : n_paths ch = n;
}.

Lemma widths_typed t n ch : chan_inv t ch → widths n ch → chan_typed ch.
Proof.
  intros Hinv [Wl Ws Wi _].
  assert (Hf : ∀ s, s < first_new ch → s < U64_MOD).
  { unfold first_new. intros s Hs. destruct (last_seq ch) as [l|]; [|lia].
    specialize (Wl l eq_refl). lia. }
  split; [done|done|apply Hinv| |].
  - intros s k Hk. destruct (ci_skipped _ _ Hinv s k Hk) as [? ?]. split; [apply Hf; lia|done].
  - intros s m t' Ht. assert (Hin : is_Some (entries (anti_replay ch) !! (s, m))) by by eexists.
    split; [apply Hf, (ci_consumed _ _ Hinv s m Hin)|by eapply Wi].
Qed.

Lemma next_send_typed ch :
  match next_send ch with Some s => s < U64_MOD | None => overflow_checks = true end.
Proof.
  unfold next_send, add_u64. destruct (send_seq ch) as [s|]; [|done].
  destruct (N.ltb_spec (s + 1) U64_MOD); [done|].
  destruct overflow_checks; [done|]. by apply N.mod_lt.
Qed.

Lemma send_typed n ch r payload mid res ch' r' :
  key_wf (current_key ch) → widths n ch → send payload mid (ch, r) = (res, (ch', r')) →
  widths n ch' ∧ result_typed n (Sent payload mid res).
Proof.
  intros Hk Hw E. pose proof Hw as [Wl Ws Wi Wp]. pose proof (next_send_typed ch) as Hnext.
  destruct (send_cases _ _ _ _ _ _ _ Hk E)
    as [(e & -> & -> & _)|[(-> & Hno & -> & _)|(seq & _ & Hs & -> & Hres)]]; cbn.
  - done.
  - rewrite Hno in Hnext. auto.
  - rewrite Hs in Hnext. split.
    + split; cbn; [done| |done|done]. intros s [= <-]. done.
    + destruct Hres as [[-> Ho]|(envs & -> & Hc)]; [rewrite Wp in Ho; auto|].
      destruct Hc as (slot & env & _ & _ & Hl & _ & _ & Hwf & _). by rewrite <-Wp.
Qed.

Lemma receive_Ok_mid t ch envelopes seq mid payload ch' :
  receive t envelopes seq mid ch = (Ok payload, ch') → len mid <= MAX_MESSAGE_ID_LEN.
Proof. rewrite receive_spec. by destruct (N.ltb_spec MAX_MESSAGE_ID_LEN (len mid)). Qed.

Lemma target_key_wf t ch seq mid l :
  chan_inv t ch → receive_step1 ch seq mid = Ok l → key_wf (target_key l).
Proof.
  intros Hinv [(_ & _ & ->)|(_ & k & Hk & ->)]%step1_Ok; cbn.
  - apply advance_wf, Hinv.
  - by apply (ci_skipped _ _ Hinv seq).
Qed.

Lemma receive_typed t n ch envelopes seq mid res ch' :
  chan_inv t ch → widths n ch → seq < U64_MOD → envelopes_wf envelopes →
  receive t envelopes seq mid ch = (res, ch') →
  widths n ch' ∧ result_typed n (Received envelopes seq mid res).
Proof.
  intros Hinv Hw Hseq Hwf E. pose proof Hw as [Wl Ws Wi Wp].
  destruct (receive_cases _ _ _ _ _ _ _ Hinv Hwf E)
    as [(e & -> & ->)|(p & l & -> & Hl & Hauth & ->)]; [done|].
  apply receive_Ok_mid in E. split.
  - split.
    + intros s. rewrite (commit_last_seq _ _ _ _ _ Hl). unfold max_seq.
      destruct (last_seq ch) as [x|] eqn:Hx; intros [= <-]; [|done].
      specialize (Wl x eq_refl). lia.
    + unfold commit. by destruct (next_ratchet_key l).
    + intros s m Hin.
      assert (Hin' : is_Some (entries (check_and_insert t (anti_replay ch) seq mid).2 !! (s, m)))
        by (unfold commit in Hin; by destruct (next_ratchet_key l)).
      apply check_and_insert_entries in Hin' as [[= -> ->]|Hin']; [done|by eapply Wi|apply Hinv].
    + by rewrite commit_n_paths.
  - apply authenticate_Ok in Hauth as (env & nonce & fl & pad & ct & tag & _ & _ & Hp & _);
      [done|by eapply target_key_wf|done].
Qed.

Lemma step_typed n w e w' :
  w_inv w → widths n (w_chan w) → args_typed e → step w e w' →
  widths n (w_chan w') ∧ result_typed n e.
Proof.
  unfold w_inv. intros Hinv Hw Ha Hs.
  destruct Hs as [ch r t payload mid res ch' r' E|ch r t now envs seq mid res ch' Ht Hwf E];
    cbn [w_chan w_now args_typed] in *.
  - eapply send_typed; [apply Hinv|done|done].
  - eapply receive_typed; [by eapply chan_inv_mono|done..].
Qed.

Lemma steps_typed n w es w' :
  w_inv w → widths n (w_chan w) → Forall args_typed es → steps w es w' →
  widths n (w_chan w') ∧ Forall (result_typed n) es.
Proof.
  intros Hinv Hw Ha Hs. induction Hs as [w|w e w1 es w2 Hstep _ IH]; [done|].
  apply Forall_cons in Ha as [He Ha].
  destruct (step_typed _ _ _ _ Hinv Hw He Hstep) as [Hw1 Hr].
  destruct (IH (step_inv _ _ _ Hinv Hstep) Hw1 Ha) as [? ?]. split; [done|by constructor].
Qed.

Lemma widths_new root n : widths n (SecureChannel_new root n).
Proof. split; cbn; [done..| |done]. intros s m. rewrite lookup_empty. by intros [? ?]. Qed.

(** C19. Types are preserved.  In every execution whose sequence numbers are [u64]
    values, with any other arguments: the channel keeps its number of paths,
    its counters and the numbers under which keys and replay entries are stored
    stay in [u64], all keys stay arrays of 32 bytes, and no recorded message id
    is longer than 256 bytes; a successful [send] returns one 1024-byte array
    per path and a successful [receive] at most 992 bytes; [receive] never
    panics, and [send] only where the build checks overflow or the output
    exceeds the allocator's limit. *)
Theorem channel_types root n r t es w :
  len (RootKey_0 root) = 32 → Forall args_typed es →
  steps {| w_chan := SecureChannel_new root n; w_rng := r; w_now := t |} es w →
  chan_typed (w_chan w) ∧ n_paths (w_chan w) = n ∧ Forall (result_typed n) es.
Proof.
  intros Hr Ha Hs. pose proof (start_inv root n r t Hr) as Hinv.
  destruct (steps_typed n _ _ _ Hinv (widths_new root n) Ha Hs) as [Hw Hres].
  split; [|split; [apply Hw|done]]. eapply widths_typed; [by eapply steps_inv|done].
Qed.

(** ** The keys in a receiver's state *)

(** A ratchet key that the state contains. *)
Definition holds_key (ch : SecureChannel) (k : RatchetKey) : Prop :=
  k = current_key ch ∨ ∃ s, skipped_keys ch !! s = Some k.

(** A key that whoever reads the state computes with at most [horizon] steps of
    the ratchet, which everybody can do. *)
Definition computable (ch : SecureChannel) (horizon : N) (k : RatchetKey) : Prop :=
  ∃ k0 m, holds_key ch k0 ∧ m <= horizon ∧ k = advance m k0.

(** No two of the first keys of the chain are equal. *)
Definition chain_distinct (root : RootKey) (bound : N) : Prop :=
  ∀ i j, i <= bound → j <= bound → chain root i = chain root j → i = j.

(** The numbers whose keys a receiver's state contains: the next new one and
    the ones it still waits for. *)
Definition held_number (ch : SecureChannel) (s : N) : Prop :=
  s = first_new ch ∨ is_Some (skipped_keys ch !! s).

Lemma holds_key_number root ch k :
  on_chain (RatchetKey_new (RootKey_0 root)) ch →
  holds_key ch k ↔ ∃ s, held_number ch s ∧ k = chain root s.
Proof.
  intros [Hcur Hsk]. split.
  - intros [->|[s Hs]]; [exists (first_new ch); split; [by left|done]|].
    exists s. split; [right; by eexists|by apply Hsk].
  - intros (s & [->|[k' Hk']] & ->); [by left|right]. exists s. rewrite Hk'. f_equal.
    by apply Hsk.
Qed.

Lemma held_number_le t ch s : chan_inv t ch → held_number ch s → s <= first_new ch.
Proof.
  intros Hinv [->|[k Hk]]; [done|]. apply (ci_skipped _ _ Hinv) in Hk as [_ ?]. lia.
Qed.

Lemma computable_iff root t ch horizon j :
  chan_inv t ch → on_chain (RatchetKey_new (RootKey_0 root)) ch →
  chain_distinct root (first_new ch + horizon) → j <= horizon →
  computable ch horizon (chain root j) ↔ ∃ s, held_number ch s ∧ s <= j.
Proof.
  intros Hinv Hc Hd Hj. split.
  - intros (k0 & m & (s & Hs & ->)%(holds_key_number root) & Hm & E); [|done].
    exists s. split; [done|]. pose proof (held_number_le _ _ _ Hinv Hs).
    unfold chain in E. rewrite <-advance_add in E. apply Hd in E; [lia|lia|lia].
  - intros (s & Hs & Hle). exists (chain root s), (j - s). split; [|split; [lia|]].
    + apply (holds_key_number root); [done|]. by exists s.
    + unfold chain. rewrite <-advance_add. f_equal. lia.
Qed.

Lemma receive_all_reached root n t calls :
  len (RootKey_0 root) = 32 → calls_ok t calls →
  ∃ t', chan_inv t' (receive_all calls (SecureChannel_new root n)).2
    ∧ on_chain (RatchetKey_new (RootKey_0 root)) (receive_all calls (SecureChannel_new root n)).2.
Proof.
  intros Hr Hok.
  pose proof (receive_all_refines (RatchetKey_new (RootKey_0 root)) t calls (SecureChannel_new root n)
    _ (chan_inv_new t root n Hr) (represents_abs _ _ (on_chain_new root n)) Hok) as R.
  destruct (receive_all _ _) as [rs ch]. destruct R as (st & _ & [_ _ Hc] & t' & Hinv).
  exists t'. by split.
Qed.

(** C10. What a compromised receiver reveals.  After any sequence of [receive] calls
    the state contains exactly the chain keys of the next new number and of the
    pending (skipped) ones, so the key of a consumed number is not stored; but
    the stored keys are keys of the chain itself, and the ratchet runs forward.
    As long as the chain does not repeat, a key of the chain can be computed
    from the state exactly if it is not before all stored ones: with nothing
    pending no key of an earlier number can, and with a pending number [s] the
    keys of all later numbers can, those of the consumed messages included. *)
Theorem compromised_receiver_keys root n t calls horizon j :
  len (RootKey_0 root) = 32 → calls_ok t calls →
  let ch := (receive_all calls (SecureChannel_new root n)).2 in
  chain_distinct root (first_new ch + horizon) → j <= horizon →
  (∀ k, holds_key ch k ↔ ∃ s, held_number ch s ∧ k = chain root s)
  ∧ (consumed ch j → ¬ holds_key ch (chain root j))
  ∧ (computable ch horizon (chain root j) ↔ ∃ s, held_number ch s ∧ s <= j)
  ∧ (skipped_keys ch = ∅ → j < first_new ch → ¬ computable ch horizon (chain root j))
  ∧ (∀ s, is_Some (skipped_keys ch !! s) → s < j → consumed ch j →
       computable ch horizon (chain root j)).
Proof.
  intros Hr Hok ch Hd Hj.
  destruct (receive_all_reached root n t calls Hr Hok) as (t' & Hinv & Hc). fold ch in Hinv, Hc.
  pose proof (computable_iff root t' ch horizon j Hinv Hc Hd Hj) as Hiff.
  split; [intros k; by apply holds_key_number|]. split; [|split; [done|split]].
  - intros [Hlt Hn] (s & Hs & E)%(holds_key_number root); [|done].
    pose proof (held_number_le _ _ _ Hinv Hs).
    apply Hd in E as <-; [|lia|lia]. destruct Hs as [->|[k Hk]]; [lia|congruence].
  - intros He Hlt (s & [->|[k Hk]] & Hle)%Hiff; [lia|]. by rewrite He, lookup_empty in Hk.
  - intros s Hs Hlt _. apply Hiff. exists s. split; [by right|lia].
Qed.
End channel_history.
