(* ===== verification/Ffi.v ===== *)
(** * The C interface ([src/ffi.rs])

    The nine exported functions as calls on the state a C caller shares with
    the library: its byte buffers, its [size_t] and handle variables, the boxes
    the library has handed out, and the random source.

    - An address is a number and 0 is null.  Byte buffers, [size_t] objects,
      handle variables and boxes are objects of different types, so each kind
      has a map of its own; an address that is not in the map is not a valid
      object of that kind, and using it is undefined behaviour.
    - The allocator gives every box a new address.  A box that was taken back
      by [Box::from_raw] is gone from its map: using its handle again is
      undefined behaviour, as in the source.
    - [catch_unwind] turns a panic into [DECOYPATH_ERR_PANIC]; the writes made
      before the panic stay.  Failure of the allocator aborts the process and
      is not modelled. *)

From S2P Require Import Prelude Outcome Primitives Errors Types Crypto Handshake PathEngine Envelope AntiReplay BTree Channel.

Definition MAX_N_PATHS : N := 64.

Definition DECOYPATH_OK : Z := 0.
Definition DECOYPATH_ERR_NULL_POINTER : Z := -1.
Definition DECOYPATH_ERR_INVALID_PAYLOAD : Z := -2.
Definition DECOYPATH_ERR_AUTHENTICATION_FAILED : Z := -3.
Definition DECOYPATH_ERR_CRYPTO_FAILURE : Z := -4.
Definition DECOYPATH_ERR_BUFFER_TOO_SMALL : Z := -5.
Definition DECOYPATH_ERR_INVALID_SEQUENCE : Z := -6.
Definition DECOYPATH_ERR_REPLAYED_SEQUENCE : Z := -7.
Definition DECOYPATH_ERR_SKIPPED_KEY_EXPIRED : Z := -8.
Definition DECOYPATH_ERR_INVALID_MESSAGE_ID : Z := -9.
Definition DECOYPATH_ERR_PANIC : Z := -99.

(** How a body ends before its last expression. *)
Inductive exit :=
| Return (code : Z)
| Undefined.

(** What the caller sees. *)
Inductive answer (A : Type) :=
| Returned (a : A)
| UB.
Arguments Returned {A} a.
Arguments UB {A}.

Definition is_null (p : N) : bool := p =? 0.

(** ** Memory *)

Abbreviation memory := (gmap N Byte.byte) (only parsing).

(** [slice::from_raw_parts(p, n)]. *)
Fixpoint mem_read (n : nat) (p : N) (m : memory) : option bytes :=
  match n with
  | O => Some []
  | S n => b ← m !! p; bs ← mem_read n (p + 1) m; Some (b :: bs)
  end.

(** A store to memory that is known to be valid. *)
Fixpoint mem_write (p : N) (bs : bytes) (m : memory) : memory :=
  match bs with
  | [] => m
  | b :: bs => mem_write (p + 1) bs (<[p := b]> m)
  end.

Definition ranges_disjoint (p q n : N) : bool := (p + n <=? q) || (q + n <=? p).

Section ffi.
Context `{BuildProfile} `{Ed25519} `{!X25519} `{Hashes} `{Aead} `{Zeroize}.

Record ffi_state := {
  mem : memory;
  sizes : gmap N N;                     (* [usize] variables of the caller *)
  handles : gmap N N;                   (* handle variables of the caller *)
  initiators : gmap N InitiatorState;   (* live [DecoypathInitiatorState] boxes *)
  channels : gmap N SecureChannel;      (* live [DecoypathChannel] boxes *)
  next_box : N;
  os : rng;
}.

#[local] Abbreviation F := (M ffi_state exit).

Definition set_mem (m : memory) (s : ffi_state) : ffi_state :=
  {| mem := m; sizes := sizes s; handles := handles s; initiators := initiators s;
     channels := channels s; next_box := next_box s; os := os s |}.
Definition set_sizes (z : gmap N N) (s : ffi_state) : ffi_state :=
  {| mem := mem s; sizes := z; handles := handles s; initiators := initiators s;
     channels := channels s; next_box := next_box s; os := os s |}.
Definition set_handles (h : gmap N N) (s : ffi_state) : ffi_state :=
  {| mem := mem s; sizes := sizes s; handles := h; initiators := initiators s;
     channels := channels s; next_box := next_box s; os := os s |}.
Definition set_initiators (i : gmap N InitiatorState) (s : ffi_state) : ffi_state :=
  {| mem := mem s; sizes := sizes s; handles := handles s; initiators := i;
     channels := channels s; next_box := next_box s; os := os s |}.
Definition set_channels (c : gmap N SecureChannel) (s : ffi_state) : ffi_state :=
  {| mem := mem s; sizes := sizes s; handles := handles s; initiators := initiators s;
     channels := c; next_box := next_box s; os := os s |}.
Definition set_next_box (n : N) (s : ffi_state) : ffi_state :=
  {| mem := mem s; sizes := sizes s; handles := handles s; initiators := initiators s;
     channels := channels s; next_box := n; os := os s |}.
Definition set_os (r : rng) (s : ffi_state) : ffi_state :=
  {| mem := mem s; sizes := sizes s; handles := handles s; initiators := initiators s;
     channels := channels s; next_box := next_box s; os := r |}.

Definition return_code {A} (code : Z) : F A := throw (Return code).
Definition undefined {A} : F A := throw Undefined.

(** A value that must exist, or the behaviour is undefined. *)
Definition defined {A} (o : option A) : F A := lift_o (o_ok_or Undefined o).

Definition read_slice (p n : N) : F bytes :=
  s ← get_state; defined (mem_read (N.to_nat n) p (mem s)).

(** [slice::from_raw_parts_mut(p, n).copy_from_slice(bs)]. *)
Definition write_slice (p n : N) (bs : bytes) : F unit :=
  _ ← read_slice p n;
  if len bs =? n then modify_state (λ s, set_mem (mem_write p bs (mem s)) s)
  else lift_o Panic.

Definition read_size (p : N) : F N := s ← get_state; defined (sizes s !! p).
Definition write_size (p v : N) : F unit :=
  _ ← read_size p; modify_state (λ s, set_sizes (<[p := v]> (sizes s)) s).
Definition write_handle (p v : N) : F unit :=
  s ← get_state;
  _ ← defined (handles s !! p);
  modify_state (λ s, set_handles (<[p := v]> (handles s)) s).

(** [Box::into_raw(Box::new(x))]. *)
Definition box_initiator (x : InitiatorState) : F N :=
  s ← get_state;
  _ ← put_state (set_next_box (next_box s + 1)
                   (set_initiators (<[next_box s := x]> (initiators s)) s));
  mret (next_box s).
Definition box_channel (x : SecureChannel) : F N :=
  s ← get_state;
  _ ← put_state (set_next_box (next_box s + 1) (set_channels (<[next_box s := x]> (channels s)) s));
  mret (next_box s).

(** [Box::from_raw(p)]; the box is freed at the end of the body, whichever
    way it ends. *)
Definition take_initiator (p : N) : F InitiatorState :=
  s ← get_state;
  x ← defined (initiators s !! p);
  _ ← put_state (set_initiators (delete p (initiators s)) s);
  mret x.
Definition take_channel (p : N) : F SecureChannel :=
  s ← get_state;
  x ← defined (channels s !! p);
  _ ← put_state (set_channels (delete p (channels s)) s);
  mret x.

(** [slice.try_into()] at [[u8; 32]]. *)
Definition try_into_32 (bs : bytes) : F bytes :=
  if len bs =? 32 then mret bs else return_code DECOYPATH_ERR_INVALID_PAYLOAD.

Definition infallible (e : Empty_set) : Z := match e with end.

(** A call that draws random bytes; [code] is the code of its errors. *)
Definition on_os {E A} (code : E → Z) (m : M rng E A) : F A :=
  zoom os set_os (map_err (λ e, Return (code e)) m).

(** [let channel_ref = &mut channel.0] through a raw pointer. *)
Definition deref_channel (p : N) : F unit :=
  s ← get_state; _ ← defined (channels s !! p); mret tt.

(** A method call through such a reference; its effect on the channel stays
    when it returns an error or panics. *)
Definition on_channel {A} (p : N) (code : ChannelError → Z)
    (m : M (SecureChannel * rng) ChannelError A) : F A :=
  s ← get_state;
  ch ← defined (channels s !! p);
  let '(r, (ch', r')) := m (ch, os s) in
  _ ← put_state (set_os r' (set_channels (<[p := ch']> (channels s)) s));
  lift_o (o_map_err (λ e, Return (code e)) r).

(** [let result = catch_unwind(body); result.unwrap_or(DECOYPATH_ERR_PANIC)]. *)
Definition catch_unwind (body : F Z) (s : ffi_state) : answer Z * ffi_state :=
  let '(r, s') := body s in
  (match r with
   | Ok code | Err (Return code) => Returned code
   | Err Undefined => UB
   | Panic => Returned DECOYPATH_ERR_PANIC
   end, s').

(** [let _ = catch_unwind(body);] *)
Definition catch_unwind_unit (body : F unit) (s : ffi_state) : answer unit * ffi_state :=
  let '(r, s') := body s in
  (match r with Err Undefined => UB | _ => Returned tt end, s').

(** ** The exported functions *)

Definition decoypath_abi_version (s : ffi_state) : answer Z * ffi_state := (Returned 1%Z, s).

Definition decoypath_generate_identity_keypair (out_priv out_pub : N)
    : ffi_state → answer Z * ffi_state :=
  catch_unwind (
    if is_null out_priv || is_null out_pub then return_code DECOYPATH_ERR_NULL_POINTER else
    '(priv_key, pub_key) ← on_os infallible generate_identity_keypair;
    _ ← read_slice out_priv 32;
    _ ← read_slice out_pub 32;
    (* two live [&mut] slices must not overlap *)
    if negb (ranges_disjoint out_priv out_pub 32) then undefined else
    _ ← write_slice out_priv 32 (SigningKey_to_bytes (IdentityPrivateKey_0 priv_key));
    _ ← write_slice out_pub 32 (VerifyingKey_as_bytes pub_key);
    mret DECOYPATH_OK).

Definition decoypath_initiator_initiate
    (init_priv resp_pub out_state out_payload out_payload_len : N)
    : ffi_state → answer Z * ffi_state :=
  catch_unwind (
    if is_null init_priv || is_null resp_pub || is_null out_state || is_null out_payload
       || is_null out_payload_len
    then return_code DECOYPATH_ERR_NULL_POINTER else
    capacity ← read_size out_payload_len;
    if capacity <? INIT_PAYLOAD_LEN then
      _ ← write_size out_payload_len INIT_PAYLOAD_LEN;
      return_code DECOYPATH_ERR_BUFFER_TOO_SMALL
    else
    priv_slice ← read_slice init_priv 32;
    priv_bytes ← try_into_32 priv_slice;
    pub_slice ← read_slice resp_pub 32;
    pub_bytes ← try_into_32 pub_slice;
    let priv_key := IdentityPrivateKey_new priv_bytes in
    pub_key ← lift_o (o_ok_or (Return DECOYPATH_ERR_INVALID_PAYLOAD)
                (VerifyingKey_from_bytes pub_bytes));
    '(state, payload) ← on_os infallible (initiate priv_key pub_key);
    payload_bytes ← unwrap (HandshakeInitPayload_to_bytes payload);
    _ ← write_slice out_payload INIT_PAYLOAD_LEN payload_bytes;
    _ ← write_size out_payload_len INIT_PAYLOAD_LEN;
    state_box ← box_initiator state;
    _ ← write_handle out_state state_box;
    mret DECOYPATH_OK).

Definition decoypath_responder_respond
    (resp_priv expected_init_pub init_payload init_payload_len out_payload out_payload_len
     out_channel n_paths : N) : ffi_state → answer Z * ffi_state :=
  catch_unwind (
    if is_null resp_priv || is_null init_payload || is_null out_payload
       || is_null out_payload_len || is_null out_channel
    then return_code DECOYPATH_ERR_NULL_POINTER else
    if negb (init_payload_len =? INIT_PAYLOAD_LEN)
    then return_code DECOYPATH_ERR_INVALID_PAYLOAD else
    capacity ← read_size out_payload_len;
    if capacity <? RESP_PAYLOAD_LEN then
      _ ← write_size out_payload_len RESP_PAYLOAD_LEN;
      return_code DECOYPATH_ERR_BUFFER_TOO_SMALL
    else
    if (n_paths =? 0) || (MAX_N_PATHS <? n_paths)
    then return_code DECOYPATH_ERR_INVALID_PAYLOAD else
    priv_slice ← read_slice resp_priv 32;
    priv_bytes ← try_into_32 priv_slice;
    let priv_key := IdentityPrivateKey_new priv_bytes in
    expected_pub ← (if negb (is_null expected_init_pub) then
                      slice ← read_slice expected_init_pub 32;
                      bytes ← try_into_32 slice;
                      vk ← lift_o (o_ok_or (Return DECOYPATH_ERR_INVALID_PAYLOAD)
                             (VerifyingKey_from_bytes bytes));
                      mret (Some vk)
                    else mret None : F (option VerifyingKey));
    init_payload_slice ← read_slice init_payload INIT_PAYLOAD_LEN;
    init_payload_struct ← lift_o (o_map_err (λ _, Return DECOYPATH_ERR_INVALID_PAYLOAD)
                            (HandshakeInitPayload_from_bytes init_payload_slice));
    '(resp_payload, root_key) ← on_os (λ _, DECOYPATH_ERR_AUTHENTICATION_FAILED)
                                  (respond priv_key expected_pub init_payload_struct);
    payload_bytes ← unwrap (HandshakeResponsePayload_to_bytes resp_payload);
    _ ← write_slice out_payload RESP_PAYLOAD_LEN payload_bytes;
    _ ← write_size out_payload_len RESP_PAYLOAD_LEN;
    let channel := SecureChannel_new root_key n_paths in
    channel_box ← box_channel channel;
    _ ← write_handle out_channel channel_box;
    mret DECOYPATH_OK).

Definition decoypath_initiator_finalize
    (state resp_payload resp_payload_len out_channel n_paths : N)
    : ffi_state → answer Z * ffi_state :=
  catch_unwind (
    if is_null state || is_null resp_payload || is_null out_channel
    then return_code DECOYPATH_ERR_NULL_POINTER else
    state_box ← take_initiator state;
    if negb (resp_payload_len =? RESP_PAYLOAD_LEN)
    then return_code DECOYPATH_ERR_INVALID_PAYLOAD else
    if (n_paths =? 0) || (MAX_N_PATHS <? n_paths)
    then return_code DECOYPATH_ERR_INVALID_PAYLOAD else
    resp_payload_slice ← read_slice resp_payload RESP_PAYLOAD_LEN;
    resp_payload_struct ← lift_o (o_map_err (λ _, Return DECOYPATH_ERR_INVALID_PAYLOAD)
                            (HandshakeResponsePayload_from_bytes resp_payload_slice));
    root_key ← lift_o (o_map_err (λ _, Return DECOYPATH_ERR_AUTHENTICATION_FAILED)
                 (finalize state_box resp_payload_struct));
    let channel := SecureChannel_new root_key n_paths in
    channel_box ← box_channel channel;
    _ ← write_handle out_channel channel_box;
    mret DECOYPATH_OK).

Definition send_error_code (e : ChannelError) : Z :=
  match e with
  | InvalidMessageId => DECOYPATH_ERR_INVALID_MESSAGE_ID
  | InvalidSequence => DECOYPATH_ERR_INVALID_SEQUENCE
  | _ => DECOYPATH_ERR_CRYPTO_FAILURE
  end.

(** [for (i, env) in envelopes.iter().enumerate()] of the copy into
    [out_slice], which starts at [p] and has [required_len] bytes. *)
Fixpoint copy_envelopes (p required_len i : N) (envelopes : list bytes) : F unit :=
  match envelopes with
  | [] => mret tt
  | env :: envelopes =>
      let start := i * ENVELOPE_TOTAL_LEN in
      if required_len <? start + ENVELOPE_TOTAL_LEN then lift_o Panic else
      _ ← write_slice (p + start) ENVELOPE_TOTAL_LEN env;
      copy_envelopes p required_len (i + 1) envelopes
  end.

Definition decoypath_channel_send
    (channel payload payload_len message_id message_id_len out_envelopes out_envelopes_len : N)
    : ffi_state → answer Z * ffi_state :=
  catch_unwind (
    if is_null channel || is_null payload || is_null message_id || is_null out_envelopes
       || is_null out_envelopes_len
    then return_code DECOYPATH_ERR_NULL_POINTER else
    if MAX_PAYLOAD_SIZE <? payload_len then return_code DECOYPATH_ERR_INVALID_PAYLOAD else
    if MAX_MESSAGE_ID_LEN <? message_id_len
    then return_code DECOYPATH_ERR_INVALID_MESSAGE_ID else
    _ ← deref_channel channel;
    payload_slice ← read_slice payload payload_len;
    msg_id_slice ← read_slice message_id message_id_len;
    envelopes ← on_channel channel send_error_code (send payload_slice msg_id_slice);
    let required_len := len envelopes * ENVELOPE_TOTAL_LEN in
    capacity ← read_size out_envelopes_len;
    if capacity <? required_len then
      _ ← write_size out_envelopes_len required_len;
      return_code DECOYPATH_ERR_BUFFER_TOO_SMALL
    else
    _ ← read_slice out_envelopes required_len;
    _ ← copy_envelopes out_envelopes required_len 0 envelopes;
    _ ← write_size out_envelopes_len required_len;
    mret DECOYPATH_OK).

Definition receive_error_code (e : ChannelError) : Z :=
  match e with
  | ReplayedSequence => DECOYPATH_ERR_REPLAYED_SEQUENCE
  | SkippedKeyExpired => DECOYPATH_ERR_SKIPPED_KEY_EXPIRED
  | InvalidSequence => DECOYPATH_ERR_INVALID_SEQUENCE
  | InvalidMessageId => DECOYPATH_ERR_INVALID_MESSAGE_ID
  | AuthenticationFailed => DECOYPATH_ERR_AUTHENTICATION_FAILED
  | _ => DECOYPATH_ERR_CRYPTO_FAILURE
  end.

(** [for i in 0..n_paths] of the split of the raw buffer into [envelope_vec];
    [None] is the panic of an out-of-range slice. *)
Fixpoint split_envelopes (count : nat) (i : N) (raw : bytes) : option (list bytes) :=
  match count with
  | O => Some []
  | S count =>
      let start := i * ENVELOPE_TOTAL_LEN in
      env ← slice start (start + ENVELOPE_TOTAL_LEN) raw;
      envelope_vec ← split_envelopes count (i + 1) raw;
      Some (env :: envelope_vec)
  end.

(** [receive] on the channel part of the state. *)
Definition receive_method (now : N) (envelopes : list bytes) (seq : N) (message_id : bytes)
    : M (SecureChannel * rng) ChannelError bytes :=
  zoom fst (λ ch s, (ch, s.2)) (receive now envelopes seq message_id).

Definition decoypath_channel_receive (now : N)
    (channel envelopes envelopes_len seq message_id message_id_len out_payload out_payload_len : N)
    : ffi_state → answer Z * ffi_state :=
  catch_unwind (
    if is_null channel || is_null envelopes || is_null message_id || is_null out_payload
       || is_null out_payload_len
    then return_code DECOYPATH_ERR_NULL_POINTER else
    if MAX_MESSAGE_ID_LEN <? message_id_len
    then return_code DECOYPATH_ERR_INVALID_MESSAGE_ID else
    if (envelopes_len =? 0) || negb (envelopes_len mod ENVELOPE_TOTAL_LEN =? 0)
       || (MAX_N_PATHS * ENVELOPE_TOTAL_LEN <? envelopes_len)
    then return_code DECOYPATH_ERR_INVALID_PAYLOAD else
    let n_paths := envelopes_len / ENVELOPE_TOTAL_LEN in
    env_raw_slice ← read_slice envelopes envelopes_len;
    envelope_vec ← unwrap (split_envelopes (N.to_nat n_paths) 0 env_raw_slice);
    _ ← deref_channel channel;
    msg_id_slice ← read_slice message_id message_id_len;
    decrypted ← on_channel channel receive_error_code
                  (receive_method now envelope_vec seq msg_id_slice);
    capacity ← read_size out_payload_len;
    if capacity <? len decrypted then
      _ ← write_size out_payload_len (len decrypted);
      return_code DECOYPATH_ERR_BUFFER_TOO_SMALL
    else
    _ ← write_slice out_payload (len decrypted) decrypted;
    _ ← write_size out_payload_len (len decrypted);
    mret DECOYPATH_OK).

Definition decoypath_initiator_state_free (state : N) : ffi_state → answer unit * ffi_state :=
  catch_unwind_unit (
    if negb (is_null state) then _ ← take_initiator state; mret tt else mret tt).

Definition decoypath_channel_free (channel : N) : ffi_state → answer unit * ffi_state :=
  catch_unwind_unit (
    if negb (is_null channel) then _ ← take_channel channel; mret tt else mret tt).
End ffi.
