(* ===== verification/FfiLogic.v ===== *)
(** * Reasoning about the C interface: memory lemmas and a small program logic

    [wp body Q J s]: started in [s], the body neither panics nor is undefined;
    if it runs to its end [Q] holds of its value and the state, if it returns
    early [J] holds of the code and the state. *)

From S2P Require Import Prelude Outcome Primitives Errors Types Crypto Handshake PathEngine Envelope AntiReplay BTree Channel Ffi.

(** ** Memory *)

Definition mapped (p n : N) (m : memory) : Prop := ∀ i, i < n → is_Some (m !! (p + i)).

Lemma mem_read_Some n p m bs :
  mem_read n p m = Some bs ↔
    length bs = n ∧ ∀ i b, bs !! i = Some b → m !! (p + N.of_nat i) = Some b.
Proof.
  revert p bs. induction n as [|n IH]; intros p bs; cbn [mem_read].
  - split; [intros [= <-]; split; [done|intros i b]; by rewrite lookup_nil|].
    by intros [->%nil_length_inv _].
  - split.
    + destruct (m !! p) as [b|] eqn:Hb; [|done]. cbn [mbind option_bind].
      destruct (mem_read n (p + 1) m) as [bs'|] eqn:Hr; [|done]. cbn. intros [= <-].
      apply IH in Hr as [<- Hl]. split; [done|]. intros [|i] c; cbn.
      * intros [= <-]. by rewrite N.add_0_r.
      * intros Hc%Hl. rewrite <-Hc. f_equal. lia.
    + destruct bs as [|b bs]; [by intros [? _]|]. intros [[= Hl] Hi].
      pose proof (Hi 0%nat b eq_refl) as Hb. rewrite N.add_0_r in Hb. rewrite Hb. cbn [mbind option_bind].
      assert (mem_read n (p + 1) m = Some bs) as ->; [|done]. apply IH. split; [done|].
      intros i c Hc. rewrite <-(Hi (S i) c Hc). f_equal. lia.
Qed.

Lemma mem_read_mapped p n m :
  mapped p n m → ∃ bs, mem_read (N.to_nat n) p m = Some bs ∧ len bs = n.
Proof.
  unfold mapped. intros Hm.
  assert (∃ bs, mem_read (N.to_nat n) p m = Some bs) as [bs Hbs].
  { assert (Hm' : ∀ i, (i < N.to_nat n)%nat → is_Some (m !! (p + N.of_nat i))) by (intros; apply Hm; lia).
    clear Hm. revert p Hm'. induction (N.to_nat n) as [|k IH]; intros p Hm; cbn [mem_read]; [by eexists|].
    destruct (Hm 0%nat) as [b Hb]; [lia|]. rewrite N.add_0_r in Hb. rewrite Hb. cbn [mbind option_bind].
    destruct (IH (p + 1)) as [bs ->]; [|by eexists].
    intros i Hi. replace (p + 1 + N.of_nat i) with (p + N.of_nat (S i)) by lia. apply Hm. lia. }
  exists bs. split; [done|]. apply mem_read_Some in Hbs as [Hl _]. unfold len. lia.
Qed.

Lemma mem_read_len n p m bs : mem_read (N.to_nat n) p m = Some bs → len bs = n.
Proof. intros [Hl _]%mem_read_Some. unfold len. lia. Qed.

Lemma lookup_mem_write p bs m a :
  mem_write p bs m !! a =
    if decide (p <= a ∧ a < p + len bs) then bs !! N.to_nat (a - p) else m !! a.
Proof.
  revert p m. induction bs as [|b bs IH]; intros p m; cbn [mem_write].
  - by rewrite decide_False by (rewrite len_nil; lia).
  - rewrite IH, len_cons. destruct (decide (a = p)) as [->|Hne].
    + destruct (decide (p + 1 <= p ∧ p < p + 1 + len bs)); [lia|].
      by rewrite decide_True, lookup_insert_eq, N.sub_diag by lia.
    + rewrite lookup_insert_ne by done. destruct (decide (p + 1 <= a ∧ a < p + 1 + len bs)).
      * rewrite decide_True by lia. replace (N.to_nat (a - p)) with (S (N.to_nat (a - (p + 1)))) by lia.
        done.
      * by rewrite decide_False by lia.
Qed.

Lemma mem_read_write p bs m : mem_read (N.to_nat (len bs)) p (mem_write p bs m) = Some bs.
Proof.
  apply mem_read_Some. split; [by rewrite to_nat_len|]. intros i b Hb.
  pose proof (lookup_lt_Some _ _ _ Hb). rewrite lookup_mem_write, decide_True by (unfold len; lia).
  rewrite <-Hb. f_equal. lia.
Qed.

Lemma mem_read_write_disjoint n q p bs m :
  q + n <= p ∨ p + len bs <= q → mem_read (N.to_nat n) q (mem_write p bs m) = mem_read (N.to_nat n) q m.
Proof.
  intros Hd. assert (Hd' : q + N.of_nat (N.to_nat n) <= p ∨ p + len bs <= q) by lia. clear Hd.
  revert q Hd'. induction (N.to_nat n) as [|k IH]; intros q Hd; cbn [mem_read]; [done|].
  rewrite IH by lia. by rewrite lookup_mem_write, decide_False by lia.
Qed.

Lemma mem_write_app p a b m : mem_write p (a ++ b) m = mem_write (p + len a) b (mem_write p a m).
Proof.
  revert p m. induction a as [|x a IH]; intros p m; cbn [mem_write app].
  - by rewrite len_nil, N.add_0_r.
  - rewrite IH, len_cons. f_equal. lia.
Qed.

Lemma mapped_write p n q bs m : mapped p n m → mapped p n (mem_write q bs m).
Proof.
  intros Hm i Hi. rewrite lookup_mem_write. case_decide; [|by apply Hm].
  apply lookup_lt_is_Some. unfold len in *. lia.
Qed.

Lemma mapped_written p bs m : mapped p (len bs) (mem_write p bs m).
Proof.
  intros i Hi. rewrite lookup_mem_write, decide_True by lia. apply lookup_lt_is_Some. unfold len in *. lia.
Qed.

Lemma mapped_weaken p n n' m : mapped p n m → n' <= n → mapped p n' m.
Proof. intros Hm Hle i Hi. apply Hm. lia. Qed.

Lemma mapped_sub p n q k m : mapped p n m → p <= q → q + k <= p + n → mapped q k m.
Proof.
  intros Hm Hq Hk i Hi. replace (q + i) with (p + (q + i - p)) by lia. apply Hm. lia.
Qed.

(** A store to mapped memory maps nothing new. *)
Lemma dom_mem_write p bs m : mapped p (len bs) m → dom (mem_write p bs m) = dom m.
Proof.
  intros Hm. apply set_eq. intros a. rewrite !elem_of_dom, lookup_mem_write.
  case_decide as D; [|done]. split; intros _.
  - replace a with (p + (a - p)) by lia. apply Hm. lia.
  - apply lookup_lt_is_Some. unfold len in *. lia.
Qed.

(** ** The program logic *)

Section wp.
Context `{BuildProfile} `{Ed25519} `{!X25519} `{Hashes} `{Aead} `{Zeroize}.
Implicit Types s : ffi_state.
#[local] Abbreviation F := (M ffi_state exit).

(** Stores that change nothing. *)
Lemma set_os_same s : set_os (os s) s = s.
Proof. by destruct s. Qed.

Lemma set_channel_same s p ch :
  channels s !! p = Some ch → set_os (os s) (set_channels (<[p := ch]> (channels s)) s) = s.
Proof. intros Hp. destruct s; unfold set_os, set_channels; cbn in *. by rewrite insert_id. Qed.

Definition wp {A} (m : F A) (Q : A → ffi_state → Prop) (J : Z → ffi_state → Prop) s : Prop :=
  match m s with
  | (Ok a, s') => Q a s'
  | (Err (Return c), s') => J c s'
  | (Err Undefined, _) | (Panic, _) => False
  end.

Lemma wp_catch (m : F Z) R s :
  wp m R R s → ∃ c s', catch_unwind m s = (Returned c, s') ∧ R c s'.
Proof. unfold wp, catch_unwind. destruct (m s) as [[c|[c|]|] s']; try done; intros; by exists c, s'. Qed.

Lemma wp_catch_unit (m : F unit) (R : ffi_state → Prop) s :
  wp m (λ _, R) (λ _, R) s → ∃ s', catch_unwind_unit m s = (Returned tt, s') ∧ R s'.
Proof.
  unfold wp, catch_unwind_unit. destruct (m s) as [[[]|[c|]|] s']; try done; intros; by exists s'.
Qed.

Context {A : Type} (J : Z → ffi_state → Prop).

Lemma wp_bind {B} (f : A → F B) (m : F A) Q s :
  wp m (λ a s', wp (f a) Q J s') J s → wp (m ≫= f) Q J s.
Proof. unfold wp. rewrite (bind_run f m s). by destruct (m s) as [[a|[c|]|] s']. Qed.

Lemma wp_mono (m : F A) (Q Q' : A → ffi_state → Prop) s :
  wp m Q J s → (∀ a s', Q a s' → Q' a s') → wp m Q' J s.
Proof. unfold wp. destruct (m s) as [[a|[c|]|] s']; auto. Qed.

Lemma wp_ret (a : A) Q s : Q a s → wp (mret a) Q J s.
Proof. done. Qed.

Lemma wp_return_code c (Q : A → ffi_state → Prop) s : J c s → wp (return_code c) Q J s.
Proof. done. Qed.

Lemma wp_lift (o : outcome exit A) Q s :
  match o with Ok a => Q a s | Err (Return c) => J c s | _ => False end → wp (lift_o o) Q J s.
Proof. unfold wp. rewrite lift_run. by destruct o as [a|[c|]|]. Qed.

Lemma wp_unwrap (o : option A) a Q s : o = Some a → Q a s → wp (unwrap o) Q J s.
Proof. by intros ->. Qed.

Lemma wp_on_os {E} (code : E → Z) (m : M rng E A) Q s :
  match m (os s) with
  | (Ok a, r) => Q a (set_os r s)
  | (Err e, r) => J (code e) (set_os r s)
  | (Panic, _) => False
  end → wp (on_os code m) Q J s.
Proof.
  unfold wp, on_os. rewrite zoom_run, map_err_run. by destruct (m (os s)) as [[a|e|] r].
Qed.

Lemma wp_on_channel p ch (code : ChannelError → Z) (m : M (SecureChannel * rng) ChannelError A) Q s :
  channels s !! p = Some ch →
  match m (ch, os s) with
  | (Ok a, (ch', r)) => Q a (set_os r (set_channels (<[p := ch']> (channels s)) s))
  | (Err e, (ch', r)) => J (code e) (set_os r (set_channels (<[p := ch']> (channels s)) s))
  | (Panic, _) => False
  end → wp (on_channel p code m) Q J s.
Proof.
  intros Hp. unfold wp, on_channel, defined. rewrite bind_run, get_run, bind_run, lift_run, Hp.
  cbn [o_ok_or]. by destruct (m (ch, os s)) as [[a|e|] [ch' r]].
Qed.
End wp.

Section wp_ops.
Context `{BuildProfile} `{Ed25519} `{!X25519} `{Hashes} `{Aead} `{Zeroize}.
Context (J : Z → ffi_state → Prop).
Implicit Types s : ffi_state.

Lemma wp_read_slice p n bs Q s :
  mem_read (N.to_nat n) p (mem s) = Some bs → Q bs s → wp (read_slice p n) Q J s.
Proof. intros Hr HQ. unfold wp, read_slice. by rewrite bind_run, get_run, Hr. Qed.

Lemma wp_write_slice p n bs (Q : unit → ffi_state → Prop) s :
  mapped p n (mem s) → len bs = n → Q tt (set_mem (mem_write p bs (mem s)) s) →
  wp (write_slice p n bs) Q J s.
Proof.
  intros Hm <- HQ. destruct (mem_read_mapped _ _ _ Hm) as (old & Hr & _).
  unfold write_slice. apply wp_bind. eapply wp_read_slice; [exact Hr|].
  by rewrite N.eqb_refl.
Qed.

Lemma wp_read_size p v Q s : sizes s !! p = Some v → Q v s → wp (read_size p) Q J s.
Proof. intros Hv HQ. unfold wp, read_size. by rewrite bind_run, get_run, Hv. Qed.

Lemma wp_write_size p w v (Q : unit → ffi_state → Prop) s :
  sizes s !! p = Some w → Q tt (set_sizes (<[p := v]> (sizes s)) s) → wp (write_size p v) Q J s.
Proof. intros Hv HQ. unfold write_size. apply wp_bind. by eapply wp_read_size. Qed.

Lemma wp_write_handle p w v (Q : unit → ffi_state → Prop) s :
  handles s !! p = Some w → Q tt (set_handles (<[p := v]> (handles s)) s) →
  wp (write_handle p v) Q J s.
Proof. intros Hv HQ. unfold wp, write_handle. by rewrite bind_run, get_run, bind_run, Hv. Qed.

Lemma wp_box_initiator x Q s :
  Q (next_box s) (set_next_box (next_box s + 1)
                    (set_initiators (<[next_box s := x]> (initiators s)) s)) →
  wp (box_initiator x) Q J s.
Proof. done. Qed.

Lemma wp_box_channel x Q s :
  Q (next_box s) (set_next_box (next_box s + 1) (set_channels (<[next_box s := x]> (channels s)) s)) →
  wp (box_channel x) Q J s.
Proof. done. Qed.

Lemma wp_take_initiator p x Q s :
  initiators s !! p = Some x → Q x (set_initiators (delete p (initiators s)) s) →
  wp (take_initiator p) Q J s.
Proof. intros Hp HQ. unfold wp, take_initiator. by rewrite bind_run, get_run, bind_run, Hp. Qed.

Lemma wp_take_channel p x Q s :
  channels s !! p = Some x → Q x (set_channels (delete p (channels s)) s) →
  wp (take_channel p) Q J s.
Proof. intros Hp HQ. unfold wp, take_channel. by rewrite bind_run, get_run, bind_run, Hp. Qed.

Lemma wp_deref_channel p x (Q : unit → ffi_state → Prop) s :
  channels s !! p = Some x → Q tt s → wp (deref_channel p) Q J s.
Proof. intros Hp HQ. unfold wp, deref_channel. by rewrite bind_run, get_run, bind_run, Hp. Qed.

Lemma wp_try_into_32 bs Q s : len bs = 32 → Q bs s → wp (try_into_32 bs) Q J s.
Proof. intros Hl HQ. unfold try_into_32. by rewrite Hl. Qed.

(** The copy loop writes the concatenation of the envelopes. *)
Lemma wp_copy_envelopes p req i envs (Q : unit → ffi_state → Prop) s :
  Forall (λ e, len e = ENVELOPE_TOTAL_LEN) envs → (i + len envs) * ENVELOPE_TOTAL_LEN <= req →
  mapped p req (mem s) →
  Q tt (set_mem (mem_write (p + i * ENVELOPE_TOTAL_LEN) (concat envs) (mem s)) s) →
  wp (copy_envelopes p req i envs) Q J s.
Proof.
  intros Hwf. revert i s. induction Hwf as [|e envs He Hwf IH]; intros i s Hreq Hm HQ;
    cbn [copy_envelopes concat].
  { apply wp_ret. by destruct s. }
  rewrite len_cons in Hreq. destruct (N.ltb_spec req (i * ENVELOPE_TOTAL_LEN + ENVELOPE_TOTAL_LEN)); [lia|].
  apply wp_bind, wp_write_slice; [eapply mapped_sub; [done|lia|lia]|done|].
  apply IH; [lia|by apply mapped_write|]. cbn [mem set_mem].
  cbn [concat] in HQ. rewrite mem_write_app, He in HQ. 
  by replace (p + (i + 1) * ENVELOPE_TOTAL_LEN) with (p + i * ENVELOPE_TOTAL_LEN + ENVELOPE_TOTAL_LEN) by lia.
Qed.
Lemma receive_method_run now envelopes seq mid ch r :
  receive_method now envelopes seq mid (ch, r) =
    ((receive now envelopes seq mid ch).1, ((receive now envelopes seq mid ch).2, r)).
Proof. unfold receive_method. by rewrite zoom_run. Qed.
End wp_ops.

(** The split of the raw buffer inverts the copy loop, and gives 1024-byte
    envelopes for any buffer of the right length. *)
Lemma split_envelopes_concat i pre envs :
  Forall (λ e, len e = ENVELOPE_TOTAL_LEN) envs → len pre = i * ENVELOPE_TOTAL_LEN →
  split_envelopes (length envs) i (pre ++ concat envs) = Some envs.
Proof.
  intros Hwf. revert i pre. induction Hwf as [|e envs He Hwf IH]; intros i pre Hpre; [done|].
  cbn [split_envelopes length concat]. rewrite (slice_app _ _ pre e (concat envs)) by lia.
  cbn [mbind option_bind]. rewrite app_assoc, IH; [done|]. rewrite len_app. lia.
Qed.

Lemma chunks_exist k (raw : bytes) :
  len raw = N.of_nat k * ENVELOPE_TOTAL_LEN →
  ∃ envs, raw = concat envs ∧ length envs = k ∧ Forall (λ e, len e = ENVELOPE_TOTAL_LEN) envs.
Proof.
  revert raw. induction k as [|k IH]; intros raw Hl.
  - exists []. rewrite (len_zero_inv raw) by lia. done.
  - destruct (split_at_len ENVELOPE_TOTAL_LEN raw) as (e & rest & -> & He); [lia|].
    rewrite len_app in Hl. destruct (IH rest) as (envs & -> & <- & Hwf); [lia|].
    exists (e :: envs). split; [done|]. split; [done|]. by constructor.
Qed.

Lemma split_envelopes_total k (raw : bytes) :
  len raw = N.of_nat k * ENVELOPE_TOTAL_LEN →
  ∃ envs, split_envelopes k 0 raw = Some envs ∧ raw = concat envs ∧ length envs = k
    ∧ Forall (λ e, len e = ENVELOPE_TOTAL_LEN) envs.
Proof.
  intros (envs & -> & <- & Hwf)%chunks_exist. exists envs. split; [|done].
  by apply (split_envelopes_concat 0 []).
Qed.

Lemma len_concat (envs : list bytes) :
  Forall (λ e, len e = ENVELOPE_TOTAL_LEN) envs → len (concat envs) = len envs * ENVELOPE_TOTAL_LEN.
Proof. induction 1 as [|e envs He _ IH]; [done|]. cbn. rewrite len_app, len_cons. lia. Qed.
