(* ===== verification/FfiSafety.v ===== *)
(** * Safety of the C interface

    For a caller that keeps the documented contract (each pointer is null or
    points to enough memory, each handle is null or live) no exported function
    is undefined, none reports a caught panic, each returns one of its own
    codes, and the boxes stay well formed.  Along the same proofs: what a call
    may change at most, and what it has changed when it fails. *)

From S2P Require Import Prelude Outcome Primitives Errors Types Crypto Handshake PathEngine Envelope AntiReplay BTree Channel ChannelFacts ChannelInv Ffi FfiLogic.

(** A call of the interface with its arguments. *)
Inductive call :=
| AbiVersion
| GenerateIdentityKeypair (out_priv out_pub : N)
| InitiatorInitiate (init_priv resp_pub out_state out_payload out_payload_len : N)
| ResponderRespond (resp_priv expected_init_pub init_payload init_payload_len out_payload
    out_payload_len out_channel n_paths : N)
| InitiatorFinalize (state resp_payload resp_payload_len out_channel n_paths : N)
| ChannelSend (channel payload payload_len message_id message_id_len out_envelopes
    out_envelopes_len : N)
| ChannelReceive (channel envelopes envelopes_len seq message_id message_id_len out_payload
    out_payload_len : N)
| InitiatorStateFree (state : N)
| ChannelFree (channel : N).

Section safety.
Context `{BuildProfile} `{Ed25519Laws} `{!X25519} `{!X25519Laws} `{!OsRngLaws} `{HashesLaws}
  `{AeadLaws} `{ZeroizeLaws}.
Implicit Types s : ffi_state.

(** The function behind a call; a function without a result counts as
    returning [DECOYPATH_OK]. *)
Definition exec (now : N) (c : call) (s : ffi_state) : answer Z * ffi_state :=
  let void (r : answer unit * ffi_state) :=
    (match r.1 with Returned _ => Returned DECOYPATH_OK | UB => UB end, r.2) in
  match c with
  | AbiVersion => decoypath_abi_version s
  | GenerateIdentityKeypair a b => decoypath_generate_identity_keypair a b s
  | InitiatorInitiate a b c d e => decoypath_initiator_initiate a b c d e s
  | ResponderRespond a b c d e f g h => decoypath_responder_respond a b c d e f g h s
  | InitiatorFinalize a b c d e => decoypath_initiator_finalize a b c d e s
  | ChannelSend a b c d e f g => decoypath_channel_send a b c d e f g s
  | ChannelReceive a b c d e f g h => decoypath_channel_receive now a b c d e f g h s
  | InitiatorStateFree a => void (decoypath_initiator_state_free a s)
  | ChannelFree a => void (decoypath_channel_free a s)
  end.

(** The codes each function can return. *)
Definition codes (c : call) : list Z :=
  match c with
  | AbiVersion => [1]
  | GenerateIdentityKeypair _ _ => [0; -1]
  | InitiatorInitiate _ _ _ _ _ => [0; -1; -2; -5]
  | ResponderRespond _ _ _ _ _ _ _ _ => [0; -1; -2; -3; -5]
  | InitiatorFinalize _ _ _ _ _ => [0; -1; -2; -3]
  | ChannelSend _ _ _ _ _ _ _ => [0; -1; -2; -5; -9]
  | ChannelReceive _ _ _ _ _ _ _ _ => [0; -1; -2; -3; -4; -5; -6; -7; -8; -9]
  | InitiatorStateFree _ | ChannelFree _ => [0]
  end%Z.

(** ** The caller's side of the contract *)

Definition buf_ok s (p n : N) : Prop := p ≠ 0 → mapped p n (mem s).
(** A buffer whose capacity is in a [size_t] variable. *)
Definition out_buf_ok s (p lp : N) : Prop :=
  p ≠ 0 → lp ≠ 0 → ∃ capacity, sizes s !! lp = Some capacity ∧ mapped p capacity (mem s).
Definition handle_var_ok s (p : N) : Prop := p ≠ 0 → is_Some (handles s !! p).

Definition call_ok s (c : call) : Prop :=
  match c with
  | AbiVersion => True
  | GenerateIdentityKeypair a b =>
      buf_ok s a 32 ∧ buf_ok s b 32 ∧ (a ≠ 0 → b ≠ 0 → ranges_disjoint a b 32 = true)
  | InitiatorInitiate init_priv resp_pub out_state out_payload out_payload_len =>
      buf_ok s init_priv 32 ∧ buf_ok s resp_pub 32 ∧ handle_var_ok s out_state
      ∧ out_buf_ok s out_payload out_payload_len
  | ResponderRespond resp_priv expected init_payload init_payload_len out_payload out_payload_len
      out_channel _ =>
      buf_ok s resp_priv 32 ∧ buf_ok s expected 32 ∧ buf_ok s init_payload init_payload_len
      ∧ out_buf_ok s out_payload out_payload_len ∧ handle_var_ok s out_channel
  | InitiatorFinalize state resp_payload resp_payload_len out_channel _ =>
      (state ≠ 0 → is_Some (initiators s !! state)) ∧ buf_ok s resp_payload resp_payload_len
      ∧ handle_var_ok s out_channel
  | ChannelSend channel payload payload_len message_id message_id_len out_envelopes out_len =>
      (channel ≠ 0 → is_Some (channels s !! channel)) ∧ buf_ok s payload payload_len
      ∧ buf_ok s message_id message_id_len ∧ out_buf_ok s out_envelopes out_len
  | ChannelReceive channel envelopes envelopes_len _ message_id message_id_len out_payload out_len =>
      (channel ≠ 0 → is_Some (channels s !! channel)) ∧ buf_ok s envelopes envelopes_len
      ∧ buf_ok s message_id message_id_len ∧ out_buf_ok s out_payload out_len
  | InitiatorStateFree state => state ≠ 0 → is_Some (initiators s !! state)
  | ChannelFree channel => channel ≠ 0 → is_Some (channels s !! channel)
  end.

(** ** The library's side: boxes are well formed *)

(** [k] bounds the number of messages sent, so that no counter overflows. *)
Definition channel_box_ok (t k : N) (ch : SecureChannel) : Prop :=
  chan_inv t ch ∧ 0 < n_paths ch ∧ n_paths ch <= MAX_N_PATHS
  ∧ (∀ q, send_seq ch = Some q → q < k).

Record ffi_inv (t k : N) s : Prop := {
  fi_next : next_box s ≠ 0;
  fi_initiators : ∀ p st, initiators s !! p = Some st → p ≠ 0 ∧ p < next_box s;
  fi_channels : ∀ p ch, channels s !! p = Some ch → p ≠ 0 ∧ p < next_box s ∧ channel_box_ok t k ch;
}.

(** The caller's objects stay where they are. *)
Definition same_objects s s' : Prop :=
  dom (mem s') = dom (mem s) ∧ dom (sizes s') = dom (sizes s) ∧ dom (handles s') = dom (handles s).

Lemma channel_box_mono t t' k k' ch :
  channel_box_ok t k ch → t <= t' → k <= k' → channel_box_ok t' k' ch.
Proof.
  intros (Hc & Hn & Hm & Hs) Ht Hk. split; [by eapply chan_inv_mono|]. split; [done|].
  split; [done|]. intros q Hq. specialize (Hs q Hq). lia.
Qed.

Lemma ffi_inv_mono t t' k k' s : ffi_inv t k s → t <= t' → k <= k' → ffi_inv t' k' s.
Proof.
  intros [Hn Hi Hc] Ht Hk. split; [done|done|]. intros p ch Hp. destruct (Hc p ch Hp) as (? & ? & ?).
  split; [done|]. split; [done|]. by eapply channel_box_mono.
Qed.

(** Only the boxes and the allocator matter to the invariant. *)
Lemma ffi_inv_ext t k s s' :
  ffi_inv t k s → initiators s' = initiators s → channels s' = channels s →
  next_box s' = next_box s → ffi_inv t k s'.
Proof. intros [] Ei Ec En. split; by rewrite ?Ei, ?Ec, ?En. Qed.

Lemma ffi_inv_box_initiator t k s x :
  ffi_inv t k s →
  ffi_inv t k (set_next_box (next_box s + 1) (set_initiators (<[next_box s := x]> (initiators s)) s)).
Proof.
  intros [Hn Hi Hc]. split; cbn.
  - lia.
  - intros p st [[<- _]|[_ Hp]]%lookup_insert_Some; [lia|]. specialize (Hi p st Hp). lia.
  - intros p ch Hp. destruct (Hc p ch Hp) as (? & ? & ?). split; [done|]. split; [lia|done].
Qed.

Lemma ffi_inv_box_channel t k s x :
  ffi_inv t k s → channel_box_ok t k x →
  ffi_inv t k (set_next_box (next_box s + 1) (set_channels (<[next_box s := x]> (channels s)) s)).
Proof.
  intros [Hn Hi Hc] Hx. split; cbn.
  - lia.
  - intros p st Hp. specialize (Hi p st Hp). lia.
  - intros p ch [[<- <-]|[_ Hp]]%lookup_insert_Some; [split; [done|]; split; [lia|done]|].
    destruct (Hc p ch Hp) as (? & ? & ?). split; [done|]. split; [lia|done].
Qed.

Lemma ffi_inv_set_channel t k s p x :
  ffi_inv t k s → is_Some (channels s !! p) → channel_box_ok t k x →
  ffi_inv t k (set_channels (<[p := x]> (channels s)) s).
Proof.
  intros [Hn Hi Hc] [ch0 Hp0] Hx. split; [done|done|]. cbn.
  intros q ch [[<- <-]|[_ Hp]]%lookup_insert_Some; [|by apply Hc].
  destruct (Hc p ch0 Hp0) as (? & ? & _). done.
Qed.

Lemma ffi_inv_del_initiator t k s p :
  ffi_inv t k s → ffi_inv t k (set_initiators (delete p (initiators s)) s).
Proof.
  intros [Hn Hi Hc]. split; [done| |done]. cbn. intros q st [_ Hq]%lookup_delete_Some. by apply (Hi q st).
Qed.

Lemma ffi_inv_del_channel t k s p :
  ffi_inv t k s → ffi_inv t k (set_channels (delete p (channels s)) s).
Proof.
  intros [Hn Hi Hc]. split; [done|done|]. cbn. intros q ch [_ Hq]%lookup_delete_Some. by apply Hc.
Qed.

Lemma channel_box_new t k root n :
  len (RootKey_0 root) = 32 → n ≠ 0 → n <= MAX_N_PATHS →
  channel_box_ok t k (SecureChannel_new root n).
Proof. intros Hr Hn Hm. split; [by apply chan_inv_new|]. split; [cbn; lia|]. by split. Qed.

(** ** The caller's objects *)

Lemma same_objects_refl s : same_objects s s.
Proof. done. Qed.

Lemma same_objects_trans s1 s2 s3 : same_objects s1 s2 → same_objects s2 s3 → same_objects s1 s3.
Proof. intros (? & ? & ?) (? & ? & ?). repeat split; congruence. Qed.

Lemma same_objects_mem s p bs :
  mapped p (len bs) (mem s) → same_objects s (set_mem (mem_write p bs (mem s)) s).
Proof. intros Hm. split; [|done]. by apply dom_mem_write. Qed.

Lemma same_objects_size s p v :
  is_Some (sizes s !! p) → same_objects s (set_sizes (<[p := v]> (sizes s)) s).
Proof. intros Hp. split; [done|]. split; [|done]. by apply dom_insert_lookup_L. Qed.

Lemma same_objects_handle s p v :
  is_Some (handles s !! p) → same_objects s (set_handles (<[p := v]> (handles s)) s).
Proof. intros Hp. split; [done|]. split; [done|]. by apply dom_insert_lookup_L. Qed.

(** ** What a call may change *)

(** The output buffers of a call, as addresses with sizes; the [size_t] and
    handle variables it writes; the boxes it takes, changes or creates. *)
Definition out_ranges s (c : call) : list (N * N) :=
  let capacity p := default 0 (sizes s !! p) in
  match c with
  | GenerateIdentityKeypair a b => [(a, 32); (b, 32)]
  | InitiatorInitiate _ _ _ p _ => [(p, INIT_PAYLOAD_LEN)]
  | ResponderRespond _ _ _ _ p _ _ _ => [(p, RESP_PAYLOAD_LEN)]
  | ChannelSend _ _ _ _ _ p lp => [(p, capacity lp)]
  | ChannelReceive _ _ _ _ _ _ p lp => [(p, capacity lp)]
  | _ => []
  end.

Definition out_sizes (c : call) : list N :=
  match c with
  | InitiatorInitiate _ _ _ _ lp | ResponderRespond _ _ _ _ _ lp _ _
  | ChannelSend _ _ _ _ _ _ lp | ChannelReceive _ _ _ _ _ _ _ lp => [lp]
  | _ => []
  end.

Definition out_handles (c : call) : list N :=
  match c with
  | InitiatorInitiate _ _ h _ _ | ResponderRespond _ _ _ _ _ _ h _
  | InitiatorFinalize _ _ _ h _ => [h]
  | _ => []
  end.

Definition out_initiators s (c : call) : list N :=
  match c with
  | InitiatorInitiate _ _ _ _ _ => [next_box s]
  | InitiatorFinalize p _ _ _ _ | InitiatorStateFree p => [p]
  | _ => []
  end.

Definition out_channels s (c : call) : list N :=
  match c with
  | ResponderRespond _ _ _ _ _ _ _ _ | InitiatorFinalize _ _ _ _ _ => [next_box s]
  | ChannelSend p _ _ _ _ _ _ | ChannelReceive p _ _ _ _ _ _ _ | ChannelFree p => [p]
  | _ => []
  end.

Record footprint (c : call) s s' : Prop := {
  fp_mem x : Forall (λ r, x < r.1 ∨ r.1 + r.2 <= x) (out_ranges s c) → mem s' !! x = mem s !! x;
  fp_sizes p : p ∉ out_sizes c → sizes s' !! p = sizes s !! p;
  fp_handles p : p ∉ out_handles c → handles s' !! p = handles s !! p;
  fp_initiators p : p ∉ out_initiators s c → initiators s' !! p = initiators s !! p;
  fp_channels p : p ∉ out_channels s c → channels s' !! p = channels s !! p;
}.

(** What a call that does not return [DECOYPATH_OK] has done: nothing, but for
    the size it reports with [BUFFER_TOO_SMALL] (where a channel's own step is
    not undone) and for the state that [decoypath_initiator_finalize] took. *)
Definition error_effect (c : call) s (code : Z) s' : Prop :=
  code ≠ DECOYPATH_OK →
  match c with
  | InitiatorFinalize p _ _ _ _ =>
      s' = s ∨ s' = set_initiators (delete p (initiators s)) s
  | InitiatorInitiate _ _ _ _ lp | ResponderRespond _ _ _ _ _ lp _ _ =>
      s' = s ∨ code = DECOYPATH_ERR_BUFFER_TOO_SMALL ∧ s' = set_sizes (<[lp := 144]> (sizes s)) s
  | ChannelSend p _ _ _ _ _ lp | ChannelReceive p _ _ _ _ _ _ lp =>
      s' = s ∨ code = DECOYPATH_ERR_BUFFER_TOO_SMALL ∧ ∃ ch r v,
        s' = set_sizes (<[lp := v]> (sizes s)) (set_os r (set_channels (<[p := ch]> (channels s)) s))
  | _ => s' = s
  end.

Lemma footprint_refl c s : footprint c s s.
Proof. by split. Qed.

Lemma error_effect_refl c s code : error_effect c s code s.
Proof. destruct c; intros _; cbn; auto. Qed.

Lemma error_effect_ok c s s' : error_effect c s DECOYPATH_OK s'.
Proof. by intros []. Qed.

Lemma lookup_mem_write_out p bs m x : x < p ∨ p + len bs <= x → mem_write p bs m !! x = m !! x.
Proof. intros Hx. by rewrite lookup_mem_write, decide_False by lia. Qed.

(** ** Function by function *)

Definition post (t k : N) (c : call) s (code : Z) s' : Prop :=
  code ∈ codes c ∧ ffi_inv t k s' ∧ same_objects s s' ∧ footprint c s s' ∧ error_effect c s code s'.

(** An early return that has changed nothing. *)
Lemma post_refl t k c s code : ffi_inv t k s → code ∈ codes c → post t k c s code s.
Proof. intros ? ?. split_and!; [done|done|done|apply footprint_refl|apply error_effect_refl]. Qed.

(** Closes [footprint] of an explicit final state. *)
Ltac outside :=
  match goal with
  | Hx : Forall _ (_ :: _) |- _ => apply Forall_cons in Hx as [? Hx]; cbn [fst snd] in *; outside
  | Hx : _ ∉ _ :: _ |- _ => apply not_elem_of_cons in Hx as [? Hx]; outside
  | _ => idtac
  end.
Ltac in_footprint :=
  split; cbn; intros ? ?;
  try match goal with Hv : sizes _ !! _ = Some _, Hx : Forall _ _ |- _ => rewrite Hv in Hx; cbn [from_option id] in Hx end;
  outside; unfold INIT_PAYLOAD_LEN, RESP_PAYLOAD_LEN in *;
  rewrite ?lookup_mem_write_out, ?lookup_insert_ne, ?lookup_delete_ne by (congruence || lia || auto);
  done.
Ltac succeeds := split; [in_footprint|apply error_effect_ok].

Ltac in_codes := apply (bool_decide_unpack _); vm_compute; exact I.
Ltac early := apply wp_return_code, post_refl; [assumption|in_codes].
Ltac not_null p H :=
  unfold is_null at 1; destruct (N.eqb_spec p 0) as [->|H]; cbn [orb]; [early|].
Ltac reads Hm bs Hbs :=
  destruct (mem_read_mapped _ _ _ Hm) as (bs & ? & Hbs); apply wp_bind;
  eapply wp_read_slice; [eassumption|].

Lemma generate_safe t k s a b :
  let c := GenerateIdentityKeypair a b in
  ffi_inv t k s → call_ok s c → ∃ code s', exec t c s = (Returned code, s') ∧ post t k c s code s'.
Proof.
  intros c Hinv (Ha & Hb & Hd). apply wp_catch.
  not_null a Na. not_null b Nb. specialize (Ha Na). specialize (Hb Nb). specialize (Hd Na Nb).
  apply wp_bind, wp_on_os. rewrite generate_identity_keypair_run.
  reads Ha bs1 L1. reads Hb bs2 L2. rewrite Hd. cbn [negb].
  pose proof (len_SigningKey (SigningKey_generate (os s)).1) as Lk.
  pose proof (len_VerifyingKey (verifying_key (SigningKey_generate (os s)).1)) as Lv.
  apply wp_bind, wp_write_slice; [done|exact Lk|].
  apply wp_bind, wp_write_slice; [by apply mapped_write|exact Lv|].
  apply wp_ret. split; [in_codes|]. split; [by apply (ffi_inv_ext _ _ s)|]. split; [|succeeds].
  eapply same_objects_trans; [|apply same_objects_mem; cbn; apply mapped_write; by rewrite len_VerifyingKey].
  apply (same_objects_mem (set_os _ s)). cbn. by rewrite len_SigningKey.
Qed.

Lemma initiate_safe t k s a b cc d e :
  let c := InitiatorInitiate a b cc d e in
  ffi_inv t k s → call_ok s c → ∃ code s', exec t c s = (Returned code, s') ∧ post t k c s code s'.
Proof.
  intros c Hinv (Ha & Hb & Hc & Hd). apply wp_catch.
  not_null a Na. not_null b Nb. not_null cc Nc. not_null d Nd. not_null e Ne.
  specialize (Ha Na). specialize (Hb Nb). destruct (Hc Nc) as [h Hh]. destruct (Hd Nd Ne) as (v & Hv & Hm).
  apply wp_bind. eapply wp_read_size; [exact Hv|].
  destruct (N.ltb_spec v INIT_PAYLOAD_LEN) as [|Hge].
  { apply wp_bind. eapply wp_write_size; [exact Hv|]. apply wp_return_code. split; [in_codes|].
    split; [by apply (ffi_inv_ext _ _ s)|]. split; [apply same_objects_size; by eexists|].
    split; [in_footprint|]. intros _. by right. }
  apply (mapped_weaken _ _ INIT_PAYLOAD_LEN) in Hm; [|done].
  reads Ha bs1 L1. apply wp_bind, wp_try_into_32; [done|].
  reads Hb bs2 L2. apply wp_bind, wp_try_into_32; [done|]. cbn zeta.
  apply wp_bind, wp_lift. destruct (VerifyingKey_from_bytes bs2) as [vk|]; cbn [o_ok_or]; [|by apply post_refl; [|in_codes]].
  apply wp_bind, wp_on_os. rewrite initiate_run.
  set (p := initiate_payload _ _ _ _). assert (Hp : init_payload_wf p) by apply draw_nonce.
  apply wp_bind. eapply wp_unwrap; [by apply init_to_bytes_wire|].
  pose proof (len_init_wire p Hp) as Lw.
  apply wp_bind, wp_write_slice; [done|exact Lw|].
  apply wp_bind. eapply wp_write_size; [exact Hv|].
  apply wp_bind, wp_box_initiator. apply wp_bind. eapply wp_write_handle; [exact Hh|].
  apply wp_ret. split; [in_codes|]. split.
  - by eapply ffi_inv_ext; [apply (ffi_inv_box_initiator t k s), Hinv|..].
  - split; [|succeeds]. split; [apply dom_mem_write; rewrite len_init_wire by done; exact Hm|].
    split; apply dom_insert_lookup_L; by eexists.
Qed.

(** The optional key of the expected initiator. *)
Lemma expected_pub_safe t k c s b :
  ffi_inv t k s → DECOYPATH_ERR_INVALID_PAYLOAD ∈ codes c → buf_ok s b 32 →
  wp (if negb (is_null b) then
        slice ← read_slice b 32;
        bytes ← try_into_32 slice;
        vk ← lift_o (o_ok_or (Return DECOYPATH_ERR_INVALID_PAYLOAD) (VerifyingKey_from_bytes bytes));
        mret (Some vk)
      else mret None) (λ _ s', s' = s) (post t k c s) s.
Proof.
  intros Hinv Hcode Hb. unfold is_null. destruct (N.eqb_spec b 0) as [->|Nb]; cbn [negb]; [done|].
  specialize (Hb Nb). reads Hb bs2 L2. apply wp_bind, wp_try_into_32; [done|].
  apply wp_bind, wp_lift. destruct (VerifyingKey_from_bytes bs2); cbn [o_ok_or]; [done|].
  by apply post_refl.
Qed.

Lemma respond_safe t k s a b cc d e f g h :
  let c := ResponderRespond a b cc d e f g h in
  ffi_inv t k s → call_ok s c → ∃ code s', exec t c s = (Returned code, s') ∧ post t k c s code s'.
Proof.
  intros c Hinv (Ha & Hb & Hc & He & Hg). apply wp_catch.
  not_null a Na. not_null cc Nc. not_null e Ne. not_null f Nf. not_null g Ng.
  specialize (Ha Na). specialize (Hc Nc). destruct (Hg Ng) as [w Hw]. destruct (He Ne Nf) as (v & Hv & Hm).
  destruct (N.eqb_spec d INIT_PAYLOAD_LEN) as [->|]; cbn [negb]; [|early].
  apply wp_bind. eapply wp_read_size; [exact Hv|].
  destruct (N.ltb_spec v RESP_PAYLOAD_LEN) as [|Hge].
  { apply wp_bind. eapply wp_write_size; [exact Hv|]. apply wp_return_code. split; [in_codes|].
    split; [by apply (ffi_inv_ext _ _ s)|]. split; [apply same_objects_size; by eexists|].
    split; [in_footprint|]. intros _. by right. }
  apply (mapped_weaken _ _ RESP_PAYLOAD_LEN) in Hm; [|done].
  destruct (N.eqb_spec h 0) as [->|Hn]; cbn [orb]; [early|].
  destruct (N.ltb_spec MAX_N_PATHS h) as [|Hn']; [early|].
  reads Ha bs1 L1. apply wp_bind, wp_try_into_32; [done|]. cbn zeta. apply wp_bind.
  eapply wp_mono; [by apply (expected_pub_safe t k c s b); [|in_codes|]|].
  intros expected ? ->. reads Hc bs3 L3. apply wp_bind, wp_lift.
  destruct (init_from_bytes_cases bs3 L3) as [(p & -> & Hp)| ->]; cbn [o_map_err];
    [|by apply post_refl; [|in_codes]].
  apply wp_bind, wp_on_os.
  destruct (respond_cases (IdentityPrivateKey_new bs1) expected p (os s)) as [(rk & -> & Hrk)|(er & ->)].
  2:{ rewrite set_os_same. by apply post_refl; [|in_codes]. }
  set (rp := respond_payload _ _ _ _). assert (Hrp : resp_payload_wf rp) by apply draw_nonce.
  apply wp_bind. eapply wp_unwrap; [by apply resp_to_bytes_wire|].
  pose proof (len_resp_wire rp Hrp) as Lw.
  apply wp_bind, wp_write_slice; [done|exact Lw|].
  apply wp_bind. eapply wp_write_size; [exact Hv|].
  apply wp_bind, wp_box_channel. apply wp_bind. eapply wp_write_handle; [exact Hw|].
  apply wp_ret. split; [in_codes|]. split.
  - by eapply ffi_inv_ext; [apply (ffi_inv_box_channel t k s); [exact Hinv|by apply channel_box_new]|..].
  - split; [|succeeds]. split; [apply dom_mem_write; rewrite len_resp_wire by done; exact Hm|].
    split; apply dom_insert_lookup_L; by eexists.
Qed.

Lemma finalize_safe t k s a b cc d e :
  let c := InitiatorFinalize a b cc d e in
  ffi_inv t k s → call_ok s c → ∃ code s', exec t c s = (Returned code, s') ∧ post t k c s code s'.
Proof.
  intros c Hinv (Ha & Hb & Hd). apply wp_catch.
  not_null a Na. not_null b Nb. not_null d Nd.
  destruct (Ha Na) as [st Hst]. specialize (Hb Nb). destruct (Hd Nd) as [w Hw].
  apply wp_bind. eapply wp_take_initiator; [exact Hst|].
  pose proof (ffi_inv_del_initiator t k s a Hinv) as Hinv'.
  set (s1 := set_initiators _ s) in *.
  assert (Hstop : ∀ code, code ∈ codes c → post t k c s code s1).
  { intros code Hc. split_and!; [done|done|done|unfold s1; in_footprint|]. intros _. by right. }
  destruct (N.eqb_spec cc RESP_PAYLOAD_LEN) as [->|]; cbn [negb]; [|by apply wp_return_code, Hstop; in_codes].
  destruct (N.eqb_spec e 0) as [->|Hn]; cbn [orb]; [by apply wp_return_code, Hstop; in_codes|].
  destruct (N.ltb_spec MAX_N_PATHS e) as [|Hn']; [by apply wp_return_code, Hstop; in_codes|].
  change (mem s) with (mem s1) in Hb. reads Hb bs L. apply wp_bind, wp_lift.
  destruct (resp_from_bytes_cases bs L) as [(p & -> & Hp)| ->]; cbn [o_map_err]; [|by apply Hstop; in_codes].
  apply wp_bind, wp_lift.
  destruct (finalize_cases st p) as [(rk & -> & Hrk)|(er & ->)]; cbn [o_map_err]; [|by apply Hstop; in_codes].
  apply wp_bind, wp_box_channel. apply wp_bind. eapply wp_write_handle; [exact Hw|].
  apply wp_ret. split; [in_codes|]. split.
  - by eapply ffi_inv_ext; [apply (ffi_inv_box_channel t k s1); [exact Hinv'|by apply channel_box_new]|..].
  - split; [|unfold s1; succeeds]. split; [done|]. split; [done|]. apply dom_insert_lookup_L.
    by eexists.
Qed.

(** A channel box always has a next sequence number and enough memory. *)
Lemma channel_box_send t k ch r payload mid :
  channel_box_ok t k ch → k < U64_MOD → len mid <= MAX_MESSAGE_ID_LEN →
  len payload <= MAX_PAYLOAD_SIZE →
  ∃ seq envs r', next_send ch = Some seq ∧ send payload mid (ch, r) = (Ok envs, (sent ch seq, r'))
    ∧ carries (current_key ch) (n_paths ch) seq mid payload envs
    ∧ channel_box_ok t (k + 1) (sent ch seq).
Proof.
  intros (Hc & Hn & Hm & Hs) Hk Hmid Hp. unfold MAX_N_PATHS in Hm.
  assert (∃ seq, next_send ch = Some seq ∧ seq < k + 1) as (seq & Hseq & Hlt).
  { unfold next_send. destruct (send_seq ch) as [q|]; [|exists 0; split; [done|lia]].
    specialize (Hs q eq_refl). exists (q + 1). split; [apply add_u64_no_overflow; lia|lia]. }
  destruct (send_run ch r seq payload mid Hmid Hseq) as (envs & r' & E & Hca);
    [lia|done|by eapply ci_key|unfold ISIZE_MAX, ENVELOPE_TOTAL_LEN; lia|].
  exists seq, envs, r'. split; [done|]. split; [done|]. split; [done|].
  split; [by apply sent_inv|]. split; [done|]. split; [done|]. by intros q [= <-].
Qed.

Lemma send_safe t k s a b cc d e f g :
  let c := ChannelSend a b cc d e f g in
  ffi_inv t k s → k < U64_MOD → call_ok s c →
  ∃ code s', exec t c s = (Returned code, s') ∧ post t (k + 1) c s code s'.
Proof.
  intros c Hinv0 Hk (Ha & Hb & Hd & Hf). apply wp_catch.
  assert (Hinv : ffi_inv t (k + 1) s) by (eapply ffi_inv_mono; [done|lia|lia]).
  not_null a Na. not_null b Nb. not_null d Nd. not_null f Nf. not_null g Ng.
  destruct (Ha Na) as [ch Hch]. specialize (Hb Nb). specialize (Hd Nd).
  destruct (Hf Nf Ng) as (v & Hv & Hm).
  destruct (N.ltb_spec MAX_PAYLOAD_SIZE cc) as [|Hcc]; [early|].
  destruct (N.ltb_spec MAX_MESSAGE_ID_LEN e) as [|He]; [early|].
  apply wp_bind. eapply wp_deref_channel; [exact Hch|].
  reads Hb payload Lp. reads Hd mid Lm.
  destruct (fi_channels _ _ _ Hinv0 a ch Hch) as (_ & _ & Hbox).
  destruct (channel_box_send t k ch (os s) payload mid Hbox Hk) as (seq & envs & r' & _ & E & Hca & Hbox');
    [by rewrite Lm|by rewrite Lp|].
  destruct Hca as (slot & env & _ & _ & Hlen & _ & _ & Hwf & _).
  apply wp_bind. eapply wp_on_channel; [exact Hch|]. rewrite E. cbn zeta.
  apply wp_bind. eapply wp_read_size; [exact Hv|].
  assert (Hinv1 : ffi_inv t (k + 1) (set_channels (<[a:=sent ch seq]> (channels s)) s))
    by (apply ffi_inv_set_channel; [done|by eexists|done]).
  destruct (N.ltb_spec v (len envs * ENVELOPE_TOTAL_LEN)) as [|Hge].
  { apply wp_bind. eapply wp_write_size; [exact Hv|]. apply wp_return_code. split; [in_codes|].
    split; [by eapply ffi_inv_ext; [exact Hinv1|..]|]. split; [|split; [in_footprint|]].
    - split; [done|]. split; [|done]. apply dom_insert_lookup_L. by eexists.
    - intros _. right. split; [done|]. by do 3 eexists. }
  apply (mapped_weaken _ _ (len envs * ENVELOPE_TOTAL_LEN)) in Hm; [|done].
  reads Hm old Lo. apply wp_bind, wp_copy_envelopes; [done|lia|done|].
  apply wp_bind. eapply wp_write_size; [exact Hv|]. apply wp_ret. split; [in_codes|].
  split; [by eapply ffi_inv_ext; [exact Hinv1|..]|].
  pose proof (len_concat envs Hwf) as Lc. split; [|succeeds].
  split; [apply dom_mem_write; by rewrite N.mul_0_l, N.add_0_r, len_concat|].
  split; [|done]. apply dom_insert_lookup_L. by eexists.
Qed.

Lemma commit_send_seq ch seq l st : send_seq (commit ch seq l st) = send_seq ch.
Proof. unfold commit. by destruct (next_ratchet_key l). Qed.

(** [receive] on a box: an error leaves it as it was, a payload fits. *)
Lemma channel_box_receive t k ch envelopes seq mid res ch' :
  channel_box_ok t k ch → envelopes_wf envelopes → receive t envelopes seq mid ch = (res, ch') →
  channel_box_ok t k ch' ∧ (∃ e, res = Err e ∧ ch' = ch) ∨ channel_box_ok t k ch' ∧ ∃ p, res = Ok p.
Proof.
  intros (Hc & Hn & Hm & Hs) Hwf E.
  destruct (receive_cases _ _ _ _ _ _ _ Hc Hwf E) as [(e & -> & ->)|(p & l & -> & Hl & _ & ->)].
  - left. split; [by split|]. by eexists.
  - right. split; [|by eexists]. split; [by apply commit_inv|].
    rewrite commit_send_seq. split; [|split; [|done]]; unfold commit; by destruct (next_ratchet_key l).
Qed.

Lemma receive_error_code_in er a b cc d e f g h :
  receive_error_code er ∈ codes (ChannelReceive a b cc d e f g h).
Proof. destruct er; in_codes. Qed.

Lemma receive_safe t k s a b cc d e f g h :
  let c := ChannelReceive a b cc d e f g h in
  ffi_inv t k s → call_ok s c → ∃ code s', exec t c s = (Returned code, s') ∧ post t k c s code s'.
Proof.
  intros c Hinv (Ha & Hb & He & Hg). apply wp_catch.
  not_null a Na. not_null b Nb. not_null e Ne. not_null g Ng. not_null h Nh.
  destruct (Ha Na) as [ch Hch]. specialize (Hb Nb). specialize (He Ne).
  destruct (Hg Ng Nh) as (v & Hv & Hm).
  destruct (N.ltb_spec MAX_MESSAGE_ID_LEN f) as [|Hf]; [early|].
  destruct (N.eqb_spec cc 0) as [|Hcc]; cbn [orb]; [early|].
  destruct (N.eqb_spec (cc mod ENVELOPE_TOTAL_LEN) 0) as [Hmod|]; cbn [orb negb]; [|early].
  destruct (N.ltb_spec (MAX_N_PATHS * ENVELOPE_TOTAL_LEN) cc) as [|Hle]; [early|]. cbn zeta.
  reads Hb raw Lraw.
  destruct (split_envelopes_total (N.to_nat (cc / ENVELOPE_TOTAL_LEN)) raw) as (envs & Hsp & _ & _ & Hwf).
  { rewrite Lraw, N2Nat.id. pose proof (N.div_mod' cc ENVELOPE_TOTAL_LEN). lia. }
  apply wp_bind. eapply wp_unwrap; [exact Hsp|].
  apply wp_bind. eapply wp_deref_channel; [exact Hch|]. reads He mid Lm.
  destruct (fi_channels _ _ _ Hinv a ch Hch) as (_ & _ & Hbox).
  apply wp_bind. eapply wp_on_channel; [exact Hch|]. rewrite receive_method_run.
  destruct (receive t envs d mid ch) as [res ch'] eqn:E. cbn [fst snd].
  pose proof (channel_box_receive _ _ _ _ _ _ _ _ Hbox Hwf E) as Hcases.
  assert (Hinv1 : ffi_inv t k (set_channels (<[a:=ch']> (channels s)) s)).
  { apply ffi_inv_set_channel; [done|by eexists|]. by destruct Hcases as [[? _]|[? _]]. }
  destruct Hcases as [(_ & er & -> & ->)|(_ & p & ->)].
  { rewrite set_channel_same by done. apply post_refl; [done|apply receive_error_code_in]. }
  apply wp_bind. eapply wp_read_size; [exact Hv|].
  destruct (N.ltb_spec v (len p)) as [|Hge].
  { apply wp_bind. eapply wp_write_size; [exact Hv|]. apply wp_return_code. split; [in_codes|].
    split; [by eapply ffi_inv_ext; [exact Hinv1|..]|]. split; [|split; [in_footprint|]].
    - split; [done|]. split; [|done]. apply dom_insert_lookup_L. by eexists.
    - intros _. right. split; [done|]. by do 3 eexists. }
  apply (mapped_weaken _ _ (len p)) in Hm; [|done].
  apply wp_bind, wp_write_slice; [done|done|].
  apply wp_bind. eapply wp_write_size; [exact Hv|]. apply wp_ret. split; [in_codes|].
  split; [by eapply ffi_inv_ext; [exact Hinv1|..]|].
  split; [|succeeds].
  split; [by apply dom_mem_write|]. split; [|done]. apply dom_insert_lookup_L. by eexists.
Qed.

Lemma free_safe t k s c :
  (∃ p, c = InitiatorStateFree p ∨ c = ChannelFree p) →
  ffi_inv t k s → call_ok s c → ∃ code s', exec t c s = (Returned code, s') ∧ post t k c s code s'.
Proof.
  intros [p Hc] Hinv Hok. set (R s' := ffi_inv t k s' ∧ same_objects s s' ∧ footprint c s s').
  assert (∃ s', exec t c s = (Returned DECOYPATH_OK, s') ∧ R s') as (s' & E & HR);
    [|exists DECOYPATH_OK, s'; split; [done|]; split; [destruct Hc as [->| ->]; in_codes|];
     destruct HR as (? & ? & ?); split_and!; [done|done|done|apply error_effect_ok]].
  destruct Hc as [->| ->]; cbn [exec call_ok] in *.
  - destruct (wp_catch_unit (if negb (is_null p) then _ ← take_initiator p; mret tt else mret tt) R s)
      as (s' & E & HR); [|exists s'; unfold decoypath_initiator_state_free; by rewrite E].
    unfold is_null. destruct (N.eqb_spec p 0) as [->|Np]; [by split_and!; [..|apply footprint_refl]|].
    destruct (Hok Np) as [x Hx].
    apply wp_bind. eapply wp_take_initiator; [exact Hx|].
    apply wp_ret. split_and!; [by apply ffi_inv_del_initiator|done|in_footprint].
  - destruct (wp_catch_unit (if negb (is_null p) then _ ← take_channel p; mret tt else mret tt) R s)
      as (s' & E & HR); [|exists s'; unfold decoypath_channel_free; by rewrite E].
    unfold is_null. destruct (N.eqb_spec p 0) as [->|Np]; [by split_and!; [..|apply footprint_refl]|].
    destruct (Hok Np) as [x Hx].
    apply wp_bind. eapply wp_take_channel; [exact Hx|].
    apply wp_ret. split_and!; [by apply ffi_inv_del_channel|done|in_footprint].
Qed.

Lemma call_safe t k now s c :
  ffi_inv t k s → k < U64_MOD → t <= now → call_ok s c →
  ∃ code s', exec now c s = (Returned code, s') ∧ post now (k + 1) c s code s'.
Proof.
  intros Hinv Hk Ht Hok.
  assert (Hk1 : ffi_inv now (k + 1) s) by (eapply ffi_inv_mono; [done|done|lia]).
  destruct c.
  - exists 1%Z, s. split; [done|]. apply post_refl; [done|in_codes].
  - by apply generate_safe.
  - by apply initiate_safe.
  - by apply respond_safe.
  - by apply finalize_safe.
  - apply send_safe; [eapply ffi_inv_mono; [exact Hinv|done|lia]|done|done].
  - by apply receive_safe.
  - apply free_safe; [eexists; by left|done|done].
  - apply free_safe; [eexists; by right|done|done].
Qed.

(** ** Programs that use the interface *)

(** States reached after [k] calls at time [t]: a process that starts without
    boxes makes calls that keep the contract, and between the calls does
    with its own memory what it likes. *)
Inductive ffi_reach : N → N → ffi_state → Prop :=
| reach_start t s : initiators s = ∅ → channels s = ∅ → next_box s ≠ 0 → ffi_reach 0 t s
| reach_client k t s s' :
    ffi_reach k t s → initiators s' = initiators s → channels s' = channels s →
    next_box s' = next_box s → ffi_reach k t s'
| reach_call k t now c s a s' :
    ffi_reach k t s → k < U64_MOD → t <= now → call_ok s c → exec now c s = (a, s') →
    ffi_reach (k + 1) now s'.

Lemma ffi_reach_inv k t s : ffi_reach k t s → ffi_inv t k s.
Proof.
  induction 1 as [t s Hi Hc Hn|k t s s' _ IH Hi Hc Hn|k t now c s a s' _ IH Hk Ht Hok E].
  - split; [done|..]; rewrite ?Hi, ?Hc; intros p x; by rewrite lookup_empty.
  - by eapply ffi_inv_ext.
  - destruct (call_safe _ _ _ _ _ IH Hk Ht Hok) as (code & s1 & E1 & _ & Hinv & _).
    rewrite E in E1. by injection E1 as _ ->.
Qed.

(** C7. The interface is safe to use.  In any program that makes fewer than 2^64
    calls, whose pointers and handles are null or valid, every call of every
    exported function has defined behaviour, returns one of the codes listed
    for that function and never [DECOYPATH_ERR_PANIC], and leaves the
    caller's objects allocated as they were.  The operating system's random
    source is assumed to deliver. *)
Theorem ffi_safe k t now s c :
  ffi_reach k t s → k < U64_MOD → t <= now → call_ok s c →
  ∃ code s', exec now c s = (Returned code, s') ∧ code ∈ codes c ∧ code ≠ DECOYPATH_ERR_PANIC
    ∧ same_objects s s'.
Proof.
  intros Hinv%ffi_reach_inv Hk Ht Hok.
  destruct (call_safe _ _ _ _ _ Hinv Hk Ht Hok) as (code & s' & E & Hc & _ & Ho & _).
  exists code, s'. split; [done|]. split; [done|]. split; [|done]. intros ->.
  by destruct c; apply (bool_decide_pack _) in Hc; vm_compute in Hc.
Qed.

(** C9. Isolation.  In any such program, whatever a call returns, it changes only
    what it was given: bytes inside its output buffers (for a buffer with a
    capacity variable, within that capacity), its length and handle variables,
    the box behind its handle and the box it creates.  All other memory of the
    caller, and every other handshake and channel, is what it was. *)
Theorem ffi_isolation k t now s c a s' :
  ffi_reach k t s → k < U64_MOD → t <= now → call_ok s c → exec now c s = (a, s') →
  footprint c s s'.
Proof.
  intros Hinv%ffi_reach_inv Hk Ht Hok E.
  destruct (call_safe _ _ _ _ _ Hinv Hk Ht Hok) as (code & s1 & E1 & _ & _ & _ & Hf & _).
  rewrite E1 in E. by injection E as _ <-.
Qed.

(** C18. Failed calls.  In any such program a call that returns another code than
    [DECOYPATH_OK] has changed nothing at all, the random source included, with
    three exceptions: a handshake call with a too small buffer has reported the
    size it needs, 144; a channel call with a too small buffer has reported the
    size and keeps the step of its channel; and [decoypath_initiator_finalize]
    may have taken the state. *)
Theorem ffi_failed_calls k t now s c code s' :
  ffi_reach k t s → k < U64_MOD → t <= now → call_ok s c → exec now c s = (Returned code, s') →
  error_effect c s code s'.
Proof.
  intros Hinv%ffi_reach_inv Hk Ht Hok E.
  destruct (call_safe _ _ _ _ _ Hinv Hk Ht Hok) as (code1 & s1 & E1 & _ & _ & _ & _ & He).
  rewrite E1 in E. by injection E as -> <-.
Qed.
End safety.
