(* ===== verification/FfiFunctional.v ===== *)
(** * What the C interface computes

    The exact effect of [decoypath_channel_send] and
    [decoypath_channel_receive] on the caller's buffers and on the boxes, the
    ownership rules of [decoypath_initiator_finalize], and two end-to-end
    statements: a handshake and a message carried through C buffers. *)

From S2P Require Import Prelude Outcome Primitives Errors Types Crypto Handshake PathEngine Envelope AntiReplay BTree Channel ChannelFacts ChannelInv Ffi FfiLogic.

(** Calls that do not change one part of the state. *)
Section keeps.
Context `{BuildProfile} `{Ed25519} `{!X25519} `{Hashes} `{Aead} `{Zeroize}.
Context {B : Type} (view : ffi_state → B).
#[local] Abbreviation F := (M ffi_state exit).

Definition keeps {A} (m : F A) : Prop := ∀ s, view (m s).2 = view s.

Lemma keeps_bind {A C} (m : F A) (f : A → F C) : keeps m → (∀ a, keeps (f a)) → keeps (m ≫= f).
Proof.
  intros Hm Hf s. rewrite bind_run. specialize (Hm s).
  destruct (m s) as [[a|e|] s']; cbn [snd] in *; [|done|done]. by rewrite Hf.
Qed.

Lemma keeps_if {A} (b : bool) (m n : F A) : keeps m → keeps n → keeps (if b then m else n).
Proof. by destruct b. Qed.

Lemma keeps_ret {A} (a : A) : keeps (mret a).
Proof. done. Qed.
Lemma keeps_lift {A} (o : outcome exit A) : keeps (lift_o o).
Proof. done. Qed.
Lemma keeps_return {A} code : keeps (return_code (A := A) code).
Proof. done. Qed.
Lemma keeps_get : keeps get_state.
Proof. done. Qed.
Lemma keeps_modify f : (∀ s, view (f s) = view s) → keeps (modify_state f).
Proof. intros Hf s. apply Hf. Qed.
End keeps.

Section functional.
Context `{BuildProfile} `{Ed25519Laws} `{!X25519} `{!X25519Laws} `{!OsRngLaws} `{HashesLaws}
  `{AeadLaws} `{ZeroizeLaws}.
Implicit Types s : ffi_state.

Lemma wp_catch_eq (m : M ffi_state exit Z) c s s' :
  wp m (λ c' s'', c' = c ∧ s'' = s') (λ c' s'', c' = c ∧ s'' = s') s →
  catch_unwind m s = (Returned c, s').
Proof. intros (? & ? & -> & -> & ->)%wp_catch. done. Qed.

Lemma not_null p : p ≠ 0 → is_null p = false.
Proof. apply N.eqb_neq. Qed.

(** ** Ownership of the initiator state *)

Lemma keeps_read_slice p n : keeps initiators (read_slice p n).
Proof. apply keeps_bind; [done|]. intros s. apply keeps_lift. Qed.

Lemma keeps_write_handle p v : keeps initiators (write_handle p v).
Proof.
  apply keeps_bind; [done|]. intros s. apply keeps_bind; [apply keeps_lift|].
  intros _. by apply keeps_modify.
Qed.

Lemma finalize_tail_keeps st b cc d e :
  keeps initiators (
    if negb (cc =? RESP_PAYLOAD_LEN) then return_code DECOYPATH_ERR_INVALID_PAYLOAD else
    if (e =? 0) || (MAX_N_PATHS <? e) then return_code DECOYPATH_ERR_INVALID_PAYLOAD else
    resp_payload_slice ← read_slice b RESP_PAYLOAD_LEN;
    resp_payload_struct ← lift_o (o_map_err (λ _, Return DECOYPATH_ERR_INVALID_PAYLOAD)
                            (HandshakeResponsePayload_from_bytes resp_payload_slice));
    root_key ← lift_o (o_map_err (λ _, Return DECOYPATH_ERR_AUTHENTICATION_FAILED)
                 (finalize st resp_payload_struct));
    channel_box ← box_channel (SecureChannel_new root_key e);
    _ ← write_handle d channel_box;
    mret DECOYPATH_OK).
Proof.
  apply keeps_if; [done|]. apply keeps_if; [done|].
  apply keeps_bind; [apply keeps_read_slice|]. intros bs.
  apply keeps_bind; [done|]. intros p. apply keeps_bind; [done|]. intros rk.
  apply keeps_bind; [done|]. intros bx. apply keeps_bind; [apply keeps_write_handle|done].
Qed.

(** A non-null handle of a state that has not been taken back. *)
Definition live_initiator s (state : N) (st : InitiatorState) : Prop :=
  state ≠ 0 ∧ initiators s !! state = Some st.

(** C28. Who owns the state after [decoypath_initiator_finalize].  With three
    non-null pointers and a live state the call takes the state whatever it
    returns, on success and on every failure, so freeing or finalizing it
    again is undefined.  With a null [resp_payload] or [out_channel] the call
    returns the null-pointer code before it takes ownership: the state is
    still live, and it leaks unless the caller frees it. *)
Theorem finalize_ownership s state resp_payload resp_payload_len out_channel n_paths st :
  live_initiator s state st →
  (resp_payload ≠ 0 → out_channel ≠ 0 → ∀ a s',
     decoypath_initiator_finalize state resp_payload resp_payload_len out_channel n_paths s = (a, s') →
     initiators s' = delete state (initiators s)
     ∧ decoypath_initiator_state_free state s' = (UB, s')
     ∧ ∀ b m c n, b ≠ 0 → c ≠ 0 → decoypath_initiator_finalize state b m c n s' = (UB, s'))
  ∧ (resp_payload = 0 ∨ out_channel = 0 →
     decoypath_initiator_finalize state resp_payload resp_payload_len out_channel n_paths s
     = (Returned DECOYPATH_ERR_NULL_POINTER, s)
     ∧ decoypath_initiator_state_free state s
       = (Returned tt, set_initiators (delete state (initiators s)) s)).
Proof.
  intros [Hs Hst]. split.
  - intros Hb Hd a s' E. assert (Hi : initiators s' = delete state (initiators s)).
    { unfold decoypath_initiator_finalize, catch_unwind in E.
      rewrite !not_null in E by done. cbn [orb] in E.
      unfold take_initiator, defined in E.
      rewrite bind_run, bind_run, get_run, bind_run, lift_run, Hst in E. cbn [o_ok_or] in E.
      rewrite bind_run, put_run in E. rewrite ret_run in E.
      set (s1 := set_initiators (delete state (initiators s)) s) in *.
      pose proof (finalize_tail_keeps st resp_payload resp_payload_len out_channel n_paths s1) as K.
      destruct (_ s1) as [r s2] in E, K. injection E as _ <-. exact K. }
    assert (Hgone : initiators s' !! state = None) by (rewrite Hi; apply lookup_delete_eq).
    split; [done|]. split.
    + unfold decoypath_initiator_state_free, catch_unwind_unit. rewrite not_null by done. cbn [negb].
      unfold take_initiator. by rewrite bind_run, bind_run, get_run, bind_run, Hgone.
    + intros b m c n Nb Nc. unfold decoypath_initiator_finalize, catch_unwind.
      rewrite !not_null by done. cbn [orb]. unfold take_initiator.
      by rewrite bind_run, bind_run, get_run, bind_run, Hgone.
  - intros Hnull. split.
    + apply wp_catch_eq. rewrite (not_null state) by done.
      destruct Hnull as [->| ->]; cbn [is_null N.eqb orb]; [by apply wp_return_code|].
      destruct (is_null resp_payload); by apply wp_return_code.
    + unfold decoypath_initiator_state_free, catch_unwind_unit. rewrite not_null by done. cbn [negb].
      unfold take_initiator. by rewrite bind_run, bind_run, get_run, bind_run, Hst.
Qed.

(** ** Sending *)

(** The arguments of a well-formed call and what they point to. *)
Record send_call s (channel payload payload_len message_id message_id_len out_envelopes
    out_envelopes_len : N) (ch : SecureChannel) (pl mid : bytes) (capacity : N) : Prop := {
  sc_nonnull : channel ≠ 0 ∧ payload ≠ 0 ∧ message_id ≠ 0 ∧ out_envelopes ≠ 0 ∧ out_envelopes_len ≠ 0;
  sc_channel : channels s !! channel = Some ch;
  sc_payload : mem_read (N.to_nat payload_len) payload (mem s) = Some pl;
  sc_payload_len : payload_len <= MAX_PAYLOAD_SIZE;
  sc_mid : mem_read (N.to_nat message_id_len) message_id (mem s) = Some mid;
  sc_mid_len : message_id_len <= MAX_MESSAGE_ID_LEN;
  sc_size : sizes s !! out_envelopes_len = Some capacity;
  sc_out : mapped out_envelopes capacity (mem s);
}.

(** The state after [send] has run, before anything is copied out. *)
Definition after_channel s (p : N) (ch : SecureChannel) (r : rng) : ffi_state :=
  set_os r (set_channels (<[p := ch]> (channels s)) s).

Lemma channel_send_run s a b cc d e f g ch pl mid v seq :
  send_call s a b cc d e f g ch pl mid v →
  key_wf (current_key ch) → n_paths ch ≠ 0 → n_paths ch <= MAX_N_PATHS → next_send ch = Some seq →
  ∃ envs r',
    send pl mid (ch, os s) = (Ok envs, (sent ch seq, r'))
    ∧ carries (current_key ch) (n_paths ch) seq mid pl envs
    ∧ let required := n_paths ch * ENVELOPE_TOTAL_LEN in
      let s1 := after_channel s a (sent ch seq) r' in
      decoypath_channel_send a b cc d e f g s =
        if v <? required
        then (Returned DECOYPATH_ERR_BUFFER_TOO_SMALL, set_sizes (<[g := required]> (sizes s)) s1)
        else (Returned DECOYPATH_OK, set_sizes (<[g := required]> (sizes s))
                (set_mem (mem_write f (concat envs) (mem s)) s1)).
Proof.
  intros [(Na & Nb & Nd & Nf & Ng) Hch Hb Hcc Hd He Hv Hm] Hk Hn Hn' Hseq. unfold MAX_N_PATHS in Hn'.
  pose proof (mem_read_len _ _ _ _ Hb) as Lp. pose proof (mem_read_len _ _ _ _ Hd) as Lm.
  destruct (send_run ch (os s) seq pl mid) as (envs & r' & E & Hca); try done; try lia.
  { unfold ISIZE_MAX, ENVELOPE_TOTAL_LEN. lia. }
  exists envs, r'. split; [done|]. split; [done|].
  destruct Hca as (_ & _ & _ & _ & Hlen & _ & _ & Hwf & _). cbn zeta. rewrite <-Hlen in *.
  unfold decoypath_channel_send. rewrite !not_null by done. cbn [orb].
  destruct (N.ltb_spec MAX_PAYLOAD_SIZE cc); [lia|]. destruct (N.ltb_spec MAX_MESSAGE_ID_LEN e); [lia|].
  destruct (N.ltb_spec v (len envs * ENVELOPE_TOTAL_LEN)) as [Hlt|Hge]; apply wp_catch_eq.
  all: apply wp_bind; eapply wp_deref_channel; [exact Hch|].
  all: apply wp_bind; eapply wp_read_slice; [exact Hb|].
  all: apply wp_bind; eapply wp_read_slice; [exact Hd|].
  all: apply wp_bind; eapply wp_on_channel; [exact Hch|]; rewrite E; cbn zeta.
  all: apply wp_bind; eapply wp_read_size; [exact Hv|].
  - destruct (N.ltb_spec v (len envs * ENVELOPE_TOTAL_LEN)); [|lia].
    apply wp_bind. eapply wp_write_size; [exact Hv|]. by apply wp_return_code.
  - destruct (N.ltb_spec v (len envs * ENVELOPE_TOTAL_LEN)); [lia|].
    apply (mapped_weaken _ _ (len envs * ENVELOPE_TOTAL_LEN)) in Hm; [|done].
    destruct (mem_read_mapped _ _ _ Hm) as (old & Hold & _).
    apply wp_bind. eapply wp_read_slice; [exact Hold|].
    apply wp_bind, wp_copy_envelopes; [done|lia|done|]. rewrite N.mul_0_l, N.add_0_r.
    apply wp_bind. eapply wp_write_size; [exact Hv|]. by apply wp_ret.
Qed.

(** C22. [decoypath_channel_send] on a well-formed call.  If the output buffer is
    large enough it receives exactly the concatenation of the envelopes of
    the message and the length variable their size.  If it is too small only
    the required size is reported; but the channel has moved on all the same:
    its counter and key are those after the message, whose envelopes are
    gone, so that the retry the code suggests sends under the next sequence
    number and the peer sees a gap. *)
Theorem ffi_send_outcomes s a b cc d e f g ch pl mid v seq :
  send_call s a b cc d e f g ch pl mid v →
  key_wf (current_key ch) → n_paths ch ≠ 0 → n_paths ch <= MAX_N_PATHS → next_send ch = Some seq →
  let required := n_paths ch * ENVELOPE_TOTAL_LEN in
  (required <= v → ∃ envs r', carries (current_key ch) (n_paths ch) seq mid pl envs
     ∧ decoypath_channel_send a b cc d e f g s
       = (Returned DECOYPATH_OK, set_sizes (<[g := required]> (sizes s))
            (set_mem (mem_write f (concat envs) (mem s)) (after_channel s a (sent ch seq) r'))))
  ∧ (v < required → ∃ r' s', 
       decoypath_channel_send a b cc d e f g s = (Returned DECOYPATH_ERR_BUFFER_TOO_SMALL, s')
       ∧ s' = set_sizes (<[g := required]> (sizes s)) (after_channel s a (sent ch seq) r')
       ∧ mem s' = mem s
       ∧ (seq + 1 < U64_MOD → ∃ ch', channels s' !! a = Some ch' ∧ next_send ch' = Some (seq + 1)
            ∧ current_key ch' = derive_next (current_key ch))).
Proof.
  intros Hc Hk Hn Hn' Hseq required.
  destruct (channel_send_run _ _ _ _ _ _ _ _ _ _ _ _ _ Hc Hk Hn Hn' Hseq) as (envs & r' & _ & Hca & E).
  cbn zeta in E. fold required in E. split; intros Hv.
  - destruct (N.ltb_spec v required); [lia|]. by exists envs, r'.
  - destruct (N.ltb_spec v required); [|lia]. exists r'. eexists. split; [exact E|].
    split; [done|]. split; [done|]. intros Hlt. exists (sent ch seq). cbn.
    split; [apply lookup_insert_eq|]. split; [|done]. by apply add_u64_no_overflow.
Qed.

(** ** Receiving *)

Record receive_call s (channel envelopes envelopes_len message_id message_id_len out_payload
    out_payload_len : N) (ch : SecureChannel) (envs : list bytes) (mid : bytes) (capacity : N) : Prop := {
  rv_nonnull : channel ≠ 0 ∧ envelopes ≠ 0 ∧ message_id ≠ 0 ∧ out_payload ≠ 0 ∧ out_payload_len ≠ 0;
  rv_channel : channels s !! channel = Some ch;
  rv_envelopes : mem_read (N.to_nat envelopes_len) envelopes (mem s) = Some (concat envs);
  rv_wf : envelopes_wf envs;
  rv_count : 0 < len envs ∧ len envs <= MAX_N_PATHS;
  rv_mid : mem_read (N.to_nat message_id_len) message_id (mem s) = Some mid;
  rv_mid_len : message_id_len <= MAX_MESSAGE_ID_LEN;
  rv_size : sizes s !! out_payload_len = Some capacity;
  rv_out : mapped out_payload capacity (mem s);
}.

Lemma after_channel_same s p ch : channels s !! p = Some ch → after_channel s p ch (os s) = s.
Proof. apply set_channel_same. Qed.

(** Up to the result of [receive]. *)
Lemma channel_receive_prefix now s a b cc d e f g h ch envs mid v (R : Z → ffi_state → Prop) :
  receive_call s a b cc e f g h ch envs mid v →
  match receive now envs d mid ch with
  | (Ok p, ch') =>
      let s1 := after_channel s a ch' (os s) in
      if v <? len p then R DECOYPATH_ERR_BUFFER_TOO_SMALL (set_sizes (<[h := len p]> (sizes s)) s1)
      else R DECOYPATH_OK (set_sizes (<[h := len p]> (sizes s)) (set_mem (mem_write g p (mem s)) s1))
  | (Err er, ch') => R (receive_error_code er) (after_channel s a ch' (os s))
  | (Panic, _) => False
  end →
  ∃ code s', decoypath_channel_receive now a b cc d e f g h s = (Returned code, s') ∧ R code s'.
Proof.
  intros [(Na & Nb & Ne & Ng & Nh) Hch Hb Hwf [Hc0 Hc1] He Hf Hv Hm] HR.
  assert (Hcc : cc = len envs * ENVELOPE_TOTAL_LEN)
    by (rewrite <-(mem_read_len _ _ _ _ Hb); by apply len_concat).
  assert (Hsplit : split_envelopes (N.to_nat (cc / ENVELOPE_TOTAL_LEN)) 0 (concat envs) = Some envs).
  { rewrite Hcc, N.div_mul, to_nat_len by done. by apply (split_envelopes_concat 0 []). }
  unfold decoypath_channel_receive. rewrite !not_null by done. cbn [orb].
  destruct (N.ltb_spec MAX_MESSAGE_ID_LEN f); [lia|].
  destruct (N.eqb_spec cc 0); [unfold ENVELOPE_TOTAL_LEN in *; lia|]. cbn [orb].
  assert (cc mod ENVELOPE_TOTAL_LEN = 0) as Hmod by (rewrite Hcc; by apply N.Div0.mod_mul).
  rewrite Hmod. cbn [N.eqb negb orb].
  destruct (N.ltb_spec (MAX_N_PATHS * ENVELOPE_TOTAL_LEN) cc); [unfold ENVELOPE_TOTAL_LEN in *; lia|].
  apply wp_catch. cbn zeta.
  apply wp_bind. eapply wp_read_slice; [exact Hb|]. apply wp_bind. eapply wp_unwrap; [exact Hsplit|].
  apply wp_bind. eapply wp_deref_channel; [exact Hch|]. apply wp_bind. eapply wp_read_slice; [exact He|].
  apply wp_bind. eapply wp_on_channel; [exact Hch|]. rewrite receive_method_run.
  destruct (receive now envs d mid ch) as [[p|er|] ch']; cbn [fst snd]; [|done|done].
  cbn zeta in HR. apply wp_bind. eapply wp_read_size; [exact Hv|].
  destruct (N.ltb_spec v (len p)) as [|Hge].
  - apply wp_bind. eapply wp_write_size; [exact Hv|]. by apply wp_return_code.
  - apply wp_bind, wp_write_slice; [by eapply mapped_weaken|done|].
    apply wp_bind. eapply wp_write_size; [exact Hv|]. by apply wp_ret.
Qed.

(** C21. [decoypath_channel_receive] on a well-formed call.  A rejected packet is
    reported with the code of its error and nothing at all has changed.  An
    accepted one is copied to the output buffer, where the caller reads
    exactly the payload.  If the buffer is too small only the required size
    is reported, but the message has been consumed: no later call with that
    sequence number succeeds, whatever envelopes and id it presents. *)
Theorem ffi_receive_outcomes t now s a b cc d e f g h ch envs mid v :
  receive_call s a b cc e f g h ch envs mid v → chan_inv t ch → t <= now →
  (∀ er ch', receive now envs d mid ch = (Err er, ch') →
     decoypath_channel_receive now a b cc d e f g h s = (Returned (receive_error_code er), s))
  ∧ (∀ p ch', receive now envs d mid ch = (Ok p, ch') →
     ∃ code s', decoypath_channel_receive now a b cc d e f g h s = (Returned code, s')
       ∧ sizes s' = <[h := len p]> (sizes s) ∧ channels s' = <[a := ch']> (channels s)
       ∧ (len p <= v → code = DECOYPATH_OK ∧ mem_read (N.to_nat (len p)) g (mem s') = Some p)
       ∧ (v < len p → code = DECOYPATH_ERR_BUFFER_TOO_SMALL ∧ mem s' = mem s
            ∧ ∀ now' envs' mid', now <= now' → envelopes_wf envs' →
                ∃ er, receive now' envs' d mid' ch' = (Err er, ch'))).
Proof.
  intros Hc Hinv Ht. pose proof (chan_inv_mono _ _ _ Hinv Ht) as Hinv'.
  pose proof (rv_wf _ _ _ _ _ _ _ _ _ _ _ _ Hc) as Hwf.
  pose proof (rv_channel _ _ _ _ _ _ _ _ _ _ _ _ Hc) as Hch. split.
  - intros er ch' E.
    destruct (receive_cases _ _ _ _ _ _ _ Hinv' Hwf E) as [(er' & [= <-] & ->)|(p & l & ? & _)]; [|done].
    destruct (channel_receive_prefix now s a b cc d e f g h ch envs mid v
      (λ c s', c = receive_error_code er ∧ s' = s) Hc) as (code & s' & Ec & -> & ->); [|done].
    rewrite E. split; [done|]. by apply after_channel_same.
  - intros p ch' E.
    destruct (receive_cases _ _ _ _ _ _ _ Hinv' Hwf E) as [(er & ? & _)|(p' & l & _ & Hl & _ & Hch')]; [done|].
    apply (channel_receive_prefix now s a b cc d e f g h ch envs mid v _ Hc). rewrite E. cbn zeta.
    destruct (N.ltb_spec v (len p)).
    + split; [done|]. split; [done|]. split; [lia|]. intros _. split; [done|]. split; [done|].
      intros now' envs' mid' Hnow Hwf'.
      assert (Hcons : consumed ch' d) by (rewrite Hch'; by eapply commit_consumed; [| |right]).
      assert (Hinv1 : chan_inv now' ch')
        by (eapply chan_inv_mono; [|exact Hnow]; rewrite Hch'; by apply commit_inv).
      destruct (receive now' envs' d mid' ch') as [res ch2] eqn:E2.
      destruct (receive_cases _ _ _ _ _ _ _ Hinv1 Hwf' E2) as [(er & -> & ->)|(p2 & l2 & _ & Hl2 & _)];
        [by eexists|]. by apply step1_not_consumed in Hl2.
    + split; [done|]. split; [done|]. split; [|lia]. intros _. split; [done|]. apply mem_read_write.
Qed.
End functional.
