(* ===== verification/FfiSession.v ===== *)
(** * A session through the C interface

    A complete handshake and a message, as a C program would run them: every
    value goes through the caller's buffers and every object through a handle. *)

From S2P Require Import Prelude Outcome Primitives Errors Types Crypto Handshake PathEngine Envelope AntiReplay BTree Channel ChannelFacts ChannelInv Ffi FfiLogic FfiFunctional.

Section ffi_session.
Context `{BuildProfile} `{Ed25519Laws} `{!X25519} `{!X25519Laws} `{!OsRngLaws} `{HashesLaws}
  `{AeadLaws} `{ZeroizeLaws}.
Implicit Types s : ffi_state.

(** ** The three calls of a handshake, when they succeed *)

Lemma ffi_initiate_run s ip rp hv w lw kb pb vk v x :
  ip ≠ 0 → rp ≠ 0 → hv ≠ 0 → w ≠ 0 → lw ≠ 0 →
  mem_read (N.to_nat 32) ip (mem s) = Some kb → mem_read (N.to_nat 32) rp (mem s) = Some pb →
  VerifyingKey_from_bytes pb = Some vk → sizes s !! lw = Some v → INIT_PAYLOAD_LEN <= v →
  mapped w INIT_PAYLOAD_LEN (mem s) → handles s !! hv = Some x →
  let p := initiate_payload (IdentityPrivateKey_new kb) vk (draw (os s)).1.1 (draw (os s)).1.2 in
  let st := initiate_state (IdentityPrivateKey_new kb) vk (draw (os s)).1.1 (draw (os s)).1.2 in
  decoypath_initiator_initiate ip rp hv w lw s =
    (Returned DECOYPATH_OK,
     {| mem := mem_write w (init_payload_wire p) (mem s);
        sizes := <[lw := INIT_PAYLOAD_LEN]> (sizes s);
        handles := <[hv := next_box s]> (handles s);
        initiators := <[next_box s := st]> (initiators s);
        channels := channels s; next_box := next_box s + 1; os := (draw (os s)).2 |}).
Proof.
  intros Ni Nr Nh Nw Nl Hi Hr Hvk Hv Hge Hm Hx p st.
  assert (Hp : init_payload_wf p) by apply draw_nonce.
  unfold decoypath_initiator_initiate. rewrite !not_null by done. cbn [orb]. apply wp_catch_eq.
  apply wp_bind. eapply wp_read_size; [exact Hv|].
  destruct (N.ltb_spec v INIT_PAYLOAD_LEN); [lia|].
  apply wp_bind. eapply wp_read_slice; [exact Hi|].
  apply wp_bind, wp_try_into_32; [by eapply mem_read_len|].
  apply wp_bind. eapply wp_read_slice; [exact Hr|].
  apply wp_bind, wp_try_into_32; [by eapply mem_read_len|]. cbn zeta.
  apply wp_bind, wp_lift. rewrite Hvk. cbn [o_ok_or].
  apply wp_bind, wp_on_os. rewrite initiate_run. fold p st.
  apply wp_bind. eapply wp_unwrap; [by apply init_to_bytes_wire|].
  apply wp_bind, wp_write_slice; [done|by apply len_init_wire|].
  apply wp_bind. eapply wp_write_size; [exact Hv|].
  apply wp_bind, wp_box_initiator. apply wp_bind. eapply wp_write_handle; [exact Hx|].
  by apply wp_ret.
Qed.

Lemma ffi_respond_run s rp win w lw hv n kb p rk v x :
  rp ≠ 0 → win ≠ 0 → w ≠ 0 → lw ≠ 0 → hv ≠ 0 → n ≠ 0 → n <= MAX_N_PATHS →
  mem_read (N.to_nat 32) rp (mem s) = Some kb → init_payload_wf p →
  mem_read (N.to_nat INIT_PAYLOAD_LEN) win (mem s) = Some (init_payload_wire p) →
  sizes s !! lw = Some v → RESP_PAYLOAD_LEN <= v → mapped w RESP_PAYLOAD_LEN (mem s) →
  handles s !! hv = Some x →
  let resp := respond_payload (IdentityPrivateKey_new kb) p (draw (os s)).1.1 (draw (os s)).1.2 in
  respond (IdentityPrivateKey_new kb) None p (os s) = (Ok (resp, rk), (draw (os s)).2) →
  decoypath_responder_respond rp 0 win INIT_PAYLOAD_LEN w lw hv n s =
    (Returned DECOYPATH_OK,
     {| mem := mem_write w (resp_payload_wire resp) (mem s);
        sizes := <[lw := RESP_PAYLOAD_LEN]> (sizes s);
        handles := <[hv := next_box s]> (handles s);
        initiators := initiators s;
        channels := <[next_box s := SecureChannel_new rk n]> (channels s);
        next_box := next_box s + 1; os := (draw (os s)).2 |}).
Proof.
  intros Nr Ni Nw Nl Nh Hn Hn' Hr Hp Hin Hv Hge Hm Hx resp E.
  assert (Hresp : resp_payload_wf resp) by apply draw_nonce.
  unfold decoypath_responder_respond. rewrite !not_null by done. cbn [orb]. rewrite N.eqb_refl. cbn [negb].
  apply wp_catch_eq. apply wp_bind. eapply wp_read_size; [exact Hv|].
  destruct (N.ltb_spec v RESP_PAYLOAD_LEN); [lia|]. destruct (N.eqb_spec n 0); [lia|]. cbn [orb].
  destruct (N.ltb_spec MAX_N_PATHS n); [lia|].
  apply wp_bind. eapply wp_read_slice; [exact Hr|].
  apply wp_bind, wp_try_into_32; [by eapply mem_read_len|]. cbn zeta.
  apply wp_bind. cbn [is_null N.eqb negb]. apply wp_ret.
  apply wp_bind. eapply wp_read_slice; [exact Hin|].
  apply wp_bind, wp_lift. rewrite init_from_wire by done. cbn [o_map_err].
  apply wp_bind, wp_on_os. rewrite E.
  apply wp_bind. eapply wp_unwrap; [by apply resp_to_bytes_wire|].
  apply wp_bind, wp_write_slice; [done|by apply len_resp_wire|].
  apply wp_bind. eapply wp_write_size; [exact Hv|].
  apply wp_bind, wp_box_channel. apply wp_bind. eapply wp_write_handle; [exact Hx|].
  by apply wp_ret.
Qed.

Lemma ffi_finalize_run s h w hv n st resp rk x :
  h ≠ 0 → w ≠ 0 → hv ≠ 0 → n ≠ 0 → n <= MAX_N_PATHS →
  initiators s !! h = Some st → resp_payload_wf resp →
  mem_read (N.to_nat RESP_PAYLOAD_LEN) w (mem s) = Some (resp_payload_wire resp) →
  finalize st resp = Ok rk → handles s !! hv = Some x →
  decoypath_initiator_finalize h w RESP_PAYLOAD_LEN hv n s =
    (Returned DECOYPATH_OK,
     {| mem := mem s; sizes := sizes s;
        handles := <[hv := next_box s]> (handles s);
        initiators := delete h (initiators s);
        channels := <[next_box s := SecureChannel_new rk n]> (channels s);
        next_box := next_box s + 1; os := os s |}).
Proof.
  intros Nh Nw Nv Hn Hn' Hst Hp Hin Hfin Hx.
  unfold decoypath_initiator_finalize. rewrite !not_null by done. cbn [orb]. apply wp_catch_eq.
  apply wp_bind. eapply wp_take_initiator; [exact Hst|]. rewrite N.eqb_refl. cbn [negb].
  destruct (N.eqb_spec n 0); [lia|]. cbn [orb]. destruct (N.ltb_spec MAX_N_PATHS n); [lia|].
  apply wp_bind. eapply wp_read_slice; [exact Hin|].
  apply wp_bind, wp_lift. rewrite resp_from_wire by done. cbn [o_map_err].
  apply wp_bind, wp_lift. rewrite Hfin. cbn [o_map_err].
  apply wp_bind, wp_box_channel. apply wp_bind. eapply wp_write_handle; [exact Hx|].
  by apply wp_ret.
Qed.

(** The handshake of two identities, independent of how it is carried. *)
Lemma handshake_pure ik rk r0 r1 :
  let vk := IdentityPrivateKey_verifying_key rk in
  let p := initiate_payload ik vk (draw r0).1.1 (draw r0).1.2 in
  let resp := respond_payload rk p (draw r1).1.1 (draw r1).1.2 in
  ∃ root, respond rk None p r1 = (Ok (resp, root), (draw r1).2)
    ∧ finalize (initiate_state ik vk (draw r0).1.1 (draw r0).1.2) resp = Ok root
    ∧ len (RootKey_0 root) = 32.
Proof.
  intros vk p resp. destruct (respond_key_total rk p (draw r1).1.1 (draw r1).1.2) as (root & Hroot & Hl).
  exists root. split; [|split; [|done]].
  - rewrite respond_spec. cbn [respond_peer_ok]. unfold p, vk. rewrite initiation_verifies.
    fold vk p. by rewrite Hroot.
  - rewrite finalize_spec. cbn [responder_identity_pub resp respond_payload
      expected_responder_pub initiate_state]. rewrite VerifyingKey_eq_refl.
    unfold resp, p, vk. rewrite response_verifies, keys_agree. apply Hroot.
Qed.

(** A store to a variable leaves every variable allocated. *)
Lemma insert_is_Some (m : gmap N N) i v j x : m !! j = Some x → is_Some (<[i := v]> m !! j).
Proof. intros Hj. rewrite lookup_insert_is_Some'. right. by eexists. Qed.

(** Buffers, length and handle variables for a handshake inside one process. *)
Record handshake_memory s (ip rpub rp hst w1 l1 w2 l2 ha hb n : N) (ikb rkb : bytes) : Prop := {
  hm_nonnull : Forall (λ p, p ≠ 0) [ip; rpub; rp; hst; w1; l1; w2; l2; ha; hb; next_box s];
  hm_n : n ≠ 0 ∧ n <= MAX_N_PATHS;
  hm_ik : mem_read (N.to_nat 32) ip (mem s) = Some ikb;
  hm_rk : mem_read (N.to_nat 32) rp (mem s) = Some rkb;
  hm_pub : mem_read (N.to_nat 32) rpub (mem s)
           = Some (VerifyingKey_as_bytes (IdentityPrivateKey_verifying_key (IdentityPrivateKey_new rkb)));
  hm_l1 : ∃ v, sizes s !! l1 = Some v ∧ INIT_PAYLOAD_LEN <= v;
  hm_l2 : ∃ v, sizes s !! l2 = Some v ∧ RESP_PAYLOAD_LEN <= v;
  hm_l12 : l1 ≠ l2;
  hm_w1 : mapped w1 INIT_PAYLOAD_LEN (mem s);
  hm_w2 : mapped w2 RESP_PAYLOAD_LEN (mem s);
  hm_disjoint : w1 + INIT_PAYLOAD_LEN <= rp ∨ rp + 32 <= w1;
  hm_handles : is_Some (handles s !! hst) ∧ is_Some (handles s !! ha) ∧ is_Some (handles s !! hb);
  hm_distinct : ha ≠ hb;
}.

(** C16. A handshake through C buffers agrees on a channel.  With valid buffers
    the three calls of a handshake return [DECOYPATH_OK]; the two handle
    variables then hold two different live channels, both fresh over the
    same 32-byte root key and path count, and the initiator state is gone. *)
Theorem ffi_handshake s ip rpub rp hst w1 l1 w2 l2 ha hb n ikb rkb :
  handshake_memory s ip rpub rp hst w1 l1 w2 l2 ha hb n ikb rkb →
  ∃ s1 s2 s3 h a b root,
    decoypath_initiator_initiate ip rpub hst w1 l1 s = (Returned DECOYPATH_OK, s1)
    ∧ handles s1 !! hst = Some h
    ∧ decoypath_responder_respond rp 0 w1 INIT_PAYLOAD_LEN w2 l2 hb n s1 = (Returned DECOYPATH_OK, s2)
    ∧ decoypath_initiator_finalize h w2 RESP_PAYLOAD_LEN ha n s2 = (Returned DECOYPATH_OK, s3)
    ∧ handles s3 !! ha = Some a ∧ handles s3 !! hb = Some b ∧ a ≠ b
    ∧ channels s3 !! a = Some (SecureChannel_new root n)
    ∧ channels s3 !! b = Some (SecureChannel_new root n)
    ∧ initiators s3 !! h = None ∧ len (RootKey_0 root) = 32.
Proof.
  intros [Hnn [Hn Hn'] Hik Hrk Hpub (v1 & Hl1 & Hv1) (v2 & Hl2 & Hv2) Hl Hw1 Hw2 Hd
          ([x1 Hx1] & [x2 Hx2] & [x3 Hx3]) Hab].
  rewrite !Forall_cons in Hnn. destruct Hnn as (N1 & N2 & N3 & N4 & N5 & N6 & N7 & N8 & N9 & N10 & N11 & _).
  set (ik := IdentityPrivateKey_new ikb). set (rk := IdentityPrivateKey_new rkb).
  set (vk := IdentityPrivateKey_verifying_key rk) in *.
  destruct (handshake_pure ik rk (os s) (draw (os s)).2) as (root & Hresp & Hfin & Hroot).
  fold vk in Hresp, Hfin.
  set (p := initiate_payload ik vk (draw (os s)).1.1 (draw (os s)).1.2) in *.
  assert (Hp : init_payload_wf p) by apply draw_nonce.
  pose proof (ffi_initiate_run s ip rpub hst w1 l1 ikb _ vk v1 x1 N1 N2 N4 N5 N6 Hik Hpub
    (VerifyingKey_from_to vk) Hl1 Hv1 Hw1 Hx1) as E1. cbn zeta in E1. fold ik p in E1.
  set (s1 := Build_ffi_state _ _ _ _ _ _ _) in E1.
  destruct (insert_is_Some (handles s) hst (next_box s) hb x3 Hx3) as [x3' Hx3'].
  assert (Hlen1 : len (init_payload_wire p) = INIT_PAYLOAD_LEN) by (by apply len_init_wire).
  assert (R1 : mem_read (N.to_nat 32) rp (mem s1) = Some rkb)
    by (cbn [mem s1]; rewrite mem_read_write_disjoint; [done|rewrite Hlen1; lia]).
  assert (R2 : mem_read (N.to_nat INIT_PAYLOAD_LEN) w1 (mem s1) = Some (init_payload_wire p))
    by (rewrite <-Hlen1; apply mem_read_write).
  assert (R3 : sizes s1 !! l2 = Some v2) by (cbn [sizes s1]; by rewrite lookup_insert_ne).
  pose proof (ffi_respond_run s1 rp w1 w2 l2 hb n rkb p root v2 x3' N3 N5 N7 N8 N10 Hn Hn' R1 Hp R2 R3 Hv2
    (mapped_write _ _ _ _ _ Hw2) Hx3' Hresp) as E2. cbn zeta in E2.
  set (resp := respond_payload _ _ _ _) in E2.
  set (s2 := Build_ffi_state _ _ _ _ _ _ _) in E2.
  assert (Hrp : resp_payload_wf resp) by apply draw_nonce.
  destruct (insert_is_Some (handles s) hst (next_box s) ha x2 Hx2) as [y Hy].
  destruct (insert_is_Some (handles s1) hb (next_box s1) ha y Hy) as [x2' Hx2'].
  assert (R4 : mem_read (N.to_nat RESP_PAYLOAD_LEN) w2 (mem s2) = Some (resp_payload_wire resp)).
  { rewrite <-(len_resp_wire resp Hrp : _ = RESP_PAYLOAD_LEN). apply mem_read_write. }
  pose proof (ffi_finalize_run s2 (next_box s) w2 ha n _ resp root x2' N11 N7 N9 Hn Hn'
    (lookup_insert_eq _ _ _) Hrp R4 Hfin Hx2') as E3.
  eexists s1, s2, _, (next_box s), (next_box s2), (next_box s1), root.
  split; [exact E1|]. split; [apply lookup_insert_eq|]. split; [exact E2|]. split; [exact E3|]. cbn.
  split; [apply lookup_insert_eq|]. split; [rewrite lookup_insert_ne by done; apply lookup_insert_eq|].
  split; [lia|]. split; [apply lookup_insert_eq|].
  split; [rewrite lookup_insert_ne by lia; apply lookup_insert_eq|].
  split; [apply lookup_delete_eq|done].
Qed.

(** ** A message *)

(** A receiving channel at handle [b] that expects the sequence number [seq]
    under the key [k], and an output buffer at [g] with its length variable. *)
Record receiver_ready (t : N) s (b g lg capacity n seq : N) (mid : bytes) (k : RatchetKey) : Prop := {
  rr_channel : ∃ chb l, channels s !! b = Some chb ∧ chan_inv t chb ∧ n_paths chb = n
                 ∧ receive_step1 chb seq mid = Ok l ∧ target_key l = k;
  rr_nonnull : b ≠ 0 ∧ g ≠ 0 ∧ lg ≠ 0;
  rr_size : sizes s !! lg = Some capacity;
  rr_out : mapped g capacity (mem s);
}.

(** C17. A message through C buffers.  A caller that owns the sending channel, the
    receiving channel and the buffers between them sends a payload, passes
    the envelope buffer on as it is, and finds the payload in the output
    buffer, provided the receiving channel is one that expects the sequence
    number under the sender's key, the output buffer is large enough, and the
    envelopes do not overwrite the message id. *)
Theorem ffi_transport t now s a b p pl mp ml f lf g lg cha payload mid v v' seq :
  send_call s a p pl mp ml f lf cha payload mid v →
  key_wf (current_key cha) → n_paths cha ≠ 0 → n_paths cha <= MAX_N_PATHS →
  next_send cha = Some seq → n_paths cha * ENVELOPE_TOTAL_LEN <= v →
  receiver_ready t s b g lg v' (n_paths cha) seq mid (current_key cha) → t <= now →
  a ≠ b → lg ≠ lf → pl <= v' →
  mp + ml <= f ∨ f + n_paths cha * ENVELOPE_TOTAL_LEN <= mp →
  ∃ s1 s2,
    decoypath_channel_send a p pl mp ml f lf s = (Returned DECOYPATH_OK, s1)
    ∧ decoypath_channel_receive now b f (n_paths cha * ENVELOPE_TOTAL_LEN) seq mp ml g lg s1
      = (Returned DECOYPATH_OK, s2)
    ∧ mem_read (N.to_nat pl) g (mem s2) = Some payload ∧ sizes s2 !! lg = Some pl.
Proof.
  intros Hc Hk Hn Hn' Hseq Hv [(chb & l & Hb & Hinv & Hnb & Hl & Htk) (Nb & Ng & Nlg) Hsz Hg] Ht Hab Hlg Hpl Hd.
  destruct (channel_send_run _ _ _ _ _ _ _ _ _ _ _ _ _ Hc Hk Hn Hn' Hseq) as (envs & r' & _ & Hca & E1).
  cbn zeta in E1. destruct (N.ltb_spec v (n_paths cha * ENVELOPE_TOTAL_LEN)); [lia|].
  destruct Hc as [(Na & Np & Nm & Nf & Nlf) _ Hp _ Hm Hml _ _].
  pose proof (mem_read_len _ _ _ _ Hp) as Lp. pose proof (mem_read_len _ _ _ _ Hm) as Lm.
  assert (Hwf : envelopes_wf envs) by (by destruct Hca as (? & ? & _ & _ & _ & _ & _ & ? & _)).
  assert (Hlen : len envs = n_paths cha) by (by destruct Hca as (? & ? & _ & _ & ? & _)).
  assert (Hcl : len (concat envs) = n_paths cha * ENVELOPE_TOTAL_LEN) by (rewrite <-Hlen; by apply len_concat).
  destruct (receive_carried now chb seq mid payload envs l) as [ch' Er];
    [by eapply chan_inv_mono|by rewrite Hnb|by rewrite Lm|done|by rewrite Hnb, Htk|].
  eexists. set (s1 := set_sizes _ _) in E1.
  destruct (channel_receive_prefix now s1 b f (n_paths cha * ENVELOPE_TOTAL_LEN) seq mp ml g lg chb envs mid v'
    (λ c s', c = DECOYPATH_OK ∧ mem_read (N.to_nat pl) g (mem s') = Some payload
             ∧ sizes s' !! lg = Some pl)) as (c & s2 & E2 & -> & Hmem & Hsize).
  - split; try done; cbn.
    + by rewrite lookup_insert_ne.
    + rewrite <-Hcl. apply mem_read_write.
    + rewrite Hlen. lia.
    + rewrite mem_read_write_disjoint; [done|]. rewrite Hcl. lia.
    + by rewrite lookup_insert_ne.
    + by apply mapped_write.
  - rewrite Er. cbn zeta. destruct (N.ltb_spec v' (len payload)); [lia|].
    split; [done|]. rewrite <-Lp. split; [apply mem_read_write|apply lookup_insert_eq].
  - exists s2. split; [exact E1|]. split; [exact E2|done].
Qed.
End ffi_session.
