(* ===== verification/RefPrimitives.v ===== *)
(** * A reference instance of the crate interfaces

    Small executable functions that satisfy every law of [Primitives].  They
    are not cryptography: they show that the laws are satisfiable together and
    let the theorems be evaluated on concrete inputs. *)

From Stdlib Require Import Lia.
From S2P Require Import Prelude Outcome Primitives.

(** ** Arrays of a fixed length *)

Definition arr (n : N) : Type := dsig (λ b : bytes, len b = n).

(** Truncate or pad to [n] bytes. *)
Definition fit (n : N) (b : bytes) : bytes :=
  take (N.to_nat n) b ++ zeros (n - len b).

Lemma len_fit n b : len (fit n b) = n.
Proof. unfold fit. rewrite len_app, len_take, len_zeros. lia. Qed.

Lemma fit_id n b : len b = n → fit n b = b.
Proof.
  intros <-. unfold fit. rewrite N.sub_diag, to_nat_len, firstn_all. apply app_nil_r.
Qed.

Definition to_arr (n : N) (b : bytes) : arr n := dexist (fit n b) (len_fit n b).

Lemma arr_len {n} (a : arr n) : len (proj1_sig a) = n.
Proof. exact (proj2_dsig a). Qed.

Lemma to_arr_id {n} (a : arr n) : to_arr n (proj1_sig a) = a.
Proof. apply dsig_eq. cbn. apply fit_id, arr_len. Qed.

Lemma arr_to_from n b : len b = n → proj1_sig (to_arr n b) = b.
Proof. apply fit_id. Qed.

(** ** Random source: a counter that hands out its successive values *)

Fixpoint count_bytes (n : nat) (s : N) : bytes :=
  match n with
  | O => []
  | S n' => u8_of s :: count_bytes n' (s + 1)
  end.

Lemma len_count_bytes n s : len (count_bytes n s) = N.of_nat n.
Proof.
  revert s. induction n as [|n IH]; intros s; [done|].
  cbn [count_bytes]. rewrite len_cons, IH. lia.
Qed.

#[export] Instance ref_rng : OsRng := {|
  rng := N;
  fill_bytes n s := (count_bytes (N.to_nat n) s, s + n);
|}.

#[export] Instance ref_rng_laws : OsRngLaws.
Proof. split. intros n r. cbn. rewrite len_count_bytes. lia. Qed.

(** ** Hashes: a polynomial checksum of 32 bytes *)

Definition checksum (m : bytes) : N :=
  fold_left (λ acc b, (acc * 257 + Byte.to_N b + 1) mod 2 ^ 64) m 5381.

Definition ref_hash (m : bytes) : bytes :=
  let c := checksum m in to_be_bytes 8 c ++ to_be_bytes 24 c.

Lemma len_ref_hash m : len (ref_hash m) = 32.
Proof. unfold ref_hash. by rewrite len_app, !len_to_be_bytes. Qed.

#[export] Instance ref_hashes : Hashes := {|
  sha256 := ref_hash;
  hkdf_sha256 salt ikm info n :=
    if n <=? 255 * 32 then Some (fit n (ref_hash (salt ++ ikm ++ info))) else None;
  HmacSha256 := bytes;
  hmac_new_from_slice k := Some k;
  hmac_update h m := h ++ m;
  hmac_finalize := ref_hash;
|}.

#[export] Instance ref_hashes_laws : HashesLaws.
Proof.
  split.
  - apply len_ref_hash.
  - intros salt ikm info n Hn. unfold hkdf_sha256, ref_hashes.
    rewrite (proj2 (N.leb_le _ _) Hn). eexists. split; [done|]. apply len_fit.
  - intros k. by exists k.
  - intros h. apply len_ref_hash.
Qed.

(** ** Signatures: the public key is the private key, the signature the key
    with a checksum.  Keys whose first byte is [0xff] do not decode. *)

Definition vk_valid (b : bytes) : Prop := len b = 32 ∧ head b ≠ Some Byte.xff.
Definition vk_fix (b : bytes) : bytes :=
  match b with Byte.xff :: t => Byte.x00 :: t | _ => b end.

Lemma vk_fix_valid b : len b = 32 → vk_valid (vk_fix b).
Proof.
  intros Hb. destruct b as [|x t]; [done|]. split.
  - rewrite <-Hb. by destruct x.
  - by destruct x.
Qed.

Definition ref_vk : Type := dsig vk_valid.

Definition ref_sign (vk m : bytes) : bytes := vk ++ ref_hash m.

Lemma len_ref_sign (vk : ref_vk) m : len (ref_sign (proj1_sig vk) m) = 64.
Proof.
  unfold ref_sign. destruct (proj2_dsig vk) as [L _]. rewrite len_app, len_ref_hash. lia.
Qed.

Definition ref_verifying_key (sk : arr 32) : ref_vk :=
  dexist (vk_fix (proj1_sig sk)) (vk_fix_valid _ (arr_len sk)).

Definition ref_vk_from_bytes (b : bytes) : option ref_vk :=
  match decide (vk_valid b) with
  | left H => Some (dexist b H)
  | right _ => None
  end.

#[export] Instance ref_ed25519 : Ed25519 := {|
  SigningKey := arr 32;
  VerifyingKey := ref_vk;
  Signature := arr 64;
  SigningKey_generate s := (to_arr 32 (count_bytes 32 s), s + 32);
  SigningKey_from_bytes := to_arr 32;
  SigningKey_to_bytes := proj1_sig;
  verifying_key := ref_verifying_key;
  sign sk m := to_arr 64 (ref_sign (proj1_sig (ref_verifying_key sk)) m);
  VerifyingKey_from_bytes := ref_vk_from_bytes;
  VerifyingKey_as_bytes := proj1_sig;
  VerifyingKey_eq a b := bool_decide (proj1_sig a = proj1_sig b);
  verify vk m sg := bool_decide (proj1_sig sg = ref_sign (proj1_sig vk) m);
  Signature_from_bytes := to_arr 64;
  Signature_to_bytes := proj1_sig;
|}.

#[export] Instance ref_ed25519_laws : Ed25519Laws.
Proof.
  split.
  - apply arr_len.
  - intros vk. by destruct (proj2_dsig vk).
  - apply arr_len.
  - apply arr_to_from.
  - apply to_arr_id.
  - intros b vk. cbn. unfold ref_vk_from_bytes. by case_decide; intros; simplify_eq.
  - intros vk. cbn. unfold ref_vk_from_bytes. case_decide as E.
    + f_equal. by apply dsig_eq.
    + destruct E. apply (proj2_dsig vk).
  - intros a b. apply bool_decide_eq_true.
  - apply arr_to_from.
  - apply to_arr_id.
  - intros sk m. apply bool_decide_eq_true_2, arr_to_from.
    apply (len_ref_sign (ref_verifying_key sk)).
Qed.

(** ** Key exchange: multiplication of 256-bit numbers *)

Definition ref_public (a : N) : arr 32 := to_arr 32 (to_be_bytes 32 a).
Definition ref_dh (a : N) (p : arr 32) : bytes :=
  to_be_bytes 32 ((a mod 2 ^ 256) * from_be_bytes (proj1_sig p)).

#[export] Instance ref_x25519 : X25519 := {|
  EphemeralSecret := N;
  X25519PublicKey := arr 32;
  random_from_rng s := (checksum (count_bytes 32 s), s + 32);
  X25519PublicKey_from_secret := ref_public;
  X25519PublicKey_from_bytes := to_arr 32;
  X25519PublicKey_as_bytes := proj1_sig;
  X25519_diffie_hellman := ref_dh;
|}.

#[export] Instance ref_x25519_laws : X25519Laws.
Proof.
  split.
  - apply arr_len.
  - apply arr_to_from.
  - apply to_arr_id.
  - intros. apply len_to_be_bytes.
  - intros a b. unfold X25519_diffie_hellman, X25519PublicKey_from_secret, ref_x25519,
      ref_dh, ref_public.
    rewrite !arr_to_from, !from_to_be_bytes by apply len_to_be_bytes.
    change (256 ^ N.of_nat 32) with (2 ^ 256). by rewrite N.mul_comm.
Qed.

(** ** AEAD: a key stream added to the bytes and a 16-byte checksum *)

Definition byte_add (a b : Byte.byte) : Byte.byte := u8_of (Byte.to_N a + Byte.to_N b).
Definition byte_sub (a b : Byte.byte) : Byte.byte := u8_of (Byte.to_N a + (256 - Byte.to_N b)).

Lemma byte_sub_add a b : byte_sub (byte_add a b) b = a.
Proof.
  unfold byte_sub, byte_add. rewrite to_N_u8_of. rewrite <-(u8_of_to_N a) at 2.
  unfold u8_of. do 2 f_equal. pose proof (to_N_bound a). pose proof (to_N_bound b).
  rewrite N.Div0.add_mod_idemp_l.
  replace (Byte.to_N a + Byte.to_N b + (256 - Byte.to_N b)) with (Byte.to_N a + 1 * 256) by lia.
  apply N.Div0.mod_add.
Qed.

Lemma byte_add_sub a b : byte_add (byte_sub a b) b = a.
Proof.
  unfold byte_sub, byte_add. rewrite to_N_u8_of. rewrite <-(u8_of_to_N a) at 2.
  unfold u8_of. do 2 f_equal. pose proof (to_N_bound a). pose proof (to_N_bound b).
  rewrite N.Div0.add_mod_idemp_l.
  replace (Byte.to_N a + (256 - Byte.to_N b) + Byte.to_N b) with (Byte.to_N a + 1 * 256) by lia.
  apply N.Div0.mod_add.
Qed.

Definition key_stream (key nonce : bytes) (n : nat) : bytes :=
  count_bytes n (checksum (key ++ nonce)).

Definition ref_tag (key nonce aad ct : bytes) : bytes :=
  to_be_bytes 16 (checksum (key ++ nonce ++ aad ++ ct)).

Definition ref_encrypt (key nonce aad pt : bytes) : bytes * option bytes :=
  let ct := zip_with byte_add pt (key_stream key nonce (length pt)) in
  (ct, Some (ref_tag key nonce aad ct)).

Definition ref_decrypt (key nonce aad ct tag : bytes) : bytes * bool :=
  if bool_decide (tag = ref_tag key nonce aad ct)
  then (zip_with byte_sub ct (key_stream key nonce (length ct)), true)
  else (ct, false).

Lemma length_key_stream key nonce n : length (key_stream key nonce n) = n.
Proof. pose proof (len_count_bytes n (checksum (key ++ nonce))). unfold key_stream, len in *. lia. Qed.

Lemma length_zip_stream (f : Byte.byte → Byte.byte → Byte.byte) key nonce l :
  length (zip_with f l (key_stream key nonce (length l))) = length l.
Proof. rewrite length_zip_with, length_key_stream. lia. Qed.

Lemma zip_with_cancel (f g : Byte.byte → Byte.byte → Byte.byte) (l k : bytes) :
  (∀ a b, f (g a b) b = a) → length k = length l → zip_with f (zip_with g l k) k = l.
Proof.
  intros Hfg. revert k. induction l as [|a l IH]; intros [|b k] ?; simplify_eq/=; [done|].
  by rewrite Hfg, IH.
Qed.

Lemma zip_stream_cancel (f g : Byte.byte → Byte.byte → Byte.byte) key nonce l :
  (∀ a b, f (g a b) b = a) →
  let x := zip_with g l (key_stream key nonce (length l)) in
  zip_with f x (key_stream key nonce (length x)) = l.
Proof.
  intros Hfg x. unfold x. rewrite length_zip_stream.
  apply zip_with_cancel; [done|apply length_key_stream].
Qed.

#[export] Instance ref_aead : Aead := {|
  encrypt_in_place_detached := ref_encrypt;
  decrypt_in_place_detached := ref_decrypt;
|}.

#[export] Instance ref_aead_laws : AeadLaws.
Proof.
  split; unfold encrypt_in_place_detached, decrypt_in_place_detached, ref_aead.
  - intros key nonce aad pt _ _ _. do 2 eexists. split; [done|].
    split; [unfold len; by rewrite length_zip_stream|apply len_to_be_bytes].
  - intros key nonce aad pt ct tag _ _ [= <- <-]. unfold ref_decrypt.
    rewrite bool_decide_eq_true_2 by done. f_equal.
    apply (zip_stream_cancel byte_sub byte_add), byte_sub_add.
  - intros key nonce aad ct tag pt _ _ _. unfold ref_decrypt. case_bool_decide as E; [|done].
    intros [= <-]. unfold ref_encrypt.
    rewrite (zip_stream_cancel byte_add byte_sub) by apply byte_add_sub. by rewrite E.
  - intros key nonce aad ct tag. unfold ref_decrypt. case_bool_decide; cbn; [|done].
    unfold len. by rewrite length_zip_stream.
Qed.

#[export] Instance ref_zeroize : Zeroize := {| zeroize_bytes l := zeros (len l) |}.
#[export] Instance ref_zeroize_laws : ZeroizeLaws.
Proof. by split. Qed.

(** Release builds: no overflow checks. *)
#[export] Instance ref_build : BuildProfile := {| overflow_checks := false |}.

#[export] Instance ref_subtle : Subtle := {| ct_eq_bytes a b := bool_decide (a = b) |}.
#[export] Instance ref_subtle_laws : SubtleLaws.
Proof. split. intros a b _. apply bool_decide_eq_true. Qed.
