(* ===== verification/Witnesses.v ===== *)
(** * Witnesses

    Every property at a concrete input, over the reference primitives of
    [RefPrimitives]: two identities, a root key of zero bytes, a four-path
    channel and one message. *)

From S2P Require Import Prelude Outcome Primitives Errors Types Crypto Handshake Protocol PathEngine Envelope Decoy AntiReplay ReplayCost BTree Channel Eviction ChannelFacts ChannelInv Receiver Session ChannelHistory RefPrimitives.

(** ** The data *)

Definition r7 : rng := 7.
Definition r100 : rng := 100.
Definition key0 : bytes := zeros 32.
Definition key1 : bytes := count_bytes 32 1.
Definition root0 : RootKey := {| RootKey_0 := key0 |}.
Definition ch0 : SecureChannel := SecureChannel_new root0 4.
Definition pl0 : bytes := b_lit "attack at dawn".
Definition mid0 : bytes := b_lit "id-0".
Definition sent0 := send pl0 mid0 (ch0, r7).
Definition envs0 : list bytes := match sent0.1 with Ok e => e | _ => [] end.
Definition ch1 : SecureChannel := (receive 5 envs0 0 mid0 ch0).2.

Definition ik0 : IdentityPrivateKey := IdentityPrivateKey_new key0.
Definition rk0 : IdentityPrivateKey := IdentityPrivateKey_new key1.
Definition vk0 : VerifyingKey := IdentityPrivateKey_verifying_key rk0.
Definition st0 : InitiatorState := initiate_state ik0 vk0 (draw r7).1.1 (draw r7).1.2.
Definition p0 : HandshakeInitPayload := initiate_payload ik0 vk0 (draw r7).1.1 (draw r7).1.2.
Definition resp0 : HandshakeResponsePayload :=
  respond_payload rk0 p0 (draw r100).1.1 (draw r100).1.2.
Definition ok_or_root0 (o : outcome HandshakeError RootKey) : RootKey :=
  match o with Ok k => k | _ => root0 end.
Definition root_r : RootKey := ok_or_root0 (respond_key rk0 p0 (draw r100).1.1 (draw r100).1.2).
Definition root_i : RootKey := ok_or_root0 (finalize st0 resp0).

Lemma envs0_sent : send pl0 mid0 (ch0, r7) = (Ok envs0, sent0.2).
Proof. vm_compute. reflexivity. Qed.

Lemma envs0_wf : envelopes_wf envs0.
Proof. apply (bool_decide_unpack _). vm_compute. exact I. Qed.

Lemma envs0_received : receive 5 envs0 0 mid0 ch0 = (Ok pl0, ch1).
Proof. vm_compute. reflexivity. Qed.

Lemma envs0_replayed : receive 6 envs0 0 mid0 ch1 = (Err ReplayedSequence, ch1).
Proof. vm_compute. reflexivity. Qed.

Lemma respond0 : respond rk0 None p0 r100 = (Ok (resp0, root_r), (draw r100).2).
Proof.
  rewrite respond_spec. cbn [respond_peer_ok]. unfold p0 at 1 2 3, vk0. rewrite initiation_verifies.
  unfold root_r. destruct (respond_key_total rk0 p0 (draw r100).1.1 (draw r100).1.2) as (k & E & _).
  fold vk0 p0. rewrite E. reflexivity.
Qed.

Lemma finalize0 : finalize st0 resp0 = Ok root_i.
Proof.
  unfold root_i. rewrite finalize_spec. cbn [responder_identity_pub resp0 respond_payload
    expected_responder_pub st0 initiate_state]. unfold vk0 at 1 2 3 4. rewrite VerifyingKey_eq_refl.
  unfold st0, resp0, p0, vk0. rewrite response_verifies.
  by destruct (finalize_key_total (initiate_state ik0 (IdentityPrivateKey_verifying_key rk0)
    (draw r7).1.1 (draw r7).1.2) (respond_payload rk0 (initiate_payload ik0
    (IdentityPrivateKey_verifying_key rk0) (draw r7).1.1 (draw r7).1.2) (draw r100).1.1 (draw r100).1.2))
    as (k & -> & _).
Qed.

(** ** Types and handshake *)

Lemma init_payload_codec_witness :
  init_payload_wf p0
  ∧ ∃ bs, HandshakeInitPayload_to_bytes p0 = Some bs ∧ len bs = INIT_PAYLOAD_LEN.
Proof. split; [vm_compute; reflexivity|]. apply (proj1 (proj2 init_payload_codec)). vm_compute. reflexivity. Defined.

Lemma resp_payload_codec_witness :
  resp_payload_wf resp0
  ∧ ∃ bs, HandshakeResponsePayload_to_bytes resp0 = Some bs ∧ len bs = RESP_PAYLOAD_LEN.
Proof. split; [vm_compute; reflexivity|]. apply (proj1 (proj2 resp_payload_codec)). vm_compute. reflexivity. Defined.

Lemma secret_wrappers_zeroized_witness :
  SigningKey_to_bytes (IdentityPrivateKey_0 (IdentityPrivateKey_drop rk0)) = zeros 32
  ∧ SigningKey_to_bytes (IdentityPrivateKey_0 rk0) ≠ zeros 32.
Proof. split; [apply (secret_wrappers_zeroized rk0 root0 {| RawDhSecret_0 := key1 |})|by vm_compute]. Defined.

Lemma transcripts_bind_witness :
  sign_initiation_msg vk0 vk0 (ephemeral_pub st0) (zeros 16)
  ≠ sign_response_msg vk0 vk0 (ephemeral_pub st0) (ephemeral_pub st0) (zeros 16) (zeros 16).
Proof. apply (proj2 (proj2 transcripts_bind)). Defined.

Lemma handshake_agreement_witness :
  ∃ st p r0' wire1 resp root r1' wire2,
    initiate (E := HandshakeError) ik0 vk0 r7 = (Ok (st, p), r0')
    ∧ HandshakeInitPayload_to_bytes p = Some wire1
    ∧ HandshakeInitPayload_from_bytes wire1 = Ok p
    ∧ respond rk0 (Some (IdentityPrivateKey_verifying_key ik0)) p r100 = (Ok (resp, root), r1')
    ∧ HandshakeResponsePayload_to_bytes resp = Some wire2
    ∧ HandshakeResponsePayload_from_bytes wire2 = Ok resp
    ∧ finalize st resp = Ok root
    ∧ len (RootKey_0 root) = 32.
Proof. apply (handshake_agreement ik0 rk0). right. reflexivity. Defined.

(** A response of another identity is refused. *)
Lemma finalize_outcomes_witness :
  finalize st0 (respond_payload ik0 p0 (draw r100).1.1 (draw r100).1.2)
  = Err PeerIdentityMismatch.
Proof. apply (finalize_outcomes st0). left. split; [reflexivity|]. by vm_compute. Defined.

Lemma respond_outcomes_witness :
  respond rk0 (Some vk0) p0 r100 = (Err PeerIdentityMismatch, r100).
Proof. apply (respond_outcomes rk0 (Some vk0) p0 r100). vm_compute. reflexivity. Defined.

Lemma accepted_key_is_responders_key_witness : root_i = root_r.
Proof.
  apply (accepted_key_is_responders_key ik0 rk0 None r7 st0 p0 (draw r7).2 p0 r100
           resp0 root_r (draw r100).2 resp0 root_i).
  - apply initiate_run.
  - apply respond0.
  - vm_compute. reflexivity.
  - apply finalize0.
  - intros _. reflexivity.
Defined.

(** One honest handshake as a run of the protocol. *)
Definition everybody : VerifyingKey → Prop := λ _, True.
Definition hs_initiated : net :=
  {| initiators := [{| is_state := st0; is_end := None |}]; responders := [] |}.
Definition hs_responded : net :=
  {| initiators := [{| is_state := st0; is_end := None |}];
     responders := [{| rs_key := rk0; rs_received := p0; rs_response := resp0; rs_root := root_r |}] |}.
Definition hs_completed : net :=
  {| initiators := [{| is_state := st0; is_end := Some (resp0, finalize st0 resp0) |}];
     responders := [{| rs_key := rk0; rs_received := p0; rs_response := resp0; rs_root := root_r |}] |}.

Lemma hs_completed_reach : hs_reach everybody hs_completed.
Proof.
  apply (hs_next _ hs_responded).
  - apply (hs_next _ hs_initiated).
    + apply (hs_next _ net_start_state); [apply hs_start|].
      refine (hs_initiate everybody net_start_state ik0 vk0 r7 st0 p0 _ _). apply initiate_run.
    + refine (hs_respond everybody hs_initiated rk0 None p0 r100 (Ok (resp0, root_r)) _ _ respond0).
      intros _ _. apply (signed_initiation hs_initiated _ _ {| is_state := st0; is_end := None |});
        [apply list_elem_of_here|reflexivity|reflexivity].
  - refine (hs_finalize everybody hs_responded 0 {| is_state := st0; is_end := None |} resp0 _ _ _ _);
      [reflexivity|reflexivity|vm_compute; reflexivity|].
    intros _ _.
    apply (signed_response hs_responded _ _
             {| rs_key := rk0; rs_received := p0; rs_response := resp0; rs_root := root_r |});
      [apply list_elem_of_here|reflexivity|reflexivity].
Qed.

Lemma mutual_agreement_witness :
  ∃ t, t ∈ responders hs_completed ∧ answers t st0 ∧ rs_root t = root_i.
Proof.
  destruct (proj1 (mutual_agreement everybody hs_completed hs_completed_reach)
    {| is_state := st0; is_end := Some (resp0, finalize st0 resp0) |} resp0 root_i)
    as (t & Ht & Ha & _ & _ & Hr).
  - apply list_elem_of_here.
  - cbn [is_end]. rewrite finalize0. reflexivity.
  - exact I.
  - exists t. exact (conj Ht (conj Ha Hr)).
Defined.

(** ** Path engine, envelopes, decoys *)

Lemma select_slot_outcomes_witness : ∃ slot, select_slot key0 mid0 4 = Ok slot ∧ slot < 4.
Proof.
  destruct (proj2 (select_slot_outcomes key0 mid0 4)) as (h & v & slot & _ & _ & E & _ & L); [done|].
  exists slot. exact (conj E L).
Defined.

Lemma ratchet_key_operations_witness :
  RatchetKey_eq (RatchetKey_new key0) (RatchetKey_new key1) = true ↔ RatchetKey_new key0 = RatchetKey_new key1.
Proof.
  apply (ratchet_key_operations (RatchetKey_new key0) (RatchetKey_new key1) 5); vm_compute; reflexivity.
Defined.

Lemma seal_open_roundtrip_witness :
  len key0 = 32 ∧ ∃ env r', seal key0 pl0 mid0 r7 = (Ok env, r')
    ∧ len env = ENVELOPE_TOTAL_LEN ∧ open key0 env mid0 = Ok pl0.
Proof.
  split; [reflexivity|]. apply (seal_open_roundtrip key0 pl0 mid0 r7); [reflexivity|]. by vm_compute.
Defined.

(** An envelope of zero bytes does not open. *)
Lemma open_accepts_iff_witness :
  ¬ ∃ nonce flags pad ct tag, zeros 1024 = nonce ++ ct ++ tag ∧ len nonce = 12 ∧ len ct = 996
      ∧ len tag = 16 ∧ len pl0 <= MAX_PAYLOAD_SIZE
      ∧ encrypt_in_place_detached key0 nonce mid0 (plaintext_of flags pl0 pad) = (ct, Some tag).
Proof.
  intros E. apply (open_accepts_iff key0 (zeros 1024) mid0 pl0) in E; [|reflexivity|reflexivity].
  vm_compute in E. discriminate E.
Defined.

Lemma open_total_witness :
  (∃ payload, open key0 (zeros 1024) mid0 = Ok payload ∧ len payload <= MAX_PAYLOAD_SIZE)
  ∨ open key0 (zeros 1024) mid0 = Err DecryptionFailure
  ∨ open key0 (zeros 1024) mid0 = Err InvalidFormat.
Proof. apply (open_total key0 (zeros 1024) mid0). reflexivity. Defined.

Definition frame0 := seal_body key0 pl0 mid0 {| sf_rng := r7; sf_plaintext := [] |}.

Lemma plaintext_buffers_at_return_witness :
  frame0.2 = {| sf_rng := (seal_draw (len pl0) r7).2; sf_plaintext := zeros 996 |}
  ∧ (open_body key0 (zeros 1024) mid0 []).1 = Err DecryptionFailure
  ∧ (decrypt_in_place_detached key0 (zeros 12) mid0 (zeros 996) (zeros 16)).1
    = (open_body key0 (zeros 1024) mid0 []).2.
Proof.
  destruct (plaintext_buffers_at_return key0 pl0 mid0 r7 (zeros 1024) []) as (_ & _ & S & O).
  destruct S as [env' S]; [discriminate|reflexivity|].
  split; [unfold frame0; by rewrite S|].
  specialize (O eq_refl _ _ (surjective_pairing _)). vm_compute in O.
  split; [vm_compute; reflexivity|].
  destruct O as [[_ _]|[[X|[p X]] _]]; [vm_compute; reflexivity|discriminate X|discriminate X].
Defined.

Lemma slots_distribution_witness :
  ∃ l, generate_multi_path_slots (zeros 1024) 2 4 mid0 r7 = (Ok l, Nat.iter 3 decoy_next r7)
    ∧ len l = 4 ∧ index 2 l = Some (zeros 1024).
Proof.
  destruct (proj2 (proj2 (proj2 (slots_distribution (zeros 1024) 2 4 mid0 r7))))
    as (l & E & L & I & _); [reflexivity|by vm_compute|].
  exists l. exact (conj E (conj L I)).
Defined.

Lemma decoy_generated_witness :
  ∃ env r', generate_decoy mid0 r7 = (Ok env, r') ∧ len env = ENVELOPE_TOTAL_LEN.
Proof. destruct (decoy_generated mid0 r7 [] []) as (env & f & _ & E & L & _). exists env, (df_rng f). exact (conj E L). Defined.

(** ** Anti-replay store *)

Definition calls0 : list (N * N * bytes) := [(1, 0, mid0); (2, 1, mid0); (3, 0, mid0)].

Lemma store_refines_log_witness :
  (store_run calls0 (with_capacity_and_window 2 300)).1 = [true; true; false]
  ∧ (log_run calls0 {| log := []; log_capacity := 2; log_window := from_secs 300 |}).1 = [true; true; false]
  ∧ store_len (store_run calls0 (with_capacity_and_window 0 300)).2 = 1.
Proof.
  assert (C : clock_between 0 calls0 10) by (vm_compute; intuition discriminate).
  pose proof (store_refines_log 2 300 calls0 0 10 C) as W.
  pose proof (store_refines_log 0 300 calls0 0 10 C) as W0.
  assert (E : (store_run calls0 (with_capacity_and_window 2 300)).1 = [true; true; false]) by (vm_compute; reflexivity).
  destruct (store_run calls0 (with_capacity_and_window 2 300)) as [bs s].
  destruct (store_run calls0 (with_capacity_and_window 0 300)) as [bs0 s0].
  split; [exact E|]. destruct W as [W _], W0 as (_ & _ & _ & W0). rewrite W.
  split; [exact E|]. apply W0; [reflexivity|discriminate].
Defined.

(** Three refused duplicates do not push an entry out of a store of two. *)
Definition small0 : AntiReplayStore := with_capacity_and_window 2 300.
Definition flood0 : list (N * N * bytes) := [(2, 0, mid0); (3, 0, mid0); (4, 0, mid0)].

Lemma replay_detected_witness :
  (check_and_insert 9 (store_run flood0 (check_and_insert 1 small0 0 mid0).2).2 0 mid0).1 = false.
Proof.
  apply (replay_detected 1 small0 0 mid0 (check_and_insert 1 small0 0 mid0).2 flood0 9).
  - apply (store_inv_new 1 2 300).
  - vm_compute. reflexivity.
  - split_and!; by vm_compute.
  - by vm_compute.
  - by vm_compute.
Defined.

Lemma duplicate_iff_live_witness : (check_and_insert 1 AntiReplayStore_new 0 mid0).1 ≠ false.
Proof.
  intros E. apply (duplicate_iff_live 1 AntiReplayStore_new 0 mid0) in E as (t & E & _).
  - vm_compute in E. discriminate E.
  - apply (store_inv_new 1 ANTI_REPLAY_CAPACITY 300).
Defined.

(** ** Channel *)

Lemma send_outcomes_witness :
  ∃ envs r', send pl0 mid0 (ch0, r7) = (Ok envs, (sent ch0 0, r')) ∧ carries (current_key ch0) 4 0 mid0 pl0 envs.
Proof.
  apply (proj2 (proj2 (proj2 (proj2 (send_outcomes ch0 r7 pl0 mid0 eq_refl)))) 0); by vm_compute.
Defined.

Lemma step1_work_bound_witness :
  derivations (receive_step1_counted ch0 1000 mid0) = 1001
  ∧ (∃ l, receive_step1 ch0 1000 mid0 = Ok l ∧ map_len (local_skipped l) = 1000)
  ∧ derivations (receive_step1_counted ch0 1001 mid0) = 0.
Proof.
  destruct (step1_work_bound ch0 1000 mid0) as (_ & C & _ & L & _).
  split; [exact C|]. split.
  - destruct L as (l & E & _ & _ & M & _); [discriminate|discriminate|]. exists l. exact (conj E M).
  - exact (proj1 (proj2 (step1_work_bound ch0 1001 mid0))).
Defined.

Definition w0 : world := {| w_chan := ch0; w_rng := r7; w_now := 0 |}.
Definition w1 : world := {| w_chan := ch1; w_rng := r7; w_now := 5 |}.
Definition w2 : world := {| w_chan := ch1; w_rng := r7; w_now := 6 |}.
Definition events0 : list event :=
  [Received envs0 0 mid0 (Ok pl0); Received envs0 0 mid0 (Err ReplayedSequence)].

(** One message arrives twice. *)
Lemma steps0 : steps w0 events0 w2.
Proof.
  apply (steps_cons w0 _ w1).
  - refine (step_receive ch0 r7 0 5 envs0 0 mid0 (Ok pl0) ch1 _ envs0_wf envs0_received). discriminate.
  - apply (steps_cons w1 _ w2); [|apply steps_nil].
    refine (step_receive ch1 r7 5 6 envs0 0 mid0 (Err ReplayedSequence) ch1 _ envs0_wf envs0_replayed).
    discriminate.
Qed.

Lemma reachable0 : reachable w2.
Proof. exists root0, 4, r7, 0, events0. split; [reflexivity|apply steps0]. Qed.

Lemma at_most_once_witness : delivered events0 = [0] ∧ NoDup (delivered events0).
Proof. split; [reflexivity|]. apply (at_most_once root0 4 r7 0 events0 w2 eq_refl steps0). Defined.

Definition junk0 : list bytes := [zeros 1024; zeros 1024; zeros 1024; zeros 1024].

Lemma junk0_rejected : receive 9 junk0 1 mid0 ch1 = (Err AuthenticationFailed, ch1).
Proof. vm_compute. reflexivity. Qed.

Lemma receive_zero_mutation_witness :
  Err (A := bytes) AuthenticationFailed ≠ Panic
  ∧ ∀ e, Err (A := bytes) AuthenticationFailed = Err e → ch1 = w_chan w2.
Proof.
  refine (receive_zero_mutation w2 9 junk0 1 mid0 (Err AuthenticationFailed) ch1 reachable0 _ _ junk0_rejected).
  - discriminate.
  - repeat constructor.
Defined.

Lemma bounded_memory_witness :
  map_len (skipped_keys (w_chan w2)) <= 1000 ∧ store_len (anti_replay (w_chan w2)) <= 10000.
Proof. destruct (bounded_memory w2 reachable0) as (A & B & _). exact (conj A B). Defined.

(** ** Receiver and session *)

Definition receives0 : list Receiver.call :=
  [{| c_now := 5; c_envelopes := envs0; c_seq := 0; c_mid := mid0 |};
   {| c_now := 6; c_envelopes := envs0; c_seq := 0; c_mid := mid0 |}].

Lemma receives0_run : receive_all receives0 ch0 = ([Ok pl0; Err ReplayedSequence], ch1).
Proof.
  unfold receives0, receive_all. cbn [c_now c_envelopes c_seq c_mid].
  rewrite envs0_received, envs0_replayed. reflexivity.
Qed.

Lemma receive_refines_witness :
  ∃ st, spec_run (RatchetKey_new key0) 4 {| rc_first := 0; rc_pending := ∅ |} receives0
          [Ok pl0; Err ReplayedSequence] st
    ∧ represents (RatchetKey_new key0) ch1 st.
Proof.
  pose proof (receive_refines root0 4 0 receives0 eq_refl) as W. fold ch0 in W. rewrite receives0_run in W.
  apply W. split; [by vm_compute|]. split; [apply envs0_wf|].
  split; [by vm_compute|]. split; [apply envs0_wf|exact I].
Defined.


Definition entry0 : logged := {| lg_mid := mid0; lg_payload := pl0; lg_envelopes := envs0 |}.
Definition session0 : session :=
  {| s_sender := sent0.2.1; s_rng := sent0.2.2; s_receiver := ch0; s_now := 0;
     s_log := [entry0]; s_got := ∅ |}.

Lemma session0_reach : net_reach root0 4 session0.
Proof.
  eapply net_next; [apply (net_start root0 4 r7 0)|].
  apply (net_send (session_new root0 4 r7 0) pl0 mid0 (Ok envs0) sent0.2.1 sent0.2.2); [by vm_compute|].
  cbn [s_sender s_rng session_new]. fold ch0. rewrite envs0_sent. by destruct sent0 as [? [? ?]].
Qed.

Lemma reliable_delivery_witness :
  ∃ ch', receive 5 (lg_envelopes entry0) 0 (lg_mid entry0) (s_receiver session0)
         = (Ok (lg_payload entry0), ch').
Proof.
  refine (proj1 (reliable_delivery root0 4 session0 0 5 eq_refl _ _ session0_reach _) entry0 eq_refl _ _).
  - discriminate.
  - discriminate.
  - discriminate.
  - apply not_elem_of_empty.
  - by vm_compute.
Defined.

Lemma duplex_desync_witness :
  (∃ ea a ra' eb b rb',
     send pl0 mid0 (SecureChannel_new root0 4, r7) = (Ok ea, (a, ra'))
     ∧ send pl0 mid0 (SecureChannel_new root0 4, r100) = (Ok eb, (b, rb'))
     ∧ (receive 5 ea 0 mid0 b).1 = authenticate (chain root0 1) 4 ea 0 mid0)
  ∧ authenticate (chain root0 1) 4 envs0 0 mid0 = Err AuthenticationFailed.
Proof.
  split; [|vm_compute; reflexivity].
  destruct (duplex_desync root0 4 r7 r100 pl0 mid0 pl0 mid0 5)
    as (ea & a & ra' & eb & b & rb' & Ea & Eb & _ & _ & _ & D);
    [reflexivity|discriminate|discriminate|discriminate|discriminate|discriminate|discriminate|].
  exists ea, a, ra', eb, b, rb'. exact (conj Ea (conj Eb D)).
Defined.

(** ** History *)

Lemma last_seq_is_highest_witness :
  SecureChannel_last_seq (w_chan w2) = highest (delivered events0)
  ∧ highest (delivered events0) = Some 0.
Proof.
  split; [|reflexivity].
  destruct (last_seq_is_highest root0 4 r7 0 events0 w2 eq_refl steps0) as [E _]. exact E.
Defined.

Lemma channel_types_witness : chan_typed (w_chan w2) ∧ Forall (result_typed 4) events0.
Proof.
  destruct (channel_types root0 4 r7 0 events0 w2 eq_refl) as (T & _ & F).
  - repeat constructor.
  - exact steps0.
  - exact (conj T F).
Defined.

(** Message 1 arrives and message 0 does not: the stored key of 0 gives that of
    the consumed message 1. *)
Definition sent1 := send pl0 mid0 sent0.2.
Definition envs1 : list bytes := match sent1.1 with Ok e => e | _ => [] end.
Definition receives1 : list Receiver.call :=
  [{| c_now := 5; c_envelopes := envs1; c_seq := 1; c_mid := mid0 |}].
Abbreviation ch2 := ((receive_all receives1 (SecureChannel_new root0 4)).2).

Lemma envs1_wf : envelopes_wf envs1.
Proof. apply (bool_decide_unpack _). vm_compute. exact I. Qed.

Lemma ch2_first : first_new ch2 = 2.
Proof. vm_compute. reflexivity. Qed.

Definition chain0 : list RatchetKey := (λ i, chain root0 (N.of_nat i)) <$> List.seq 0 6.

Lemma chain0_NoDup : NoDup chain0.
Proof. apply (bool_decide_unpack _). vm_compute. exact I. Qed.

Lemma lookup_chain0 i : i <= 5 → chain0 !! N.to_nat i = Some (chain root0 i).
Proof.
  intros Hi. unfold chain0. rewrite list_lookup_fmap, lookup_seq_lt by lia.
  cbn [fmap option_fmap option_map]. by rewrite Nat.add_0_l, N2Nat.id.
Qed.

Lemma chain_distinct0 : chain_distinct root0 5.
Proof.
  intros i j Hi%lookup_chain0 Hj%lookup_chain0 E. rewrite E in Hi.
  pose proof (proj1 (NoDup_alt _) chain0_NoDup _ _ _ Hi Hj). lia.
Qed.

Lemma compromised_receiver_keys_witness :
  consumed ch2 1 ∧ ¬ holds_key ch2 (chain root0 1) ∧ computable ch2 3 (chain root0 1).
Proof.
  assert (C : consumed ch2 1).
  { split; [rewrite ch2_first; reflexivity|vm_compute; reflexivity]. }
  assert (P : is_Some (skipped_keys ch2 !! 0)) by (vm_compute; by eexists).
  pose proof (compromised_receiver_keys root0 4 0 receives1 3 1 eq_refl) as W.
  cbv zeta in W. rewrite ch2_first in W.
  destruct W as (_ & N1 & _ & _ & N2).
  - unfold receives1. cbn [calls_ok c_now c_envelopes].
    split; [by vm_compute|]. split; [exact envs1_wf|exact I].
  - exact chain_distinct0.
  - discriminate.
  - split; [exact C|]. split; [exact (N1 C)|exact (N2 0 P eq_refl C)].
Defined.

(** Two keys more than fit. *)
Definition crowd : gmap N RatchetKey := ladder 0 1002 (RatchetKey_new key0).

Lemma eviction_terminates_witness : map_len (evict_oldest_skipped_keys crowd) <= 1000.
Proof. apply (proj2 (proj2 eviction_terminates)). Defined.

Lemma amortised_constant_witness :
  run_rounds calls0 (with_capacity_and_window 2 300) <= 3
  ∧ call_rounds 1 AntiReplayStore_new 0 mid0 <= 1.
Proof.
  destruct (amortised_constant 2 300 calls0) as (_ & L & _ & C). split; [exact L|].
  exact (C 1 AntiReplayStore_new 0 mid0 (store_inv_new 1 ANTI_REPLAY_CAPACITY 300)).
Defined.
