(* ===== verification/FfiWitnesses.v ===== *)
(** * Witnesses for the C interface: a small process image over the reference
    primitives. *)

From S2P Require Import Prelude Outcome Primitives Errors Types Crypto Handshake PathEngine Envelope Decoy AntiReplay BTree Channel ChannelFacts ChannelInv RefPrimitives Ffi FfiLogic FfiSafety FfiFunctional FfiSession Witnesses.

(** Keys at 100, 200 and 300, payload and message id at 400 and 500, output
    buffers at 1000 (144 bytes), 2000 (144 bytes) and 10000 (four envelopes). *)
Definition mem0 : gmap N Byte.byte :=
  mem_write 100 key0 (mem_write 200 (VerifyingKey_as_bytes vk0) (mem_write 300 key1
    (mem_write 400 pl0 (mem_write 500 mid0 (mem_write 1000 (zeros 144) (mem_write 2000 (zeros 144)
       (mem_write 10000 (zeros 4096) ∅))))))).

Definition sizes0 : gmap N N := <[700 := 144]> (<[701 := 144]> (<[702 := 4096]> (<[703 := 4]> ∅))).
Definition handles0 : gmap N N := <[800 := 0]> (<[801 := 0]> (<[802 := 0]> ∅)).

Definition image (m : gmap N Byte.byte) (inits : gmap N InitiatorState) (chs : gmap N SecureChannel) : ffi_state :=
  {| mem := m; sizes := sizes0; handles := handles0; initiators := inits; channels := chs;
     next_box := 7; os := r7 |}.

Lemma mapped_1000 : mapped 1000 144 mem0.
Proof. do 5 apply mapped_write. apply (mapped_written 1000 (zeros 144)). Qed.
Lemma mapped_2000 : mapped 2000 144 mem0.
Proof. do 6 apply mapped_write. apply (mapped_written 2000 (zeros 144)). Qed.
Lemma mapped_10000 : mapped 10000 4096 mem0.
Proof. do 7 apply mapped_write. apply (mapped_written 10000 (zeros 4096)). Qed.

Lemma reach0 : ffi_reach 0 0 (image mem0 ∅ ∅).
Proof. apply reach_start; [reflexivity|reflexivity|discriminate]. Qed.

Lemma generate_ok0 : call_ok (image mem0 ∅ ∅) (GenerateIdentityKeypair 1000 2000).
Proof.
  split; [|split; [|reflexivity]]; intros _; eapply mapped_weaken;
    [apply mapped_1000|discriminate|apply mapped_2000|discriminate].
Qed.

Lemma ffi_safe_witness :
  ∃ code s', exec 5 (GenerateIdentityKeypair 1000 2000) (image mem0 ∅ ∅) = (Returned code, s')
    ∧ code ∈ [0; -1]%Z ∧ code ≠ DECOYPATH_ERR_PANIC ∧ same_objects (image mem0 ∅ ∅) s'.
Proof.
  apply (ffi_safe 0 0 5 (image mem0 ∅ ∅) (GenerateIdentityKeypair 1000 2000) reach0);
    [reflexivity|discriminate|exact generate_ok0].
Defined.

(** The payload buffer at 400 is not an argument of the call. *)
Lemma ffi_isolation_witness : ∃ a s',
  exec 5 (GenerateIdentityKeypair 1000 2000) (image mem0 ∅ ∅) = (a, s')
  ∧ mem s' !! 400 = mem (image mem0 ∅ ∅) !! 400.
Proof.
  destruct (exec 5 (GenerateIdentityKeypair 1000 2000) (image mem0 ∅ ∅)) as [a s'] eqn:E.
  exists a, s'. split; [reflexivity|].
  destruct (ffi_isolation 0 0 5 (image mem0 ∅ ∅) (GenerateIdentityKeypair 1000 2000) a s'
    reach0 eq_refl ltac:(discriminate) generate_ok0 E) as [Hm _ _ _ _].
  refine (Hm 400 _). repeat constructor; left; reflexivity.
Defined.

Lemma mapped_100 : mapped 100 32 mem0.
Proof. apply (mapped_written 100 key0). Qed.
Lemma mapped_200 : mapped 200 32 mem0.
Proof. apply mapped_write. apply (mapped_written 200 (VerifyingKey_as_bytes vk0)). Qed.

(** A capacity of four bytes is too small for an initiation payload. *)
Lemma ffi_failed_calls_witness :
  ∃ s', exec 5 (InitiatorInitiate 100 200 800 1000 703) (image mem0 ∅ ∅)
        = (Returned DECOYPATH_ERR_BUFFER_TOO_SMALL, s')
    ∧ error_effect (InitiatorInitiate 100 200 800 1000 703) (image mem0 ∅ ∅)
        DECOYPATH_ERR_BUFFER_TOO_SMALL s'.
Proof.
  assert (E : exec 5 (InitiatorInitiate 100 200 800 1000 703) (image mem0 ∅ ∅)
    = (Returned DECOYPATH_ERR_BUFFER_TOO_SMALL, set_sizes (<[703 := 144]> sizes0) (image mem0 ∅ ∅)))
    by reflexivity.
  eexists. split; [exact E|].
  refine (ffi_failed_calls 0 0 5 (image mem0 ∅ ∅) (InitiatorInitiate 100 200 800 1000 703) _ _
    reach0 eq_refl ltac:(discriminate) _ E).
  split; [intros _; exact mapped_100|]. split; [intros _; exact mapped_200|].
  split; [intros _; by eexists|]. intros _ _. exists 4. split; [reflexivity|].
  eapply mapped_weaken; [apply mapped_1000|discriminate].
Defined.

Definition image1 : ffi_state := image mem0 {[5 := st0]} ∅.

(** A call with a null [out_channel] leaves the state to the caller. *)
Lemma finalize_ownership_witness :
  decoypath_initiator_finalize 5 1000 144 0 4 image1 = (Returned DECOYPATH_ERR_NULL_POINTER, image1)
  ∧ decoypath_initiator_state_free 5 image1
    = (Returned tt, set_initiators (delete 5 (initiators image1)) image1).
Proof.
  apply (finalize_ownership image1 5 1000 144 0 4 st0).
  - split; [discriminate|apply lookup_singleton_eq].
  - right. reflexivity.
Defined.

Lemma ffi_handshake_witness :
  ∃ s1 s2 s3 h a b root,
    decoypath_initiator_initiate 100 200 800 1000 700 (image mem0 ∅ ∅) = (Returned DECOYPATH_OK, s1)
    ∧ handles s1 !! 800 = Some h
    ∧ decoypath_responder_respond 300 0 1000 INIT_PAYLOAD_LEN 2000 701 802 4 s1 = (Returned DECOYPATH_OK, s2)
    ∧ decoypath_initiator_finalize h 2000 RESP_PAYLOAD_LEN 801 4 s2 = (Returned DECOYPATH_OK, s3)
    ∧ handles s3 !! 801 = Some a ∧ handles s3 !! 802 = Some b ∧ a ≠ b
    ∧ channels s3 !! a = Some (SecureChannel_new root 4)
    ∧ channels s3 !! b = Some (SecureChannel_new root 4)
    ∧ initiators s3 !! h = None ∧ len (RootKey_0 root) = 32.
Proof.
  apply (ffi_handshake (image mem0 ∅ ∅) 100 200 300 800 1000 700 2000 701 801 802 4 key0 key1). split.
  - repeat constructor; discriminate.
  - split; discriminate.
  - vm_compute. reflexivity.
  - vm_compute. reflexivity.
  - vm_compute. reflexivity.
  - exists 144. split; [reflexivity|discriminate].
  - exists 144. split; [reflexivity|discriminate].
  - discriminate.
  - apply mapped_1000.
  - apply mapped_2000.
  - right. discriminate.
  - split; [|split]; by eexists.
  - discriminate.
Defined.

(** ** Messages *)

Definition channels0 : gmap N SecureChannel := <[5 := ch0]> (<[6 := ch0]> ∅).

Lemma send_call0 cap out lv :
  out ≠ 0 → lv ≠ 0 → sizes0 !! lv = Some cap → mapped out cap mem0 →
  send_call (image mem0 ∅ channels0) 5 400 14 500 4 out lv ch0 pl0 mid0 cap.
Proof.
  intros No Nl Hs Hm. split; done.
Qed.

(** A buffer of four bytes is too small, and the channel has moved on. *)
Lemma ffi_send_outcomes_witness :
  ∃ s', decoypath_channel_send 5 400 14 500 4 1000 703 (image mem0 ∅ channels0)
        = (Returned DECOYPATH_ERR_BUFFER_TOO_SMALL, s')
    ∧ mem s' = mem (image mem0 ∅ channels0) ∧ ∃ ch', channels s' !! 5 = Some ch' ∧ next_send ch' = Some 1.
Proof.
  destruct (proj2 (ffi_send_outcomes (image mem0 ∅ channels0) 5 400 14 500 4 1000 703 ch0 pl0 mid0 4 0
    (send_call0 4 1000 703 ltac:(discriminate) ltac:(discriminate) eq_refl
       (mapped_weaken _ _ 4 _ mapped_1000 ltac:(discriminate)))
    eq_refl ltac:(discriminate) ltac:(discriminate) eq_refl)) as (r' & s' & E & _ & Em & Hc); [reflexivity|].
  destruct (Hc ltac:(reflexivity)) as (ch' & H1 & H2 & _).
  exists s'. split; [exact E|]. split; [exact Em|]. exists ch'. exact (conj H1 H2).
Defined.

Definition mem1 : gmap N Byte.byte := mem_write 10000 (concat envs0) mem0.

Lemma receive_call0 :
  receive_call (image mem1 ∅ channels0) 6 10000 4096 500 4 1000 703 ch0 envs0 mid0 4.
Proof.
  split.
  - repeat split; discriminate.
  - reflexivity.
  - change 4096 with (len (zeros 4096)). replace (len (zeros 4096)) with (len (concat envs0))
      by (vm_compute; reflexivity).
    apply (mem_read_write 10000 (concat envs0) mem0).
  - apply envs0_wf.
  - by vm_compute.
  - cbn [mem image]. unfold mem1.
    rewrite (mem_read_write_disjoint 4 500 10000 (concat envs0) mem0) by (left; discriminate).
    vm_compute. reflexivity.
  - discriminate.
  - reflexivity.
  - apply mapped_write. eapply mapped_weaken; [apply mapped_1000|discriminate].
Qed.

(** A message of fourteen bytes does not fit into four, and is consumed. *)
Lemma ffi_receive_outcomes_witness :
  ∃ s', decoypath_channel_receive 5 6 10000 4096 0 500 4 1000 703 (image mem1 ∅ channels0)
        = (Returned DECOYPATH_ERR_BUFFER_TOO_SMALL, s')
    ∧ ∃ er, receive 6 envs0 0 mid0 ch1 = (Err er, ch1).
Proof.
  destruct (proj2 (ffi_receive_outcomes 0 5 (image mem1 ∅ channels0) 6 10000 4096 0 500 4 1000 703 ch0 envs0 mid0 4
    receive_call0 (chan_inv_new 0 root0 4 eq_refl) ltac:(discriminate)) pl0 ch1 envs0_received)
    as (code & s' & E & _ & _ & _ & Hsmall).
  destruct Hsmall as (-> & _ & Hlate); [reflexivity|].
  exists s'. split; [exact E|]. apply (Hlate 6 envs0 mid0); [discriminate|apply envs0_wf].
Defined.

Lemma ffi_transport_witness :
  ∃ s1 s2,
    decoypath_channel_send 5 400 14 500 4 10000 702 (image mem0 ∅ channels0) = (Returned DECOYPATH_OK, s1)
    ∧ decoypath_channel_receive 5 6 10000 (n_paths ch0 * ENVELOPE_TOTAL_LEN) 0 500 4 1000 700 s1
      = (Returned DECOYPATH_OK, s2)
    ∧ mem_read 14 1000 (mem s2) = Some pl0 ∧ sizes s2 !! 700 = Some 14.
Proof.
  apply (ffi_transport 0 5 (image mem0 ∅ channels0) 5 6 400 14 500 4 10000 702 1000 700 ch0 pl0 mid0 4096 144 0);
    try discriminate; try reflexivity.
  - apply send_call0; [discriminate|discriminate|reflexivity|apply mapped_10000].
  - split; [|repeat split; discriminate|reflexivity|apply mapped_1000].
    exists ch0, (forward_locals 0 0 (current_key ch0)).
    split; [reflexivity|]. split; [apply (chan_inv_new 0 root0 4 eq_refl)|]. repeat split; reflexivity.
  - left. discriminate.
Defined.
